(** * GraphQL parser: a shallow embedding of [src/language/parser.js]
      and [src/utilities/valueFromASTUntyped.js]

    The parser is a recursive-descent engine over the token stream of the
    lexer.  The JavaScript code mutates one [lexer] object and unwinds with
    exceptions; here the lexer is an explicit state threaded through a state
    and exception monad, and every production of the source is a definition
    of the same name. *)

From stdpp Require Import gmap strings list.
From Stdlib Require Import ZArith Lia Ascii.

#[local] Set Warnings "-register-all".
#[local] Open Scope Z_scope.
#[local] Open Scope string_scope.
#[local] Open Scope list_scope.

(** ** Tokens, sources and locations *)

(** Modelled from the spec: the closed set of token kinds (the [TokenKind]
    table of the lexer, which is not among the sources; the parser names each
    of these kinds). *)
Module TokenKind.
Inductive t :=
| SOF | EOF | BANG | DOLLAR | PAREN_L | PAREN_R | SPREAD | COLON | EQUALS
| AT | BRACKET_L | BRACKET_R | BRACE_L | PIPE | BRACE_R
| NAME | INT | FLOAT | STRING | BLOCK_STRING | COMMENT.

#[global] Instance eq_dec : EqDecision t.
Proof. solve_decision. Defined.

(** Modelled from the spec: the strings behind the kinds are declared in the
    lexer, which is not among the sources; they only appear inside error
    messages ("Expected <kind>, found <desc>"). *)
Definition show (k : t) : string :=
  match k with
  | SOF => "<SOF>" | EOF => "<EOF>" | BANG => "!" | DOLLAR => "$"
  | PAREN_L => "(" | PAREN_R => ")" | SPREAD => "..." | COLON => ":"
  | EQUALS => "=" | AT => "@" | BRACKET_L => "[" | BRACKET_R => "]"
  | BRACE_L => "{" | PIPE => "|" | BRACE_R => "}"
  | NAME => "Name" | INT => "Int" | FLOAT => "Float" | STRING => "String"
  | BLOCK_STRING => "BlockString" | COMMENT => "Comment"
  end.
End TokenKind.

(** Modelled from the spec: a token [{kind, start, end, line, column,
    value?}]; the type is declared with the AST, outside the sources.  The
    [prev]/[next] links of the JavaScript objects are the token stream
    itself, which the lexer state below holds as a list. *)
Module Token.
Record t := mk {
  kind : TokenKind.t;
  start : Z;
  end_ : Z;
  line : Z;
  column : Z;
  value : option string;
}.
#[global] Instance eq_dec : EqDecision t.
Proof. solve_decision. Defined.
End Token.
Abbreviation Token := Token.t.

(** Modelled from the spec: a [Source] is [{body, name, locationOffset}];
    the class is declared outside the sources. *)
Module Source.
Record t := mk {
  body : string;
  name : string;
  locationOffset : Z * Z;
}.
#[global] Instance eq_dec : EqDecision t.
Proof. solve_decision. Defined.

(** [new Source(body)]: the name and the offset take their defaults. *)
Definition new (body : string) : t := mk body "GraphQL" (1, 1).
End Source.
Abbreviation Source := Source.t.

(** What an entry point can receive in JavaScript: a string, an instance of
    [Source], or any other value.  Of a value of the third sort the code
    only ever uses [String(v)] (in the message of [parse]) and, inside the
    lexer, its [body] property. *)
Record Foreign := mkForeign {
  foreignString : string;
  foreignBody : option string;
}.

#[global] Instance Foreign_eq_dec : EqDecision Foreign.
Proof. solve_decision. Defined.

Inductive Input :=
| InString (s : string)
| InSource (src : Source)
| InForeign (v : Foreign).

(** The value held in [lexer.source]: [parse] guarantees an instance of
    [Source], the other two entry points do not. *)
Inductive SourceObj :=
| IsSource (src : Source)
| NotSource (v : Foreign).

#[global] Instance SourceObj_eq_dec : EqDecision SourceObj.
Proof. solve_decision. Defined.

(** [Loc(startToken, endToken, source)] *)
Module Location.
Record t := mk {
  start : Z;
  end_ : Z;
  startToken : Token;
  endToken : Token;
  source : SourceObj;
}.
#[global] Instance eq_dec : EqDecision t.
Proof. solve_decision. Defined.
End Location.
Abbreviation Location := Location.t.

Definition Loc (startToken endToken : Token) (source : SourceObj) : Location :=
  {| Location.start := Token.start startToken;
     Location.end_ := Token.end_ endToken;
     Location.startToken := startToken;
     Location.endToken := endToken;
     Location.source := source |}.

(** [Loc.prototype.toJSON]: the object [{ start: this.start, end: this.end }]. *)
Definition Loc_toJSON (this : Location) : gmap string Z :=
  <["end" := Location.end_ this]> (<["start" := Location.start this]> ∅).

(** ** Errors and parser options *)

Inductive Error :=
| SyntaxError (source : SourceObj) (position : Z) (description : string)
    (* syntaxError(source, position, description) *)
| TypeError (message : string)
    (* the [throw new TypeError] of [parse] *)
| HostError (message : string).
    (* an exception of the JavaScript runtime inside the lexer *)

(** Modelled from the spec: [syntaxError] of the error module builds a
    GraphQL error located at [position] in [source]; the model keeps its three
    arguments. *)
Definition syntaxError (source : SourceObj) (position : Z) (description : string)
  : Error := SyntaxError source position description.

Record ParseOptions := mkOptions { noLocation : option bool }.

(** JavaScript truthiness of an optional boolean property. *)
Definition truthy (b : option bool) : bool :=
  match b with Some true => true | _ => false end.

(** ** The lexer state *)

(** Modelled from the spec: the lexer object ([source], [options],
    [lastToken], [token]) is built outside the sources.  [pending] is the chain of tokens that follow [token] (what the [next]
    links reach, comments included), and [fault] is what [readToken] throws
    once that chain is exhausted before an [EOF] token was produced. *)
Module Lexer.
Record t := mk {
  source : SourceObj;
  options : ParseOptions;
  lastToken : Token;
  token : Token;
  pending : list Token;
  fault : Error;
}.
End Lexer.
Abbreviation Lexer := Lexer.t.

(** ** The parser monad: state and exceptions, with a fuel exhaustion mark *)

Inductive Res (A : Type) :=
| Ok (a : A) (lexer : Lexer)
| Throw (e : Error)
| OutOfFuel.
Arguments Ok {A} a lexer.
Arguments Throw {A} e.
Arguments OutOfFuel {A}.

Definition Parser (A : Type) := Lexer → Res A.

Definition ret {A} (a : A) : Parser A := λ lexer, Ok a lexer.
Definition throw {A} (e : Lexer → Error) : Parser A := λ lexer, Throw (e lexer).
Definition bind {A B} (m : Parser A) (k : A → Parser B) : Parser B :=
  λ lexer,
    match m lexer with
    | Ok a lexer' => k a lexer'
    | Throw e => Throw e
    | OutOfFuel => OutOfFuel
    end.
Definition outOfFuel {A} : Parser A := λ _, OutOfFuel.

(** [lexer.token], [lexer.lastToken] *)
Definition getToken : Parser Token := λ lexer, Ok (Lexer.token lexer) lexer.

Notation "'let*' x ':=' m 'in' k" := (bind m (λ x, k))
  (at level 10, x pattern, m at level 100, k at level 200).

(** ** The token stream interface consumed by the parser *)

(** Modelled from the spec: the lexer ([createLexer], [advance], [lookahead],
    [getTokenDesc]) is not among the sources.  [lookahead] returns the token
    one step past [token], skipping [COMMENT] tokens, and stays on [EOF];
    [advance] moves [token] into [lastToken] and the lookahead into [token]. *)
Fixpoint readNext (pending : list Token) : option (Token * list Token) :=
  match pending with
  | [] => None
  | t :: rest =>
      if decide (Token.kind t = TokenKind.COMMENT) then readNext rest
      else Some (t, rest)
  end.

Definition lookahead : Parser Token := λ lexer,
  if decide (Token.kind (Lexer.token lexer) = TokenKind.EOF)
  then Ok (Lexer.token lexer) lexer
  else match readNext (Lexer.pending lexer) with
       | Some (t, _) => Ok t lexer
       | None => Throw (Lexer.fault lexer)
       end.

Definition advance : Parser Token := λ lexer,
  let cur := Lexer.token lexer in
  if decide (Token.kind cur = TokenKind.EOF)
  then Ok cur {| Lexer.source := Lexer.source lexer;
                 Lexer.options := Lexer.options lexer;
                 Lexer.lastToken := cur;
                 Lexer.token := cur;
                 Lexer.pending := Lexer.pending lexer;
                 Lexer.fault := Lexer.fault lexer |}
  else match readNext (Lexer.pending lexer) with
       | Some (t, rest) =>
           Ok t {| Lexer.source := Lexer.source lexer;
                   Lexer.options := Lexer.options lexer;
                   Lexer.lastToken := cur;
                   Lexer.token := t;
                   Lexer.pending := rest;
                   Lexer.fault := Lexer.fault lexer |}
       | None => Throw (Lexer.fault lexer)
       end.

(** The double quote character and the one-character string holding it. *)
Definition dquote : ascii := "034"%char.
Definition quote : string := String dquote EmptyString.

(** Modelled from the spec: [getTokenDesc] of the lexer gives the kind,
    followed by the quoted value when there is one. *)
Definition getTokenDesc (token : Token) : string :=
  match Token.value token with
  | Some v => TokenKind.show (Token.kind token) +:+ " " +:+ quote +:+ v +:+ quote
  | None => TokenKind.show (Token.kind token)
  end.

(** ** The AST node model

    One constructor per node kind; the last argument of every constructor is
    the [loc] property, absent ([None]) under [noLocation]. *)

Inductive NameNode :=
| Name (value : string) (loc : option Location).

Inductive VariableNode :=
| Variable_ (name : NameNode) (loc : option Location).

Inductive StringValueNode :=
| StringValue (value : string) (block : bool) (loc : option Location).

(** [ForeignNode] stands for a node of any other kind that an untyped caller
    hands to a consumer of values; no production of the parser builds it. *)
Inductive ValueNode :=
| VariableValue (variable : VariableNode)
| IntValue (value : string) (loc : option Location)
| FloatValue (value : string) (loc : option Location)
| StringLiteral (str : StringValueNode)
| BooleanValue (value : bool) (loc : option Location)
| NullValue (loc : option Location)
| EnumValue (value : string) (loc : option Location)
| ListValue (values : list ValueNode) (loc : option Location)
| ObjectValue (fields : list ObjectFieldNode) (loc : option Location)
| ForeignNode (kind : string)
with ObjectFieldNode :=
| ObjectField (name : NameNode) (value : ValueNode) (loc : option Location).

Inductive NamedTypeNode :=
| NamedType (name : NameNode) (loc : option Location).

Inductive TypeNode :=
| NamedTypeRef (named : NamedTypeNode)
| ListType (type : TypeNode) (loc : option Location)
| NonNullType (type : TypeNode) (loc : option Location).

Inductive ArgumentNode :=
| Argument (name : NameNode) (value : ValueNode) (loc : option Location).

Inductive DirectiveNode :=
| Directive (name : NameNode) (arguments : list ArgumentNode)
    (loc : option Location).

Inductive VariableDefinitionNode :=
| VariableDefinition (variable : VariableNode) (type : TypeNode)
    (defaultValue : option ValueNode) (loc : option Location).

Inductive SelectionSetNode :=
| SelectionSet (selections : list SelectionNode) (loc : option Location)
with SelectionNode :=
| Field (alias : option NameNode) (name : NameNode)
    (arguments : list ArgumentNode) (directives : list DirectiveNode)
    (selectionSet : option SelectionSetNode) (loc : option Location)
| FragmentSpread (name : NameNode) (directives : list DirectiveNode)
    (loc : option Location)
| InlineFragment (typeCondition : option NamedTypeNode)
    (directives : list DirectiveNode) (selectionSet : SelectionSetNode)
    (loc : option Location).

Inductive OperationTypeDefinitionNode :=
| OperationTypeDefinition (operation : string) (type : NamedTypeNode)
    (loc : option Location).

Inductive InputValueDefinitionNode :=
| InputValueDefinition (description : option StringValueNode) (name : NameNode)
    (type : TypeNode) (defaultValue : option ValueNode)
    (directives : list DirectiveNode) (loc : option Location).

Inductive FieldDefinitionNode :=
| FieldDefinition (description : option StringValueNode) (name : NameNode)
    (arguments : list InputValueDefinitionNode) (type : TypeNode)
    (directives : list DirectiveNode) (loc : option Location).

Inductive EnumValueDefinitionNode :=
| EnumValueDefinition (description : option StringValueNode) (name : NameNode)
    (directives : list DirectiveNode) (loc : option Location).

Inductive DefinitionNode :=
| OperationDefinition (operation : string) (name : option NameNode)
    (variableDefinitions : list VariableDefinitionNode)
    (directives : list DirectiveNode) (selectionSet : SelectionSetNode)
    (loc : option Location)
| FragmentDefinition (name : NameNode) (typeCondition : NamedTypeNode)
    (directives : list DirectiveNode) (selectionSet : SelectionSetNode)
    (loc : option Location)
| SchemaDefinition (directives : list DirectiveNode)
    (operationTypes : list OperationTypeDefinitionNode) (loc : option Location)
| ScalarTypeDefinition (description : option StringValueNode) (name : NameNode)
    (directives : list DirectiveNode) (loc : option Location)
| ObjectTypeDefinition (description : option StringValueNode) (name : NameNode)
    (interfaces : list NamedTypeNode) (directives : list DirectiveNode)
    (fields : list FieldDefinitionNode) (loc : option Location)
| InterfaceTypeDefinition (description : option StringValueNode)
    (name : NameNode) (directives : list DirectiveNode)
    (fields : list FieldDefinitionNode) (loc : option Location)
| UnionTypeDefinition (description : option StringValueNode) (name : NameNode)
    (directives : list DirectiveNode) (types : list NamedTypeNode)
    (loc : option Location)
| EnumTypeDefinition (description : option StringValueNode) (name : NameNode)
    (directives : list DirectiveNode) (values : list EnumValueDefinitionNode)
    (loc : option Location)
| InputObjectTypeDefinition (description : option StringValueNode)
    (name : NameNode) (directives : list DirectiveNode)
    (fields : list InputValueDefinitionNode) (loc : option Location)
| ObjectTypeExtension (name : NameNode) (interfaces : list NamedTypeNode)
    (directives : list DirectiveNode) (fields : list FieldDefinitionNode)
    (loc : option Location)
| DirectiveDefinition (description : option StringValueNode) (name : NameNode)
    (arguments : list InputValueDefinitionNode) (locations : list NameNode)
    (loc : option Location).

Inductive DocumentNode :=
| Document (definitions : list DefinitionNode) (loc : option Location).

(** ** Core parsing utility functions *)

(** The cast [((token.value: any): string)] of the source. *)
Definition valueString (token : Token) : string :=
  default EmptyString (Token.value token).

(** [loc(lexer, startToken)]: a location object, unless [noLocation]. *)
Definition loc (startToken : Token) : Parser (option Location) := λ lexer,
  if negb (truthy (noLocation (Lexer.options lexer)))
  then Ok (Some (Loc startToken (Lexer.lastToken lexer) (Lexer.source lexer))) lexer
  else Ok None lexer.

(** [peek(lexer, kind)] *)
Definition peek (kind : TokenKind.t) : Parser bool := λ lexer,
  Ok (bool_decide (Token.kind (Lexer.token lexer) = kind)) lexer.

(** [skip(lexer, kind)] *)
Definition skip (kind : TokenKind.t) : Parser bool :=
  let* token := getToken in
  let match_ := bool_decide (Token.kind token = kind) in
  if match_ then (let* _ := advance in ret match_) else ret match_.

(** [expect(lexer, kind)] *)
Definition expect (kind : TokenKind.t) : Parser Token :=
  let* token := getToken in
  if bool_decide (Token.kind token = kind)
  then (let* _ := advance in ret token)
  else throw (λ lexer,
         syntaxError (Lexer.source lexer) (Token.start token)
           ("Expected " +:+ TokenKind.show kind +:+ ", found " +:+
            getTokenDesc token)).

(** [expectKeyword(lexer, value)] *)
Definition expectKeyword (value : string) : Parser Token :=
  let* token := getToken in
  if bool_decide (Token.kind token = TokenKind.NAME) &&
     bool_decide (Token.value token = Some value)
  then (let* _ := advance in ret token)
  else throw (λ lexer,
         syntaxError (Lexer.source lexer) (Token.start token)
           ("Expected " +:+ quote +:+ value +:+ quote +:+ ", found " +:+
            getTokenDesc token)).

(** [unexpected(lexer, atToken)]: builds the error, the caller throws it. *)
Definition unexpected (atToken : option Token) (lexer : Lexer) : Error :=
  let token := default (Lexer.token lexer) atToken in
  syntaxError (Lexer.source lexer) (Token.start token)
    ("Unexpected " +:+ getTokenDesc token).

(** The loops of the source all have the shape
    [while (cond(lexer)) nodes.push(parseFn(lexer))]; the condition is
    [!skip(closeKind)] in [any], [many], [parseObject] and [parseDocument],
    [peek(kind)] in [parseDirectives] and [parseImplementsInterfaces], and
    [skip(PIPE)] in the two pipe-separated lists. *)
Fixpoint pushWhile {T} (fuel : nat) (cond : Parser bool) (parseFn : Parser T)
    (nodes : list T) : Parser (list T) :=
  match fuel with
  | O => outOfFuel
  | S fuel' =>
      let* continue := cond in
      if continue
      then let* node := parseFn in
           pushWhile fuel' cond parseFn (nodes ++ [node])
      else ret nodes
  end.

Definition notSkip (closeKind : TokenKind.t) : Parser bool :=
  let* closed := skip closeKind in ret (negb closed).

(** [any(lexer, openKind, parseFn, closeKind)] *)
Definition any {T} (fuel : nat) (openKind : TokenKind.t) (parseFn : Parser T)
    (closeKind : TokenKind.t) : Parser (list T) :=
  let* _ := expect openKind in
  pushWhile fuel (notSkip closeKind) parseFn [].

(** [many(lexer, openKind, parseFn, closeKind)] *)
Definition many {T} (fuel : nat) (openKind : TokenKind.t) (parseFn : Parser T)
    (closeKind : TokenKind.t) : Parser (list T) :=
  let* _ := expect openKind in
  let* first := parseFn in
  pushWhile fuel (notSkip closeKind) parseFn [first].

(** ** The grammar productions

    Every production that loops or recurses takes the fuel as its first
    argument.  A production inside a recursion cycle of the grammar
    ([parseList], [parseField], ...) receives the entry of its cycle
    ([parseValueLiteral], [parseSelectionSet]) as an argument, and the entry
    is the fixpoint that closes the cycle. *)

(** [parseName]: converts a name lex token into a name parse node. *)
Definition parseName : Parser NameNode :=
  let* token := expect TokenKind.NAME in
  let* l := loc token in
  ret (Name (valueString token) l).

(** [Variable : $ Name] *)
Definition parseVariable : Parser VariableNode :=
  let* start := getToken in
  let* _ := expect TokenKind.DOLLAR in
  let* name := parseName in
  let* l := loc start in
  ret (Variable_ name l).

(** [NamedType : Name] *)
Definition parseNamedType : Parser NamedTypeNode :=
  let* start := getToken in
  let* name := parseName in
  let* l := loc start in
  ret (NamedType name l).

(** [parseTypeReference]: [Type : NamedType | ListType | NonNullType] *)
Fixpoint parseTypeReference (fuel : nat) : Parser TypeNode :=
  match fuel with
  | O => outOfFuel
  | S fuel' =>
      let* start := getToken in
      let* bracket := skip TokenKind.BRACKET_L in
      let* type :=
        (if bracket
         then let* type := parseTypeReference fuel' in
              let* _ := expect TokenKind.BRACKET_R in
              let* l := loc start in
              ret (ListType type l)
         else let* named := parseNamedType in
              ret (NamedTypeRef named)) in
      let* bang := skip TokenKind.BANG in
      if bang
      then let* l := loc start in
           ret (NonNullType type l)
      else ret type
  end.

Definition parseStringLiteral : Parser StringValueNode :=
  let* token := getToken in
  let* _ := advance in
  let* l := loc token in
  ret (StringValue (valueString token)
         (bool_decide (Token.kind token = TokenKind.BLOCK_STRING)) l).

Section ValueCycle.
Variable parseValueLiteral : bool → Parser ValueNode.

Definition parseConstValue : Parser ValueNode := parseValueLiteral true.

Definition parseValueValue : Parser ValueNode := parseValueLiteral false.

(** [ListValue[Const] : [ ] | [ Value[?Const]+ ]] *)
Definition parseList (fuel : nat) (isConst : bool) : Parser ValueNode :=
  let* start := getToken in
  let item := if isConst then parseConstValue else parseValueValue in
  let* values := any fuel TokenKind.BRACKET_L item TokenKind.BRACKET_R in
  let* l := loc start in
  ret (ListValue values l).

(** [ObjectField[Const] : Name : Value[?Const]] *)
Definition parseObjectField (isConst : bool) : Parser ObjectFieldNode :=
  let* start := getToken in
  let* name := parseName in
  let* _ := expect TokenKind.COLON in
  let* value := parseValueLiteral isConst in
  let* l := loc start in
  ret (ObjectField name value l).

(** [ObjectValue[Const] : { } | { ObjectField[?Const]+ }] *)
Definition parseObject (fuel : nat) (isConst : bool) : Parser ValueNode :=
  let* start := getToken in
  let* _ := expect TokenKind.BRACE_L in
  let* fields :=
    pushWhile fuel (notSkip TokenKind.BRACE_R) (parseObjectField isConst) [] in
  let* l := loc start in
  ret (ObjectValue fields l).
End ValueCycle.

(** [parseValueLiteral]: the [Value[Const]] production, a switch on the kind
    of the current token. *)
Fixpoint parseValueLiteral (fuel : nat) (isConst : bool) : Parser ValueNode :=
  match fuel with
  | O => outOfFuel
  | S fuel' =>
      let* token := getToken in
      match Token.kind token with
      | TokenKind.BRACKET_L => parseList (parseValueLiteral fuel') fuel' isConst
      | TokenKind.BRACE_L => parseObject (parseValueLiteral fuel') fuel' isConst
      | TokenKind.INT =>
          let* _ := advance in
          let* l := loc token in
          ret (IntValue (valueString token) l)
      | TokenKind.FLOAT =>
          let* _ := advance in
          let* l := loc token in
          ret (FloatValue (valueString token) l)
      | TokenKind.STRING | TokenKind.BLOCK_STRING =>
          let* str := parseStringLiteral in
          ret (StringLiteral str)
      | TokenKind.NAME =>
          if bool_decide (Token.value token = Some "true") ||
             bool_decide (Token.value token = Some "false")
          then let* _ := advance in
               let* l := loc token in
               ret (BooleanValue (bool_decide (Token.value token = Some "true")) l)
          else if bool_decide (Token.value token = Some "null")
          then let* _ := advance in
               let* l := loc token in
               ret (NullValue l)
          else let* _ := advance in
               let* l := loc token in
               ret (EnumValue (valueString token) l)
      | TokenKind.DOLLAR =>
          if negb isConst
          then let* variable := parseVariable in
               ret (VariableValue variable)
          else throw (unexpected None)
      | _ => throw (unexpected None)
      end
  end.

(** [Argument[Const] : Name : Value[?Const]] *)
Definition parseArgument (fuel : nat) : Parser ArgumentNode :=
  let* start := getToken in
  let* name := parseName in
  let* _ := expect TokenKind.COLON in
  let* value := parseValueLiteral fuel false in
  let* l := loc start in
  ret (Argument name value l).

Definition parseConstArgument (fuel : nat) : Parser ArgumentNode :=
  let* start := getToken in
  let* name := parseName in
  let* _ := expect TokenKind.COLON in
  let* value := parseConstValue (parseValueLiteral fuel) in
  let* l := loc start in
  ret (Argument name value l).

(** [Arguments[Const] : ( Argument[?Const]+ )] *)
Definition parseArguments (fuel : nat) (isConst : bool)
  : Parser (list ArgumentNode) :=
  let item := if isConst then parseConstArgument fuel else parseArgument fuel in
  let* paren := peek TokenKind.PAREN_L in
  if paren
  then many fuel TokenKind.PAREN_L item TokenKind.PAREN_R
  else ret [].

(** [Directive[Const] : @ Name Arguments[?Const]?] *)
Definition parseDirective (fuel : nat) (isConst : bool) : Parser DirectiveNode :=
  let* start := getToken in
  let* _ := expect TokenKind.AT in
  let* name := parseName in
  let* arguments := parseArguments fuel isConst in
  let* l := loc start in
  ret (Directive name arguments l).

(** [Directives[Const] : Directive[?Const]+] *)
Definition parseDirectives (fuel : nat) (isConst : bool)
  : Parser (list DirectiveNode) :=
  pushWhile fuel (peek TokenKind.AT) (parseDirective fuel isConst) [].

(** [FragmentName : Name but not `on`] *)
Definition parseFragmentName : Parser NameNode :=
  let* token := getToken in
  if bool_decide (Token.value token = Some "on")
  then throw (unexpected None)
  else parseName.

Section SelectionCycle.
Variable parseSelectionSet : Parser SelectionSetNode.

(** [Field : Alias? Name Arguments? Directives? SelectionSet?] *)
Definition parseField (fuel : nat) : Parser SelectionNode :=
  let* start := getToken in
  let* nameOrAlias := parseName in
  let* colon := skip TokenKind.COLON in
  let* aliasAndName :=
    (if colon
     then let* name := parseName in ret (Some nameOrAlias, name)
     else ret (None, nameOrAlias)) in
  let alias := aliasAndName.1 in
  let name := aliasAndName.2 in
  let* arguments := parseArguments fuel false in
  let* directives := parseDirectives fuel false in
  let* brace := peek TokenKind.BRACE_L in
  let* selectionSet :=
    (if brace
     then let* set := parseSelectionSet in ret (Some set)
     else ret None) in
  let* l := loc start in
  ret (Field alias name arguments directives selectionSet l).

(** [parseFragment]: both [FragmentSpread] and [InlineFragment]. *)
Definition parseFragment (fuel : nat) : Parser SelectionNode :=
  let* start := getToken in
  let* _ := expect TokenKind.SPREAD in
  let* isName := peek TokenKind.NAME in
  let* token := getToken in
  if isName && negb (bool_decide (Token.value token = Some "on"))
  then let* name := parseFragmentName in
       let* directives := parseDirectives fuel false in
       let* l := loc start in
       ret (FragmentSpread name directives l)
  else let* typeCondition :=
         (if bool_decide (Token.value token = Some "on")
          then let* _ := advance in
               let* named := parseNamedType in
               ret (Some named)
          else ret None) in
       let* directives := parseDirectives fuel false in
       let* selectionSet := parseSelectionSet in
       let* l := loc start in
       ret (InlineFragment typeCondition directives selectionSet l).

(** [Selection : Field | FragmentSpread | InlineFragment] *)
Definition parseSelection (fuel : nat) : Parser SelectionNode :=
  let* spread := peek TokenKind.SPREAD in
  if spread then parseFragment fuel else parseField fuel.
End SelectionCycle.

(** [SelectionSet : { Selection+ }] *)
Fixpoint parseSelectionSet (fuel : nat) : Parser SelectionSetNode :=
  match fuel with
  | O => outOfFuel
  | S fuel' =>
      let* start := getToken in
      let* selections :=
        many fuel' TokenKind.BRACE_L
          (parseSelection (parseSelectionSet fuel') fuel') TokenKind.BRACE_R in
      let* l := loc start in
      ret (SelectionSet selections l)
  end.

(** [OperationType : one of query mutation subscription] *)
Definition parseOperationType : Parser string :=
  let* operationToken := expect TokenKind.NAME in
  if bool_decide (Token.value operationToken = Some "query") then ret "query"
  else if bool_decide (Token.value operationToken = Some "mutation")
  then ret "mutation"
  else if bool_decide (Token.value operationToken = Some "subscription")
  then ret "subscription"
  else throw (unexpected (Some operationToken)).

(** [VariableDefinition : Variable : Type DefaultValue?] *)
Definition parseVariableDefinition (fuel : nat) : Parser VariableDefinitionNode :=
  let* start := getToken in
  let* variable := parseVariable in
  let* _ := expect TokenKind.COLON in
  let* type := parseTypeReference fuel in
  let* equals := skip TokenKind.EQUALS in
  let* defaultValue :=
    (if equals
     then let* value := parseValueLiteral fuel true in ret (Some value)
     else ret None) in
  let* l := loc start in
  ret (VariableDefinition variable type defaultValue l).

(** [VariableDefinitions : ( VariableDefinition+ )] *)
Definition parseVariableDefinitions (fuel : nat)
  : Parser (list VariableDefinitionNode) :=
  let* paren := peek TokenKind.PAREN_L in
  if paren
  then many fuel TokenKind.PAREN_L (parseVariableDefinition fuel)
         TokenKind.PAREN_R
  else ret [].

(** [parseOperationDefinition]: the shorthand [SelectionSet], or
    [OperationType Name? VariableDefinitions? Directives? SelectionSet]. *)
Definition parseOperationDefinition (fuel : nat) : Parser DefinitionNode :=
  let* start := getToken in
  let* brace := peek TokenKind.BRACE_L in
  if brace
  then let* selectionSet := parseSelectionSet fuel in
       let* l := loc start in
       ret (OperationDefinition "query" None [] [] selectionSet l)
  else let* operation := parseOperationType in
       let* named := peek TokenKind.NAME in
       let* name :=
         (if named then let* n := parseName in ret (Some n) else ret None) in
       let* variableDefinitions := parseVariableDefinitions fuel in
       let* directives := parseDirectives fuel false in
       let* selectionSet := parseSelectionSet fuel in
       let* l := loc start in
       ret (OperationDefinition operation name variableDefinitions directives
              selectionSet l).

(** [FragmentDefinition :
      fragment FragmentName on TypeCondition Directives? SelectionSet] *)
Definition parseFragmentDefinition (fuel : nat) : Parser DefinitionNode :=
  let* start := getToken in
  let* _ := expectKeyword "fragment" in
  let* name := parseFragmentName in
  let* _ := expectKeyword "on" in
  let* typeCondition := parseNamedType in
  let* directives := parseDirectives fuel false in
  let* selectionSet := parseSelectionSet fuel in
  let* l := loc start in
  ret (FragmentDefinition name typeCondition directives selectionSet l).

(** *** Type system definitions *)

Definition peekDescription : Parser bool :=
  let* str := peek TokenKind.STRING in
  if str then ret true else peek TokenKind.BLOCK_STRING.

(** [Description : StringValue]; [None] is the [undefined] of the source. *)
Definition parseDescription : Parser (option StringValueNode) :=
  let* described := peekDescription in
  if described
  then let* str := parseStringLiteral in ret (Some str)
  else ret None.

(** [OperationTypeDefinition : OperationType : NamedType] *)
Definition parseOperationTypeDefinition : Parser OperationTypeDefinitionNode :=
  let* start := getToken in
  let* operation := parseOperationType in
  let* _ := expect TokenKind.COLON in
  let* type := parseNamedType in
  let* l := loc start in
  ret (OperationTypeDefinition operation type l).

(** [SchemaDefinition : schema Directives[Const]? { OperationTypeDefinition+ }] *)
Definition parseSchemaDefinition (fuel : nat) : Parser DefinitionNode :=
  let* start := getToken in
  let* _ := expectKeyword "schema" in
  let* directives := parseDirectives fuel true in
  let* operationTypes :=
    many fuel TokenKind.BRACE_L parseOperationTypeDefinition TokenKind.BRACE_R in
  let* l := loc start in
  ret (SchemaDefinition directives operationTypes l).

(** [ScalarTypeDefinition : Description? scalar Name Directives[Const]?] *)
Definition parseScalarTypeDefinition (fuel : nat) : Parser DefinitionNode :=
  let* start := getToken in
  let* description := parseDescription in
  let* _ := expectKeyword "scalar" in
  let* name := parseName in
  let* directives := parseDirectives fuel true in
  let* l := loc start in
  ret (ScalarTypeDefinition description name directives l).

(** [ImplementsInterfaces : implements NamedType+] *)
Definition parseImplementsInterfaces (fuel : nat) : Parser (list NamedTypeNode) :=
  let* token := getToken in
  if bool_decide (Token.value token = Some "implements")
  then let* _ := advance in
       let* first := parseNamedType in
       pushWhile fuel (peek TokenKind.NAME) parseNamedType [first]
  else ret [].

(** [InputValueDefinition :
      Description? Name : Type DefaultValue? Directives[Const]?] *)
Definition parseInputValueDef (fuel : nat) : Parser InputValueDefinitionNode :=
  let* start := getToken in
  let* description := parseDescription in
  let* name := parseName in
  let* _ := expect TokenKind.COLON in
  let* type := parseTypeReference fuel in
  let* equals := skip TokenKind.EQUALS in
  let* defaultValue :=
    (if equals
     then let* value := parseConstValue (parseValueLiteral fuel) in
          ret (Some value)
     else ret None) in
  let* directives := parseDirectives fuel true in
  let* l := loc start in
  ret (InputValueDefinition description name type defaultValue directives l).

(** [ArgumentsDefinition : ( InputValueDefinition+ )] *)
Definition parseArgumentDefs (fuel : nat)
  : Parser (list InputValueDefinitionNode) :=
  let* paren := peek TokenKind.PAREN_L in
  if negb paren
  then ret []
  else many fuel TokenKind.PAREN_L (parseInputValueDef fuel) TokenKind.PAREN_R.

(** [FieldDefinition :
      Description? Name ArgumentsDefinition? : Type Directives[Const]?] *)
Definition parseFieldDefinition (fuel : nat) : Parser FieldDefinitionNode :=
  let* start := getToken in
  let* description := parseDescription in
  let* name := parseName in
  let* args := parseArgumentDefs fuel in
  let* _ := expect TokenKind.COLON in
  let* type := parseTypeReference fuel in
  let* directives := parseDirectives fuel true in
  let* l := loc start in
  ret (FieldDefinition description name args type directives l).

(** [FieldDefinitions : { FieldDefinition+ }] *)
Definition parseFieldDefinitions (fuel : nat)
  : Parser (list FieldDefinitionNode) :=
  many fuel TokenKind.BRACE_L (parseFieldDefinition fuel) TokenKind.BRACE_R.

(** [ObjectTypeDefinition : Description?
      type Name ImplementsInterfaces? Directives[Const]? FieldDefinitions] *)
Definition parseObjectTypeDefinition (fuel : nat) : Parser DefinitionNode :=
  let* start := getToken in
  let* description := parseDescription in
  let* _ := expectKeyword "type" in
  let* name := parseName in
  let* interfaces := parseImplementsInterfaces fuel in
  let* directives := parseDirectives fuel true in
  let* fields := parseFieldDefinitions fuel in
  let* l := loc start in
  ret (ObjectTypeDefinition description name interfaces directives fields l).

(** [InterfaceTypeDefinition :
      Description? interface Name Directives[Const]? FieldDefinitions] *)
Definition parseInterfaceTypeDefinition (fuel : nat) : Parser DefinitionNode :=
  let* start := getToken in
  let* description := parseDescription in
  let* _ := expectKeyword "interface" in
  let* name := parseName in
  let* directives := parseDirectives fuel true in
  let* fields := parseFieldDefinitions fuel in
  let* l := loc start in
  ret (InterfaceTypeDefinition description name directives fields l).

(** [UnionMembers : `|`? NamedType | UnionMembers | NamedType] *)
Definition parseUnionMembers (fuel : nat) : Parser (list NamedTypeNode) :=
  let* _ := skip TokenKind.PIPE in
  let* first := parseNamedType in
  pushWhile fuel (skip TokenKind.PIPE) parseNamedType [first].

(** [UnionTypeDefinition :
      Description? union Name Directives[Const]? = UnionMembers] *)
Definition parseUnionTypeDefinition (fuel : nat) : Parser DefinitionNode :=
  let* start := getToken in
  let* description := parseDescription in
  let* _ := expectKeyword "union" in
  let* name := parseName in
  let* directives := parseDirectives fuel true in
  let* _ := expect TokenKind.EQUALS in
  let* types := parseUnionMembers fuel in
  let* l := loc start in
  ret (UnionTypeDefinition description name directives types l).

(** [EnumValueDefinition : Description? EnumValue Directives[Const]?] *)
Definition parseEnumValueDefinition (fuel : nat)
  : Parser EnumValueDefinitionNode :=
  let* start := getToken in
  let* description := parseDescription in
  let* name := parseName in
  let* directives := parseDirectives fuel true in
  let* l := loc start in
  ret (EnumValueDefinition description name directives l).

(** [EnumTypeDefinition :
      Description? enum Name Directives[Const]? { EnumValueDefinition+ }] *)
Definition parseEnumTypeDefinition (fuel : nat) : Parser DefinitionNode :=
  let* start := getToken in
  let* description := parseDescription in
  let* _ := expectKeyword "enum" in
  let* name := parseName in
  let* directives := parseDirectives fuel true in
  let* values :=
    many fuel TokenKind.BRACE_L (parseEnumValueDefinition fuel)
      TokenKind.BRACE_R in
  let* l := loc start in
  ret (EnumTypeDefinition description name directives values l).

(** [InputObjectTypeDefinition :
      Description? input Name Directives[Const]? { InputValueDefinition+ }] *)
Definition parseInputObjectTypeDefinition (fuel : nat) : Parser DefinitionNode :=
  let* start := getToken in
  let* description := parseDescription in
  let* _ := expectKeyword "input" in
  let* name := parseName in
  let* directives := parseDirectives fuel true in
  let* fields :=
    many fuel TokenKind.BRACE_L (parseInputValueDef fuel) TokenKind.BRACE_R in
  let* l := loc start in
  ret (InputObjectTypeDefinition description name directives fields l).

(** [parseObjectTypeExtension]: [extend type Name] followed by at least one
    of [ImplementsInterfaces], [Directives[Const]], [FieldDefinitions]. *)
Definition parseObjectTypeExtension (fuel : nat) : Parser DefinitionNode :=
  let* start := getToken in
  let* _ := expectKeyword "extend" in
  let* _ := expectKeyword "type" in
  let* name := parseName in
  let* interfaces := parseImplementsInterfaces fuel in
  let* directives := parseDirectives fuel true in
  let* brace := peek TokenKind.BRACE_L in
  let* fields := (if brace then parseFieldDefinitions fuel else ret []) in
  if bool_decide (length interfaces = 0%nat) &&
     bool_decide (length directives = 0%nat) &&
     bool_decide (length fields = 0%nat)
  then throw (unexpected None)
  else let* l := loc start in
       ret (ObjectTypeExtension name interfaces directives fields l).

(** [TypeExtension : ObjectTypeExtension] *)
Definition parseTypeExtension (fuel : nat) : Parser DefinitionNode :=
  let* keywordToken := lookahead in
  if bool_decide (Token.kind keywordToken = TokenKind.NAME) &&
     bool_decide (Token.value keywordToken = Some "type")
  then parseObjectTypeExtension fuel
  else throw (unexpected (Some keywordToken)).

(** The keys of the [DirectiveLocation] table.  The table itself is declared
    in [directiveLocation.js]; its keys are listed in the comment above
    [parseDirectiveLocation]. *)
Definition DirectiveLocation : list string :=
  [ "QUERY"; "MUTATION"; "SUBSCRIPTION"; "FIELD"; "FRAGMENT_DEFINITION";
    "FRAGMENT_SPREAD"; "INLINE_FRAGMENT"; "SCHEMA"; "SCALAR"; "OBJECT";
    "FIELD_DEFINITION"; "ARGUMENT_DEFINITION"; "INTERFACE"; "UNION"; "ENUM";
    "ENUM_VALUE"; "INPUT_OBJECT"; "INPUT_FIELD_DEFINITION" ].

Definition parseDirectiveLocation : Parser NameNode :=
  let* start := getToken in
  let* name := parseName in
  let 'Name value _ := name in
  if bool_decide (value ∈ DirectiveLocation)
  then ret name
  else throw (unexpected (Some start)).

(** [DirectiveLocations :
      `|`? DirectiveLocation | DirectiveLocations | DirectiveLocation] *)
Definition parseDirectiveLocations (fuel : nat) : Parser (list NameNode) :=
  let* _ := skip TokenKind.PIPE in
  let* first := parseDirectiveLocation in
  pushWhile fuel (skip TokenKind.PIPE) parseDirectiveLocation [first].

(** [DirectiveDefinition :
      Description? directive @ Name ArgumentsDefinition? on DirectiveLocations] *)
Definition parseDirectiveDefinition (fuel : nat) : Parser DefinitionNode :=
  let* start := getToken in
  let* description := parseDescription in
  let* _ := expectKeyword "directive" in
  let* _ := expect TokenKind.AT in
  let* name := parseName in
  let* args := parseArgumentDefs fuel in
  let* _ := expectKeyword "on" in
  let* locations := parseDirectiveLocations fuel in
  let* l := loc start in
  ret (DirectiveDefinition description name args locations l).

(** [parseTypeSystemDefinition]: dispatch on the keyword, which follows the
    description when there is one. *)
Definition parseTypeSystemDefinition (fuel : nat) : Parser DefinitionNode :=
  let* described := peekDescription in
  let* keywordToken := (if described then lookahead else getToken) in
  let keyword := Token.value keywordToken in
  if negb (bool_decide (Token.kind keywordToken = TokenKind.NAME))
  then throw (unexpected (Some keywordToken))
  else if bool_decide (keyword = Some "schema") then parseSchemaDefinition fuel
  else if bool_decide (keyword = Some "scalar")
  then parseScalarTypeDefinition fuel
  else if bool_decide (keyword = Some "type") then parseObjectTypeDefinition fuel
  else if bool_decide (keyword = Some "interface")
  then parseInterfaceTypeDefinition fuel
  else if bool_decide (keyword = Some "union") then parseUnionTypeDefinition fuel
  else if bool_decide (keyword = Some "enum") then parseEnumTypeDefinition fuel
  else if bool_decide (keyword = Some "input")
  then parseInputObjectTypeDefinition fuel
  else if bool_decide (keyword = Some "extend") then parseTypeExtension fuel
  else if bool_decide (keyword = Some "directive")
  then parseDirectiveDefinition fuel
  else throw (unexpected (Some keywordToken)).

(** The keywords that open an operation and a type system definition in the
    switch of [parseDefinition]. *)
Definition operationKeywords : list string :=
  [ "query"; "mutation"; "subscription" ].

Definition typeSystemKeywords : list string :=
  [ "schema"; "scalar"; "type"; "interface"; "union"; "enum"; "input";
    "extend"; "directive" ].

Definition valueAmong (token : Token) (keywords : list string) : bool :=
  match Token.value token with
  | Some v => bool_decide (v ∈ keywords)
  | None => false
  end.

(** [Definition : OperationDefinition | FragmentDefinition
                | TypeSystemDefinition] *)
Definition parseDefinition (fuel : nat) : Parser DefinitionNode :=
  let* brace := peek TokenKind.BRACE_L in
  if brace then parseOperationDefinition fuel
  else
    let* named := peek TokenKind.NAME in
    let* token := getToken in
    if named && valueAmong token operationKeywords
    then parseOperationDefinition fuel
    else if named && bool_decide (Token.value token = Some "fragment")
    then parseFragmentDefinition fuel
    else if named && valueAmong token typeSystemKeywords
    then parseTypeSystemDefinition fuel
    else
      let* described := peekDescription in
      if described then parseTypeSystemDefinition fuel
      else throw (unexpected None).

(** [Document : Definition+] *)
Definition parseDocument (fuel : nat) : Parser DocumentNode :=
  let* start := getToken in
  let* _ := expect TokenKind.SOF in
  let* first := parseDefinition fuel in
  let* definitions :=
    pushWhile fuel (notSkip TokenKind.EOF) (parseDefinition fuel) [first] in
  let* l := loc start in
  ret (Document definitions l).

(** ** A lexer for the entry points *)

(** Modelled from the spec: [createLexer] and [readToken] belong to the lexer,
    which is not among the sources.  The model reads an ASCII body into the
    tokens of the spec's data model (punctuators, names, int and float
    literals, strings, block strings, comments; commas and white space are
    skipped).  It keeps string values to the plain escapes and does not
    re-indent block strings; a body outside what it reads ends the stream
    with the error the lexer throws there.  Every general theorem below is
    stated over an arbitrary lexer state, so that none depends on this
    model; only the literal scenarios run it. *)
Module LexerModel.
#[local] Open Scope list_scope.
#[local] Open Scope char_scope.

Definition between (lo hi c : ascii) : bool :=
  (N_of_ascii lo <=? N_of_ascii c)%N && (N_of_ascii c <=? N_of_ascii hi)%N.

Definition isDigit (c : ascii) : bool := between "0" "9" c.

Definition isNameStart (c : ascii) : bool :=
  between "a" "z" c || between "A" "Z" c || Ascii.eqb c "_".

Definition isNameContinue (c : ascii) : bool := isNameStart c || isDigit c.

Definition isLineEnd (c : ascii) : bool :=
  Ascii.eqb c "010" || Ascii.eqb c "013".

Fixpoint span (p : ascii → bool) (cs : list ascii) : list ascii * list ascii :=
  match cs with
  | c :: rest =>
      if p c then let '(taken, remaining) := span p rest in (c :: taken, remaining)
      else ([], cs)
  | [] => ([], [])
  end.

Definition len (cs : list ascii) : Z := Z.of_nat (length cs).

Definition text (cs : list ascii) : string := String.string_of_list_ascii cs.

Definition punctuator (c : ascii) : option TokenKind.t :=
  match c with
  | "!" => Some TokenKind.BANG
  | "$" => Some TokenKind.DOLLAR
  | "(" => Some TokenKind.PAREN_L
  | ")" => Some TokenKind.PAREN_R
  | ":" => Some TokenKind.COLON
  | "=" => Some TokenKind.EQUALS
  | "@" => Some TokenKind.AT
  | "[" => Some TokenKind.BRACKET_L
  | "]" => Some TokenKind.BRACKET_R
  | "{" => Some TokenKind.BRACE_L
  | "|" => Some TokenKind.PIPE
  | "}" => Some TokenKind.BRACE_R
  | _ => None
  end.

Definition unescape (c : ascii) : option ascii :=
  match c with
  | "034" => Some "034" | "\" => Some "\" | "/" => Some "/"
  | "b" => Some "008" | "f" => Some "012" | "n" => Some "010"
  | "r" => Some "013" | "t" => Some "009"
  | _ => None
  end.

(** The characters of a ["..."] string after its opening quote: the value,
    the number of characters read, and the rest of the body. *)
Fixpoint readString (cs acc : list ascii) (n : Z)
  : option (list ascii * Z * list ascii) :=
  match cs with
  | [] => None
  | "034" :: rest => Some (rev acc, n + 1, rest)
  | "\" :: c :: rest =>
      match unescape c with
      | Some c' => readString rest (c' :: acc) (n + 2)
      | None => None
      end
  | c :: rest =>
      if isLineEnd c then None else readString rest (c :: acc) (n + 1)
  end.

Fixpoint readBlockString (cs acc : list ascii) (n : Z)
  : option (list ascii * Z * list ascii) :=
  match cs with
  | [] => None
  | "034" :: "034" :: "034" :: rest => Some (rev acc, n + 3, rest)
  | c :: rest => readBlockString rest (c :: acc) (n + 1)
  end.

(** An int or float literal at the head of [cs]: its kind, its text and
    the rest of the body. *)
Definition readNumber (cs : list ascii)
  : option (TokenKind.t * list ascii * list ascii) :=
  let '(sign, cs1) := span (Ascii.eqb "-") (take 1 cs) in
  let cs1 := drop (length sign) cs in
  let '(int, cs2) := span isDigit cs1 in
  match int with
  | [] => None
  | d :: more =>
      if Ascii.eqb d "0" && negb (bool_decide (more = [])) then None
      else
        let '(frac, cs3, okFrac) :=
          match cs2 with
          | "." :: after =>
              let '(ds, remaining) := span isDigit after in
              ("." :: ds, remaining, negb (bool_decide (ds = [])))
          | _ => ([], cs2, true)
          end in
        let '(exp, cs4, okExp) :=
          match cs3 with
          | e :: after =>
              if Ascii.eqb e "e" || Ascii.eqb e "E" then
                let '(sg, after') :=
                  match after with
                  | s :: a => if Ascii.eqb s "+" || Ascii.eqb s "-"
                              then ([s], a) else ([], after)
                  | [] => ([], after)
                  end in
                let '(ds, remaining) := span isDigit after' in
                (e :: sg ++ ds, remaining, negb (bool_decide (ds = [])))
              else ([], cs3, true)
          | [] => ([], cs3, true)
          end in
        if okFrac && okExp
        then Some (if bool_decide (frac = []) && bool_decide (exp = [])
                   then TokenKind.INT else TokenKind.FLOAT,
                   sign ++ int ++ frac ++ exp, cs4)
        else None
  end.

Section Tokens.
Variable source : SourceObj.

Definition lexError (pos : Z) (c : string) : list Token * Error :=
  ([], syntaxError source pos ("Cannot parse the unexpected character " +:+ c)).

Fixpoint readTokens (fuel : nat) (pos line lineStart : Z) (cs : list ascii)
  : list Token * Error :=
  let tok kind width value :=
    Token.mk kind pos (pos + width) line (1 + pos - lineStart) value in
  let emit t width rest :=
    match fuel with
    | O => ([t], HostError "lexer model out of fuel")
    | S fuel' =>
        let '(ts, fault) :=
          readTokens fuel' (pos + width) line lineStart rest in
        (t :: ts, fault)
    end in
  match fuel, cs with
  | O, _ => ([], HostError "lexer model out of fuel")
  | _, [] =>
      ([tok TokenKind.EOF 0 None], syntaxError source pos "Unexpected <EOF>")
  | S fuel', c :: rest =>
      if Ascii.eqb c "010"
      then readTokens fuel' (pos + 1) (line + 1) (pos + 1) rest
      else if Ascii.eqb c " " || Ascii.eqb c "009" || Ascii.eqb c ","
              || Ascii.eqb c "013"
      then readTokens fuel' (pos + 1) line lineStart rest
      else if Ascii.eqb c "#" then
        let '(comment, remaining) := span (λ x, negb (isLineEnd x)) rest in
        emit (tok TokenKind.COMMENT (1 + len comment) (Some (text comment)))
          (1 + len comment) remaining
      else if isNameStart c then
        let '(name, remaining) := span isNameContinue cs in
        emit (tok TokenKind.NAME (len name) (Some (text name)))
          (len name) remaining
      else if isDigit c || Ascii.eqb c "-" then
        match readNumber cs with
        | Some (kind, digits, remaining) =>
            emit (tok kind (len digits) (Some (text digits)))
              (len digits) remaining
        | None => lexError pos "in a number"
        end
      else if Ascii.eqb c dquote then
        match rest with
        | "034" :: "034" :: block =>
            match readBlockString block [] 3 with
            | Some (value, width, remaining) =>
                emit (tok TokenKind.BLOCK_STRING width (Some (text value)))
                  width remaining
            | None => ([], syntaxError source pos "Unterminated string.")
            end
        | _ =>
            match readString rest [] 1 with
            | Some (value, width, remaining) =>
                emit (tok TokenKind.STRING width (Some (text value)))
                  width remaining
            | None => ([], syntaxError source pos "Unterminated string.")
            end
        end
      else if Ascii.eqb c "." then
        match rest with
        | "." :: "." :: remaining => emit (tok TokenKind.SPREAD 3 None) 3 remaining
        | _ => lexError pos (text [c])
        end
      else
        match punctuator c with
        | Some kind => emit (tok kind 1 None) 1 rest
        | None => lexError pos (text [c])
        end
  end.

Definition tokenize (body : string) : list Token * Error :=
  let cs := String.list_ascii_of_string body in
  readTokens (S (length cs)) 0 1 0 cs.
End Tokens.
End LexerModel.

(** Modelled from the spec: [createLexer(source, options)] of the lexer; the
    lexer starts on the synthetic [SOF] token.  A value that is not a [Source] is read through its [body]
    property when it has one; without it the first read fails inside the
    JavaScript runtime. *)
Definition createLexer (source : SourceObj) (options : ParseOptions) : Lexer :=
  let startOfFileToken := Token.mk TokenKind.SOF 0 0 0 0 None in
  let stream :=
    match source with
    | IsSource src => LexerModel.tokenize source (Source.body src)
    | NotSource v =>
        match foreignBody v with
        | Some body => LexerModel.tokenize source body
        | None => ([], HostError "Cannot read property 'length' of undefined")
        end
    end in
  {| Lexer.source := source;
     Lexer.options := options;
     Lexer.lastToken := startOfFileToken;
     Lexer.token := startOfFileToken;
     Lexer.pending := stream.1;
     Lexer.fault := stream.2 |}.

(** ** Public entry points *)

(** [typeof source === 'string' ? new Source(source) : source] *)
Definition toSourceObj (source : Input) : SourceObj :=
  match source with
  | InString s => IsSource (Source.new s)
  | InSource src => IsSource src
  | InForeign v => NotSource v
  end.

(** [sourceObj instanceof Source] *)
Definition instanceofSource (sourceObj : SourceObj) : bool :=
  match sourceObj with IsSource _ => true | NotSource _ => false end.

(** [String(sourceObj)] *)
Definition String_ (sourceObj : SourceObj) : string :=
  match sourceObj with
  | IsSource _ => "[object Object]"
  | NotSource v => foreignString v
  end.

(** [options || {}] *)
Definition orDefault (options : option ParseOptions) : ParseOptions :=
  default (mkOptions None) options.

(** The fuel that the entry points hand to the productions: one more than
    the number of tokens still to be read. *)
Definition fuelFor (lexer : Lexer) : nat := S (length (Lexer.pending lexer)).

(** [parse(source, options)]: parses a GraphQL source into a document. *)
Definition parse (source : Input) (options : option ParseOptions)
  : Res DocumentNode :=
  let sourceObj := toSourceObj source in
  if negb (instanceofSource sourceObj)
  then Throw (TypeError ("Must provide Source. Received: " +:+ String_ sourceObj))
  else
    let lexer := createLexer sourceObj (orDefault options) in
    parseDocument (fuelFor lexer) lexer.

(** [parseValue(source, options)]: parses a value in isolation. *)
Definition parseValue (source : Input) (options : option ParseOptions)
  : Res ValueNode :=
  let sourceObj := toSourceObj source in
  let lexer := createLexer sourceObj (orDefault options) in
  (let* _ := expect TokenKind.SOF in
   let* value := parseValueLiteral (fuelFor lexer) false in
   let* _ := expect TokenKind.EOF in
   ret value) lexer.

(** [parseType(source, options)]: parses a type reference in isolation. *)
Definition parseType (source : Input) (options : option ParseOptions)
  : Res TypeNode :=
  let sourceObj := toSourceObj source in
  let lexer := createLexer sourceObj (orDefault options) in
  (let* _ := expect TokenKind.SOF in
   let* type := parseTypeReference (fuelFor lexer) in
   let* _ := expect TokenKind.EOF in
   ret type) lexer.

(** ** A program logic for the parser monad

    [wp F E p Q lexer]: running [p] from [lexer] either returns a node and a
    lexer state satisfying [Q], or throws an error satisfying [E]; [F] says
    whether running out of fuel is tolerated ([True], for invariants of the
    results) or excluded ([False], for termination). *)
Definition wp {A} (F : Prop) (E : Error → Prop) (p : Parser A)
    (Q : A → Lexer → Prop) (lexer : Lexer) : Prop :=
  match p lexer with
  | Ok a lexer' => Q a lexer'
  | Throw e => E e
  | OutOfFuel => F
  end.

(** The number of tokens that the lexer has yet to read. *)
Definition size (lexer : Lexer) : nat := length (Lexer.pending lexer).

(** What no production ever changes: the source, the options and the error
    the lexer throws at the end of its stream. *)
Definition env (lexer : Lexer) : SourceObj * ParseOptions * Error :=
  (Lexer.source lexer, Lexer.options lexer, Lexer.fault lexer).

(** [stepTo lexer lexer']: the effect of one [lexer.advance()]. *)
Record stepTo (lexer lexer' : Lexer) : Prop := mkStepTo {
  step_env : env lexer' = env lexer;
  step_last : Lexer.lastToken lexer' = Lexer.token lexer;
  step_size : (size lexer' ≤ size lexer)%nat;
  step_strict :
    Token.kind (Lexer.token lexer) ≠ TokenKind.EOF →
    (size lexer' < size lexer)%nat;
  step_next :
    Token.kind (Lexer.token lexer) ≠ TokenKind.EOF →
    readNext (Lexer.pending lexer)
    = Some (Lexer.token lexer', Lexer.pending lexer');
}.

(** [loc(lexer, startToken)] as a function of the state it is called in. *)
Definition locAt (startToken : Token) (lexer : Lexer) : option Location :=
  if negb (truthy (noLocation (Lexer.options lexer)))
  then Some (Loc startToken (Lexer.lastToken lexer) (Lexer.source lexer))
  else None.

(** ** The locations of a tree

    [locs a] lists the [loc] property of the node [a] and of every node
    below it, the node's own first. *)
Class Locs (A : Type) := locs : A → list (option Location).
#[global] Hint Mode Locs ! : typeclass_instances.

#[global] Instance Locs_list {A} `{Locs A} : Locs (list A) :=
  λ nodes, flat_map locs nodes.
#[global] Instance Locs_option {A} `{Locs A} : Locs (option A) :=
  λ node, from_option locs [] node.

#[global] Instance Locs_Name : Locs NameNode :=
  λ node, match node with Name _ l => [l] end.
#[global] Instance Locs_Variable : Locs VariableNode :=
  λ node, match node with Variable_ name l => l :: locs name end.
#[global] Instance Locs_StringValue : Locs StringValueNode :=
  λ node, match node with StringValue _ _ l => [l] end.

Fixpoint locsValue (node : ValueNode) : list (option Location) :=
  match node with
  | VariableValue variable => locs variable
  | IntValue _ l | FloatValue _ l | BooleanValue _ l | NullValue l
  | EnumValue _ l => [l]
  | StringLiteral str => locs str
  | ListValue values l => l :: flat_map locsValue values
  | ObjectValue fields l => l :: flat_map locsObjectField fields
  | ForeignNode _ => []
  end
with locsObjectField (node : ObjectFieldNode) : list (option Location) :=
  match node with
  | ObjectField name value l => l :: locs name ++ locsValue value
  end.
#[global] Instance Locs_Value : Locs ValueNode := locsValue.
#[global] Instance Locs_ObjectField : Locs ObjectFieldNode := locsObjectField.

#[global] Instance Locs_NamedType : Locs NamedTypeNode :=
  λ node, match node with NamedType name l => l :: locs name end.

Fixpoint locsType (node : TypeNode) : list (option Location) :=
  match node with
  | NamedTypeRef named => locs named
  | ListType type l | NonNullType type l => l :: locsType type
  end.
#[global] Instance Locs_Type : Locs TypeNode := locsType.

#[global] Instance Locs_Argument : Locs ArgumentNode :=
  λ node, match node with
          | Argument name value l => l :: locs name ++ locs value
          end.
#[global] Instance Locs_Directive : Locs DirectiveNode :=
  λ node, match node with
          | Directive name arguments l => l :: locs name ++ locs arguments
          end.
#[global] Instance Locs_VariableDefinition : Locs VariableDefinitionNode :=
  λ node, match node with
          | VariableDefinition variable type defaultValue l =>
              l :: locs variable ++ locs type ++ locs defaultValue
          end.

Fixpoint locsSelectionSet (node : SelectionSetNode) : list (option Location) :=
  match node with
  | SelectionSet selections l => l :: flat_map locsSelection selections
  end
with locsSelection (node : SelectionNode) : list (option Location) :=
  match node with
  | Field alias name arguments directives selectionSet l =>
      l :: locs alias ++ locs name ++ locs arguments ++ locs directives ++
      from_option locsSelectionSet [] selectionSet
  | FragmentSpread name directives l => l :: locs name ++ locs directives
  | InlineFragment typeCondition directives selectionSet l =>
      l :: locs typeCondition ++ locs directives ++
      locsSelectionSet selectionSet
  end.
#[global] Instance Locs_SelectionSet : Locs SelectionSetNode := locsSelectionSet.
#[global] Instance Locs_Selection : Locs SelectionNode := locsSelection.

#[global] Instance Locs_OperationTypeDefinition
  : Locs OperationTypeDefinitionNode :=
  λ node, match node with
          | OperationTypeDefinition _ type l => l :: locs type
          end.
#[global] Instance Locs_InputValueDefinition : Locs InputValueDefinitionNode :=
  λ node, match node with
          | InputValueDefinition description name type defaultValue directives l =>
              l :: locs description ++ locs name ++ locs type ++
              locs defaultValue ++ locs directives
          end.
#[global] Instance Locs_FieldDefinition : Locs FieldDefinitionNode :=
  λ node, match node with
          | FieldDefinition description name arguments type directives l =>
              l :: locs description ++ locs name ++ locs arguments ++
              locs type ++ locs directives
          end.
#[global] Instance Locs_EnumValueDefinition : Locs EnumValueDefinitionNode :=
  λ node, match node with
          | EnumValueDefinition description name directives l =>
              l :: locs description ++ locs name ++ locs directives
          end.
#[global] Instance Locs_Definition : Locs DefinitionNode :=
  λ node,
    match node with
    | OperationDefinition _ name variableDefinitions directives selectionSet l =>
        l :: locs name ++ locs variableDefinitions ++ locs directives ++
        locs selectionSet
    | FragmentDefinition name typeCondition directives selectionSet l =>
        l :: locs name ++ locs typeCondition ++ locs directives ++
        locs selectionSet
    | SchemaDefinition directives operationTypes l =>
        l :: locs directives ++ locs operationTypes
    | ScalarTypeDefinition description name directives l =>
        l :: locs description ++ locs name ++ locs directives
    | ObjectTypeDefinition description name interfaces directives fields l =>
        l :: locs description ++ locs name ++ locs interfaces ++
        locs directives ++ locs fields
    | InterfaceTypeDefinition description name directives fields l =>
        l :: locs description ++ locs name ++ locs directives ++ locs fields
    | UnionTypeDefinition description name directives types l =>
        l :: locs description ++ locs name ++ locs directives ++ locs types
    | EnumTypeDefinition description name directives values l =>
        l :: locs description ++ locs name ++ locs directives ++ locs values
    | InputObjectTypeDefinition description name directives fields l =>
        l :: locs description ++ locs name ++ locs directives ++ locs fields
    | ObjectTypeExtension name interfaces directives fields l =>
        l :: locs name ++ locs interfaces ++ locs directives ++ locs fields
    | DirectiveDefinition description name arguments locations l =>
        l :: locs description ++ locs name ++ locs arguments ++ locs locations
    end.
#[global] Instance Locs_Document : Locs DocumentNode :=
  λ node, match node with Document definitions l => l :: locs definitions end.

(** The location policy, for the options and the source of a lexer: no node
    has a location under [noLocation]; otherwise every node has one, built by
    [Loc] from two tokens and that source. *)
Definition locOK (e : SourceObj * ParseOptions * Error) (l : option Location)
  : Prop :=
  if truthy (noLocation e.1.2) then l = None
  else ∃ startToken endToken, l = Some (Loc startToken endToken e.1.1).

(** The errors of the productions: a syntax error on the lexer's source, or
    the error that the lexer itself throws. *)
Definition errOK (e : SourceObj * ParseOptions * Error) (err : Error) : Prop :=
  (∃ position description, err = SyntaxError e.1.1 position description) ∨
  err = e.2.

(** ** What the claims speak about *)

(** The first token of an input: the one that follows [SOF] when [parse]
    starts. *)
Definition firstToken (source : Input) (options : option ParseOptions)
  : option Token :=
  fst <$> readNext (Lexer.pending
                      (createLexer (toSourceObj source) (orDefault options))).

Definition definitions (document : DocumentNode) : list DefinitionNode :=
  match document with Document definitions _ => definitions end.

(** The names of the fragment spreads below a selection set, and the names
    of all fragment definitions and fragment spreads of a document. *)
Fixpoint spreadNames (node : SelectionSetNode) : list string :=
  match node with
  | SelectionSet selections _ => flat_map selectionSpreadNames selections
  end
with selectionSpreadNames (node : SelectionNode) : list string :=
  match node with
  | Field _ _ _ _ selectionSet _ => from_option spreadNames [] selectionSet
  | FragmentSpread (Name value _) _ _ => [value]
  | InlineFragment _ _ selectionSet _ => spreadNames selectionSet
  end.

Definition fragmentNames (node : DefinitionNode) : list string :=
  match node with
  | OperationDefinition _ _ _ _ selectionSet _ => spreadNames selectionSet
  | FragmentDefinition (Name value _) _ _ selectionSet _ =>
      value :: spreadNames selectionSet
  | _ => []
  end.

Definition documentFragmentNames (document : DocumentNode) : list string :=
  flat_map fragmentNames (definitions document).

(** Type references: whether a node is a [NonNullType], and whether no
    [NonNullType] of a tree has a [NonNullType] as its [type]. *)
Definition isNonNull (node : TypeNode) : bool :=
  match node with NonNullType _ _ => true | _ => false end.

Definition isListType (node : TypeNode) : bool :=
  match node with ListType _ _ => true | _ => false end.

Definition isNamedType (node : TypeNode) : bool :=
  match node with NamedTypeRef _ => true | _ => false end.

(** The type under the [NonNullType] wrapper, when there is one. *)
Definition nullableType (node : TypeNode) : TypeNode :=
  match node with NonNullType type _ => type | _ => node end.

Fixpoint nonNullFlat (node : TypeNode) : bool :=
  match node with
  | NamedTypeRef _ => true
  | ListType type _ => nonNullFlat type
  | NonNullType type _ => negb (isNonNull type) && nonNullFlat type
  end.

(** A value tree with every location removed: structural equality
    "ignoring locations" is equality of the stripped trees. *)
Definition stripName (node : NameNode) : NameNode :=
  match node with Name value _ => Name value None end.

Fixpoint stripLoc (node : ValueNode) : ValueNode :=
  match node with
  | VariableValue (Variable_ name _) =>
      VariableValue (Variable_ (stripName name) None)
  | IntValue value _ => IntValue value None
  | FloatValue value _ => FloatValue value None
  | StringLiteral (StringValue value block _) =>
      StringLiteral (StringValue value block None)
  | BooleanValue value _ => BooleanValue value None
  | NullValue _ => NullValue None
  | EnumValue value _ => EnumValue value None
  | ListValue values _ => ListValue (map stripLoc values) None
  | ObjectValue fields _ => ObjectValue (map stripFieldLoc fields) None
  | ForeignNode kind => ForeignNode kind
  end
with stripFieldLoc (node : ObjectFieldNode) : ObjectFieldNode :=
  match node with
  | ObjectField name value _ => ObjectField (stripName name) (stripLoc value) None
  end.

(** The location policy: under [noLocation] the [loc] of a node is absent;
    otherwise it is a location object that holds two tokens, the start offset
    of the first, the end offset of the second, and the source. *)
Definition locationPolicy (noLocation : bool) (source : SourceObj)
    (l : option Location) : Prop :=
  if noLocation then l = None
  else ∃ location,
         l = Some location ∧
         Location.start location = Token.start (Location.startToken location) ∧
         Location.end_ location = Token.end_ (Location.endToken location) ∧
         Location.source location = source.

(** A production spans its node: the location of the node it returns goes
    from the token the production found to the last token consumed when it
    returned (or is absent, under [noLocation]). *)
Definition spans {A} `{Locs A} (p : Parser A) : Prop :=
  ∀ lexer node lexer',
    p lexer = Ok node lexer' →
    head (locs node)
    = Some (if truthy (noLocation (Lexer.options lexer')) then None
            else Some {| Location.start := Token.start (Lexer.token lexer);
                         Location.end_ := Token.end_ (Lexer.lastToken lexer');
                         Location.startToken := Lexer.token lexer;
                         Location.endToken := Lexer.lastToken lexer';
                         Location.source := Lexer.source lexer' |}).

(** The part of [parseObjectTypeExtension] that precedes its check: the
    start token, the name and the three optional parts of the extension. *)
Definition objectTypeExtensionParts (fuel : nat)
  : Parser (Token * NameNode * list NamedTypeNode * list DirectiveNode *
            list FieldDefinitionNode) :=
  let* start := getToken in
  let* _ := expectKeyword "extend" in
  let* _ := expectKeyword "type" in
  let* name := parseName in
  let* interfaces := parseImplementsInterfaces fuel in
  let* directives := parseDirectives fuel true in
  let* brace := peek TokenKind.BRACE_L in
  let* fields := (if brace then parseFieldDefinitions fuel else ret []) in
  ret (start, name, interfaces, directives, fields).

(** ** [valueFromASTUntyped]

    The JavaScript value of a value node.  Numbers are the host's: their
    type and the two conversions [parseInt(_, 10)] and [parseFloat] are
    parameters, and so is [isInvalid] of [jsutils].  A function value is
    known by its name only. *)
Inductive Outcome (A : Type) :=
| Returned (a : A)
| Thrown (message : string).
Arguments Returned {A} a.
Arguments Thrown {A} message.

Definition Outcome_bind {A B} (m : Outcome A) (k : A → Outcome B) : Outcome B :=
  match m with
  | Returned a => k a
  | Thrown message => Thrown message
  end.

(** [array.map(fn)] for a callback that may throw. *)
Fixpoint Outcome_map {A B} (fn : A → Outcome B) (array : list A)
  : Outcome (list B) :=
  match array with
  | [] => Returned []
  | item :: rest =>
      Outcome_bind (fn item) (λ b,
      Outcome_bind (Outcome_map fn rest) (λ bs, Returned (b :: bs)))
  end.

(** The constants of [language/kinds]: the kind tag of a value node. *)
Definition kindOf (node : ValueNode) : string :=
  match node with
  | VariableValue _ => "Variable"
  | IntValue _ _ => "IntValue"
  | FloatValue _ _ => "FloatValue"
  | StringLiteral _ => "StringValue"
  | BooleanValue _ _ => "BooleanValue"
  | NullValue _ => "NullValue"
  | EnumValue _ _ => "EnumValue"
  | ListValue _ _ => "ListValue"
  | ObjectValue _ _ => "ObjectValue"
  | ForeignNode kind => kind
  end.

(** The kinds of value node that the parser can produce. *)
Definition valueKinds : list string :=
  [ "NullValue"; "IntValue"; "FloatValue"; "StringValue"; "BooleanValue";
    "EnumValue"; "ListValue"; "ObjectValue"; "Variable" ].

(** A value tree all of whose nodes have one of these kinds. *)
Fixpoint producible (node : ValueNode) : bool :=
  match node with
  | ListValue values _ => forallb producible values
  | ObjectValue fields _ =>
      forallb (λ field, match field with
                        | ObjectField _ value _ => producible value
                        end) fields
  | ForeignNode _ => false
  | _ => true
  end.

Section ValueFromAST.
Variable Number : Type.
Variable parseInt : string → Z → Number.
Variable parseFloat : string → Number.

Inductive JSValue :=
| JNull
| JUndefined
| JNumber (n : Number)
| JString (s : string)
| JBoolean (b : bool)
| JArray (items : list JSValue)
| JObject (properties : gmap string JSValue)
| JFunction (name : string).

(** The [variables] argument as a property read sees it: the own properties
    of the object and the properties of the objects on its prototype chain,
    nearest first.  An [ObjMap] made by [Object.create(null)] has an empty
    chain; an object literal has [Object.prototype] on its chain. *)
Record JSObject := mkObject {
  own : gmap string JSValue;
  inherited : list (gmap string JSValue);
}.

(** [object[key]]: the own property, else the first one found along the
    prototype chain, else [undefined]. *)
Fixpoint lookupChain (chain : list (gmap string JSValue)) (key : string)
  : option JSValue :=
  match chain with
  | [] => None
  | properties :: chain' =>
      match properties !! key with
      | Some value => Some value
      | None => lookupChain chain' key
      end
  end.

Definition readProperty (object : JSObject) (key : string) : JSValue :=
  default JUndefined (lookupChain (own object :: inherited object) key).

Variable isInvalid : JSValue → bool.

(** Modelled from the spec: [keyValMap] of [jsutils] is not among the
    sources; the table above [valueFromASTUntyped] maps an input object to an
    object, so the model folds over the list from the left and assigns
    [map[keyFn(item)] = valFn(item)]. *)
Definition keyValMap {T} (list : list T) (keyFn : T → string)
    (valFn : T → Outcome JSValue) : Outcome (gmap string JSValue) :=
  foldl (λ acc item,
           Outcome_bind acc (λ map,
           Outcome_bind (valFn item) (λ val,
           Returned (<[keyFn item := val]> map))))
        (Returned ∅) list.

(** [valueFromASTUntyped(valueNode, variables)] *)
Fixpoint valueFromASTUntyped (valueNode : ValueNode)
    (variables : option JSObject) : Outcome JSValue :=
  match valueNode with
  | NullValue _ => Returned JNull
  | IntValue value _ => Returned (JNumber (parseInt value 10))
  | FloatValue value _ => Returned (JNumber (parseFloat value))
  | StringLiteral (StringValue value _ _) => Returned (JString value)
  | EnumValue value _ => Returned (JString value)
  | BooleanValue value _ => Returned (JBoolean value)
  | ListValue values _ =>
      Outcome_bind
        (Outcome_map (λ node, valueFromASTUntyped node variables) values)
        (λ items, Returned (JArray items))
  | ObjectValue fields _ =>
      Outcome_bind
        (keyValMap fields
           (λ field, match field with ObjectField (Name value _) _ _ => value end)
           (λ field, match field with
                     | ObjectField _ value _ =>
                         valueFromASTUntyped value variables
                     end))
        (λ map, Returned (JObject map))
  | VariableValue (Variable_ (Name variableName _) _) =>
      match variables with
      | Some vars =>
          if negb (isInvalid (readProperty vars variableName))
          then Returned (readProperty vars variableName)
          else Returned JUndefined
      | None => Returned JUndefined
      end
  | ForeignNode kind => Thrown ("Unexpected value kind: " +:+ kind)
  end.
End ValueFromAST.
Arguments JNull {Number}.
Arguments JUndefined {Number}.
Arguments JNumber {Number} n.
Arguments JString {Number} s.
Arguments JBoolean {Number} b.
Arguments JArray {Number} items.
Arguments JObject {Number} properties.
Arguments JFunction {Number} name.
Arguments mkObject {Number} own inherited.
Arguments own {Number} _.
Arguments inherited {Number} _.
Arguments lookupChain {Number} chain key.
Arguments readProperty {Number} object key.

(** The objects that callers pass as [variables].  [ObjMap properties] is
    the map without prototype that the type [ObjMap] describes.
    [objectLiteral properties] is the object written [{...}]: it inherits
    from [Object.prototype], whose data properties are built-in functions
    and whose accessor [__proto__] reads as the prototype itself. *)
Definition ObjMap {Number} (properties : gmap string (JSValue Number))
  : JSObject Number :=
  mkObject properties [].

Definition objectPrototypeData {Number} : gmap string (JSValue Number) :=
  <[ "constructor" := JFunction "Object" ]>
    (list_to_map
       (map (λ name, (name, JFunction name))
          [ "hasOwnProperty"; "isPrototypeOf"; "propertyIsEnumerable";
            "toLocaleString"; "toString"; "valueOf"; "__defineGetter__";
            "__defineSetter__"; "__lookupGetter__"; "__lookupSetter__" ])).

Definition ObjectPrototype {Number} : gmap string (JSValue Number) :=
  <[ "__proto__" := JObject objectPrototypeData ]> objectPrototypeData.

Definition objectLiteral {Number} (properties : gmap string (JSValue Number))
  : JSObject Number :=
  mkObject properties [ObjectPrototype].

(** [isInvalid] of [jsutils] is [value === undefined || value !== value];
    where no number is [NaN], only [undefined] is invalid. *)
Definition isUndefined {Number} (value : JSValue Number) : bool :=
  match value with JUndefined => true | _ => false end.

(** The lexer of a body after [n] calls of [advance]: the state in which a
    production finds the lexer in the middle of an input. *)
Definition lexerAfter (n : nat) (body : string) : Lexer :=
  Nat.iter n
    (λ lexer, match advance lexer with Ok _ lexer' => lexer' | _ => lexer end)
    (createLexer (IsSource (Source.new body)) (mkOptions None)).

(** Whether a value tree contains a [Variable] node. *)
Fixpoint hasVariable (node : ValueNode) : bool :=
  match node with
  | VariableValue _ => true
  | ListValue values _ => existsb hasVariable values
  | ObjectValue fields _ =>
      existsb (λ field, match field with
                        | ObjectField _ value _ => hasVariable value
                        end) fields
  | _ => false
  end.

Definition fieldHasVariable (node : ObjectFieldNode) : bool :=
  match node with ObjectField _ value _ => hasVariable value end.

(** A result that is the [TypeError] usage error. *)
Definition throwsTypeError {A} (result : Res A) : Prop :=
  ∃ message, result = Throw (TypeError message).

(** ** Specifications used in the proofs *)

(** Termination: [consumes p lexer] and [keeps p lexer] say that [p] does not
    run out of fuel from [lexer] and leaves strictly fewer, resp. no more,
    tokens to read. *)
Abbreviation consumes p lexer :=
  (wp False (λ _, True) p (λ _ lexer', lt (size lexer') (size lexer)) lexer).
Abbreviation keeps p lexer :=
  (wp False (λ _, True) p (λ _ lexer', le (size lexer') (size lexer)) lexer).

(** Locations and errors: [located e p lexer] says that [p] leaves the
    source, options and lexer error [e] unchanged, returns a tree whose
    locations follow the policy for [e], and throws only syntax errors on that
    source or the lexer's own error. *)
Abbreviation located e p lexer :=
  (wp True (errOK e) p
     (λ a lexer', env lexer' = e ∧ Forall (locOK e) (locs a)) lexer).
Abbreviation framed e p lexer :=
  (wp True (errOK e) p (λ _ lexer', env lexer' = e) lexer).

(** [returns p Q lexer]: the tree that [p] returns from [lexer] satisfies [Q]. *)
Abbreviation returns p Q lexer := (wp True (λ _, True) p (λ a _, Q a) lexer).

(** [spanning p lexer]: [p] gives the node it returns the span that starts
    at the current token of [lexer]. *)
Abbreviation spanning p lexer :=
  (wp True (λ _, True) p
     (λ node lexer', head (locs node) = Some (locAt (Lexer.token lexer) lexer'))
     lexer).

Abbreviation notOn := (λ name : string, name ≠ "on").

(** The operation of an operation definition is one of the three keywords. *)
Definition operationOK (node : DefinitionNode) : Prop :=
  match node with
  | OperationDefinition operation _ _ _ _ _ => operation ∈ operationKeywords
  | _ => True
  end.

Definition isExecutable (node : DefinitionNode) : bool :=
  match node with
  | OperationDefinition _ _ _ _ _ _ | FragmentDefinition _ _ _ _ _ => true
  | _ => false
  end.

(** The shorthand form of an operation: a selection set alone. *)
Definition isShorthand (node : DefinitionNode) : Prop :=
  ∃ selectionSet l, node = OperationDefinition "query" None [] [] selectionSet l.

Definition isTypeError (e : Error) : Prop := ∃ message, e = TypeError message.

(** ** Properties of the remaining productions *)

(** Whether every selection set of a tree holds at least one selection. *)
Fixpoint selectionSetFilled (node : SelectionSetNode) : bool :=
  match node with
  | SelectionSet selections _ =>
      match selections with
      | [] => false
      | _ :: _ => forallb selectionFilled selections
      end
  end
with selectionFilled (node : SelectionNode) : bool :=
  match node with
  | Field _ _ _ _ selectionSet _ =>
      from_option selectionSetFilled true selectionSet
  | FragmentSpread _ _ _ => true
  | InlineFragment _ _ selectionSet _ => selectionSetFilled selectionSet
  end.

(** The selection set of an executable definition. *)
Definition definitionSelectionSet (node : DefinitionNode)
  : option SelectionSetNode :=
  match node with
  | OperationDefinition _ _ _ _ selectionSet _
  | FragmentDefinition _ _ _ selectionSet _ => Some selectionSet
  | _ => None
  end.

(** The lexer state after [lexer.advance()] read the token [t], [rest] being
    the tokens that follow it. *)
Definition advanced (lexer : Lexer) (t : Token) (rest : list Token) : Lexer :=
  {| Lexer.source := Lexer.source lexer;
     Lexer.options := Lexer.options lexer;
     Lexer.lastToken := Lexer.token lexer;
     Lexer.token := t;
     Lexer.pending := rest;
     Lexer.fault := Lexer.fault lexer |}.

(** The lists of a type system definition that its production reads with
    [many] or with a do-while loop: none of them is empty. *)
Definition blocksFilled (node : DefinitionNode) : Prop :=
  match node with
  | SchemaDefinition _ operationTypes _ => operationTypes ≠ []
  | ObjectTypeDefinition _ _ _ _ fields _ => fields ≠ []
  | InterfaceTypeDefinition _ _ _ fields _ => fields ≠ []
  | UnionTypeDefinition _ _ _ types _ => types ≠ []
  | EnumTypeDefinition _ _ _ values _ => values ≠ []
  | InputObjectTypeDefinition _ _ _ fields _ => fields ≠ []
  | DirectiveDefinition _ _ _ locations _ => locations ≠ []
  | _ => True
  end.

(** The names that a production checks against a closed set: the operation
    of each operation type of a schema definition, and each location of a
    directive definition. *)
Definition operationTypeOK (node : OperationTypeDefinitionNode) : Prop :=
  match node with
  | OperationTypeDefinition operation _ _ => operation ∈ operationKeywords
  end.

Definition locationOK (node : NameNode) : Prop :=
  match node with Name value _ => value ∈ DirectiveLocation end.

Definition closedNames (node : DefinitionNode) : Prop :=
  match node with
  | SchemaDefinition _ operationTypes _ => Forall operationTypeOK operationTypes
  | DirectiveDefinition _ _ _ locations _ => Forall locationOK locations
  | _ => True
  end.

(** The values of a type system definition: the arguments of its
    directives and the default values of its input values, at every depth. *)
Definition argumentValue (node : ArgumentNode) : ValueNode :=
  match node with Argument _ value _ => value end.

Definition directiveValues (node : DirectiveNode) : list ValueNode :=
  match node with Directive _ arguments _ => map argumentValue arguments end.

Definition inputValueValues (node : InputValueDefinitionNode)
  : list ValueNode :=
  match node with
  | InputValueDefinition _ _ _ defaultValue directives _ =>
      option_list defaultValue ++ flat_map directiveValues directives
  end.

Definition fieldDefinitionValues (node : FieldDefinitionNode)
  : list ValueNode :=
  match node with
  | FieldDefinition _ _ arguments _ directives _ =>
      flat_map inputValueValues arguments ++ flat_map directiveValues directives
  end.

Definition enumValueValues (node : EnumValueDefinitionNode) : list ValueNode :=
  match node with
  | EnumValueDefinition _ _ directives _ => flat_map directiveValues directives
  end.

Definition typeSystemValues (node : DefinitionNode) : list ValueNode :=
  match node with
  | OperationDefinition _ _ _ _ _ _ | FragmentDefinition _ _ _ _ _ => []
  | SchemaDefinition directives _ _ => flat_map directiveValues directives
  | ScalarTypeDefinition _ _ directives _ => flat_map directiveValues directives
  | ObjectTypeDefinition _ _ _ directives fields _ =>
      flat_map directiveValues directives ++
      flat_map fieldDefinitionValues fields
  | InterfaceTypeDefinition _ _ directives fields _ =>
      flat_map directiveValues directives ++
      flat_map fieldDefinitionValues fields
  | UnionTypeDefinition _ _ directives _ _ =>
      flat_map directiveValues directives
  | EnumTypeDefinition _ _ directives values _ =>
      flat_map directiveValues directives ++ flat_map enumValueValues values
  | InputObjectTypeDefinition _ _ directives fields _ =>
      flat_map directiveValues directives ++ flat_map inputValueValues fields
  | ObjectTypeExtension _ _ directives fields _ =>
      flat_map directiveValues directives ++
      flat_map fieldDefinitionValues fields
  | DirectiveDefinition _ _ arguments _ _ =>
      flat_map inputValueValues arguments
  end.

Abbreviation constValue := (λ value : ValueNode, hasVariable value = false).

(** The keyword that announces a definition, and its description. *)
Definition definitionKeyword (node : DefinitionNode) : string :=
  match node with
  | OperationDefinition operation _ _ _ _ _ => operation
  | FragmentDefinition _ _ _ _ _ => "fragment"
  | SchemaDefinition _ _ _ => "schema"
  | ScalarTypeDefinition _ _ _ _ => "scalar"
  | ObjectTypeDefinition _ _ _ _ _ _ => "type"
  | InterfaceTypeDefinition _ _ _ _ _ => "interface"
  | UnionTypeDefinition _ _ _ _ _ => "union"
  | EnumTypeDefinition _ _ _ _ _ => "enum"
  | InputObjectTypeDefinition _ _ _ _ _ => "input"
  | ObjectTypeExtension _ _ _ _ _ => "extend"
  | DirectiveDefinition _ _ _ _ _ => "directive"
  end.

Definition descriptionOf (node : DefinitionNode) : option StringValueNode :=
  match node with
  | ScalarTypeDefinition description _ _ _
  | ObjectTypeDefinition description _ _ _ _ _
  | InterfaceTypeDefinition description _ _ _ _
  | UnionTypeDefinition description _ _ _ _
  | EnumTypeDefinition description _ _ _ _
  | InputObjectTypeDefinition description _ _ _ _
  | DirectiveDefinition description _ _ _ _ => description
  | _ => None
  end.

(** Whether a token is a string, which [peekDescription] takes for a
    description. *)
Definition isString (token : Token) : bool :=
  bool_decide (Token.kind token = TokenKind.STRING) ||
  bool_decide (Token.kind token = TokenKind.BLOCK_STRING).

(** The string node that [parseStringLiteral] builds from a token. *)
Definition stringOf (token : Token) (l : option Location) : StringValueNode :=
  StringValue (valueString token)
    (bool_decide (Token.kind token = TokenKind.BLOCK_STRING)) l.

(** How the tokens on which [parseDefinition] starts announce the definition
    that it returns: the keyword is the current token, or follows the string
    that becomes the description. *)
Definition announced (lexer : Lexer) (node : DefinitionNode) : Prop :=
  if isString (Lexer.token lexer)
  then ∃ t rest l,
         readNext (Lexer.pending lexer) = Some (t, rest) ∧
         Token.kind t = TokenKind.NAME ∧
         Token.value t = Some (definitionKeyword node) ∧
         descriptionOf node = Some (stringOf (Lexer.token lexer) l)
  else Token.kind (Lexer.token lexer) = TokenKind.NAME ∧
       Token.value (Lexer.token lexer) = Some (definitionKeyword node) ∧
       descriptionOf node = None.


(** The keywords that can follow a description. *)
Definition describedKeywords : list string :=
  [ "scalar"; "type"; "interface"; "union"; "enum"; "input"; "directive" ].

(** The names that are not enum values, and whether every [EnumValue] of a
    value tree has another name. *)
Definition reservedNames : list string := [ "true"; "false"; "null" ].

Fixpoint enumsNamed (node : ValueNode) : bool :=
  match node with
  | EnumValue value _ => negb (bool_decide (value ∈ reservedNames))
  | ListValue values _ => forallb enumsNamed values
  | ObjectValue fields _ =>
      forallb (λ field, match field with
                        | ObjectField _ value _ => enumsNamed value
                        end) fields
  | _ => true
  end.

Definition nameValue (node : NameNode) : string :=
  match node with Name value _ => value end.

(** ** Trees without locations

    [strip a] is the tree [a] with the [loc] of every node removed, and
    [quiet lexer] is the lexer [lexer] under the option [noLocation]. *)
Class Strip (A : Type) := strip : A → A.
#[global] Hint Mode Strip ! : typeclass_instances.

#[global] Instance Strip_loc : Strip (option Location) := λ _, None.
#[global] Instance Strip_list {A} `{Strip A} : Strip (list A) := map strip.
#[global] Instance Strip_option {A} `{Strip A} : Strip (option A) :=
  option_map strip.
#[global] Instance Strip_pair {A B} `{Strip A} `{Strip B} : Strip (A * B) :=
  λ pair, (strip pair.1, strip pair.2).
#[global] Instance Strip_token : Strip Token := λ token, token.
#[global] Instance Strip_bool : Strip bool := λ b, b.
#[global] Instance Strip_string : Strip string := λ s, s.

#[global] Instance Strip_Name : Strip NameNode := stripName.
#[global] Instance Strip_Variable : Strip VariableNode :=
  λ node, match node with Variable_ name _ => Variable_ (strip name) None end.
#[global] Instance Strip_StringValue : Strip StringValueNode :=
  λ node, match node with
          | StringValue value block _ => StringValue value block None
          end.
#[global] Instance Strip_Value : Strip ValueNode := stripLoc.
#[global] Instance Strip_ObjectField : Strip ObjectFieldNode := stripFieldLoc.
#[global] Instance Strip_NamedType : Strip NamedTypeNode :=
  λ node, match node with NamedType name _ => NamedType (strip name) None end.

Fixpoint stripType (node : TypeNode) : TypeNode :=
  match node with
  | NamedTypeRef named => NamedTypeRef (strip named)
  | ListType type _ => ListType (stripType type) None
  | NonNullType type _ => NonNullType (stripType type) None
  end.
#[global] Instance Strip_Type : Strip TypeNode := stripType.

#[global] Instance Strip_Argument : Strip ArgumentNode :=
  λ node, match node with
          | Argument name value _ => Argument (strip name) (strip value) None
          end.
#[global] Instance Strip_Directive : Strip DirectiveNode :=
  λ node, match node with
          | Directive name arguments _ =>
              Directive (strip name) (strip arguments) None
          end.
#[global] Instance Strip_VariableDefinition : Strip VariableDefinitionNode :=
  λ node, match node with
          | VariableDefinition variable type defaultValue _ =>
              VariableDefinition (strip variable) (strip type)
                (strip defaultValue) None
          end.

Fixpoint stripSelectionSet (node : SelectionSetNode) : SelectionSetNode :=
  match node with
  | SelectionSet selections _ =>
      SelectionSet (map stripSelection selections) None
  end
with stripSelection (node : SelectionNode) : SelectionNode :=
  match node with
  | Field alias name arguments directives selectionSet _ =>
      Field (strip alias) (strip name) (strip arguments) (strip directives)
        (option_map stripSelectionSet selectionSet) None
  | FragmentSpread name directives _ =>
      FragmentSpread (strip name) (strip directives) None
  | InlineFragment typeCondition directives selectionSet _ =>
      InlineFragment (strip typeCondition) (strip directives)
        (stripSelectionSet selectionSet) None
  end.
#[global] Instance Strip_SelectionSet : Strip SelectionSetNode :=
  stripSelectionSet.
#[global] Instance Strip_Selection : Strip SelectionNode := stripSelection.

#[global] Instance Strip_OperationTypeDefinition
  : Strip OperationTypeDefinitionNode :=
  λ node, match node with
          | OperationTypeDefinition operation type _ =>
              OperationTypeDefinition operation (strip type) None
          end.
#[global] Instance Strip_InputValueDefinition
  : Strip InputValueDefinitionNode :=
  λ node, match node with
          | InputValueDefinition description name type defaultValue
              directives _ =>
              InputValueDefinition (strip description) (strip name)
                (strip type) (strip defaultValue) (strip directives) None
          end.
#[global] Instance Strip_FieldDefinition : Strip FieldDefinitionNode :=
  λ node, match node with
          | FieldDefinition description name arguments type directives _ =>
              FieldDefinition (strip description) (strip name)
                (strip arguments) (strip type) (strip directives) None
          end.
#[global] Instance Strip_EnumValueDefinition : Strip EnumValueDefinitionNode :=
  λ node, match node with
          | EnumValueDefinition description name directives _ =>
              EnumValueDefinition (strip description) (strip name)
                (strip directives) None
          end.
#[global] Instance Strip_Definition : Strip DefinitionNode :=
  λ node,
    match node with
    | OperationDefinition operation name variableDefinitions directives
        selectionSet _ =>
        OperationDefinition operation (strip name) (strip variableDefinitions)
          (strip directives) (strip selectionSet) None
    | FragmentDefinition name typeCondition directives selectionSet _ =>
        FragmentDefinition (strip name) (strip typeCondition)
          (strip directives) (strip selectionSet) None
    | SchemaDefinition directives operationTypes _ =>
        SchemaDefinition (strip directives) (strip operationTypes) None
    | ScalarTypeDefinition description name directives _ =>
        ScalarTypeDefinition (strip description) (strip name)
          (strip directives) None
    | ObjectTypeDefinition description name interfaces directives fields _ =>
        ObjectTypeDefinition (strip description) (strip name)
          (strip interfaces) (strip directives) (strip fields) None
    | InterfaceTypeDefinition description name directives fields _ =>
        InterfaceTypeDefinition (strip description) (strip name)
          (strip directives) (strip fields) None
    | UnionTypeDefinition description name directives types _ =>
        UnionTypeDefinition (strip description) (strip name)
          (strip directives) (strip types) None
    | EnumTypeDefinition description name directives values _ =>
        EnumTypeDefinition (strip description) (strip name)
          (strip directives) (strip values) None
    | InputObjectTypeDefinition description name directives fields _ =>
        InputObjectTypeDefinition (strip description) (strip name)
          (strip directives) (strip fields) None
    | ObjectTypeExtension name interfaces directives fields _ =>
        ObjectTypeExtension (strip name) (strip interfaces)
          (strip directives) (strip fields) None
    | DirectiveDefinition description name arguments locations _ =>
        DirectiveDefinition (strip description) (strip name)
          (strip arguments) (strip locations) None
    end.
#[global] Instance Strip_Document : Strip DocumentNode :=
  λ node, match node with
          | Document definitions _ => Document (strip definitions) None
          end.

Definition quiet (lexer : Lexer) : Lexer :=
  {| Lexer.source := Lexer.source lexer;
     Lexer.options := mkOptions (Some true);
     Lexer.lastToken := Lexer.lastToken lexer;
     Lexer.token := Lexer.token lexer;
     Lexer.pending := Lexer.pending lexer;
     Lexer.fault := Lexer.fault lexer |}.

(** The result of a run under [noLocation] that corresponds to a result of
    the same run with locations. *)
Definition quietResult {A} `{Strip A} (result : Res A) : Res A :=
  match result with
  | Ok a lexer => Ok (strip a) (quiet lexer)
  | Throw e => Throw e
  | OutOfFuel => OutOfFuel
  end.

(** [sim p p']: from the quiet lexer, [p'] does what [p] does from the
    lexer, up to locations. *)
Definition sim {A} `{Strip A} (p p' : Parser A) : Prop :=
  ∀ lexer, p' (quiet lexer) = quietResult (p lexer).

(** A result that, when it is an exception, carries a message that
    satisfies [M]. *)
Definition thrownWith {A} (M : string → Prop) (result : Outcome A) : Prop :=
  match result with Returned _ => True | Thrown message => M message end.


(** ** Where errors point

    [upcoming lexer token]: the token is the current token of the lexer or
    one that it has yet to read.  [moved lexer0 lexer]: the lexer [lexer] is
    [lexer0] after some tokens were consumed.  [errorAt lexer0 error]: the
    error is the one of the lexer, or a syntax error on its source that
    points at the start of one of its tokens. *)
Definition upcoming (lexer : Lexer) (token : Token) : Prop :=
  token = Lexer.token lexer ∨ token ∈ Lexer.pending lexer.

Definition moved (lexer0 lexer : Lexer) : Prop :=
  env lexer = env lexer0 ∧
  ∀ token, upcoming lexer token → upcoming lexer0 token.

Definition errorAt (lexer0 : Lexer) (error : Error) : Prop :=
  error = Lexer.fault lexer0 ∨
  ∃ token description,
    upcoming lexer0 token ∧
    error = SyntaxError (Lexer.source lexer0) (Token.start token) description.

Abbreviation positioned lexer0 p lexer :=
  (wp True (errorAt lexer0) p (λ _ lexer', moved lexer0 lexer') lexer).

(** ** The tokens that a production reads

    [consume n lexer]: the tokens that [n] calls of [lexer.advance()] leave
    behind, and the lexer after them; none of them is the [EOF] token, on
    which the lexer stays.  [word token]: what a token says, without its
    place in the source. *)
Fixpoint consume (n : nat) (lexer : Lexer) : option (list Token * Lexer) :=
  match n with
  | O => Some ([], lexer)
  | S n' =>
      if decide (Token.kind (Lexer.token lexer) = TokenKind.EOF) then None
      else match advance lexer with
           | Ok _ lexer1 =>
               match consume n' lexer1 with
               | Some (tokens, lexer') =>
                   Some (Lexer.token lexer :: tokens, lexer')
               | None => None
               end
           | _ => None
           end
  end.

Definition word (token : Token) : TokenKind.t * option string :=
  (Token.kind token, Token.value token).

(** The names among some tokens. *)
Definition names (tokens : list Token) : list string :=
  map valueString
    (filter (λ token, Token.kind token = TokenKind.NAME) tokens).

(** How a type reference is written: the kinds of its tokens, and the name
    of its named type. *)
Fixpoint typeKinds (node : TypeNode) : list TokenKind.t :=
  match node with
  | NamedTypeRef _ => [TokenKind.NAME]
  | ListType type _ =>
      TokenKind.BRACKET_L :: typeKinds type ++ [TokenKind.BRACKET_R]
  | NonNullType type _ => typeKinds type ++ [TokenKind.BANG]
  end.

Fixpoint typeName (node : TypeNode) : string :=
  match node with
  | NamedTypeRef (NamedType (Name value _) _) => value
  | ListType type _ => typeName type
  | NonNullType type _ => typeName type
  end.

(** ** The same text in two places

    [reach lexer0 n lexer]: [n] calls of [lexer.advance()] lead from [lexer0]
    to [lexer].  [alike R p1 p2 lexer1 lexer2]: whenever [p1] returns from
    [lexer1], and the tokens that it has read there are, word for word, the
    tokens that [lexer2] has to read first, [p2] returns from [lexer2] a
    result related by [R], having read as many tokens. *)
Definition reach (lexer0 : Lexer) (n : nat) (lexer : Lexer) : Prop :=
  ∃ tokens, consume n lexer0 = Some (tokens, lexer).

Definition alike {A} (R : A → A → Prop) (p1 p2 : Parser A)
    (lexer1 lexer2 : Lexer) : Prop :=
  ∀ a1 lexer1' n tokens1 tokens2 lexer2',
    p1 lexer1 = Ok a1 lexer1' →
    consume n lexer1 = Some (tokens1, lexer1') →
    consume n lexer2 = Some (tokens2, lexer2') →
    map word tokens1 = map word tokens2 →
    ∃ a2, p2 lexer2 = Ok a2 lexer2' ∧ R a1 a2.

Definition sameWord (token1 token2 : Token) : Prop :=
  word token2 = word token1.

Definition sameTree {A} `{Strip A} (a1 a2 : A) : Prop := strip a2 = strip a1.

Definition whatever {A} (a1 a2 : A) : Prop := True.

Abbreviation reading lexer0 n0 k p lexer :=
  (wp True (λ _, True) p
     (λ _ lexer', ∃ n, (n0 + k ≤ n)%nat ∧ reach lexer0 n lexer') lexer).

(** [extends p p']: [p'] does what [p] does wherever [p] has fuel enough. *)
Definition extends {A} (p p' : Parser A) : Prop :=
  ∀ lexer, p lexer ≠ OutOfFuel → p' lexer = p lexer.

(** * Proofs *)

(** ** Rules of the program logic *)

Section Rules.
Context {A : Type} (F : Prop) (E : Error → Prop).
Implicit Types (Q : A → Lexer → Prop) (lexer : Lexer).

Lemma wp_ret a Q lexer : Q a lexer → wp F E (ret a) Q lexer.
Proof. done. Qed.

Lemma wp_throw e Q lexer : E (e lexer) → wp F E (throw e) Q lexer.
Proof. done. Qed.

Lemma wp_bind {B} (m : Parser B) (k : B → Parser A) Q lexer :
  wp F E m (λ b lexer', wp F E (k b) Q lexer') lexer →
  wp F E (bind m k) Q lexer.
Proof. unfold wp, bind. by destruct (m lexer). Qed.

Lemma wp_mono (p : Parser A) (Q Q' : A → Lexer → Prop) lexer :
  wp F E p Q lexer → (∀ a lexer', Q a lexer' → Q' a lexer') →
  wp F E p Q' lexer.
Proof. unfold wp. destruct (p lexer); auto. Qed.

Lemma wp_outOfFuel Q lexer : F → wp F E outOfFuel Q lexer.
Proof. done. Qed.
End Rules.

Lemma wp_weaken {A} (F F' : Prop) (E E' : Error → Prop) (p : Parser A) Q lexer :
  wp F E p Q lexer → (F → F') → (∀ e, E e → E' e) → wp F' E' p Q lexer.
Proof. unfold wp. destruct (p lexer); auto. Qed.

(** Every run satisfies the trivial specification. *)
Lemma wp_trivial {A} (p : Parser A) lexer :
  wp True (λ _, True) p (λ _ _, True) lexer.
Proof. unfold wp. by destruct (p lexer). Qed.

Lemma readNext_length pending t rest :
  readNext pending = Some (t, rest) →
  (length rest < length pending)%nat ∧ Token.kind t ≠ TokenKind.COMMENT.
Proof.
  induction pending as [|t' pending IH]; simpl; [done|].
  case_decide as Hc.
  - intros Hr. destruct (IH Hr). split; [lia | done].
  - intros [= <- <-]. split; [lia | done].
Qed.

Section Primitives.
Context {F : Prop} {E : Error → Prop}.

Lemma wp_getToken (Q : Token → Lexer → Prop) lexer :
  Q (Lexer.token lexer) lexer → wp F E getToken Q lexer.
Proof. done. Qed.

Lemma wp_peek kind (Q : bool → Lexer → Prop) lexer :
  Q (bool_decide (Token.kind (Lexer.token lexer) = kind)) lexer →
  wp F E (peek kind) Q lexer.
Proof. done. Qed.

Lemma wp_loc startToken (Q : option Location → Lexer → Prop) lexer :
  Q (locAt startToken lexer) lexer → wp F E (loc startToken) Q lexer.
Proof. unfold wp, loc, locAt. by destruct (negb _). Qed.

Lemma wp_advance (Q : Token → Lexer → Prop) lexer :
  (∀ lexer', stepTo lexer lexer' → Q (Lexer.token lexer') lexer') →
  E (Lexer.fault lexer) →
  wp F E advance Q lexer.
Proof.
  intros HQ HE. unfold wp, advance. case_decide as Hk.
  - apply (HQ (Lexer.mk _ _ _ _ _ _)). by split.
  - destruct (readNext _) as [[t rest]|] eqn:Hr; [|done].
    pose proof (readNext_length _ _ _ Hr) as [Hlen _].
    apply (HQ (Lexer.mk _ _ _ _ _ _)). split; unfold size; simpl; auto with lia.
Qed.

Lemma wp_lookahead (Q : Token → Lexer → Prop) lexer :
  (∀ t, Q t lexer) → E (Lexer.fault lexer) → wp F E lookahead Q lexer.
Proof.
  intros HQ HE. unfold wp, lookahead. case_decide; [done|].
  by destruct (readNext _) as [[t rest]|].
Qed.

Lemma wp_skip kind (Q : bool → Lexer → Prop) lexer :
  (Token.kind (Lexer.token lexer) = kind →
   ∀ lexer', stepTo lexer lexer' → Q true lexer') →
  (Token.kind (Lexer.token lexer) ≠ kind → Q false lexer) →
  E (Lexer.fault lexer) →
  wp F E (skip kind) Q lexer.
Proof.
  intros Hyes Hno HE. unfold skip. apply wp_bind, wp_getToken.
  case_bool_decide.
  - apply wp_bind, wp_advance; [|done]. intros. by apply wp_ret, Hyes.
  - by apply wp_ret, Hno.
Qed.

Lemma wp_notSkip kind (Q : bool → Lexer → Prop) lexer :
  (Token.kind (Lexer.token lexer) = kind →
   ∀ lexer', stepTo lexer lexer' → Q false lexer') →
  (Token.kind (Lexer.token lexer) ≠ kind → Q true lexer) →
  E (Lexer.fault lexer) →
  wp F E (notSkip kind) Q lexer.
Proof.
  intros Hyes Hno HE. unfold notSkip. apply wp_bind, wp_skip; [| |done].
  - intros. by apply wp_ret, Hyes.
  - intros. by apply wp_ret, Hno.
Qed.

Lemma wp_expect kind (Q : Token → Lexer → Prop) lexer :
  (Token.kind (Lexer.token lexer) = kind →
   ∀ lexer', stepTo lexer lexer' → Q (Lexer.token lexer) lexer') →
  (Token.kind (Lexer.token lexer) ≠ kind →
   ∀ description,
     E (SyntaxError (Lexer.source lexer) (Token.start (Lexer.token lexer))
          description)) →
  E (Lexer.fault lexer) →
  wp F E (expect kind) Q lexer.
Proof.
  intros Hyes Hno HE. unfold expect. apply wp_bind, wp_getToken.
  case_bool_decide.
  - apply wp_bind, wp_advance; [|done]. intros. by apply wp_ret, Hyes.
  - by apply wp_throw, Hno.
Qed.

Lemma wp_expectKeyword value (Q : Token → Lexer → Prop) lexer :
  (Token.kind (Lexer.token lexer) = TokenKind.NAME →
   Token.value (Lexer.token lexer) = Some value →
   ∀ lexer', stepTo lexer lexer' → Q (Lexer.token lexer) lexer') →
  (∀ description,
     E (SyntaxError (Lexer.source lexer) (Token.start (Lexer.token lexer))
          description)) →
  E (Lexer.fault lexer) →
  wp F E (expectKeyword value) Q lexer.
Proof.
  intros Hyes Hno HE. unfold expectKeyword. apply wp_bind, wp_getToken.
  destruct (_ && _) eqn:Hc.
  - apply andb_prop in Hc as [Hk Hv].
    apply bool_decide_eq_true in Hk, Hv.
    apply wp_bind, wp_advance; [|done]. intros. by apply wp_ret, Hyes.
  - by apply wp_throw, Hno.
Qed.

(** The loop rule: an invariant indexed by the remaining fuel. *)
Lemma wp_pushWhile {T} (I : nat → list T → Lexer → Prop)
    (Q : list T → Lexer → Prop) fuel cond parseFn nodes lexer :
  I fuel nodes lexer →
  (∀ nodes lexer, I 0%nat nodes lexer → F) →
  (∀ n nodes lexer, I (S n) nodes lexer →
     wp F E cond (λ (b : bool) lexer',
       if b then wp F E parseFn (λ node lexer'', I n (nodes ++ [node]) lexer'')
                  lexer'
       else Q nodes lexer') lexer) →
  wp F E (pushWhile fuel cond parseFn nodes) Q lexer.
Proof.
  intros HI H0 HS. revert nodes lexer HI.
  induction fuel as [|fuel IH]; intros nodes lexer HI; simpl.
  - eapply wp_outOfFuel, H0, HI.
  - apply wp_bind. eapply wp_mono; [by apply HS|].
    intros [] lexer' Hb; simpl in Hb.
    + apply wp_bind. eapply wp_mono; [done|]. intros; by apply IH.
    + by apply wp_ret.
Qed.
End Primitives.

(** *** Proof automation

    [wp_prim] takes one step through the body of a production: the monad
    operations and the token-stream combinators have exact rules, branches are
    split.  [wp_run call] alternates it with [call], the tactic that applies
    the specification of a production called by the body. *)
Ltac bool_hyps :=
  repeat match goal with
  | H : bool_decide _ = true |- _ => apply bool_decide_eq_true in H
  | H : bool_decide _ = false |- _ => apply bool_decide_eq_false in H
  | H : negb _ = true |- _ => apply negb_true_iff in H
  | H : negb _ = false |- _ => apply negb_false_iff in H
  | H : (_ && _) = true |- _ => apply andb_prop in H as [? ?]
  | H : (_ || _) = false |- _ => apply orb_false_elim in H as [? ?]
  | H : (_ || _) = true |- _ => apply orb_prop in H as [?|?]
  | H : (_ && _) = false |- _ => apply andb_false_iff in H as [?|?]
  end.

Ltac wp_prim :=
  cbv beta zeta;
  lazymatch goal with
  | |- wp _ _ (bind _ _) _ _ => apply wp_bind
  | |- wp _ _ (ret _) _ _ => apply wp_ret
  | |- wp _ _ (throw _) _ _ => apply wp_throw
  | |- wp _ _ outOfFuel _ _ => apply wp_outOfFuel
  | |- wp _ _ getToken _ _ => apply wp_getToken
  | |- wp _ _ (peek _) _ _ => apply wp_peek
  | |- wp _ _ (loc _) _ _ => apply wp_loc
  | |- wp _ _ advance _ _ => apply wp_advance; [intros ? ?|]
  | |- wp _ _ lookahead _ _ => apply wp_lookahead; [intros ?|]
  | |- wp _ _ (skip _) _ _ => apply wp_skip; [intros ? ? ?|intros ?|]
  | |- wp _ _ (notSkip _) _ _ => apply wp_notSkip; [intros ? ? ?|intros ?|]
  | |- wp _ _ (expect _) _ _ => apply wp_expect; [intros ? ? ?|intros ? ?|]
  | |- wp _ _ (expectKeyword _) _ _ =>
      apply wp_expectKeyword; [intros ? ? ? ?|intros ?|]
  | |- wp _ _ (if ?b then _ else _) _ _ => destruct b eqn:?
  | |- wp _ _ (match ?x with _ => _ end) _ _ => destruct x eqn:?
  end.

Ltac wp_run call := repeat first [wp_prim | call]; cbv beta zeta.

(** The facts that the steps of the lexer contribute to arithmetic goals. *)
Ltac use_steps :=
  repeat match goal with
  | H : stepTo _ _ |- _ =>
      let Hs := fresh "Hsize" in
      pose proof (step_size _ _ H) as Hs;
      try (let Hq := fresh "Hstrict" in
           pose proof (step_strict _ _ H ltac:(congruence)) as Hq);
      clear H
  end.

Ltac size_solver := bool_hyps; use_steps; simpl in *; lia.

(** ** Termination: every production consumes tokens

    With more fuel than there are tokens to read, no production runs out of
    fuel, and the productions that build a node leave strictly fewer tokens
    than they found. *)

Create HintDb progress discriminated.
#[local] Hint Extern 5 (_ < _)%nat => size_solver : progress.
#[local] Hint Extern 5 (_ ≤ _)%nat => size_solver : progress.
#[local] Hint Extern 5 (_ ≠ _) => (bool_hyps; congruence) : progress.

Ltac progress_call :=
  eapply wp_mono; [solve [eauto 12 with progress]|cbv beta; intros ? ? ?].

Ltac progress_go := wp_run progress_call; try done; try size_solver.

Lemma parseName_consumes lexer : consumes parseName lexer.
Proof. unfold parseName. progress_go. Qed.
#[local] Hint Resolve parseName_consumes : progress.

Lemma parseVariable_consumes lexer : consumes parseVariable lexer.
Proof. unfold parseVariable. progress_go. Qed.
#[local] Hint Resolve parseVariable_consumes : progress.

Lemma parseNamedType_consumes lexer : consumes parseNamedType lexer.
Proof. unfold parseNamedType. progress_go. Qed.
#[local] Hint Resolve parseNamedType_consumes : progress.

Lemma parseTypeReference_consumes fuel lexer :
  (size lexer < fuel)%nat → consumes (parseTypeReference fuel) lexer.
Proof.
  revert lexer. induction fuel as [|fuel IH]; intros lexer Hfuel; [lia|].
  simpl. progress_go.
Qed.
#[local] Hint Resolve parseTypeReference_consumes : progress.

Lemma parseStringLiteral_consumes lexer :
  Token.kind (Lexer.token lexer) ≠ TokenKind.EOF →
  consumes parseStringLiteral lexer.
Proof. intros. unfold parseStringLiteral. progress_go. Qed.
#[local] Hint Resolve parseStringLiteral_consumes : progress.

Lemma pushWhile_keeps {T} fuel cond (parseFn : Parser T) nodes lexer :
  (size lexer < fuel)%nat →
  (∀ lexer', (size lexer' ≤ size lexer)%nat → keeps cond lexer') →
  (∀ lexer', (size lexer' ≤ size lexer)%nat → consumes parseFn lexer') →
  keeps (pushWhile fuel cond parseFn nodes) lexer.
Proof.
  intros Hfuel Hcond Hfn.
  apply (wp_pushWhile (λ n _ lexer',
           (size lexer' < n)%nat ∧ (size lexer' ≤ size lexer)%nat));
    [lia | lia |].
  intros n nodes' lexer1 [Hn Hle].
  eapply wp_mono; [by apply Hcond|]. intros [] lexer2 H2; simpl in H2; [|lia].
  eapply wp_mono; [apply Hfn; lia|]. intros node lexer3 H3; simpl in H3. lia.
Qed.

Lemma peek_keeps kind lexer : keeps (peek kind) lexer.
Proof. progress_go. Qed.

Lemma skip_keeps kind lexer : keeps (skip kind) lexer.
Proof. progress_go. Qed.

Lemma notSkip_keeps kind lexer : keeps (notSkip kind) lexer.
Proof. progress_go. Qed.
#[local] Hint Resolve peek_keeps skip_keeps notSkip_keeps : progress.

Lemma any_consumes {T} fuel openKind (parseFn : Parser T) closeKind lexer :
  openKind ≠ TokenKind.EOF →
  (size lexer ≤ fuel)%nat →
  (∀ lexer', (size lexer' < size lexer)%nat → consumes parseFn lexer') →
  consumes (any fuel openKind parseFn closeKind) lexer.
Proof.
  intros Hopen Hfuel Hfn. unfold any. wp_prim. wp_prim; [|done..].
  eapply wp_mono.
  - apply pushWhile_keeps; [size_solver| |].
    + intros. apply notSkip_keeps.
    + intros. apply Hfn. size_solver.
  - cbv beta. intros. size_solver.
Qed.

Lemma many_consumes {T} fuel openKind (parseFn : Parser T) closeKind lexer :
  openKind ≠ TokenKind.EOF →
  (size lexer ≤ fuel)%nat →
  (∀ lexer', (size lexer' < size lexer)%nat → consumes parseFn lexer') →
  consumes (many fuel openKind parseFn closeKind) lexer.
Proof.
  intros Hopen Hfuel Hfn. unfold many. wp_prim. wp_prim; [|done..].
  wp_prim. eapply wp_mono; [apply Hfn; size_solver|]. cbv beta. intros.
  eapply wp_mono.
  - apply pushWhile_keeps; [size_solver| |].
    + intros. apply notSkip_keeps.
    + intros. apply Hfn. size_solver.
  - cbv beta. intros. size_solver.
Qed.

Section ValueCycleProgress.
Variable parseValueLiteral : bool → Parser ValueNode.
Variable lexer : Lexer.
Hypothesis cycle : ∀ isConst lexer',
  (size lexer' < size lexer)%nat → consumes (parseValueLiteral isConst) lexer'.

Lemma parseList_consumes fuel isConst :
  (size lexer ≤ fuel)%nat →
  consumes (parseList parseValueLiteral fuel isConst) lexer.
Proof.
  intros. unfold parseList. wp_prim. wp_prim. wp_prim.
  eapply wp_mono.
  { apply any_consumes; [done..|]. intros.
    destruct isConst; by apply cycle. }
  cbv beta; intros. progress_go.
Qed.

Lemma parseObjectField_consumes isConst lexer' :
  (size lexer' < size lexer)%nat →
  consumes (parseObjectField parseValueLiteral isConst) lexer'.
Proof.
  intros. unfold parseObjectField. progress_go.
Qed.

Lemma parseObject_consumes fuel isConst :
  (size lexer ≤ fuel)%nat →
  consumes (parseObject parseValueLiteral fuel isConst) lexer.
Proof.
  intros. unfold parseObject. wp_prim. wp_prim. wp_prim.
  wp_prim; [|done..]. wp_prim.
  eapply wp_mono.
  { apply pushWhile_keeps; [size_solver| |].
    - intros. apply notSkip_keeps.
    - intros. apply parseObjectField_consumes. size_solver. }
  cbv beta; intros. progress_go.
Qed.
End ValueCycleProgress.

Lemma parseValueLiteral_consumes fuel isConst lexer :
  (size lexer < fuel)%nat → consumes (parseValueLiteral fuel isConst) lexer.
Proof.
  revert isConst lexer.
  induction fuel as [|fuel IH]; intros isConst lexer Hfuel; [lia|].
  simpl. wp_prim. wp_prim. wp_prim;
    try (apply parseList_consumes; [intros; apply IH|]; lia);
    try (apply parseObject_consumes; [intros; apply IH|]; lia);
    progress_go.
Qed.
#[local] Hint Resolve parseValueLiteral_consumes : progress.
#[local] Hint Resolve any_consumes many_consumes pushWhile_keeps : progress.

Lemma parseArgument_consumes fuel lexer :
  (size lexer < fuel)%nat → consumes (parseArgument fuel) lexer.
Proof. intros. unfold parseArgument. progress_go. Qed.

Lemma parseConstArgument_consumes fuel lexer :
  (size lexer < fuel)%nat → consumes (parseConstArgument fuel) lexer.
Proof. intros. unfold parseConstArgument, parseConstValue. progress_go. Qed.
#[local] Hint Resolve parseArgument_consumes parseConstArgument_consumes
  : progress.

Lemma parseArguments_keeps fuel isConst lexer :
  (size lexer < fuel)%nat → keeps (parseArguments fuel isConst) lexer.
Proof. intros. unfold parseArguments. destruct isConst; progress_go. Qed.
#[local] Hint Resolve parseArguments_keeps : progress.

Lemma parseDirective_consumes fuel isConst lexer :
  (size lexer < fuel)%nat → consumes (parseDirective fuel isConst) lexer.
Proof. intros. unfold parseDirective. progress_go. Qed.
#[local] Hint Resolve parseDirective_consumes : progress.

Lemma parseDirectives_keeps fuel isConst lexer :
  (size lexer < fuel)%nat → keeps (parseDirectives fuel isConst) lexer.
Proof. intros. unfold parseDirectives. progress_go. Qed.
#[local] Hint Resolve parseDirectives_keeps : progress.

Lemma parseFragmentName_consumes lexer : consumes parseFragmentName lexer.
Proof. unfold parseFragmentName. progress_go. Qed.
#[local] Hint Resolve parseFragmentName_consumes : progress.

Section SelectionCycleProgress.
Variable parseSelectionSet : Parser SelectionSetNode.
Variable bound : nat.
Hypothesis cycle : ∀ lexer,
  (size lexer < bound)%nat → consumes parseSelectionSet lexer.

Lemma parseField_consumes fuel lexer :
  (size lexer < fuel)%nat → (size lexer < bound)%nat →
  consumes (parseField parseSelectionSet fuel) lexer.
Proof. intros. unfold parseField. progress_go. Qed.

Lemma parseFragment_consumes fuel lexer :
  (size lexer < fuel)%nat → (size lexer < bound)%nat →
  consumes (parseFragment parseSelectionSet fuel) lexer.
Proof. intros. unfold parseFragment. progress_go. Qed.

Lemma parseSelection_consumes fuel lexer :
  (size lexer < fuel)%nat → (size lexer < bound)%nat →
  consumes (parseSelection parseSelectionSet fuel) lexer.
Proof.
  intros. unfold parseSelection. wp_prim. wp_prim. wp_prim.
  - by apply parseFragment_consumes.
  - by apply parseField_consumes.
Qed.
End SelectionCycleProgress.

Lemma parseSelectionSet_consumes fuel lexer :
  (size lexer < fuel)%nat → consumes (parseSelectionSet fuel) lexer.
Proof.
  revert lexer. induction fuel as [|fuel IH]; intros lexer Hfuel; [lia|].
  simpl. wp_prim. wp_prim. wp_prim.
  eapply wp_mono.
  { apply many_consumes; [done|lia|]. intros.
    apply (parseSelection_consumes _ fuel); [done|lia..]. }
  cbv beta; intros. progress_go.
Qed.
#[local] Hint Resolve parseSelectionSet_consumes : progress.

Lemma parseOperationType_consumes lexer : consumes parseOperationType lexer.
Proof. unfold parseOperationType. progress_go. Qed.
#[local] Hint Resolve parseOperationType_consumes : progress.

Lemma parseVariableDefinition_consumes fuel lexer :
  (size lexer < fuel)%nat → consumes (parseVariableDefinition fuel) lexer.
Proof. intros. unfold parseVariableDefinition. progress_go. Qed.
#[local] Hint Resolve parseVariableDefinition_consumes : progress.

Lemma parseVariableDefinitions_keeps fuel lexer :
  (size lexer < fuel)%nat → keeps (parseVariableDefinitions fuel) lexer.
Proof. intros. unfold parseVariableDefinitions. progress_go. Qed.
#[local] Hint Resolve parseVariableDefinitions_keeps : progress.

Lemma parseOperationDefinition_consumes fuel lexer :
  (size lexer < fuel)%nat → consumes (parseOperationDefinition fuel) lexer.
Proof. intros. unfold parseOperationDefinition. progress_go. Qed.

Lemma parseFragmentDefinition_consumes fuel lexer :
  (size lexer < fuel)%nat → consumes (parseFragmentDefinition fuel) lexer.
Proof. intros. unfold parseFragmentDefinition. progress_go. Qed.

Lemma parseDescription_keeps lexer : keeps parseDescription lexer.
Proof. unfold parseDescription, peekDescription. progress_go. Qed.
#[local] Hint Resolve parseDescription_keeps : progress.

Lemma parseOperationTypeDefinition_consumes lexer :
  consumes parseOperationTypeDefinition lexer.
Proof. unfold parseOperationTypeDefinition. progress_go. Qed.
#[local] Hint Resolve parseOperationTypeDefinition_consumes : progress.

Lemma parseSchemaDefinition_consumes fuel lexer :
  (size lexer < fuel)%nat → consumes (parseSchemaDefinition fuel) lexer.
Proof. intros. unfold parseSchemaDefinition. progress_go. Qed.

Lemma parseScalarTypeDefinition_consumes fuel lexer :
  (size lexer < fuel)%nat → consumes (parseScalarTypeDefinition fuel) lexer.
Proof. intros. unfold parseScalarTypeDefinition. progress_go. Qed.

Lemma parseImplementsInterfaces_keeps fuel lexer :
  (size lexer < fuel)%nat → keeps (parseImplementsInterfaces fuel) lexer.
Proof. intros. unfold parseImplementsInterfaces. progress_go. Qed.
#[local] Hint Resolve parseImplementsInterfaces_keeps : progress.

Lemma parseInputValueDef_consumes fuel lexer :
  (size lexer < fuel)%nat → consumes (parseInputValueDef fuel) lexer.
Proof. intros. unfold parseInputValueDef, parseConstValue. progress_go. Qed.
#[local] Hint Resolve parseInputValueDef_consumes : progress.

Lemma parseArgumentDefs_keeps fuel lexer :
  (size lexer < fuel)%nat → keeps (parseArgumentDefs fuel) lexer.
Proof. intros. unfold parseArgumentDefs. progress_go. Qed.
#[local] Hint Resolve parseArgumentDefs_keeps : progress.

Lemma parseFieldDefinition_consumes fuel lexer :
  (size lexer < fuel)%nat → consumes (parseFieldDefinition fuel) lexer.
Proof. intros. unfold parseFieldDefinition. progress_go. Qed.
#[local] Hint Resolve parseFieldDefinition_consumes : progress.

Lemma parseFieldDefinitions_consumes fuel lexer :
  (size lexer < fuel)%nat → consumes (parseFieldDefinitions fuel) lexer.
Proof. intros. unfold parseFieldDefinitions. progress_go. Qed.
#[local] Hint Resolve parseFieldDefinitions_consumes : progress.

Lemma parseObjectTypeDefinition_consumes fuel lexer :
  (size lexer < fuel)%nat → consumes (parseObjectTypeDefinition fuel) lexer.
Proof. intros. unfold parseObjectTypeDefinition. progress_go. Qed.

Lemma parseInterfaceTypeDefinition_consumes fuel lexer :
  (size lexer < fuel)%nat → consumes (parseInterfaceTypeDefinition fuel) lexer.
Proof. intros. unfold parseInterfaceTypeDefinition. progress_go. Qed.

Lemma parseUnionMembers_consumes fuel lexer :
  (size lexer < fuel)%nat → consumes (parseUnionMembers fuel) lexer.
Proof. intros. unfold parseUnionMembers. progress_go. Qed.
#[local] Hint Resolve parseUnionMembers_consumes : progress.

Lemma parseUnionTypeDefinition_consumes fuel lexer :
  (size lexer < fuel)%nat → consumes (parseUnionTypeDefinition fuel) lexer.
Proof. intros. unfold parseUnionTypeDefinition. progress_go. Qed.

Lemma parseEnumValueDefinition_consumes fuel lexer :
  (size lexer < fuel)%nat → consumes (parseEnumValueDefinition fuel) lexer.
Proof. intros. unfold parseEnumValueDefinition. progress_go. Qed.
#[local] Hint Resolve parseEnumValueDefinition_consumes : progress.

Lemma parseEnumTypeDefinition_consumes fuel lexer :
  (size lexer < fuel)%nat → consumes (parseEnumTypeDefinition fuel) lexer.
Proof. intros. unfold parseEnumTypeDefinition. progress_go. Qed.

Lemma parseInputObjectTypeDefinition_consumes fuel lexer :
  (size lexer < fuel)%nat → consumes (parseInputObjectTypeDefinition fuel) lexer.
Proof. intros. unfold parseInputObjectTypeDefinition. progress_go. Qed.

Lemma parseObjectTypeExtension_consumes fuel lexer :
  (size lexer < fuel)%nat → consumes (parseObjectTypeExtension fuel) lexer.
Proof. intros. unfold parseObjectTypeExtension. progress_go. Qed.
#[local] Hint Resolve parseObjectTypeExtension_consumes : progress.

Lemma parseTypeExtension_consumes fuel lexer :
  (size lexer < fuel)%nat → consumes (parseTypeExtension fuel) lexer.
Proof. intros. unfold parseTypeExtension. progress_go. Qed.

Lemma parseDirectiveLocation_consumes lexer :
  consumes parseDirectiveLocation lexer.
Proof. unfold parseDirectiveLocation. progress_go. Qed.
#[local] Hint Resolve parseDirectiveLocation_consumes : progress.

Lemma parseDirectiveLocations_consumes fuel lexer :
  (size lexer < fuel)%nat → consumes (parseDirectiveLocations fuel) lexer.
Proof. intros. unfold parseDirectiveLocations. progress_go. Qed.
#[local] Hint Resolve parseDirectiveLocations_consumes : progress.

Lemma parseDirectiveDefinition_consumes fuel lexer :
  (size lexer < fuel)%nat → consumes (parseDirectiveDefinition fuel) lexer.
Proof. intros. unfold parseDirectiveDefinition. progress_go. Qed.

#[local] Hint Resolve parseOperationDefinition_consumes
  parseFragmentDefinition_consumes parseSchemaDefinition_consumes
  parseScalarTypeDefinition_consumes parseObjectTypeDefinition_consumes
  parseInterfaceTypeDefinition_consumes parseUnionTypeDefinition_consumes
  parseEnumTypeDefinition_consumes parseInputObjectTypeDefinition_consumes
  parseTypeExtension_consumes parseDirectiveDefinition_consumes : progress.

Lemma parseTypeSystemDefinition_consumes fuel lexer :
  (size lexer < fuel)%nat → consumes (parseTypeSystemDefinition fuel) lexer.
Proof.
  intros. unfold parseTypeSystemDefinition, peekDescription. progress_go.
Qed.
#[local] Hint Resolve parseTypeSystemDefinition_consumes : progress.

Lemma parseDefinition_consumes fuel lexer :
  (size lexer < fuel)%nat → consumes (parseDefinition fuel) lexer.
Proof. intros. unfold parseDefinition, peekDescription. progress_go. Qed.
#[local] Hint Resolve parseDefinition_consumes : progress.

Lemma parseDocument_consumes fuel lexer :
  (size lexer < fuel)%nat → consumes (parseDocument fuel) lexer.
Proof. intros. unfold parseDocument. progress_go. Qed.

(** Enough fuel for a lexer state: more than the tokens it has yet to read.
    The entry points start the productions with [fuelFor], which is enough. *)
Lemma fuelFor_enough lexer : (size lexer < fuelFor lexer)%nat.
Proof. unfold fuelFor, size. lia. Qed.

(** ** Locations and errors: what every production guarantees

    From a lexer whose source, options and end-of-stream error are [e], a
    production returns a tree whose locations all follow the location policy
    and leaves [e] unchanged; its errors are syntax errors on that source or
    the lexer's own error. *)

Lemma errOK_fault e lexer : env lexer = e → errOK e (Lexer.fault lexer).
Proof. intros <-. by right. Qed.

Lemma errOK_syntax e lexer position description :
  env lexer = e →
  errOK e (SyntaxError (Lexer.source lexer) position description).
Proof. intros <-. left. eauto. Qed.

Lemma errOK_unexpected e lexer atToken :
  env lexer = e → errOK e (unexpected atToken lexer).
Proof. intros <-. left. unfold unexpected, syntaxError. eauto. Qed.

Lemma locOK_locAt e lexer startToken :
  env lexer = e → locOK e (locAt startToken lexer).
Proof.
  intros <-. unfold locOK, locAt, env; simpl.
  destruct (truthy _); simpl; eauto.
Qed.

Lemma locs_snoc {A} `{Locs A} (nodes : list A) (node : A) :
  locs (nodes ++ [node]) = locs nodes ++ locs node.
Proof.
  unfold locs at 1 2, Locs_list. rewrite flat_map_app. simpl.
  by rewrite app_nil_r.
Qed.

Ltac env_norm :=
  repeat match goal with
  | H : stepTo _ _ |- _ => apply step_env in H
  | H : env _ = env ?a, H' : env ?a = _ |- _ => rewrite H' in H
  end.

Create HintDb located discriminated.
#[local] Hint Resolve errOK_fault errOK_syntax errOK_unexpected locOK_locAt
  : located.
#[local] Hint Resolve Forall_nil_2 Forall_cons_2 Forall_app_2 : located.

Ltac located_call :=
  env_norm;
  eapply wp_mono;
  [solve [eauto 12 with located]
  |cbv beta; let H := fresh in
   intros ? ? H;
   lazymatch type of H with _ ∧ _ => destruct H as [? ?] | _ => idtac end].

Ltac locs_solver :=
  env_norm; simpl;
  repeat first [apply Forall_nil_2 | apply Forall_cons_2 | apply Forall_app_2];
  eauto 3 with located.

Ltac located_go :=
  wp_run located_call; env_norm;
  try solve [eauto 3 with located];
  try (split; [assumption | locs_solver]).

Lemma parseName_located e lexer : env lexer = e → located e parseName lexer.
Proof. intros. unfold parseName. located_go. Qed.
#[local] Hint Resolve parseName_located : located.

Lemma parseVariable_located e lexer :
  env lexer = e → located e parseVariable lexer.
Proof. intros. unfold parseVariable. located_go. Qed.
#[local] Hint Resolve parseVariable_located : located.

Lemma parseNamedType_located e lexer :
  env lexer = e → located e parseNamedType lexer.
Proof. intros. unfold parseNamedType. located_go. Qed.
#[local] Hint Resolve parseNamedType_located : located.

Lemma parseTypeReference_located e fuel lexer :
  env lexer = e → located e (parseTypeReference fuel) lexer.
Proof.
  revert lexer. induction fuel as [|fuel IH]; intros lexer He; [done|].
  simpl. located_go.
Qed.
#[local] Hint Resolve parseTypeReference_located : located.

Lemma parseStringLiteral_located e lexer :
  env lexer = e → located e parseStringLiteral lexer.
Proof. intros. unfold parseStringLiteral. located_go. Qed.
#[local] Hint Resolve parseStringLiteral_located : located.

Lemma peek_framed e kind lexer : env lexer = e → framed e (peek kind) lexer.
Proof. intros. located_go. Qed.

Lemma skip_framed e kind lexer : env lexer = e → framed e (skip kind) lexer.
Proof. intros. located_go. Qed.

Lemma notSkip_framed e kind lexer :
  env lexer = e → framed e (notSkip kind) lexer.
Proof. intros. located_go. Qed.
#[local] Hint Resolve peek_framed skip_framed notSkip_framed : located.

Lemma pushWhile_located {T} `{Locs T} e fuel cond (parseFn : Parser T) nodes
    lexer :
  env lexer = e →
  Forall (locOK e) (locs nodes) →
  (∀ lexer', env lexer' = e → framed e cond lexer') →
  (∀ lexer', env lexer' = e → located e parseFn lexer') →
  located e (pushWhile fuel cond parseFn nodes) lexer.
Proof.
  intros He Hnodes Hcond Hfn.
  apply (wp_pushWhile (λ _ nodes' lexer',
           env lexer' = e ∧ Forall (locOK e) (locs nodes'))); [done..|].
  intros n nodes' lexer1 [He1 Hnodes1].
  eapply wp_mono; [by apply Hcond|]. intros [] lexer2 He2; simpl in He2; [|done].
  eapply wp_mono; [by apply Hfn|]. intros node lexer3 [He3 Hnode].
  split; [done|]. rewrite locs_snoc. by apply Forall_app_2.
Qed.

Lemma any_located {T} `{Locs T} e fuel openKind (parseFn : Parser T) closeKind
    lexer :
  env lexer = e →
  (∀ lexer', env lexer' = e → located e parseFn lexer') →
  located e (any fuel openKind parseFn closeKind) lexer.
Proof.
  intros He Hfn. unfold any. wp_prim. wp_prim; [|eauto with located..].
  env_norm. apply pushWhile_located; eauto with located.
Qed.

Lemma many_located {T} `{Locs T} e fuel openKind (parseFn : Parser T) closeKind
    lexer :
  env lexer = e →
  (∀ lexer', env lexer' = e → located e parseFn lexer') →
  located e (many fuel openKind parseFn closeKind) lexer.
Proof.
  intros He Hfn. unfold many. wp_prim. wp_prim; [|eauto with located..].
  env_norm. wp_prim. eapply wp_mono; [by apply Hfn|].
  cbv beta. intros first lexer2 [He2 Hfirst].
  apply pushWhile_located; eauto with located.
Qed.
#[local] Hint Resolve pushWhile_located any_located many_located : located.

Section ValueCycleLocated.
Variable parseValueLiteral : bool → Parser ValueNode.
Variable e : SourceObj * ParseOptions * Error.
Hypothesis cycle : ∀ isConst lexer,
  env lexer = e → located e (parseValueLiteral isConst) lexer.

Lemma parseList_located fuel isConst lexer :
  env lexer = e → located e (parseList parseValueLiteral fuel isConst) lexer.
Proof.
  intros. unfold parseList, parseConstValue, parseValueValue.
  destruct isConst; located_go.
Qed.

Lemma parseObjectField_located isConst lexer :
  env lexer = e →
  located e (parseObjectField parseValueLiteral isConst) lexer.
Proof. intros. unfold parseObjectField. located_go. Qed.

Lemma parseObject_located fuel isConst lexer :
  env lexer = e → located e (parseObject parseValueLiteral fuel isConst) lexer.
Proof.
  intros. unfold parseObject.
  pose proof parseObjectField_located. located_go.
Qed.
End ValueCycleLocated.

Lemma parseValueLiteral_located e fuel isConst lexer :
  env lexer = e → located e (parseValueLiteral fuel isConst) lexer.
Proof.
  revert isConst lexer.
  induction fuel as [|fuel IH]; intros isConst lexer He; [done|].
  simpl. wp_prim. wp_prim. wp_prim;
    try (by apply parseList_located);
    try (by apply parseObject_located);
    located_go.
Qed.
#[local] Hint Resolve parseValueLiteral_located : located.

Lemma parseArgument_located e fuel lexer :
  env lexer = e → located e (parseArgument fuel) lexer.
Proof. intros. unfold parseArgument. located_go. Qed.

Lemma parseConstArgument_located e fuel lexer :
  env lexer = e → located e (parseConstArgument fuel) lexer.
Proof. intros. unfold parseConstArgument, parseConstValue. located_go. Qed.
#[local] Hint Resolve parseArgument_located parseConstArgument_located
  : located.

Lemma parseArguments_located e fuel isConst lexer :
  env lexer = e → located e (parseArguments fuel isConst) lexer.
Proof. intros. unfold parseArguments. destruct isConst; located_go. Qed.
#[local] Hint Resolve parseArguments_located : located.

Lemma parseDirective_located e fuel isConst lexer :
  env lexer = e → located e (parseDirective fuel isConst) lexer.
Proof. intros. unfold parseDirective. located_go. Qed.
#[local] Hint Resolve parseDirective_located : located.

Lemma parseDirectives_located e fuel isConst lexer :
  env lexer = e → located e (parseDirectives fuel isConst) lexer.
Proof. intros. unfold parseDirectives. located_go. Qed.
#[local] Hint Resolve parseDirectives_located : located.

Lemma parseFragmentName_located e lexer :
  env lexer = e → located e parseFragmentName lexer.
Proof. intros. unfold parseFragmentName. located_go. Qed.
#[local] Hint Resolve parseFragmentName_located : located.

Section SelectionCycleLocated.
Variable parseSelectionSet : Parser SelectionSetNode.
Variable e : SourceObj * ParseOptions * Error.
Hypothesis cycle : ∀ lexer, env lexer = e → located e parseSelectionSet lexer.

Lemma parseField_located fuel lexer :
  env lexer = e → located e (parseField parseSelectionSet fuel) lexer.
Proof. intros. unfold parseField. located_go. Qed.

Lemma parseFragment_located fuel lexer :
  env lexer = e → located e (parseFragment parseSelectionSet fuel) lexer.
Proof. intros. unfold parseFragment. located_go. Qed.

Lemma parseSelection_located fuel lexer :
  env lexer = e → located e (parseSelection parseSelectionSet fuel) lexer.
Proof.
  intros. unfold parseSelection. wp_prim. wp_prim. wp_prim.
  - by apply parseFragment_located.
  - by apply parseField_located.
Qed.
End SelectionCycleLocated.

Lemma parseSelectionSet_located e fuel lexer :
  env lexer = e → located e (parseSelectionSet fuel) lexer.
Proof.
  revert lexer. induction fuel as [|fuel IH]; intros lexer He; [done|].
  simpl. pose proof (parseSelection_located _ e IH fuel). located_go.
Qed.
#[local] Hint Resolve parseSelectionSet_located : located.

Lemma parseOperationType_framed e lexer :
  env lexer = e → framed e parseOperationType lexer.
Proof. intros. unfold parseOperationType. located_go. Qed.

Lemma parseVariableDefinition_located e fuel lexer :
  env lexer = e → located e (parseVariableDefinition fuel) lexer.
Proof. intros. unfold parseVariableDefinition. located_go. Qed.
#[local] Hint Resolve parseVariableDefinition_located : located.

Lemma parseVariableDefinitions_located e fuel lexer :
  env lexer = e → located e (parseVariableDefinitions fuel) lexer.
Proof. intros. unfold parseVariableDefinitions. located_go. Qed.
#[local] Hint Resolve parseVariableDefinitions_located : located.
#[local] Hint Resolve parseOperationType_framed : located.

Lemma parseOperationDefinition_located e fuel lexer :
  env lexer = e → located e (parseOperationDefinition fuel) lexer.
Proof. intros. unfold parseOperationDefinition. located_go. Qed.

Lemma parseFragmentDefinition_located e fuel lexer :
  env lexer = e → located e (parseFragmentDefinition fuel) lexer.
Proof. intros. unfold parseFragmentDefinition. located_go. Qed.

Lemma parseDescription_located e lexer :
  env lexer = e → located e parseDescription lexer.
Proof. intros. unfold parseDescription, peekDescription. located_go. Qed.
#[local] Hint Resolve parseDescription_located : located.

Lemma parseOperationTypeDefinition_located e lexer :
  env lexer = e → located e parseOperationTypeDefinition lexer.
Proof. intros. unfold parseOperationTypeDefinition. located_go. Qed.
#[local] Hint Resolve parseOperationTypeDefinition_located : located.

Lemma parseSchemaDefinition_located e fuel lexer :
  env lexer = e → located e (parseSchemaDefinition fuel) lexer.
Proof. intros. unfold parseSchemaDefinition. located_go. Qed.

Lemma parseScalarTypeDefinition_located e fuel lexer :
  env lexer = e → located e (parseScalarTypeDefinition fuel) lexer.
Proof. intros. unfold parseScalarTypeDefinition. located_go. Qed.

Lemma parseImplementsInterfaces_located e fuel lexer :
  env lexer = e → located e (parseImplementsInterfaces fuel) lexer.
Proof. intros. unfold parseImplementsInterfaces. located_go. Qed.
#[local] Hint Resolve parseImplementsInterfaces_located : located.

Lemma parseInputValueDef_located e fuel lexer :
  env lexer = e → located e (parseInputValueDef fuel) lexer.
Proof. intros. unfold parseInputValueDef, parseConstValue. located_go. Qed.
#[local] Hint Resolve parseInputValueDef_located : located.

Lemma parseArgumentDefs_located e fuel lexer :
  env lexer = e → located e (parseArgumentDefs fuel) lexer.
Proof. intros. unfold parseArgumentDefs. located_go. Qed.
#[local] Hint Resolve parseArgumentDefs_located : located.

Lemma parseFieldDefinition_located e fuel lexer :
  env lexer = e → located e (parseFieldDefinition fuel) lexer.
Proof. intros. unfold parseFieldDefinition. located_go. Qed.
#[local] Hint Resolve parseFieldDefinition_located : located.

Lemma parseFieldDefinitions_located e fuel lexer :
  env lexer = e → located e (parseFieldDefinitions fuel) lexer.
Proof. intros. unfold parseFieldDefinitions. located_go. Qed.
#[local] Hint Resolve parseFieldDefinitions_located : located.

Lemma parseObjectTypeDefinition_located e fuel lexer :
  env lexer = e → located e (parseObjectTypeDefinition fuel) lexer.
Proof. intros. unfold parseObjectTypeDefinition. located_go. Qed.

Lemma parseInterfaceTypeDefinition_located e fuel lexer :
  env lexer = e → located e (parseInterfaceTypeDefinition fuel) lexer.
Proof. intros. unfold parseInterfaceTypeDefinition. located_go. Qed.

Lemma parseUnionMembers_located e fuel lexer :
  env lexer = e → located e (parseUnionMembers fuel) lexer.
Proof.
  intros. unfold parseUnionMembers. located_go.
Qed.
#[local] Hint Resolve parseUnionMembers_located : located.

Lemma parseUnionTypeDefinition_located e fuel lexer :
  env lexer = e → located e (parseUnionTypeDefinition fuel) lexer.
Proof. intros. unfold parseUnionTypeDefinition. located_go. Qed.

Lemma parseEnumValueDefinition_located e fuel lexer :
  env lexer = e → located e (parseEnumValueDefinition fuel) lexer.
Proof. intros. unfold parseEnumValueDefinition. located_go. Qed.
#[local] Hint Resolve parseEnumValueDefinition_located : located.

Lemma parseEnumTypeDefinition_located e fuel lexer :
  env lexer = e → located e (parseEnumTypeDefinition fuel) lexer.
Proof. intros. unfold parseEnumTypeDefinition. located_go. Qed.

Lemma parseInputObjectTypeDefinition_located e fuel lexer :
  env lexer = e → located e (parseInputObjectTypeDefinition fuel) lexer.
Proof. intros. unfold parseInputObjectTypeDefinition. located_go. Qed.

Lemma parseObjectTypeExtension_located e fuel lexer :
  env lexer = e → located e (parseObjectTypeExtension fuel) lexer.
Proof. intros. unfold parseObjectTypeExtension. located_go. Qed.
#[local] Hint Resolve parseObjectTypeExtension_located : located.

Lemma parseTypeExtension_located e fuel lexer :
  env lexer = e → located e (parseTypeExtension fuel) lexer.
Proof. intros. unfold parseTypeExtension. located_go. Qed.

Lemma parseDirectiveLocation_located e lexer :
  env lexer = e → located e parseDirectiveLocation lexer.
Proof. intros. unfold parseDirectiveLocation. located_go. Qed.
#[local] Hint Resolve parseDirectiveLocation_located : located.

Lemma parseDirectiveLocations_located e fuel lexer :
  env lexer = e → located e (parseDirectiveLocations fuel) lexer.
Proof. intros. unfold parseDirectiveLocations. located_go. Qed.
#[local] Hint Resolve parseDirectiveLocations_located : located.

Lemma parseDirectiveDefinition_located e fuel lexer :
  env lexer = e → located e (parseDirectiveDefinition fuel) lexer.
Proof. intros. unfold parseDirectiveDefinition. located_go. Qed.

#[local] Hint Resolve parseOperationDefinition_located
  parseFragmentDefinition_located parseSchemaDefinition_located
  parseScalarTypeDefinition_located parseObjectTypeDefinition_located
  parseInterfaceTypeDefinition_located parseUnionTypeDefinition_located
  parseEnumTypeDefinition_located parseInputObjectTypeDefinition_located
  parseTypeExtension_located parseDirectiveDefinition_located : located.

Lemma parseTypeSystemDefinition_located e fuel lexer :
  env lexer = e → located e (parseTypeSystemDefinition fuel) lexer.
Proof.
  intros. unfold parseTypeSystemDefinition, peekDescription. located_go.
Qed.
#[local] Hint Resolve parseTypeSystemDefinition_located : located.

Lemma parseDefinition_located e fuel lexer :
  env lexer = e → located e (parseDefinition fuel) lexer.
Proof. intros. unfold parseDefinition, peekDescription. located_go. Qed.
#[local] Hint Resolve parseDefinition_located : located.

Lemma parseDocument_located e fuel lexer :
  env lexer = e → located e (parseDocument fuel) lexer.
Proof. intros. unfold parseDocument. located_go. Qed.

(** ** The shape of the trees that the productions return

    Specifications that only speak about the returned tree: the calls whose
    result does not matter are passed with the trivial specification. *)

Create HintDb shape discriminated.

Ltac trivial_call :=
  eapply wp_mono; [apply wp_trivial|cbv beta; intros ? ? _].

Ltac shape_call :=
  first [ eapply wp_mono;
          [solve [eauto 12 with shape]|cbv beta; intros ? ? ?]
        | trivial_call ].

Ltac shape_go := wp_run shape_call; try done.

Lemma pushWhile_returns {T} (P : T → Prop) fuel cond (parseFn : Parser T) nodes
    lexer :
  Forall P nodes →
  (∀ lexer', returns parseFn P lexer') →
  returns (pushWhile fuel cond parseFn nodes)
    (λ result, Forall P result ∧ ∃ more, result = nodes ++ more) lexer.
Proof.
  intros Hnodes Hfn.
  apply (wp_pushWhile (λ _ nodes' _,
           Forall P nodes' ∧ ∃ more, nodes' = nodes ++ more)); [|done|].
  { split; [done|]. exists []. by rewrite app_nil_r. }
  intros n nodes' lexer1 [Hall [more ->]].
  eapply wp_mono; [apply wp_trivial|]. intros [] lexer2 _; simpl.
  - eapply wp_mono; [apply Hfn|]. cbv beta. intros node lexer3 Hnode. split.
    + apply Forall_app_2; [done|]. by constructor.
    + exists (more ++ [node]). by rewrite app_assoc.
  - split; [done|]. by exists more.
Qed.

Lemma any_returns {T} (P : T → Prop) fuel openKind (parseFn : Parser T)
    closeKind lexer :
  (∀ lexer', returns parseFn P lexer') →
  returns (any fuel openKind parseFn closeKind) (Forall P) lexer.
Proof.
  intros Hfn. unfold any. wp_prim. wp_prim; [|done..].
  eapply wp_mono; [by apply (pushWhile_returns P)|]. by intros ? ? [? _].
Qed.

Lemma many_returns {T} (P : T → Prop) fuel openKind (parseFn : Parser T)
    closeKind lexer :
  (∀ lexer', returns parseFn P lexer') →
  returns (many fuel openKind parseFn closeKind)
    (λ result, Forall P result ∧ result ≠ []) lexer.
Proof.
  intros Hfn. unfold many. wp_prim. wp_prim; [|done..].
  wp_prim. eapply wp_mono; [apply Hfn|]. cbv beta. intros first lexer2 Hfirst.
  eapply wp_mono; [apply (pushWhile_returns P); [by constructor|done]|].
  by intros ? ? [? [more ->]].
Qed.

(** *** Operations *)

Lemma parseOperationType_returns lexer :
  returns parseOperationType (λ operation, operation ∈ operationKeywords) lexer.
Proof.
  unfold parseOperationType, operationKeywords. shape_go; set_solver.
Qed.
#[local] Hint Resolve parseOperationType_returns : shape.

Lemma parseOperationDefinition_returns fuel lexer :
  returns (parseOperationDefinition fuel) operationOK lexer.
Proof.
  unfold parseOperationDefinition. shape_go.
  unfold operationOK, operationKeywords. set_solver.
Qed.

Lemma parseTypeSystemDefinition_returns fuel lexer :
  returns (parseTypeSystemDefinition fuel)
    (λ node, isExecutable node = false) lexer.
Proof.
  unfold parseTypeSystemDefinition, peekDescription, parseSchemaDefinition,
    parseScalarTypeDefinition, parseObjectTypeDefinition,
    parseInterfaceTypeDefinition, parseUnionTypeDefinition,
    parseEnumTypeDefinition, parseInputObjectTypeDefinition,
    parseTypeExtension, parseObjectTypeExtension, parseDirectiveDefinition.
  shape_go.
Qed.

Lemma wp_conj {A} F E (p : Parser A) (Q1 Q2 : A → Lexer → Prop) lexer :
  wp F E p Q1 lexer → wp F E p Q2 lexer →
  wp F E p (λ a lexer', Q1 a lexer' ∧ Q2 a lexer') lexer.
Proof. unfold wp. destruct (p lexer); auto. Qed.

Lemma wp_Ok {A} F E (p : Parser A) Q lexer a lexer' :
  wp F E p Q lexer → p lexer = Ok a lexer' → Q a lexer'.
Proof. unfold wp. intros H Heq. by rewrite Heq in H. Qed.

Lemma wp_Throw {A} F E (p : Parser A) Q lexer e :
  wp F E p Q lexer → p lexer = Throw e → E e.
Proof. unfold wp. intros H Heq. by rewrite Heq in H. Qed.

Lemma wp_terminates {A} E (p : Parser A) Q lexer :
  wp False E p Q lexer → p lexer ≠ OutOfFuel.
Proof. unfold wp. intros H Heq. by rewrite Heq in H. Qed.

Lemma parseOperationDefinition_shorthand fuel lexer :
  Token.kind (Lexer.token lexer) = TokenKind.BRACE_L →
  returns (parseOperationDefinition fuel) isShorthand lexer.
Proof.
  intros Hkind. unfold parseOperationDefinition. do 4 wp_prim.
  rewrite bool_decide_eq_true_2 by done. shape_go. by eexists _, _.
Qed.

Lemma parseDefinition_operation fuel lexer :
  returns (parseDefinition fuel) operationOK lexer.
Proof.
  unfold parseDefinition, peekDescription.
  pose proof parseOperationDefinition_returns.
  assert (∀ fuel lexer, returns (parseTypeSystemDefinition fuel) operationOK
                          lexer) as Hts.
  { intros. eapply wp_mono; [apply parseTypeSystemDefinition_returns|].
    by intros []. }
  assert (∀ fuel lexer, returns (parseFragmentDefinition fuel) operationOK
                          lexer) as Hfr.
  { intros. unfold parseFragmentDefinition. shape_go. }
  shape_go.
Qed.

Lemma parseDefinition_shorthand fuel lexer :
  Token.kind (Lexer.token lexer) = TokenKind.BRACE_L →
  returns (parseDefinition fuel) isShorthand lexer.
Proof.
  intros Hkind. unfold parseDefinition. do 2 wp_prim.
  rewrite bool_decide_eq_true_2 by done.
  by apply parseOperationDefinition_shorthand.
Qed.

Lemma parseDocument_operations fuel lexer :
  returns (parseDocument fuel)
    (λ document,
       Forall operationOK (definitions document) ∧
       ∀ token rest,
         readNext (Lexer.pending lexer) = Some (token, rest) →
         Token.kind token = TokenKind.BRACE_L →
         ∃ first more,
           isShorthand first ∧ definitions document = first :: more) lexer.
Proof.
  unfold parseDocument. do 3 wp_prim. wp_prim; [|done..]. wp_prim.
  eapply wp_mono.
  { apply wp_conj; [apply parseDefinition_operation|].
    apply (wp_mono _ _ _
             (λ node _, Token.kind (Lexer.token lexer') = TokenKind.BRACE_L →
                        isShorthand node)).
    - destruct (decide (Token.kind (Lexer.token lexer') = TokenKind.BRACE_L)).
      + eapply wp_mono; [by apply parseDefinition_shorthand|done].
      + eapply wp_mono; [apply wp_trivial|done].
    - intros ? ? Hq. exact Hq. }
  cbv beta. intros first lexer1 [Hop Hshort]. wp_prim.
  eapply wp_mono.
  { apply (pushWhile_returns operationOK); [by constructor|].
    apply parseDefinition_operation. }
  cbv beta. intros result lexer2 [Hall [more ->]]. wp_prim. wp_prim.
  simpl. split; [done|]. intros token rest Hnext Hkind.
  exists first, more. split; [|done]. apply Hshort.
  rewrite (step_next _ _ H0) in Hnext by (by rewrite H).
  by injection Hnext as <- _.
Qed.

(** ** The entry points *)

(** [parse] on a string or a [Source] runs [parseDocument] on a fresh lexer,
    with enough fuel. *)
Lemma parse_unfold source options :
  instanceofSource (toSourceObj source) = true →
  let lexer := createLexer (toSourceObj source) (orDefault options) in
  parse source options = parseDocument (fuelFor lexer) lexer.
Proof. intros Hsrc. unfold parse. by rewrite Hsrc. Qed.

Lemma parse_terminates source options : parse source options ≠ OutOfFuel.
Proof.
  destruct (instanceofSource (toSourceObj source)) eqn:Hsrc.
  - rewrite parse_unfold by done.
    eapply wp_terminates, parseDocument_consumes, fuelFor_enough.
  - unfold parse. by rewrite Hsrc.
Qed.

(** C1. A document that opens with [{] starts with the shorthand operation
    ([operation = "query"], no name, no variable definitions, no
    directives), and the [operation] of every operation definition of a
    parsed document is one of [query], [mutation], [subscription]; [parse]
    never runs out of fuel. *)
Theorem parse_operation_definitions (source : Input)
    (options : option ParseOptions) :
  parse source options ≠ OutOfFuel ∧
  ∀ document lexer',
    parse source options = Ok document lexer' →
    (∀ token,
       firstToken source options = Some token →
       Token.kind token = TokenKind.BRACE_L →
       ∃ selectionSet l more l',
         document =
         Document (OperationDefinition "query" None [] [] selectionSet l :: more)
           l') ∧
    (∀ operation name variableDefinitions directives selectionSet l,
       OperationDefinition operation name variableDefinitions directives
         selectionSet l ∈ definitions document →
       operation = "query" ∨ operation = "mutation" ∨
       operation = "subscription").
Proof.
  split; [apply parse_terminates|]. intros document lexer' Hparse.
  destruct (instanceofSource (toSourceObj source)) eqn:Hsrc;
    [|unfold parse in Hparse; by rewrite Hsrc in Hparse].
  rewrite parse_unfold in Hparse by done.
  destruct (wp_Ok _ _ _ _ _ _ _ (parseDocument_operations _ _) Hparse)
    as [Hall Hfirst].
  split.
  - intros token Htoken Hkind. unfold firstToken in Htoken.
    destruct (readNext _) as [[token' rest]|] eqn:Hnext; [|done].
    injection Htoken as ->.
    destruct (Hfirst _ _ eq_refl Hkind) as (first & more & Hshort & Hdefs).
    destruct Hshort as (selectionSet & l & ->).
    destruct document as [defs l']. simpl in Hdefs. subst defs.
    by eexists _, _, _, _.
  - intros operation name vars dirs set l Hin.
    rewrite Forall_forall in Hall. apply Hall in Hin. simpl in Hin.
    unfold operationKeywords in Hin. set_solver.
Qed.

Lemma parse_operation_definitions_witness :
  ∃ selectionSet l more l' lexer',
    parse (InString "{ a b }") None
    = Ok (Document
            (OperationDefinition "query" None [] [] selectionSet l :: more) l')
        lexer'.
Proof.
  destruct (parse (InString "{ a b }") None) as [document lexer'| |] eqn:Hparse;
    [|by vm_compute in Hparse..].
  destruct (proj2 (parse_operation_definitions (InString "{ a b }") None)
              document lexer' Hparse) as [Hfirst _].
  edestruct Hfirst as (selectionSet & l & more & l' & ->);
    [vm_compute; reflexivity|vm_compute; reflexivity|].
  by eexists _, _, _, _, _.
Defined.

Lemma parseDocument_nonempty fuel lexer :
  returns (parseDocument fuel) (λ document, definitions document ≠ []) lexer.
Proof.
  unfold parseDocument. do 3 wp_prim. wp_prim; [|done..]. wp_prim.
  trivial_call. wp_prim.
  eapply wp_mono;
    [apply (pushWhile_returns (λ _, True)); [by constructor|]; intros;
     apply wp_trivial|].
  cbv beta. intros result lexer2 [_ [more ->]]. by do 2 wp_prim.
Qed.

(** C3. A document returned by [parse] has at least one definition ([parse]
    never runs out of fuel); the empty input is not parsed into a document:
    it fails with a syntax error at offset 0, because [parseDefinition] throws
    [unexpected] on the [EOF] token. *)
Theorem parse_document_nonempty (source : Input)
    (options : option ParseOptions) :
  parse source options ≠ OutOfFuel ∧
  (∀ document lexer',
     parse source options = Ok document lexer' → definitions document ≠ []) ∧
  parse (InString EmptyString) options
  = Throw (SyntaxError (IsSource (Source.new EmptyString)) 0 "Unexpected <EOF>") ∧
  (∀ fuel lexer,
     Token.kind (Lexer.token lexer) = TokenKind.EOF →
     parseDefinition fuel lexer = Throw (unexpected None lexer)).
Proof.
  split; [apply parse_terminates|]. split; [|split].
  - intros document lexer' Hparse.
    destruct (instanceofSource (toSourceObj source)) eqn:Hsrc;
      [|unfold parse in Hparse; by rewrite Hsrc in Hparse].
    rewrite parse_unfold in Hparse by done.
    exact (wp_Ok _ _ _ _ _ _ _ (parseDocument_nonempty _ _) Hparse).
  - reflexivity.
  - intros fuel lexer Hkind.
    unfold parseDefinition, peekDescription, bind, peek, getToken, throw, ret.
    by do 4 (rewrite ?Hkind; simpl).
Qed.

Lemma parse_document_nonempty_witness :
  definitions
    (Document [OperationDefinition "query" None [] []
                 (SelectionSet [Field None (Name "a" None) [] [] None None] None)
                 None] None) ≠ [] ∧
  parseDefinition 1
    (Lexer.mk (IsSource (Source.new EmptyString)) (mkOptions None)
       (Token.mk TokenKind.SOF 0 0 0 0 None)
       (Token.mk TokenKind.EOF 0 0 1 1 None) []
       (HostError "end of stream"))
  = Throw (SyntaxError (IsSource (Source.new EmptyString)) 0 "Unexpected <EOF>").
Proof.
  pose proof (parse_document_nonempty (InString "{a}")
                (Some (mkOptions (Some true)))) as (_ & Hne & _ & Heof).
  split.
  - eapply Hne. vm_compute. reflexivity.
  - apply Heof. reflexivity.
Defined.

(** *** Fragment names *)

Lemma Forall_flat_map {A B} (P : B → Prop) (f : A → list B) (l : list A) :
  Forall (λ a, Forall P (f a)) l → Forall P (flat_map f l).
Proof.
  induction 1 as [|a l Ha Hl IH]; simpl; [constructor|by apply Forall_app_2].
Qed.

Lemma parseName_returns lexer :
  returns parseName
    (λ node, ∃ l, node = Name (valueString (Lexer.token lexer)) l) lexer.
Proof. unfold parseName. shape_go. by eexists. Qed.

Lemma parseFragmentName_returns lexer :
  returns parseFragmentName
    (λ node, match node with Name value _ => value ≠ "on" end) lexer.
Proof.
  unfold parseFragmentName. do 3 wp_prim; [done|].
  eapply wp_mono; [apply parseName_returns|]. cbv beta.
  intros node lexer' [l ->]. bool_hyps. unfold valueString.
  destruct (Token.value _); simpl; congruence.
Qed.
#[local] Hint Resolve parseFragmentName_returns : shape.

Section SelectionCycleNames.
Variable parseSelectionSet : Parser SelectionSetNode.
Hypothesis cycle : ∀ lexer,
  returns parseSelectionSet (λ node, Forall notOn (spreadNames node)) lexer.

Lemma parseField_names fuel lexer :
  returns (parseField parseSelectionSet fuel)
    (λ node, Forall notOn (selectionSpreadNames node)) lexer.
Proof. unfold parseField. shape_go; simpl; by try constructor. Qed.

Lemma parseFragment_names fuel lexer :
  returns (parseFragment parseSelectionSet fuel)
    (λ node, Forall notOn (selectionSpreadNames node)) lexer.
Proof.
  unfold parseFragment. shape_go; simpl; try done.
  all: match goal with
       | node : NameNode |- _ => destruct node; by repeat constructor
       end.
Qed.

Lemma parseSelection_names fuel lexer :
  returns (parseSelection parseSelectionSet fuel)
    (λ node, Forall notOn (selectionSpreadNames node)) lexer.
Proof.
  unfold parseSelection. do 3 wp_prim.
  - apply parseFragment_names.
  - apply parseField_names.
Qed.
End SelectionCycleNames.

Lemma parseSelectionSet_names fuel lexer :
  returns (parseSelectionSet fuel)
    (λ node, Forall notOn (spreadNames node)) lexer.
Proof.
  revert lexer. induction fuel as [|fuel IH]; intros lexer; [done|].
  simpl. do 3 wp_prim.
  eapply wp_mono;
    [apply (many_returns (λ node, Forall notOn (selectionSpreadNames node)));
     intros; by apply parseSelection_names|].
  cbv beta. intros selections lexer' [Hall _]. do 2 wp_prim.
  simpl. by apply Forall_flat_map.
Qed.
#[local] Hint Resolve parseSelectionSet_names : shape.

Lemma parseDefinition_names fuel lexer :
  returns (parseDefinition fuel)
    (λ node, Forall notOn (fragmentNames node)) lexer.
Proof.
  assert (∀ fuel lexer,
            returns (parseTypeSystemDefinition fuel)
              (λ node, Forall notOn (fragmentNames node)) lexer) as Hts.
  { intros. eapply wp_mono; [apply parseTypeSystemDefinition_returns|].
    intros []; simpl; by try constructor. }
  unfold parseDefinition, peekDescription, parseOperationDefinition,
    parseFragmentDefinition.
  shape_go; simpl; try done.
  all: match goal with
       | node : NameNode, H : match ?node with Name _ _ => _ end |- _ =>
           destruct node; by constructor
       end.
Qed.

Lemma parseDocument_names fuel lexer :
  returns (parseDocument fuel)
    (λ document, Forall notOn (documentFragmentNames document)) lexer.
Proof.
  unfold parseDocument. do 3 wp_prim. wp_prim; [|done..]. wp_prim.
  eapply wp_mono; [apply parseDefinition_names|].
  cbv beta. intros first lexer1 Hfirst. wp_prim.
  eapply wp_mono.
  { apply (pushWhile_returns (λ node, Forall notOn (fragmentNames node)));
      [by constructor|]. apply parseDefinition_names. }
  cbv beta. intros result lexer2 [Hall _]. do 2 wp_prim.
  by apply Forall_flat_map.
Qed.

Lemma parseFragment_on parseSelectionSet fuel lexer token rest :
  Token.kind (Lexer.token lexer) = TokenKind.SPREAD →
  readNext (Lexer.pending lexer) = Some (token, rest) →
  Token.value token = Some "on" →
  returns (parseFragment parseSelectionSet fuel)
    (λ node, ∃ named directives selectionSet l,
       node = InlineFragment (Some named) directives selectionSet l) lexer.
Proof.
  intros Hkind Hnext Hvalue. unfold parseFragment.
  do 3 wp_prim. wp_prim; [|done..].
  assert (Lexer.token lexer' = token) as Htoken.
  { rewrite (step_next _ _ H0) in Hnext by (by rewrite Hkind).
    by injection Hnext as <- _. }
  do 4 wp_prim. rewrite Htoken.
  rewrite (bool_decide_eq_true_2 _ Hvalue), andb_false_r.
  shape_go. by eexists _, _, _, _.
Qed.

(** C5. The name of a fragment definition or of a fragment spread of a
    parsed document is never [on]: [parseFragmentName] throws [unexpected]
    on a token whose value is [on], and after [...] a name token [on] opens
    the type condition of an inline fragment. *)
Theorem fragment_names_not_on :
  (∀ source options,
     parse source options ≠ OutOfFuel ∧
     ∀ document lexer',
       parse source options = Ok document lexer' →
       "on" ∉ documentFragmentNames document) ∧
  (∀ lexer,
     Token.value (Lexer.token lexer) = Some "on" →
     parseFragmentName lexer = Throw (unexpected None lexer)) ∧
  (∀ parseSelectionSet fuel lexer token rest selection lexer',
     Token.kind (Lexer.token lexer) = TokenKind.SPREAD →
     readNext (Lexer.pending lexer) = Some (token, rest) →
     Token.kind token = TokenKind.NAME →
     Token.value token = Some "on" →
     parseFragment parseSelectionSet fuel lexer = Ok selection lexer' →
     ∃ named directives selectionSet l,
       selection = InlineFragment (Some named) directives selectionSet l).
Proof.
  split; [|split].
  - intros source options. split; [apply parse_terminates|].
    intros document lexer' Hparse.
    destruct (instanceofSource (toSourceObj source)) eqn:Hsrc;
      [|unfold parse in Hparse; by rewrite Hsrc in Hparse].
    rewrite parse_unfold in Hparse by done.
    pose proof (wp_Ok _ _ _ _ _ _ _ (parseDocument_names _ _) Hparse) as Hall.
    rewrite Forall_forall in Hall. intros Hin. by apply (Hall _ Hin).
  - intros lexer Hvalue. unfold parseFragmentName, bind, getToken, throw.
    by rewrite bool_decide_eq_true_2.
  - intros parseSelectionSet fuel lexer token rest selection lexer'
      Hkind Hnext _ Hvalue Hrun.
    exact (wp_Ok _ _ _ _ _ _ _
             (parseFragment_on _ _ _ _ _ Hkind Hnext Hvalue) Hrun).
Qed.

Lemma fragment_names_not_on_witness :
  (∃ document lexer',
     parse (InString "{ ...A ... on T { x } } fragment F on T { y }") None
     = Ok document lexer' ∧
     "on" ∉ documentFragmentNames document) ∧
  parseFragmentName (lexerAfter 2 "fragment on on T { x }")
  = Throw (unexpected None (lexerAfter 2 "fragment on on T { x }")) ∧
  ∃ named directives selectionSet l lexer',
    parseFragment (parseSelectionSet 9) 9 (lexerAfter 2 "{ ... on T { x } }")
    = Ok (InlineFragment (Some named) directives selectionSet l) lexer'.
Proof.
  destruct fragment_names_not_on as (Hnames & Hname & Hinline).
  split; [|split].
  - destruct (parse
                (InString "{ ...A ... on T { x } } fragment F on T { y }") None)
      as [document lexer'| |] eqn:Hparse; [|by vm_compute in Hparse..].
    exists document, lexer'. split; [done|].
    by eapply (proj2 (Hnames _ _)).
  - apply Hname. reflexivity.
  - destruct (parseFragment (parseSelectionSet 9) 9
                (lexerAfter 2 "{ ... on T { x } }"))
      as [selection lexer'| |] eqn:Hrun; [|by vm_compute in Hrun..].
    edestruct Hinline as (named & directives & selectionSet & l & ->);
      [| | | |exact Hrun|]; [reflexivity..|].
    by eexists _, _, _, _, _.
Defined.

(** *** Const values *)

Lemma existsb_Forall_false {A} (f : A → bool) (l : list A) :
  Forall (λ a, f a = false) l → existsb f l = false.
Proof. induction 1 as [|a l Ha Hl IH]; simpl; [done|]. by rewrite Ha. Qed.

Section ValueCycleConst.
Variable parseValueLiteral : bool → Parser ValueNode.
Hypothesis cycle : ∀ lexer,
  returns (parseValueLiteral true) (λ node, hasVariable node = false) lexer.

Lemma parseList_const fuel lexer :
  returns (parseList parseValueLiteral fuel true)
    (λ node, hasVariable node = false) lexer.
Proof.
  unfold parseList, parseConstValue. do 3 wp_prim.
  eapply wp_mono;
    [by apply (any_returns (λ node, hasVariable node = false))|].
  cbv beta. intros values lexer' Hall. do 2 wp_prim.
  simpl. by apply existsb_Forall_false.
Qed.

Lemma parseObject_const fuel lexer :
  returns (parseObject parseValueLiteral fuel true)
    (λ node, hasVariable node = false) lexer.
Proof.
  unfold parseObject. do 3 wp_prim. wp_prim; [|done..]. wp_prim.
  eapply wp_mono.
  { apply (pushWhile_returns (λ node, fieldHasVariable node = false));
      [by constructor|].
    intros. unfold parseObjectField. pose proof cycle. shape_go. }
  cbv beta. intros fields lexer'' [Hall _]. do 2 wp_prim.
  simpl. by apply existsb_Forall_false.
Qed.
End ValueCycleConst.

Lemma parseValueLiteral_const fuel lexer :
  returns (parseValueLiteral fuel true) (λ node, hasVariable node = false) lexer.
Proof.
  revert lexer. induction fuel as [|fuel IH]; intros lexer; [done|].
  simpl. do 3 wp_prim;
    try (by apply parseList_const);
    try (by apply parseObject_const);
    shape_go.
Qed.

Lemma parseVariableDefinition_const fuel lexer :
  returns (parseVariableDefinition fuel)
    (λ node, match node with
             | VariableDefinition _ _ (Some value) _ => hasVariable value = false
             | _ => True
             end) lexer.
Proof.
  unfold parseVariableDefinition. pose proof parseValueLiteral_const.
  shape_go.
Qed.

(** C2. On a [$] token, [parseValueLiteral] in a const context throws a
    syntax error positioned at the start of that token, and in a non-const
    context it is [parseVariable], whose result is a [Variable] node.  The
    default value of a variable definition is parsed as const, so that it
    holds no variable; [parseValue("$x")] returns the variable [x], and
    [parse("query Q($x: Int = $y) { f }")] fails at offset 18, the [$] of
    [$y]. *)
Theorem const_context_rejects_variables :
  (∀ fuel lexer,
     Token.kind (Lexer.token lexer) = TokenKind.DOLLAR →
     parseValueLiteral (S fuel) true lexer
     = Throw (SyntaxError (Lexer.source lexer)
                (Token.start (Lexer.token lexer))
                ("Unexpected " +:+ getTokenDesc (Lexer.token lexer))) ∧
     parseValueLiteral (S fuel) false lexer
     = (let* variable := parseVariable in ret (VariableValue variable)) lexer) ∧
  (∀ fuel lexer node lexer',
     parseVariableDefinition fuel lexer = Ok node lexer' →
     ∀ variable type value l,
       node = VariableDefinition variable type (Some value) l →
       hasVariable value = false) ∧
  (∃ l l' lexer',
     parseValue (InString "$x") None
     = Ok (VariableValue (Variable_ (Name "x" l) l')) lexer') ∧
  parse (InString "query Q($x: Int = $y) { f }") None
  = Throw (SyntaxError (IsSource (Source.new "query Q($x: Int = $y) { f }"))
             18 "Unexpected $").
Proof.
  split; [|split; [|split]].
  - intros fuel lexer Hkind. simpl.
    split; (unfold bind at 1; unfold getToken; by rewrite Hkind).
  - intros fuel lexer node lexer' Hrun variable type value l ->.
    exact (wp_Ok _ _ _ _ _ _ _ (parseVariableDefinition_const _ _) Hrun).
  - by eexists _, _, _.
  - reflexivity.
Qed.

Lemma const_context_rejects_variables_witness :
  parseValueLiteral 1 true (lexerAfter 7 "($x: Int = $y)")
  = Throw (SyntaxError (IsSource (Source.new "($x: Int = $y)")) 11
             "Unexpected $") ∧
  ∃ variable type value l lexer',
    parseVariableDefinition 9 (lexerAfter 2 "($x: Int = 1)")
    = Ok (VariableDefinition variable type (Some value) l) lexer' ∧
    hasVariable value = false.
Proof.
  destruct const_context_rejects_variables as (Hdollar & Hdefault & _).
  split.
  - exact (proj1 (Hdollar 0%nat (lexerAfter 7 "($x: Int = $y)") eq_refl)).
  - destruct (parseVariableDefinition 9 (lexerAfter 2 "($x: Int = 1)"))
      as [[variable type [value|] l] lexer'| |] eqn:Hrun;
      [|by vm_compute in Hrun..].
    exists variable, type, value, l, lexer'. split; [done|].
    by eapply Hdefault.
Defined.

(** *** Type references *)

Lemma parseNamedType_last lexer :
  wp True (λ _, True) parseNamedType
    (λ _ lexer', Token.kind (Lexer.lastToken lexer') = TokenKind.NAME) lexer.
Proof.
  unfold parseNamedType, parseName. wp_run fail; try done.
  match goal with H : stepTo _ _ |- _ => by rewrite (step_last _ _ H) end.
Qed.

Lemma parseTypeReference_shape fuel lexer :
  wp True (λ _, True) (parseTypeReference fuel)
    (λ node lexer',
       nonNullFlat node = true ∧
       (if decide (Token.kind (Lexer.token lexer) = TokenKind.BRACKET_L)
        then isListType (nullableType node) = true
        else isNamedType (nullableType node) = true) ∧
       (isNonNull node = true ↔
        Token.kind (Lexer.lastToken lexer') = TokenKind.BANG) ∧
       (isNonNull node = false →
        Token.kind (Lexer.token lexer') ≠ TokenKind.BANG ∧
        Token.kind (Lexer.lastToken lexer')
        = if decide (Token.kind (Lexer.token lexer) = TokenKind.BRACKET_L)
          then TokenKind.BRACKET_R else TokenKind.NAME)) lexer.
Proof.
  revert lexer. induction fuel as [|fuel IH]; intros lexer; [done|].
  simpl.
  wp_run ltac:(first
    [ eapply wp_mono; [apply IH|cbv beta; intros ? ? (? & _ & _)]
    | eapply wp_mono; [apply parseNamedType_last|cbv beta; intros ? ? ?] ]);
    try done.
  all: repeat match goal with H : stepTo _ _ |- _ => apply step_last in H end.
  all: repeat case_decide; try done; simpl.
  all: repeat match goal with
              | H : Lexer.lastToken _ = _ |- _ => rewrite H; clear H
              end.
  all: repeat match goal with H : Token.kind _ = _ |- _ => rewrite H end.
  all: intuition (try congruence).
Qed.

(** *** Runs that return *)

Lemma bind_Ok {A B} (m : Parser A) (k : A → Parser B) lexer b lexer' :
  bind m k lexer = Ok b lexer' →
  ∃ a lexer1, m lexer = Ok a lexer1 ∧ k a lexer1 = Ok b lexer'.
Proof. unfold bind. destruct (m lexer) as [a lexer1| |]; [eauto|done..]. Qed.

Lemma advance_Ok lexer t lexer' :
  Token.kind (Lexer.token lexer) ≠ TokenKind.EOF →
  advance lexer = Ok t lexer' →
  consume 1 lexer = Some ([Lexer.token lexer], lexer').
Proof. intros Hkind Hrun. simpl. case_decide; [done|]. by rewrite Hrun. Qed.

Lemma skip_Ok kind lexer b lexer' :
  skip kind lexer = Ok b lexer' →
  if b
  then Token.kind (Lexer.token lexer) = kind ∧
       ∃ t, advance lexer = Ok t lexer'
  else Token.kind (Lexer.token lexer) ≠ kind ∧ lexer' = lexer.
Proof.
  unfold skip, bind, getToken, ret. case_bool_decide as Hkind.
  - destruct (advance lexer) as [t lexer1| |] eqn:Hstep; [|done..].
    intros [= <- <-]. eauto.
  - by intros [= <- <-].
Qed.

Lemma expect_Ok kind lexer token lexer' :
  expect kind lexer = Ok token lexer' →
  token = Lexer.token lexer ∧ Token.kind token = kind ∧
  ∃ t, advance lexer = Ok t lexer'.
Proof.
  unfold expect, bind, getToken, ret, throw. case_bool_decide as Hkind; [|done].
  destruct (advance lexer) as [t lexer1| |] eqn:Hstep; [|done..].
  intros [= <- <-]. eauto.
Qed.

Lemma loc_Ok startToken lexer l lexer' :
  loc startToken lexer = Ok l lexer' →
  l = locAt startToken lexer ∧ lexer' = lexer.
Proof. unfold loc, locAt. by destruct (negb _); intros [= <- <-]. Qed.

Lemma parseName_Ok lexer name lexer' :
  parseName lexer = Ok name lexer' →
  Token.kind (Lexer.token lexer) = TokenKind.NAME ∧
  name = Name (valueString (Lexer.token lexer))
           (locAt (Lexer.token lexer) lexer') ∧
  ∃ t, advance lexer = Ok t lexer'.
Proof.
  unfold parseName. intros Hrun.
  apply bind_Ok in Hrun as (token & lexer1 & Hexpect & Hrun).
  apply expect_Ok in Hexpect as (-> & Hkind & Hstep).
  apply bind_Ok in Hrun as (l & lexer2 & Hloc & Hrun).
  apply loc_Ok in Hloc as [-> ->]. by injection Hrun as <- <-.
Qed.

Lemma parseNamedType_Ok lexer named lexer' :
  parseNamedType lexer = Ok named lexer' →
  Token.kind (Lexer.token lexer) = TokenKind.NAME ∧
  named = NamedType
            (Name (valueString (Lexer.token lexer))
               (locAt (Lexer.token lexer) lexer'))
            (locAt (Lexer.token lexer) lexer') ∧
  ∃ t, advance lexer = Ok t lexer'.
Proof.
  unfold parseNamedType. intros Hrun.
  apply bind_Ok in Hrun as (start & lexer1 & [= <- <-] & Hrun).
  apply bind_Ok in Hrun as (name & lexer1 & Hname & Hrun).
  apply parseName_Ok in Hname as (Hkind & -> & Hstep).
  apply bind_Ok in Hrun as (l & lexer2 & Hloc & Hrun).
  apply loc_Ok in Hloc as [-> ->]. by injection Hrun as <- <-.
Qed.

Lemma consume_app n m lexer tokens lexer1 tokens' lexer' :
  consume n lexer = Some (tokens, lexer1) →
  consume m lexer1 = Some (tokens', lexer') →
  consume (n + m) lexer = Some (tokens ++ tokens', lexer').
Proof.
  revert lexer tokens. induction n as [|n IH]; intros lexer tokens; simpl.
  - by intros [= <- <-].
  - case_decide; [done|].
    destruct (advance lexer) as [t lexer2| |]; [|done..].
    destruct (consume n lexer2) as [[tokens2 lexer3]|] eqn:Hn; [|done].
    intros [= <- <-] Hm. by rewrite (IH _ _ Hn Hm).
Qed.

Lemma names_app tokens tokens' :
  names (tokens ++ tokens') = names tokens ++ names tokens'.
Proof. unfold names. by rewrite filter_app, map_app. Qed.

Lemma names_other token :
  Token.kind token ≠ TokenKind.NAME → names [token] = [].
Proof.
  intros Hkind. unfold names. by rewrite filter_cons_False, filter_nil.
Qed.

(** The body of [parseTypeReference], one step at a time. *)
Lemma parseTypeReference_steps fuel lexer node lexer' :
  parseTypeReference (S fuel) lexer = Ok node lexer' →
  ∃ type lexer1,
    (if decide (Token.kind (Lexer.token lexer) = TokenKind.BRACKET_L)
     then ∃ lexer0 inner lexer2 close,
            skip TokenKind.BRACKET_L lexer = Ok true lexer0 ∧
            parseTypeReference fuel lexer0 = Ok inner lexer2 ∧
            expect TokenKind.BRACKET_R lexer2 = Ok close lexer1 ∧
            type = ListType inner (locAt (Lexer.token lexer) lexer1)
     else ∃ named,
            parseNamedType lexer = Ok named lexer1 ∧
            type = NamedTypeRef named) ∧
    (if decide (Token.kind (Lexer.token lexer1) = TokenKind.BANG)
     then skip TokenKind.BANG lexer1 = Ok true lexer' ∧
          node = NonNullType type (locAt (Lexer.token lexer) lexer')
     else lexer' = lexer1 ∧ node = type).
Proof.
  simpl. intros Hrun.
  apply bind_Ok in Hrun as (start & lexer0 & [= <- <-] & Hrun).
  apply bind_Ok in Hrun as (bracket & lexer0 & Hbracket & Hrun).
  apply bind_Ok in Hrun as (type & lexer1 & Htype & Hrun).
  apply bind_Ok in Hrun as (bang & lexer2 & Hbang & Hrun).
  exists type, lexer1. split.
  - pose proof (skip_Ok _ _ _ _ Hbracket) as Hskip.
    destruct bracket.
    + destruct Hskip as [Hkind _]. rewrite decide_True by done.
      apply bind_Ok in Htype as (inner & lexer3 & Hinner & Htype).
      apply bind_Ok in Htype as (close & lexer4 & Hclose & Htype).
      apply bind_Ok in Htype as (l & lexer5 & Hloc & Htype).
      apply loc_Ok in Hloc as [-> ->]. injection Htype as <- <-.
      by exists lexer0, inner, lexer3, close.
    + destruct Hskip as [Hkind ->]. rewrite decide_False by done.
      apply bind_Ok in Htype as (named & lexer3 & Hnamed & [= <- <-]).
      by exists named.
  - pose proof (skip_Ok _ _ _ _ Hbang) as Hskip.
    destruct bang.
    + destruct Hskip as [Hkind _]. rewrite decide_True by done.
      apply bind_Ok in Hrun as (l & lexer3 & Hloc & Hrun).
      apply loc_Ok in Hloc as [-> ->]. by injection Hrun as <- <-.
    + destruct Hskip as [Hkind ->]. rewrite decide_False by done.
      by injection Hrun as <- <-.
Qed.

(** The tokens that [parseTypeReference] reads spell the type it returns. *)
Lemma parseTypeReference_spells fuel lexer node lexer' :
  parseTypeReference fuel lexer = Ok node lexer' →
  ∃ tokens,
    consume (length (typeKinds node)) lexer = Some (tokens, lexer') ∧
    map Token.kind tokens = typeKinds node ∧
    names tokens = [typeName node].
Proof.
  revert lexer node lexer'.
  induction fuel as [|fuel IH]; intros lexer node lexer' Hrun; [done|].
  apply parseTypeReference_steps in Hrun as (type & lexer1 & Htype & Hbang).
  assert (∃ tokens,
            consume (length (typeKinds type)) lexer = Some (tokens, lexer1) ∧
            map Token.kind tokens = typeKinds type ∧
            names tokens = [typeName type]) as (tokens & Hread & Hkinds & Hname).
  { destruct (decide (Token.kind (Lexer.token lexer) = TokenKind.BRACKET_L))
      as [Hkind|Hkind].
    - destruct Htype as (lexer0 & inner & lexer2 & close & Hopen & Hinner &
                         Hclose & ->).
      apply skip_Ok in Hopen as [_ [t Hopen]].
      apply expect_Ok in Hclose as (-> & Hkind2 & [t2 Hclose]).
      apply IH in Hinner as (tokens & Hread & Hkinds & Hname).
      apply advance_Ok in Hopen; [|congruence].
      apply advance_Ok in Hclose; [|congruence].
      pose proof (consume_app _ _ _ _ _ _ _ Hread Hclose) as Hrest.
      pose proof (consume_app _ _ _ _ _ _ _ Hopen Hrest) as Hall.
      exists ([Lexer.token lexer] ++ tokens ++ [Lexer.token lexer2]).
      split; [|split].
      + simpl. rewrite length_app. simpl. exact Hall.
      + simpl. rewrite map_app. simpl. congruence.
      + rewrite !names_app, Hname, !names_other by congruence. done.
    - destruct Htype as (named & Hnamed & ->).
      apply parseNamedType_Ok in Hnamed as (Hname & -> & [t Hstep]).
      apply advance_Ok in Hstep; [|congruence].
      exists [Lexer.token lexer]. split; [done|]. split; [simpl; congruence|].
      unfold names. by rewrite filter_cons_True, filter_nil. }
  destruct (decide (Token.kind (Lexer.token lexer1) = TokenKind.BANG))
    as [Hkind|Hkind].
  - destruct Hbang as [Hskip ->].
    apply skip_Ok in Hskip as [_ [t Hstep]].
    apply advance_Ok in Hstep; [|congruence].
    exists (tokens ++ [Lexer.token lexer1]). split; [|split].
    + simpl. rewrite length_app. simpl.
      by apply (consume_app _ _ _ _ _ _ _ Hread Hstep).
    + simpl. rewrite map_app. simpl. congruence.
    + rewrite names_app, Hname, names_other by congruence. done.
  - destruct Hbang as [-> ->]. by exists tokens.
Qed.

(** C4. [parseTypeReference] on [[] parses a type after it, expects []] and
    wraps that type in a [ListType]; on another token it parses a
    [NamedType].  When the token that follows is [!] it consumes that one
    token and wraps the type in a [NonNullType], and otherwise it returns the
    type as it is.  So the tokens it reads spell the type it returns, a
    [NonNullType] is returned exactly when the last token read is [!], and
    no [NonNullType] of the result has a [NonNullType] as its [type].  With
    more fuel than tokens it does not run out of fuel.  [parseType("[Int!]!")]
    is [NonNullType(ListType(NonNullType(NamedType("Int"))))],
    [parseType("[[Int]]")] is a list of lists, and [parseType("Int!!")]
    fails at the second [!]. *)
Theorem parseTypeReference_wraps :
  (∀ fuel lexer node lexer',
     parseTypeReference (S fuel) lexer = Ok node lexer' →
     ∃ type lexer1,
       (if decide (Token.kind (Lexer.token lexer) = TokenKind.BRACKET_L)
        then ∃ lexer0 inner lexer2 close,
               skip TokenKind.BRACKET_L lexer = Ok true lexer0 ∧
               parseTypeReference fuel lexer0 = Ok inner lexer2 ∧
               expect TokenKind.BRACKET_R lexer2 = Ok close lexer1 ∧
               type = ListType inner (locAt (Lexer.token lexer) lexer1)
        else ∃ named,
               parseNamedType lexer = Ok named lexer1 ∧
               type = NamedTypeRef named) ∧
       (if decide (Token.kind (Lexer.token lexer1) = TokenKind.BANG)
        then skip TokenKind.BANG lexer1 = Ok true lexer' ∧
             node = NonNullType type (locAt (Lexer.token lexer) lexer')
        else lexer' = lexer1 ∧ node = type)) ∧
  (∀ fuel lexer node lexer',
     parseTypeReference fuel lexer = Ok node lexer' →
     ∃ tokens,
       consume (length (typeKinds node)) lexer = Some (tokens, lexer') ∧
       map Token.kind tokens = typeKinds node ∧
       names tokens = [typeName node]) ∧
  (∀ fuel lexer node lexer',
     parseTypeReference fuel lexer = Ok node lexer' →
     nonNullFlat node = true ∧
     (if decide (Token.kind (Lexer.token lexer) = TokenKind.BRACKET_L)
      then isListType (nullableType node) = true
      else isNamedType (nullableType node) = true) ∧
     (isNonNull node = true ↔
      Token.kind (Lexer.lastToken lexer') = TokenKind.BANG) ∧
     (isNonNull node = false →
      Token.kind (Lexer.token lexer') ≠ TokenKind.BANG ∧
      Token.kind (Lexer.lastToken lexer')
      = if decide (Token.kind (Lexer.token lexer) = TokenKind.BRACKET_L)
        then TokenKind.BRACKET_R else TokenKind.NAME)) ∧
  (∀ fuel lexer,
     (size lexer < fuel)%nat → parseTypeReference fuel lexer ≠ OutOfFuel) ∧
  (∃ lexer',
     parseType (InString "[Int!]!") (Some (mkOptions (Some true)))
     = Ok (NonNullType
             (ListType
                (NonNullType (NamedTypeRef (NamedType (Name "Int" None) None))
                   None) None) None) lexer') ∧
  (∃ l1 l2 l3 l4 l5 lexer',
     parseType (InString "[Int!]!") None
     = Ok (NonNullType
             (ListType
                (NonNullType (NamedTypeRef (NamedType (Name "Int" l1) l2)) l3)
                l4) l5) lexer') ∧
  (∃ lexer',
     parseType (InString "[[Int]]") (Some (mkOptions (Some true)))
     = Ok (ListType
             (ListType (NamedTypeRef (NamedType (Name "Int" None) None)) None)
             None) lexer') ∧
  parseType (InString "Int!!") None
  = Throw (SyntaxError (IsSource (Source.new "Int!!")) 4
             "Expected <EOF>, found !").
Proof.
  split_and!.
  - apply parseTypeReference_steps.
  - apply parseTypeReference_spells.
  - intros fuel lexer node lexer' Hrun.
    exact (wp_Ok _ _ _ _ _ _ _ (parseTypeReference_shape _ _) Hrun).
  - intros fuel lexer Hfuel.
    by eapply wp_terminates, parseTypeReference_consumes.
  - eexists. vm_compute. reflexivity.
  - eexists _, _, _, _, _, _. vm_compute. reflexivity.
  - eexists. vm_compute. reflexivity.
  - vm_compute. reflexivity.
Qed.

Lemma parseTypeReference_wraps_witness :
  ∃ node lexer' tokens,
    parseTypeReference 3 (lexerAfter 1 "[Int!]") = Ok node lexer' ∧
    consume 4 (lexerAfter 1 "[Int!]") = Some (tokens, lexer') ∧
    map Token.kind tokens
    = [ TokenKind.BRACKET_L; TokenKind.NAME; TokenKind.BANG;
        TokenKind.BRACKET_R ] ∧
    names tokens = ["Int"] ∧
    nonNullFlat node = true ∧
    isListType (nullableType node) = true ∧
    isNonNull node = false ∧
    Token.kind (Lexer.lastToken lexer') = TokenKind.BRACKET_R ∧
    parseTypeReference 8 (lexerAfter 1 "[Int!]") ≠ OutOfFuel.
Proof.
  destruct parseTypeReference_wraps as (_ & Hspells & Hshape & Hfuel & _).
  destruct (parseTypeReference 3 (lexerAfter 1 "[Int!]"))
    as [node lexer'| |] eqn:Hrun; [|by vm_compute in Hrun..].
  destruct (Hshape _ _ _ _ Hrun) as (Hflat & Hhead & Hbang & Hnot).
  destruct (Hspells _ _ _ _ Hrun) as (tokens & Hread & Hkinds & Hname).
  assert (node = ListType
                   (NonNullType
                      (NamedTypeRef
                         (NamedType
                            (Name "Int"
                               (locAt (Lexer.token (lexerAfter 2 "[Int!]"))
                                  (lexerAfter 3 "[Int!]")))
                            (locAt (Lexer.token (lexerAfter 2 "[Int!]"))
                               (lexerAfter 3 "[Int!]"))))
                      (locAt (Lexer.token (lexerAfter 2 "[Int!]"))
                         (lexerAfter 4 "[Int!]")))
                   (locAt (Lexer.token (lexerAfter 1 "[Int!]"))
                      (lexerAfter 5 "[Int!]"))) as Hnode.
  { vm_compute in Hrun. injection Hrun as <- _. vm_compute. reflexivity. }
  exists node, lexer', tokens. rewrite Hnode in *.
  split; [done|]. split; [exact Hread|]. split; [exact Hkinds|].
  split; [exact Hname|]. split; [done|]. split; [exact Hhead|].
  split; [done|]. split; [exact (proj2 (Hnot eq_refl))|].
  apply Hfuel. vm_compute. lia.
Defined.

(** *** Object type extensions *)

Ltac run_steps :=
  repeat match goal with
  | |- context [match ?p ?lexer with
                | Ok _ _ => _ | Throw _ => _ | OutOfFuel => _
                end] =>
      destruct (p lexer) as [? ?| |]; try reflexivity
  end.

Lemma loc_eq startToken lexer :
  loc startToken lexer = Ok (locAt startToken lexer) lexer.
Proof. unfold loc, locAt. by destruct (negb _). Qed.

Lemma parseObjectTypeExtension_parts fuel lexer :
  parseObjectTypeExtension fuel lexer
  = match objectTypeExtensionParts fuel lexer with
    | Ok (start, name, interfaces, directives, fields) lexer' =>
        match interfaces, directives, fields with
        | [], [], [] => Throw (unexpected None lexer')
        | _, _, _ =>
            Ok (ObjectTypeExtension name interfaces directives fields
                  (locAt start lexer')) lexer'
        end
    | Throw e => Throw e
    | OutOfFuel => OutOfFuel
    end.
Proof.
  unfold parseObjectTypeExtension, objectTypeExtensionParts, bind, getToken,
    peek, ret, throw.
  run_steps.
  match goal with
  | |- context [bool_decide (length ?xs = _) &&
                bool_decide (length ?ys = _) &&
                bool_decide (length ?zs = _)] =>
      destruct xs, ys, zs; simpl; by rewrite ?loc_eq
  end.
Qed.

(** C7. Once [extend type Name] and the optional interfaces, directives and
    fields are parsed, [parseObjectTypeExtension] throws [unexpected] on the
    current token when all three lists are empty, and otherwise returns the
    [ObjectTypeExtension] node made of them; so the node it returns has at
    least one interface, directive or field.  With more fuel than tokens it
    does not run out of fuel; [extend type Foo] alone fails at offset 15. *)
Theorem object_type_extension_needs_a_part (fuel : nat) (lexer : Lexer) :
  (∀ start name interfaces directives fields lexer',
     objectTypeExtensionParts fuel lexer
     = Ok (start, name, interfaces, directives, fields) lexer' →
     parseObjectTypeExtension fuel lexer
     = match interfaces, directives, fields with
       | [], [], [] =>
           Throw (SyntaxError (Lexer.source lexer')
                    (Token.start (Lexer.token lexer'))
                    ("Unexpected " +:+ getTokenDesc (Lexer.token lexer')))
       | _, _, _ =>
           Ok (ObjectTypeExtension name interfaces directives fields
                 (locAt start lexer')) lexer'
       end) ∧
  (∀ node lexer',
     parseObjectTypeExtension fuel lexer = Ok node lexer' →
     ∃ start name interfaces directives fields,
       objectTypeExtensionParts fuel lexer
       = Ok (start, name, interfaces, directives, fields) lexer' ∧
       node = ObjectTypeExtension name interfaces directives fields
                (locAt start lexer') ∧
       (interfaces ≠ [] ∨ directives ≠ [] ∨ fields ≠ [])) ∧
  ((size lexer < fuel)%nat → parseObjectTypeExtension fuel lexer ≠ OutOfFuel) ∧
  parse (InString "extend type Foo") None
  = Throw (SyntaxError (IsSource (Source.new "extend type Foo")) 15
             "Unexpected <EOF>").
Proof.
  split; [|split; [|split]].
  - intros start name interfaces directives fields lexer' Hparts.
    by rewrite parseObjectTypeExtension_parts, Hparts.
  - intros node lexer'. rewrite parseObjectTypeExtension_parts.
    destruct (objectTypeExtensionParts fuel lexer)
      as [[[[[start name] interfaces] directives] fields] lexer''| |];
      [|done..].
    intros Hrun. exists start, name, interfaces, directives, fields.
    destruct interfaces, directives, fields; simplify_eq; split_and!; auto.
  - intros Hfuel. by eapply wp_terminates, parseObjectTypeExtension_consumes.
  - vm_compute. reflexivity.
Qed.

Lemma object_type_extension_needs_a_part_witness :
  parseObjectTypeExtension 9 (lexerAfter 1 "extend type Foo")
  = Throw (SyntaxError (IsSource (Source.new "extend type Foo")) 15
             "Unexpected <EOF>") ∧
  (∃ node lexer' start name interfaces directives fields,
     parseObjectTypeExtension 9 (lexerAfter 1 "extend type Foo @d")
     = Ok node lexer' ∧
     node = ObjectTypeExtension name interfaces directives fields
              (locAt start lexer') ∧
     (interfaces ≠ [] ∨ directives ≠ [] ∨ fields ≠ [])) ∧
  parseObjectTypeExtension 9 (lexerAfter 1 "extend type Foo @d") ≠ OutOfFuel.
Proof.
  split; [|split].
  - destruct (object_type_extension_needs_a_part 9
                (lexerAfter 1 "extend type Foo")) as (Hparts & _).
    apply (Hparts (Lexer.token (lexerAfter 1 "extend type Foo"))
             (Name "Foo"
                (locAt (Lexer.token (lexerAfter 3 "extend type Foo"))
                   (lexerAfter 4 "extend type Foo")))
             [] [] [] (lexerAfter 4 "extend type Foo")).
    vm_compute. reflexivity.
  - destruct (object_type_extension_needs_a_part 9
                (lexerAfter 1 "extend type Foo @d")) as (_ & Hnode & _).
    destruct (parseObjectTypeExtension 9 (lexerAfter 1 "extend type Foo @d"))
      as [node lexer'| |] eqn:Hrun; [|by vm_compute in Hrun..].
    destruct (Hnode _ _ eq_refl)
      as (start & name & interfaces & directives & fields & _ & Heq & Hpart).
    by exists node, lexer', start, name, interfaces, directives, fields.
  - destruct (object_type_extension_needs_a_part 9
                (lexerAfter 1 "extend type Foo @d")) as (_ & _ & Hfuel & _).
    apply Hfuel. vm_compute. lia.
Defined.

(** ** Values parsed alone and inside a document *)

(** *** The tokens that a run reads *)

Lemma consume_size n lexer tokens lexer' :
  consume n lexer = Some (tokens, lexer') →
  (size lexer' + n ≤ size lexer)%nat ∧ length tokens = n.
Proof.
  revert lexer tokens. induction n as [|n IH]; intros lexer tokens; simpl.
  - intros [= <- <-]. split; [lia|done].
  - case_decide as Hkind; [done|].
    destruct (advance lexer) as [t lexer1| |] eqn:Hstep; [|done..].
    destruct (consume n lexer1) as [[tokens1 lexer2]|] eqn:Hn; [|done].
    intros [= <- <-]. destruct (IH _ _ Hn) as [Hsize Hlen].
    pose proof (wp_Ok True (λ _, True) advance
                  (λ _ lexer', (size lexer' < size lexer)%nat) lexer t lexer1)
      as Hlt.
    split; [|simpl; lia].
    cut (size lexer1 < size lexer)%nat; [lia|].
    apply Hlt; [|done]. wp_prim; [|done]. by apply step_strict.
Qed.

Lemma consume_inj n m lexer tokens tokens' lexer' :
  consume n lexer = Some (tokens, lexer') →
  consume m lexer = Some (tokens', lexer') →
  n = m ∧ tokens = tokens'.
Proof.
  revert m lexer tokens tokens'.
  induction n as [|n IH]; intros [|m] lexer tokens tokens' Hn Hm.
  - simpl in *. by simplify_eq.
  - simpl in Hn. injection Hn as <- <-.
    apply consume_size in Hm as [Hm _]. lia.
  - simpl in Hm. injection Hm as <- <-.
    apply consume_size in Hn as [Hn _]. lia.
  - simpl in *. case_decide; [done|].
    destruct (advance lexer) as [t lexer1| |]; [|done..].
    destruct (consume n lexer1) as [[tokens1 lexer2]|] eqn:Hn1; [|done].
    destruct (consume m lexer1) as [[tokens2 lexer3]|] eqn:Hm1; [|done].
    simplify_eq. by destruct (IH _ _ _ _ Hn1 Hm1) as [-> ->].
Qed.

Lemma consume_split n m lexer tokens lexer' :
  consume (n + m) lexer = Some (tokens, lexer') →
  ∃ tokens1 lexer1 tokens2,
    consume n lexer = Some (tokens1, lexer1) ∧
    consume m lexer1 = Some (tokens2, lexer') ∧
    tokens = tokens1 ++ tokens2.
Proof.
  revert lexer tokens. induction n as [|n IH]; intros lexer tokens; simpl.
  - intros Hm. by exists [], lexer, tokens.
  - case_decide; [done|].
    destruct (advance lexer) as [t lexer1| |]; [|done..].
    destruct (consume (n + m) lexer1) as [[tokens1 lexer2]|] eqn:Hnm; [|done].
    intros [= <- <-].
    destruct (IH _ _ Hnm) as (tokens2 & lexer3 & tokens3 & Hn & Hm & ->).
    rewrite Hn. by exists (Lexer.token lexer :: tokens2), lexer3, tokens3.
Qed.

Lemma consume_first n lexer tokens lexer' lexer2 tokens2 lexer2' :
  (0 < n)%nat →
  consume n lexer = Some (tokens, lexer') →
  consume n lexer2 = Some (tokens2, lexer2') →
  map word tokens = map word tokens2 →
  sameWord (Lexer.token lexer) (Lexer.token lexer2).
Proof.
  destruct n as [|n]; [lia|]. intros _. simpl.
  case_decide; [done|]. case_decide; [done|].
  destruct (advance lexer) as [t lexer1| |]; [|done..].
  destruct (consume n lexer1) as [[tokens1 lexer3]|]; [|done].
  destruct (advance lexer2) as [t' lexer4| |]; [|done..].
  destruct (consume n lexer4) as [[tokens4 lexer5]|]; [|done].
  intros [= <- <-] [= <- <-] Hwords. unfold sameWord, word in *.
  simpl in Hwords. congruence.
Qed.

Lemma stepTo_advance lexer lexer' :
  stepTo lexer lexer' →
  Token.kind (Lexer.token lexer) ≠ TokenKind.EOF →
  advance lexer = Ok (Lexer.token lexer') lexer'.
Proof.
  intros [Henv Hlast _ _ Hnext] Hkind. unfold advance. cbv zeta.
  case_decide; [done|]. rewrite (Hnext Hkind).
  destruct lexer'. unfold env in Henv. simpl in *. by simplify_eq.
Qed.

Lemma reach_refl lexer : reach lexer 0 lexer.
Proof. by exists []. Qed.

Lemma reach_step lexer0 n lexer lexer' :
  reach lexer0 n lexer → stepTo lexer lexer' →
  Token.kind (Lexer.token lexer) ≠ TokenKind.EOF →
  reach lexer0 (S n) lexer'.
Proof.
  intros [tokens Hread] Hstep Hkind.
  apply stepTo_advance in Hstep; [|done].
  apply advance_Ok in Hstep; [|done].
  exists (tokens ++ [Lexer.token lexer]).
  replace (S n) with (n + 1)%nat by lia.
  by apply (consume_app _ _ _ _ _ _ _ Hread Hstep).
Qed.

Lemma reach_trans lexer0 n lexer m lexer' :
  reach lexer0 n lexer → reach lexer m lexer' → reach lexer0 (n + m) lexer'.
Proof.
  intros [tokens Hn] [tokens' Hm]. exists (tokens ++ tokens').
  by apply (consume_app _ _ _ _ _ _ _ Hn Hm).
Qed.

(** Every production of the value grammar moves by [advance] alone, and
    reads at least one token when it returns. *)
Ltac reach_steps :=
  repeat match goal with
  | Hr : reach ?l0 ?n ?l, Hs : stepTo ?l ?l' |- _ =>
      let H := fresh "Hreach" in
      assert (reach l0 (S n) l') as H
        by (apply (reach_step _ _ _ _ Hr Hs); bool_hyps; congruence);
      clear Hs
  end.

Ltac reach_done :=
  reach_steps;
  lazymatch goal with
  | |- ∃ n, _ ∧ reach _ n _ => eexists; split; [|eassumption]; lia
  | |- True => exact I
  end.

Create HintDb reads discriminated.
#[local] Hint Extern 5 (_ ≠ _) => congruence : reads.

Ltac reads_call :=
  reach_steps;
  eapply wp_mono;
    [solve [eauto 6 with reads]|cbv beta; intros ? ? (? & ? & ?)].

Ltac reads_go := wp_run reads_call; try reach_done.

Lemma parseName_reads lexer0 n0 lexer :
  reach lexer0 n0 lexer → reading lexer0 n0 1 parseName lexer.
Proof. intros. unfold parseName. reads_go. Qed.
#[local] Hint Resolve parseName_reads : reads.

Lemma parseVariable_reads lexer0 n0 lexer :
  reach lexer0 n0 lexer → reading lexer0 n0 1 parseVariable lexer.
Proof. intros. unfold parseVariable. reads_go. Qed.
#[local] Hint Resolve parseVariable_reads : reads.

Lemma parseStringLiteral_reads lexer0 n0 lexer :
  Token.kind (Lexer.token lexer) ≠ TokenKind.EOF →
  reach lexer0 n0 lexer → reading lexer0 n0 1 parseStringLiteral lexer.
Proof. intros. unfold parseStringLiteral. reads_go. Qed.
#[local] Hint Resolve parseStringLiteral_reads : reads.

Lemma pushWhile_reads {T} fuel closeKind (parseFn : Parser T) nodes
    lexer0 n0 lexer :
  closeKind ≠ TokenKind.EOF →
  (∀ n lexer', reach lexer0 n lexer' → reading lexer0 n 1 parseFn lexer') →
  reach lexer0 n0 lexer →
  reading lexer0 n0 1 (pushWhile fuel (notSkip closeKind) parseFn nodes) lexer.
Proof.
  intros Hclose Hfn Hreach.
  apply (wp_pushWhile (λ _ _ lexer',
           ∃ n, (n0 ≤ n)%nat ∧ reach lexer0 n lexer')); [eauto|done|].
  intros _ nodes' lexer1 (n1 & Hn1 & Hreach1). wp_prim; [| |done].
  - reach_steps. eexists. split; [|eassumption]. lia.
  - eapply wp_mono; [by apply Hfn|]. cbv beta.
    intros node lexer2 (n2 & Hn2 & Hreach2). exists n2. split; [lia|done].
Qed.

Lemma any_reads {T} fuel openKind closeKind (parseFn : Parser T)
    lexer0 n0 lexer :
  openKind ≠ TokenKind.EOF → closeKind ≠ TokenKind.EOF →
  (∀ n lexer', reach lexer0 n lexer' → reading lexer0 n 1 parseFn lexer') →
  reach lexer0 n0 lexer →
  reading lexer0 n0 1 (any fuel openKind parseFn closeKind) lexer.
Proof.
  intros Hopen Hclose Hfn Hreach. unfold any. wp_prim. wp_prim; [|done..].
  reach_steps. eapply wp_mono; [by apply pushWhile_reads|]. cbv beta.
  intros nodes lexer2 (n2 & Hn2 & Hreach2). exists n2. split; [lia|done].
Qed.

Section ValueCycleReads.
Variable parseValueLiteral : bool → Parser ValueNode.
Variable lexer0 : Lexer.
Hypothesis cycle : ∀ isConst n lexer,
  reach lexer0 n lexer → reading lexer0 n 1 (parseValueLiteral isConst) lexer.

Lemma parseList_reads fuel isConst n0 lexer :
  reach lexer0 n0 lexer →
  reading lexer0 n0 1 (parseList parseValueLiteral fuel isConst) lexer.
Proof.
  intros. unfold parseList, parseConstValue, parseValueValue. do 3 wp_prim.
  eapply wp_mono.
  { apply any_reads; [done..| |eassumption].
    intros. destruct isConst; by apply cycle. }
  cbv beta. intros ? ? (? & ? & ?). reads_go.
Qed.

Lemma parseObjectField_reads isConst n0 lexer :
  reach lexer0 n0 lexer →
  reading lexer0 n0 1 (parseObjectField parseValueLiteral isConst) lexer.
Proof.
  intros. unfold parseObjectField. pose proof cycle. reads_go.
Qed.

Lemma parseObject_reads fuel isConst n0 lexer :
  reach lexer0 n0 lexer →
  reading lexer0 n0 1 (parseObject parseValueLiteral fuel isConst) lexer.
Proof.
  intros. unfold parseObject. do 3 wp_prim. wp_prim; [|done..]. wp_prim.
  reach_steps. eapply wp_mono.
  { apply pushWhile_reads; [done| |eassumption].
    intros. by apply parseObjectField_reads. }
  cbv beta. intros ? ? (? & ? & ?). reads_go.
Qed.
End ValueCycleReads.

Lemma parseValueLiteral_reads fuel isConst lexer0 n0 lexer :
  reach lexer0 n0 lexer →
  reading lexer0 n0 1 (parseValueLiteral fuel isConst) lexer.
Proof.
  revert isConst n0 lexer.
  induction fuel as [|fuel IH]; intros isConst n0 lexer Hreach; [done|].
  simpl. do 3 wp_prim;
    try (by apply parseList_reads);
    try (by apply parseObject_reads);
    reads_go.
Qed.
#[local] Hint Resolve parseValueLiteral_reads : reads.

Lemma parseList_reads_value fuel fuel' isConst lexer0 n0 lexer :
  reach lexer0 n0 lexer →
  reading lexer0 n0 1 (parseList (parseValueLiteral fuel) fuel' isConst) lexer.
Proof.
  apply parseList_reads. intros. by apply parseValueLiteral_reads.
Qed.

Lemma parseObject_reads_value fuel fuel' isConst lexer0 n0 lexer :
  reach lexer0 n0 lexer →
  reading lexer0 n0 1 (parseObject (parseValueLiteral fuel) fuel' isConst)
    lexer.
Proof.
  apply parseObject_reads. intros. by apply parseValueLiteral_reads.
Qed.
#[local] Hint Resolve parseList_reads_value parseObject_reads_value : reads.

(** *** The same tokens give the same tree *)

Lemma consume_one lexer tokens lexer' :
  consume 1 lexer = Some (tokens, lexer') →
  Token.kind (Lexer.token lexer) ≠ TokenKind.EOF ∧
  tokens = [Lexer.token lexer] ∧ ∃ t, advance lexer = Ok t lexer'.
Proof.
  simpl. case_decide; [done|].
  destruct (advance lexer) as [t lexer1| |]; [|done..].
  intros [= <- <-]. eauto.
Qed.

Lemma alike_still {A} (R : A → A → Prop) (p1 p2 : Parser A) lexer1 lexer2
    a1 a2 :
  p1 lexer1 = Ok a1 lexer1 → p2 lexer2 = Ok a2 lexer2 → R a1 a2 →
  alike R p1 p2 lexer1 lexer2.
Proof.
  intros H1 H2 HR a lexer1' n tokens1 tokens2 lexer2' Hrun Hn1 Hn2 _.
  rewrite H1 in Hrun. injection Hrun as <- <-.
  destruct (consume_inj n 0 lexer1 tokens1 [] lexer1 Hn1 eq_refl) as [-> _].
  simpl in Hn2. injection Hn2 as <- <-. eauto.
Qed.

Lemma alike_ret {A} (R : A → A → Prop) a1 a2 lexer1 lexer2 :
  R a1 a2 → alike R (ret a1) (ret a2) lexer1 lexer2.
Proof. by apply alike_still. Qed.

Lemma alike_getToken (R : Token → Token → Prop) lexer1 lexer2 :
  R (Lexer.token lexer1) (Lexer.token lexer2) →
  alike R getToken getToken lexer1 lexer2.
Proof. by apply alike_still. Qed.

Lemma alike_loc token1 token2 lexer1 lexer2 :
  alike whatever (loc token1) (loc token2) lexer1 lexer2.
Proof. eapply alike_still; [apply loc_eq..|done]. Qed.

Lemma alike_advance lexer1 lexer2 :
  Token.kind (Lexer.token lexer1) ≠ TokenKind.EOF →
  alike whatever advance advance lexer1 lexer2.
Proof.
  intros Hkind t lexer1' n tokens1 tokens2 lexer2' Hrun Hn1 Hn2 _.
  pose proof (advance_Ok _ _ _ Hkind Hrun) as Hone.
  destruct (consume_inj _ _ _ _ _ _ Hn1 Hone) as [-> _].
  apply consume_one in Hn2 as (_ & _ & t' & Hstep). by exists t'.
Qed.

Lemma alike_expect kind lexer1 lexer2 :
  kind ≠ TokenKind.EOF →
  alike sameWord (expect kind) (expect kind) lexer1 lexer2.
Proof.
  intros Hkind token lexer1' n tokens1 tokens2 lexer2' Hrun Hn1 Hn2 Hwords.
  apply expect_Ok in Hrun as (-> & Hk & t & Hstep).
  assert (Token.kind (Lexer.token lexer1) ≠ TokenKind.EOF) as Hne
    by congruence.
  pose proof (advance_Ok _ _ _ Hne Hstep) as Hone.
  destruct (consume_inj _ _ _ _ _ _ Hn1 Hone) as [-> ->].
  pose proof (consume_first 1 _ _ _ _ _ _ (Nat.lt_0_1) Hone Hn2 Hwords) as Hw.
  apply consume_one in Hn2 as (_ & _ & t' & Hstep').
  exists (Lexer.token lexer2). split; [|done].
  unfold sameWord, word in Hw. injection Hw as Hk' _.
  unfold expect, bind, getToken, ret.
  rewrite bool_decide_eq_true_2 by congruence. by rewrite Hstep'.
Qed.

Lemma alike_skip kind lexer1 lexer2 :
  kind ≠ TokenKind.EOF →
  sameWord (Lexer.token lexer1) (Lexer.token lexer2) →
  alike eq (skip kind) (skip kind) lexer1 lexer2.
Proof.
  intros Hkind Hw b lexer1' n tokens1 tokens2 lexer2' Hrun Hn1 Hn2 _.
  unfold sameWord, word in Hw. injection Hw as Hk' _.
  apply skip_Ok in Hrun. exists b. split; [|done]. destruct b.
  - destruct Hrun as (Hk & t & Hstep).
    assert (Token.kind (Lexer.token lexer1) ≠ TokenKind.EOF) as Hne
      by congruence.
    pose proof (advance_Ok _ _ _ Hne Hstep) as Hone.
    destruct (consume_inj _ _ _ _ _ _ Hn1 Hone) as [-> ->].
    apply consume_one in Hn2 as (_ & _ & t' & Hstep').
    unfold skip, bind, getToken, ret.
    rewrite bool_decide_eq_true_2 by congruence. by rewrite Hstep'.
  - destruct Hrun as (Hk & ->).
    destruct (consume_inj n 0 lexer1 tokens1 [] lexer1 Hn1 eq_refl) as [-> _].
    simpl in Hn2. injection Hn2 as <- <-.
    unfold skip, bind, getToken, ret.
    by rewrite bool_decide_eq_false_2 by congruence.
Qed.

Lemma alike_notSkip kind lexer1 lexer2 :
  kind ≠ TokenKind.EOF →
  sameWord (Lexer.token lexer1) (Lexer.token lexer2) →
  alike eq (notSkip kind) (notSkip kind) lexer1 lexer2.
Proof.
  intros Hkind Hw b lexer1' n tokens1 tokens2 lexer2' Hrun Hn1 Hn2 Hwords.
  unfold notSkip in Hrun.
  apply bind_Ok in Hrun as (closed & lexer3 & Hskip & [= <- <-]).
  destruct (alike_skip kind lexer1 lexer2 Hkind Hw _ _ _ _ _ _ Hskip Hn1 Hn2
              Hwords) as (closed' & Hskip' & <-).
  exists (negb closed). split; [|done].
  unfold notSkip, bind. by rewrite Hskip'.
Qed.

Lemma alike_bind {A B} (R : B → B → Prop) (S : A → A → Prop)
    (m1 m2 : Parser B) (k1 k2 : B → Parser A) lexer1 lexer2 :
  reading lexer1 0 0 m1 lexer1 →
  (∀ b lexer, m1 lexer1 = Ok b lexer → reading lexer 0 0 (k1 b) lexer) →
  alike R m1 m2 lexer1 lexer2 →
  (∀ b1 b2 lexer1' lexer2',
     m1 lexer1 = Ok b1 lexer1' → m2 lexer2 = Ok b2 lexer2' → R b1 b2 →
     alike S (k1 b1) (k2 b2) lexer1' lexer2') →
  alike S (bind m1 k1) (bind m2 k2) lexer1 lexer2.
Proof.
  intros Hm Hk Ham Hak a1 lexer1' n tokens1 tokens2 lexer2' Hrun Hn1 Hn2
    Hwords.
  apply bind_Ok in Hrun as (b1 & lexer3 & Hm1 & Hk1).
  destruct (wp_Ok _ _ _ _ _ _ _ Hm Hm1) as (nm & _ & tokensm & Hnm).
  destruct (wp_Ok _ _ _ _ _ _ _ (Hk _ _ Hm1) Hk1) as (nk & _ & tokensk & Hnk).
  pose proof (consume_app _ _ _ _ _ _ _ Hnm Hnk) as Hall.
  destruct (consume_inj _ _ _ _ _ _ Hn1 Hall) as [-> ->].
  apply consume_split in Hn2
    as (tokens2m & lexer4 & tokens2k & Hn2m & Hn2k & ->).
  rewrite !map_app in Hwords.
  apply app_inj_1 in Hwords as [Hwm Hwk].
  2:{ rewrite !length_map.
      apply consume_size in Hnm as [_ ->].
      by apply consume_size in Hn2m as [_ ->]. }
  destruct (Ham _ _ _ _ _ _ Hm1 Hnm Hn2m Hwm) as (b2 & Hm2 & HR).
  destruct (Hak _ _ _ _ Hm1 Hm2 HR _ _ _ _ _ _ Hk1 Hnk Hn2k Hwk)
    as (a2 & Hk2 & HS).
  exists a2. split; [|done]. unfold bind. by rewrite Hm2.
Qed.

(** A run that reads a token has looked at the same first token. *)
Lemma alike_inspect {A} (R : A → A → Prop) (p1 p2 : Parser A) lexer1 lexer2 :
  reading lexer1 0 1 p1 lexer1 →
  (sameWord (Lexer.token lexer1) (Lexer.token lexer2) →
   alike R p1 p2 lexer1 lexer2) →
  alike R p1 p2 lexer1 lexer2.
Proof.
  intros Hread Halike a1 lexer1' n tokens1 tokens2 lexer2' Hrun Hn1 Hn2
    Hwords.
  destruct (wp_Ok _ _ _ _ _ _ _ Hread Hrun) as (n' & Hpos & tokens' & Hn').
  destruct (consume_inj _ _ _ _ _ _ Hn1 Hn') as [-> ->].
  eapply Halike; [|done..].
  by apply (consume_first n' _ _ _ _ _ _ ltac:(lia) Hn1 Hn2).
Qed.

(** The side conditions of [alike_bind]. *)
Ltac reads_side :=
  intros;
  repeat match goal with
  | H : getToken _ = Ok _ _ |- _ =>
      unfold getToken in H; injection H as <- <-
  end;
  lazymatch goal with
  | |- wp _ _ _ _ ?l => pose proof (reach_refl l)
  end;
  reads_go.

Ltac alike_split :=
  eapply alike_bind; [reads_side|reads_side| |cbv beta].

Lemma pushWhile_alike {T} (R : T → T → Prop) fuel closeKind
    (item1 item2 : Parser T) nodes1 nodes2 lexer1 lexer2 :
  closeKind ≠ TokenKind.EOF →
  (∀ lexer0 n lexer, reach lexer0 n lexer → reading lexer0 n 1 item1 lexer) →
  (∀ lexer1' lexer2', alike R item1 item2 lexer1' lexer2') →
  Forall2 R nodes1 nodes2 →
  alike (Forall2 R) (pushWhile fuel (notSkip closeKind) item1 nodes1)
    (pushWhile fuel (notSkip closeKind) item2 nodes2) lexer1 lexer2.
Proof.
  intros Hclose Hreads Hitem. revert nodes1 nodes2 lexer1 lexer2.
  induction fuel as [|fuel IH]; intros nodes1 nodes2 lexer1 lexer2 Hnodes;
    [done|].
  apply alike_inspect.
  { apply pushWhile_reads; [done|by eauto|apply reach_refl]. }
  intros Hw. simpl. eapply alike_bind.
  - reads_side.
  - intros [] lexer Hrun.
    + apply wp_bind. eapply wp_mono; [apply Hreads, reach_refl|cbv beta].
      intros node lexer' (n & _ & Hn).
      eapply wp_mono;
        [apply (pushWhile_reads _ _ _ _ lexer n); [done|by eauto|exact Hn]|].
      cbv beta. intros nodes lexer'' (n' & _ & Hn'). eauto with lia.
    + apply wp_ret. exists 0%nat. split; [lia|apply reach_refl].
  - by apply alike_notSkip.
  - cbv beta. intros b1 b2 lexer1' lexer2' _ _ <-. destruct b1.
    + eapply alike_bind.
      * eapply wp_mono; [apply Hreads, reach_refl|cbv beta].
        intros ? ? (n & _ & Hn). eauto with lia.
      * intros node lexer _.
        eapply wp_mono;
          [apply pushWhile_reads; [done|by eauto|apply reach_refl]|].
        cbv beta. intros ? ? (n & _ & Hn). eauto with lia.
      * apply Hitem.
      * cbv beta. intros node1 node2 lexer1'' lexer2'' _ _ Hnode.
        apply IH. apply Forall2_app; [done|]. by constructor.
    + by apply alike_ret.
Qed.

Lemma sameTree_list {A} `{Strip A} (nodes1 nodes2 : list A) :
  Forall2 sameTree nodes1 nodes2 → map strip nodes2 = map strip nodes1.
Proof. induction 1 as [|a1 a2 l1 l2 Ha _ IH]; simpl; [done|]. by f_equal. Qed.

Lemma parseName_alike lexer1 lexer2 :
  alike sameTree parseName parseName lexer1 lexer2.
Proof.
  unfold parseName. alike_split; [by apply alike_expect|].
  intros t1 t2 lexer1' lexer2' _ _ Hw.
  alike_split; [apply alike_loc|]. intros. apply alike_ret.
  unfold sameWord, word in Hw. injection Hw as _ Hvalue.
  unfold sameTree, valueString. simpl. by rewrite Hvalue.
Qed.

Lemma parseVariable_alike lexer1 lexer2 :
  alike sameTree parseVariable parseVariable lexer1 lexer2.
Proof.
  unfold parseVariable.
  alike_split; [by apply (alike_getToken whatever)|]. intros.
  alike_split; [by apply alike_expect|]. intros.
  alike_split; [by apply parseName_alike|].
  intros name1 name2 ? ? _ _ Hname.
  alike_split; [apply alike_loc|]. intros l1 l2 **. apply alike_ret.
  change (Variable_ (strip name2) None = Variable_ (strip name1) None).
  by rewrite Hname.
Qed.

Lemma parseStringLiteral_alike lexer1 lexer2 :
  Token.kind (Lexer.token lexer1) ≠ TokenKind.EOF →
  sameWord (Lexer.token lexer1) (Lexer.token lexer2) →
  alike sameTree parseStringLiteral parseStringLiteral lexer1 lexer2.
Proof.
  intros Hkind Hw. unfold parseStringLiteral.
  alike_split; [by apply (alike_getToken sameWord)|].
  intros t1 t2 ? ? [= <- <-] [= <- <-] _.
  alike_split; [by apply alike_advance|]. intros.
  alike_split; [apply alike_loc|]. intros. apply alike_ret.
  unfold sameWord, word in Hw. injection Hw as Hk Hvalue.
  unfold sameTree, valueString. simpl. by rewrite Hk, Hvalue.
Qed.

Section ValueCycleAlike.
Variable parseValueLiteral : bool → Parser ValueNode.
Hypothesis cycle_reads : ∀ isConst lexer0 n lexer,
  reach lexer0 n lexer → reading lexer0 n 1 (parseValueLiteral isConst) lexer.
Hypothesis cycle : ∀ isConst lexer1 lexer2,
  alike sameTree (parseValueLiteral isConst) (parseValueLiteral isConst)
    lexer1 lexer2.

Lemma parseList_alike fuel isConst lexer1 lexer2 :
  alike sameTree (parseList parseValueLiteral fuel isConst)
    (parseList parseValueLiteral fuel isConst) lexer1 lexer2.
Proof.
  unfold parseList, parseConstValue, parseValueValue, any.
  set (item := if isConst then parseValueLiteral true
               else parseValueLiteral false).
  assert (∀ lexer0 n lexer,
            reach lexer0 n lexer → reading lexer0 n 1 item lexer) as Hitem.
  { intros. unfold item. destruct isConst; by apply cycle_reads. }
  assert (∀ lexer0 n lexer,
            reach lexer0 n lexer →
            reading lexer0 n 1
              (pushWhile fuel (notSkip TokenKind.BRACKET_R) item []) lexer)
    as Hloop.
  { intros. apply pushWhile_reads; [done| |done]. intros. by apply Hitem. }
  alike_split; [by apply (alike_getToken whatever)|].
  intros start1 start2 ? ? [= <- <-] [= <- <-] _.
  alike_split.
  - alike_split; [by apply alike_expect|]. intros.
    apply (pushWhile_alike sameTree); [done|done| |done].
    intros. unfold item. destruct isConst; apply cycle.
  - intros values1 values2 ? ? _ _ Hvalues.
    alike_split; [apply alike_loc|]. intros. apply alike_ret.
    change (ListValue (map strip values2) None
            = ListValue (map strip values1) None).
    f_equal. by apply sameTree_list.
Qed.

Lemma parseObjectField_reads_cycle isConst lexer0 n lexer :
  reach lexer0 n lexer →
  reading lexer0 n 1 (parseObjectField parseValueLiteral isConst) lexer.
Proof. apply parseObjectField_reads. intros. by apply cycle_reads. Qed.

Lemma parseObjectField_alike isConst lexer1 lexer2 :
  alike sameTree (parseObjectField parseValueLiteral isConst)
    (parseObjectField parseValueLiteral isConst) lexer1 lexer2.
Proof.
  unfold parseObjectField. pose proof cycle_reads.
  alike_split; [by apply (alike_getToken whatever)|]. intros.
  alike_split; [by apply parseName_alike|].
  intros name1 name2 ? ? _ _ Hname.
  alike_split; [by apply alike_expect|]. intros.
  alike_split; [by apply cycle|].
  intros value1 value2 ? ? _ _ Hvalue.
  alike_split; [apply alike_loc|]. intros l1 l2 **. apply alike_ret.
  change (ObjectField (strip name2) (strip value2) None
          = ObjectField (strip name1) (strip value1) None).
  by rewrite Hname, Hvalue.
Qed.

Lemma parseObject_alike fuel isConst lexer1 lexer2 :
  alike sameTree (parseObject parseValueLiteral fuel isConst)
    (parseObject parseValueLiteral fuel isConst) lexer1 lexer2.
Proof.
  unfold parseObject.
  assert (∀ lexer0 n lexer,
            reach lexer0 n lexer →
            reading lexer0 n 1
              (pushWhile fuel (notSkip TokenKind.BRACE_R)
                 (parseObjectField parseValueLiteral isConst) []) lexer)
    as Hloop.
  { intros. apply pushWhile_reads; [done| |done].
    intros. by apply parseObjectField_reads_cycle. }
  alike_split; [by apply (alike_getToken whatever)|].
  intros start1 start2 ? ? [= <- <-] [= <- <-] _.
  alike_split; [by apply alike_expect|]. intros.
  alike_split.
  - apply (pushWhile_alike sameTree); [done| | |done].
    + intros. by apply parseObjectField_reads_cycle.
    + intros. apply parseObjectField_alike.
  - intros fields1 fields2 ? ? _ _ Hfields.
    alike_split; [apply alike_loc|]. intros. apply alike_ret.
    change (ObjectValue (map strip fields2) None
            = ObjectValue (map strip fields1) None).
    f_equal. by apply sameTree_list.
Qed.
End ValueCycleAlike.

Lemma alike_throw {A} (R : A → A → Prop) e1 e2 lexer1 lexer2 :
  alike R (throw e1) (throw e2) lexer1 lexer2.
Proof. by intros ? ? ? ? ? ? ?. Qed.

Lemma parseValueLiteral_alike fuel isConst lexer1 lexer2 :
  alike sameTree (parseValueLiteral fuel isConst)
    (parseValueLiteral fuel isConst) lexer1 lexer2.
Proof.
  revert isConst lexer1 lexer2.
  induction fuel as [|fuel IH]; intros isConst lexer1 lexer2;
    [by intros ? ? ? ? ? ? ?|].
  apply alike_inspect; [apply parseValueLiteral_reads, reach_refl|].
  intros Hw. simpl.
  alike_split; [by apply (alike_getToken sameWord)|].
  intros t1 t2 ? ? [= <- <-] [= <- <-] _.
  unfold sameWord, word in Hw. injection Hw as Hkind Hvalue.
  unfold valueString. rewrite Hkind, Hvalue.
  destruct (Token.kind (Lexer.token lexer1)) eqn:Hk;
    try apply alike_throw.
  all: try (apply parseList_alike;
            [intros; by apply parseValueLiteral_reads|apply IH]).
  all: try (apply parseObject_alike;
            [intros; by apply parseValueLiteral_reads|apply IH]).
  all: repeat match goal with
       | |- alike _ (if ?b then _ else _) _ _ _ => destruct b
       end;
       try apply alike_throw.
  all: try (alike_split; [apply alike_advance; congruence|]; intros;
            alike_split; [apply alike_loc|]; intros; by apply alike_ret).
  - alike_split; [apply parseVariable_alike|].
    intros [[name1 ?] ?] [[name2 ?] ?] ? ? _ _ Hvariable. apply alike_ret.
    injection Hvariable as Hname. unfold sameTree. simpl. by rewrite Hname.
  - alike_split;
      [apply parseStringLiteral_alike; unfold sameWord, word; congruence|].
    intros [] [] ? ? _ _ Hstring. apply alike_ret.
    injection Hstring as -> ->. done.
  - alike_split;
      [apply parseStringLiteral_alike; unfold sameWord, word; congruence|].
    intros [] [] ? ? _ _ Hstring. apply alike_ret.
    injection Hstring as -> ->. done.
Qed.

(** *** More fuel changes nothing *)

Lemma extends_refl {A} (p : Parser A) : extends p p.
Proof. by intros lexer _. Qed.

Lemma extends_bind {A B} (m m' : Parser A) (k k' : A → Parser B) :
  extends m m' → (∀ a, extends (k a) (k' a)) →
  extends (bind m k) (bind m' k').
Proof.
  intros Hm Hk lexer. unfold bind.
  destruct (m lexer) as [a lexer1| |] eqn:Hrun; [| |done].
  - rewrite (Hm lexer), Hrun by congruence. apply Hk.
  - by rewrite (Hm lexer), Hrun by congruence.
Qed.

Lemma pushWhile_extends {T} fuel fuel' cond (parseFn parseFn' : Parser T)
    nodes :
  (fuel ≤ fuel')%nat → extends parseFn parseFn' →
  extends (pushWhile fuel cond parseFn nodes)
    (pushWhile fuel' cond parseFn' nodes).
Proof.
  intros Hle Hfn. revert fuel' nodes Hle.
  induction fuel as [|fuel IH]; intros fuel' nodes Hle; [by intros lexer|].
  destruct fuel' as [|fuel']; [lia|]. simpl.
  apply extends_bind; [apply extends_refl|]. intros [].
  - apply extends_bind; [done|]. intros node. apply IH. lia.
  - apply extends_refl.
Qed.

Lemma parseValueLiteral_extends fuel fuel' isConst :
  (fuel ≤ fuel')%nat →
  extends (parseValueLiteral fuel isConst) (parseValueLiteral fuel' isConst).
Proof.
  revert fuel' isConst.
  induction fuel as [|fuel IH]; intros fuel' isConst Hle; [by intros lexer|].
  destruct fuel' as [|fuel']; [lia|]. simpl.
  assert (fuel ≤ fuel')%nat as Hle' by lia.
  apply extends_bind; [apply extends_refl|]. intros token.
  destruct (Token.kind token); try apply extends_refl.
  - unfold parseList, any, parseConstValue, parseValueValue.
    apply extends_bind; [apply extends_refl|]. intros start.
    apply extends_bind; [|intros; apply extends_refl].
    apply extends_bind; [apply extends_refl|]. intros _.
    apply pushWhile_extends; [done|]. destruct isConst; by apply IH.
  - unfold parseObject.
    apply extends_bind; [apply extends_refl|]. intros start.
    apply extends_bind; [apply extends_refl|]. intros _.
    apply extends_bind; [|intros; apply extends_refl].
    apply pushWhile_extends; [done|]. unfold parseObjectField.
    repeat (apply extends_bind; [try apply extends_refl|intros ?]);
      try apply extends_refl.
    by apply IH.
Qed.

(** *** The two paths to a value *)

Lemma parseValue_steps source options value lexer' :
  parseValue source options = Ok value lexer' →
  let lexer := createLexer (toSourceObj source) (orDefault options) in
  ∃ sof lexer1 lexer2 eof,
    expect TokenKind.SOF lexer = Ok sof lexer1 ∧
    parseValueLiteral (fuelFor lexer) false lexer1 = Ok value lexer2 ∧
    expect TokenKind.EOF lexer2 = Ok eof lexer'.
Proof.
  intros Hrun. unfold parseValue in Hrun. cbv zeta in *.
  apply bind_Ok in Hrun as (sof & lexer1 & Hsof & Hrun).
  apply bind_Ok in Hrun as (value' & lexer2 & Hvalue & Hrun).
  apply bind_Ok in Hrun as (eof & lexer3 & Heof & [= <- <-]).
  by exists sof, lexer1, lexer2, eof.
Qed.

Lemma parseArgument_steps fuel lexer argument lexer' :
  parseArgument fuel lexer = Ok argument lexer' →
  ∃ name lexer1 colon lexer2,
    parseName lexer = Ok name lexer1 ∧
    expect TokenKind.COLON lexer1 = Ok colon lexer2 ∧
    parseValueLiteral fuel false lexer2 = Ok (argumentValue argument) lexer'.
Proof.
  unfold parseArgument. intros Hrun.
  apply bind_Ok in Hrun as (start & lexer0 & [= <- <-] & Hrun).
  apply bind_Ok in Hrun as (name & lexer1 & Hname & Hrun).
  apply bind_Ok in Hrun as (colon & lexer2 & Hcolon & Hrun).
  apply bind_Ok in Hrun as (value & lexer3 & Hvalue & Hrun).
  apply bind_Ok in Hrun as (l & lexer4 & Hloc & [= <- <-]).
  apply loc_Ok in Hloc as [-> ->].
  by exists name, lexer1, colon, lexer2.
Qed.



(** ** Input checking *)

(** The lexer never throws the usage error of [parse]. *)
Lemma readTokens_fault source fuel pos line lineStart cs :
  ¬ isTypeError (LexerModel.readTokens source fuel pos line lineStart cs).2.
Proof.
  revert pos line lineStart cs.
  induction fuel as [|fuel IH]; intros pos line lineStart cs [m Hm].
  { by destruct cs. }
  simpl in Hm. unfold LexerModel.lexError, syntaxError in Hm.
  repeat (case_match; simpl in *; try done; simplify_eq);
    match goal with
    | H : LexerModel.readTokens _ _ _ _ _ _ = (_, TypeError _) |- _ =>
        eapply IH; rewrite H; by eexists
    | H : (LexerModel.readTokens _ _ _ _ _ _).2 = TypeError _ |- _ =>
        eapply IH; rewrite H; by eexists
    end.
Qed.

Lemma createLexer_fault source options :
  ¬ isTypeError (Lexer.fault (createLexer source options)).
Proof.
  unfold createLexer.
  destruct source as [src|[str [body|]]]; cbn [Lexer.fault foreignBody];
    unfold LexerModel.tokenize; try apply readTokens_fault.
  by intros [m Hm].
Qed.

Lemma errOK_not_TypeError e err :
  ¬ isTypeError e.2 → errOK e err → ¬ isTypeError err.
Proof. intros Hfault [(pos & descr & ->)| ->]; [by intros [m Hm]|done]. Qed.

Lemma createLexer_errors source options err :
  errOK (env (createLexer source options)) err → ¬ isTypeError err.
Proof.
  apply (errOK_not_TypeError (env (createLexer source options))).
  apply createLexer_fault.
Qed.

Lemma wp_combine {A} (E : Error → Prop) (p : Parser A)
    (Q1 Q2 : A → Lexer → Prop) lexer :
  wp False (λ _, True) p Q1 lexer → wp True E p Q2 lexer →
  wp False E p (λ a lexer', Q1 a lexer' ∧ Q2 a lexer') lexer.
Proof. unfold wp. destruct (p lexer); auto. Qed.

Lemma parseValue_errors source options :
  let lexer := createLexer (toSourceObj source) (orDefault options) in
  match parseValue source options with
  | Ok value lexer' => env lexer' = env lexer ∧ Forall (locOK (env lexer)) (locs value)
  | Throw err => errOK (env lexer) err
  | OutOfFuel => False
  end.
Proof.
  intros lexer. unfold parseValue. fold lexer.
  assert (wp False (errOK (env lexer))
            (let* _ := expect TokenKind.SOF in
             let* value := parseValueLiteral (fuelFor lexer) false in
             let* _ := expect TokenKind.EOF in ret value)
            (λ value lexer', env lexer' = env lexer ∧
                             Forall (locOK (env lexer)) (locs value)) lexer)
    as Hwp; [|exact Hwp].
  pose proof (fuelFor_enough lexer) as Hfuel.
  wp_prim. wp_prim; [|by eauto with located..].
  wp_prim.
  eapply wp_mono.
  { apply wp_combine.
    - apply (parseValueLiteral_consumes _ false). size_solver.
    - apply (parseValueLiteral_located (env lexer)). by env_norm. }
  cbv beta. intros value lexer1 [_ [He Hlocs]].
  wp_prim. wp_prim; [|by eauto with located..].
  wp_prim. split; [by env_norm|done].
Qed.

Lemma parseType_errors source options :
  let lexer := createLexer (toSourceObj source) (orDefault options) in
  match parseType source options with
  | Ok type lexer' => env lexer' = env lexer ∧ Forall (locOK (env lexer)) (locs type)
  | Throw err => errOK (env lexer) err
  | OutOfFuel => False
  end.
Proof.
  intros lexer. unfold parseType. fold lexer.
  assert (wp False (errOK (env lexer))
            (let* _ := expect TokenKind.SOF in
             let* type := parseTypeReference (fuelFor lexer) in
             let* _ := expect TokenKind.EOF in ret type)
            (λ type lexer', env lexer' = env lexer ∧
                            Forall (locOK (env lexer)) (locs type)) lexer)
    as Hwp; [|exact Hwp].
  pose proof (fuelFor_enough lexer) as Hfuel.
  wp_prim. wp_prim; [|by eauto with located..].
  wp_prim.
  eapply wp_mono.
  { apply wp_combine.
    - apply parseTypeReference_consumes. size_solver.
    - apply (parseTypeReference_located (env lexer)). by env_norm. }
  cbv beta. intros type lexer1 [_ [He Hlocs]].
  wp_prim. wp_prim; [|by eauto with located..].
  wp_prim. split; [by env_norm|done].
Qed.

Lemma parse_errors source options :
  instanceofSource (toSourceObj source) = true →
  let lexer := createLexer (toSourceObj source) (orDefault options) in
  match parse source options with
  | Ok document lexer' =>
      env lexer' = env lexer ∧ Forall (locOK (env lexer)) (locs document)
  | Throw err => errOK (env lexer) err
  | OutOfFuel => False
  end.
Proof.
  intros Hsrc lexer. rewrite parse_unfold by done. fold lexer.
  assert (wp False (errOK (env lexer)) (parseDocument (fuelFor lexer))
            (λ document lexer', env lexer' = env lexer ∧
                                Forall (locOK (env lexer)) (locs document))
            lexer) as Hwp; [|exact Hwp].
  eapply wp_mono.
  { apply wp_combine.
    - apply parseDocument_consumes, fuelFor_enough.
    - by apply (parseDocument_located (env lexer)). }
  by intros ? ? [_ ?].
Qed.

(** C9. [parse] throws its [TypeError] on every input that is neither a
    string nor a [Source], and on no other input.  [parseValue] and
    [parseType] treat a string as the [Source] made of it and hand any other
    value to the lexer unchecked: they never throw a [TypeError]; on a value
    that has a [body] they parse that body, and on one that has none it is
    the lexer that fails. *)
Theorem only_parse_checks_its_input :
  (∀ v options,
     parse (InForeign v) options
     = Throw (TypeError ("Must provide Source. Received: " +:+ foreignString v))) ∧
  (∀ source options,
     throwsTypeError (parse source options) ↔ ∃ v, source = InForeign v) ∧
  (∀ s options,
     parseValue (InString s) options
     = parseValue (InSource (Source.new s)) options ∧
     parseType (InString s) options
     = parseType (InSource (Source.new s)) options) ∧
  (∀ source options,
     ¬ throwsTypeError (parseValue source options) ∧
     ¬ throwsTypeError (parseType source options) ∧
     parseValue source options ≠ OutOfFuel ∧
     parseType source options ≠ OutOfFuel) ∧
  (∃ lexer lexer',
     parseValue (InForeign (mkForeign "[object Object]" (Some "[42]")))
       (Some (mkOptions (Some true)))
     = Ok (ListValue [IntValue "42" None] None) lexer ∧
     parseType (InForeign (mkForeign "[object Object]" (Some "[Int]")))
       (Some (mkOptions (Some true)))
     = Ok (ListType (NamedTypeRef (NamedType (Name "Int" None) None)) None)
         lexer') ∧
  (∃ error,
     parseValue (InForeign (mkForeign "undefined" None)) None
     = Throw (HostError error) ∧
     parseType (InForeign (mkForeign "undefined" None)) None
     = Throw (HostError error)).
Proof.
  split_and!.
  - done.
  - intros source options. split.
    + intros [message Hthrow].
      destruct (instanceofSource (toSourceObj source)) eqn:Hsrc.
      * pose proof (parse_errors source options Hsrc) as Herr.
        simpl in Herr. rewrite Hthrow in Herr.
        destruct (createLexer_errors _ _ _ Herr).
        by eexists.
      * destruct source; try done. by eexists.
    + intros [v ->]. by eexists.
  - done.
  - intros source options.
    pose proof (parseValue_errors source options) as Hvalue.
    pose proof (parseType_errors source options) as Htype.
    simpl in Hvalue, Htype. split_and!.
    + intros [message Hthrow]. rewrite Hthrow in Hvalue.
      destruct (createLexer_errors _ _ _ Hvalue). by eexists.
    + intros [message Hthrow]. rewrite Hthrow in Htype.
      destruct (createLexer_errors _ _ _ Htype). by eexists.
    + intros Hrun. by rewrite Hrun in Hvalue.
    + intros Hrun. by rewrite Hrun in Htype.
  - eexists _, _. split; vm_compute; reflexivity.
  - eexists. split; vm_compute; reflexivity.
Qed.

Lemma only_parse_checks_its_input_witness :
  throwsTypeError (parse (InForeign (mkForeign "42" None)) None) ∧
  ¬ throwsTypeError (parseValue (InForeign (mkForeign "42" None)) None).
Proof.
  destruct only_parse_checks_its_input as (_ & Hparse & _ & Hvalue & _).
  split.
  - apply Hparse. by eexists.
  - apply (Hvalue (InForeign (mkForeign "42" None)) None).
Defined.

(** ** Locations: every production spans its node *)

Create HintDb spans discriminated.

Ltac spans_call :=
  first [ eapply wp_mono;
          [solve [eauto 3 with spans]|cbv beta; intros ? ? ?]
        | trivial_call ].

Ltac spans_go := wp_run spans_call; try done.

Lemma spanning_spans {A} `{Locs A} (p : Parser A) :
  (∀ lexer, spanning p lexer) → spans p.
Proof.
  intros Hp lexer node lexer' Hrun.
  rewrite (wp_Ok _ _ _ _ _ _ _ (Hp _) Hrun). unfold locAt, Loc.
  by destruct (truthy _).
Qed.

Lemma parseName_spanning lexer : spanning parseName lexer.
Proof. unfold parseName. spans_go. Qed.
#[local] Hint Resolve parseName_spanning : spans.

Lemma parseVariable_spanning lexer : spanning parseVariable lexer.
Proof. unfold parseVariable. spans_go. Qed.
#[local] Hint Resolve parseVariable_spanning : spans.

Lemma parseNamedType_spanning lexer : spanning parseNamedType lexer.
Proof. unfold parseNamedType. spans_go. Qed.
#[local] Hint Resolve parseNamedType_spanning : spans.

Lemma parseTypeReference_spanning fuel lexer :
  spanning (parseTypeReference fuel) lexer.
Proof. destruct fuel; [done|]. simpl. spans_go. Qed.
#[local] Hint Resolve parseTypeReference_spanning : spans.

Lemma parseStringLiteral_spanning lexer : spanning parseStringLiteral lexer.
Proof. unfold parseStringLiteral. spans_go. Qed.
#[local] Hint Resolve parseStringLiteral_spanning : spans.

Lemma parseList_spanning parseValueLiteral fuel isConst lexer :
  spanning (parseList parseValueLiteral fuel isConst) lexer.
Proof. unfold parseList. spans_go. Qed.

Lemma parseObjectField_spanning parseValueLiteral isConst lexer :
  spanning (parseObjectField parseValueLiteral isConst) lexer.
Proof. unfold parseObjectField. spans_go. Qed.

Lemma parseObject_spanning parseValueLiteral fuel isConst lexer :
  spanning (parseObject parseValueLiteral fuel isConst) lexer.
Proof. unfold parseObject. spans_go. Qed.
#[local] Hint Resolve parseList_spanning parseObject_spanning : spans.

Lemma parseValueLiteral_spanning fuel isConst lexer :
  spanning (parseValueLiteral fuel isConst) lexer.
Proof. destruct fuel; [done|]. simpl. spans_go. Qed.
#[local] Hint Resolve parseValueLiteral_spanning : spans.

Lemma parseArgument_spanning fuel lexer : spanning (parseArgument fuel) lexer.
Proof. unfold parseArgument. spans_go. Qed.

Lemma parseConstArgument_spanning fuel lexer :
  spanning (parseConstArgument fuel) lexer.
Proof. unfold parseConstArgument. spans_go. Qed.

Lemma parseDirective_spanning fuel isConst lexer :
  spanning (parseDirective fuel isConst) lexer.
Proof. unfold parseDirective. spans_go. Qed.

Lemma parseFragmentName_spanning lexer : spanning parseFragmentName lexer.
Proof. unfold parseFragmentName. spans_go. Qed.

Lemma parseField_spanning parseSelectionSet fuel lexer :
  spanning (parseField parseSelectionSet fuel) lexer.
Proof. unfold parseField. spans_go. Qed.

Lemma parseFragment_spanning parseSelectionSet fuel lexer :
  spanning (parseFragment parseSelectionSet fuel) lexer.
Proof. unfold parseFragment. spans_go. Qed.
#[local] Hint Resolve parseField_spanning parseFragment_spanning : spans.

Lemma parseSelection_spanning parseSelectionSet fuel lexer :
  spanning (parseSelection parseSelectionSet fuel) lexer.
Proof. unfold parseSelection. spans_go. Qed.

Lemma parseSelectionSet_spanning fuel lexer :
  spanning (parseSelectionSet fuel) lexer.
Proof. destruct fuel; [done|]. simpl. spans_go. Qed.

Lemma parseVariableDefinition_spanning fuel lexer :
  spanning (parseVariableDefinition fuel) lexer.
Proof. unfold parseVariableDefinition. spans_go. Qed.

Lemma parseOperationDefinition_spanning fuel lexer :
  spanning (parseOperationDefinition fuel) lexer.
Proof. unfold parseOperationDefinition. spans_go. Qed.

Lemma parseFragmentDefinition_spanning fuel lexer :
  spanning (parseFragmentDefinition fuel) lexer.
Proof. unfold parseFragmentDefinition. spans_go. Qed.

Lemma parseOperationTypeDefinition_spanning lexer :
  spanning parseOperationTypeDefinition lexer.
Proof. unfold parseOperationTypeDefinition. spans_go. Qed.

Lemma parseSchemaDefinition_spanning fuel lexer :
  spanning (parseSchemaDefinition fuel) lexer.
Proof. unfold parseSchemaDefinition. spans_go. Qed.

Lemma parseScalarTypeDefinition_spanning fuel lexer :
  spanning (parseScalarTypeDefinition fuel) lexer.
Proof. unfold parseScalarTypeDefinition. spans_go. Qed.

Lemma parseInputValueDef_spanning fuel lexer :
  spanning (parseInputValueDef fuel) lexer.
Proof. unfold parseInputValueDef. spans_go. Qed.

Lemma parseFieldDefinition_spanning fuel lexer :
  spanning (parseFieldDefinition fuel) lexer.
Proof. unfold parseFieldDefinition. spans_go. Qed.

Lemma parseObjectTypeDefinition_spanning fuel lexer :
  spanning (parseObjectTypeDefinition fuel) lexer.
Proof. unfold parseObjectTypeDefinition. spans_go. Qed.

Lemma parseInterfaceTypeDefinition_spanning fuel lexer :
  spanning (parseInterfaceTypeDefinition fuel) lexer.
Proof. unfold parseInterfaceTypeDefinition. spans_go. Qed.

Lemma parseUnionTypeDefinition_spanning fuel lexer :
  spanning (parseUnionTypeDefinition fuel) lexer.
Proof. unfold parseUnionTypeDefinition. spans_go. Qed.

Lemma parseEnumValueDefinition_spanning fuel lexer :
  spanning (parseEnumValueDefinition fuel) lexer.
Proof. unfold parseEnumValueDefinition. spans_go. Qed.

Lemma parseEnumTypeDefinition_spanning fuel lexer :
  spanning (parseEnumTypeDefinition fuel) lexer.
Proof. unfold parseEnumTypeDefinition. spans_go. Qed.

Lemma parseInputObjectTypeDefinition_spanning fuel lexer :
  spanning (parseInputObjectTypeDefinition fuel) lexer.
Proof. unfold parseInputObjectTypeDefinition. spans_go. Qed.

Lemma parseObjectTypeExtension_spanning fuel lexer :
  spanning (parseObjectTypeExtension fuel) lexer.
Proof. unfold parseObjectTypeExtension. spans_go. Qed.
#[local] Hint Resolve parseObjectTypeExtension_spanning : spans.

Lemma parseTypeExtension_spanning fuel lexer :
  spanning (parseTypeExtension fuel) lexer.
Proof. unfold parseTypeExtension. spans_go. Qed.

Lemma parseDirectiveLocation_spanning lexer :
  spanning parseDirectiveLocation lexer.
Proof. unfold parseDirectiveLocation. spans_go. Qed.

Lemma parseDirectiveDefinition_spanning fuel lexer :
  spanning (parseDirectiveDefinition fuel) lexer.
Proof. unfold parseDirectiveDefinition. spans_go. Qed.

#[local] Hint Resolve parseOperationDefinition_spanning
  parseFragmentDefinition_spanning parseSchemaDefinition_spanning
  parseScalarTypeDefinition_spanning parseObjectTypeDefinition_spanning
  parseInterfaceTypeDefinition_spanning parseUnionTypeDefinition_spanning
  parseEnumTypeDefinition_spanning parseInputObjectTypeDefinition_spanning
  parseTypeExtension_spanning parseDirectiveDefinition_spanning : spans.

Lemma parseTypeSystemDefinition_spanning fuel lexer :
  spanning (parseTypeSystemDefinition fuel) lexer.
Proof. unfold parseTypeSystemDefinition, peekDescription. spans_go. Qed.
#[local] Hint Resolve parseTypeSystemDefinition_spanning : spans.

Lemma parseDefinition_spanning fuel lexer :
  spanning (parseDefinition fuel) lexer.
Proof. unfold parseDefinition, peekDescription. spans_go. Qed.

Lemma parseDocument_spanning fuel lexer : spanning (parseDocument fuel) lexer.
Proof. unfold parseDocument. spans_go. Qed.

Lemma parseTypeReference_inner fuel lexer :
  wp True (λ _, True) (parseTypeReference fuel)
    (λ node lexer',
       ∀ type l,
         node = NonNullType type l →
         ∃ lexer1,
           Token.kind (Lexer.token lexer1) = TokenKind.BANG ∧
           stepTo lexer1 lexer' ∧
           head (locs type) = Some (locAt (Lexer.token lexer) lexer1)) lexer.
Proof.
  destruct fuel; [done|]. simpl. spans_go.
  all: intros type l [= <- <-]; by eexists.
Qed.

Lemma locOK_policy e l :
  locOK e l → locationPolicy (truthy (noLocation e.1.2)) e.1.1 l.
Proof.
  unfold locOK, locationPolicy. destruct (truthy _); [done|].
  intros (startToken & endToken & ->). by eexists.
Qed.

Lemma createLexer_env source options :
  (env (createLexer source options)).1 = (source, options).
Proof. done. Qed.

Lemma Forall_locOK_policy source options (l : list (option Location)) :
  Forall (locOK (env (createLexer source options))) l →
  Forall (locationPolicy (truthy (noLocation options)) source) l.
Proof.
  intros Hall. eapply Forall_impl; [exact Hall|].
  intros loc Hloc. by apply locOK_policy in Hloc.
Qed.

(** C6. The location policy.  Every node of a tree returned by [parse],
    [parseValue] or [parseType] has no location when [noLocation] is set, and
    otherwise a location object [{start, end, startToken, endToken, source}]
    whose [start] and [end] are the start of its [startToken] and the end of
    its [endToken]; every production gives the node it returns the span from
    the token it started on to the last token consumed (and the type under a
    [NonNullType] spans up to the token before the [!]); the JSON form of a
    location has the two keys [start] and [end] only.  The entry points do
    not run out of fuel. *)
Theorem location_policy :
  (∀ source options,
     let policy :=
       locationPolicy (truthy (noLocation (orDefault options)))
         (toSourceObj source) in
     (parse source options ≠ OutOfFuel ∧
      ∀ document lexer',
        parse source options = Ok document lexer' →
        Forall policy (locs document)) ∧
     (parseValue source options ≠ OutOfFuel ∧
      ∀ value lexer',
        parseValue source options = Ok value lexer' →
        Forall policy (locs value)) ∧
     (parseType source options ≠ OutOfFuel ∧
      ∀ type lexer',
        parseType source options = Ok type lexer' →
        Forall policy (locs type))) ∧
  (spans parseName ∧ spans parseVariable ∧ spans parseNamedType ∧
   spans parseStringLiteral ∧ spans parseFragmentName ∧
   spans parseOperationTypeDefinition ∧ spans parseDirectiveLocation ∧
   ∀ fuel,
     spans (parseTypeReference fuel) ∧
     (∀ lexer type l lexer',
        parseTypeReference fuel lexer = Ok (NonNullType type l) lexer' →
        ∃ lexer1,
          Token.kind (Lexer.token lexer1) = TokenKind.BANG ∧
          stepTo lexer1 lexer' ∧
          head (locs type) = Some (locAt (Lexer.token lexer) lexer1)) ∧
     (∀ isConst,
        spans (parseValueLiteral fuel isConst) ∧
        spans (parseList (parseValueLiteral fuel) fuel isConst) ∧
        spans (parseObject (parseValueLiteral fuel) fuel isConst) ∧
        spans (parseObjectField (parseValueLiteral fuel) isConst) ∧
        spans (parseDirective fuel isConst)) ∧
     spans (parseArgument fuel) ∧ spans (parseConstArgument fuel) ∧
     spans (parseSelectionSet fuel) ∧
     spans (parseSelection (parseSelectionSet fuel) fuel) ∧
     spans (parseField (parseSelectionSet fuel) fuel) ∧
     spans (parseFragment (parseSelectionSet fuel) fuel) ∧
     spans (parseVariableDefinition fuel) ∧
     spans (parseOperationDefinition fuel) ∧
     spans (parseFragmentDefinition fuel) ∧
     spans (parseSchemaDefinition fuel) ∧
     spans (parseScalarTypeDefinition fuel) ∧
     spans (parseObjectTypeDefinition fuel) ∧
     spans (parseFieldDefinition fuel) ∧
     spans (parseInputValueDef fuel) ∧
     spans (parseInterfaceTypeDefinition fuel) ∧
     spans (parseUnionTypeDefinition fuel) ∧
     spans (parseEnumTypeDefinition fuel) ∧
     spans (parseEnumValueDefinition fuel) ∧
     spans (parseInputObjectTypeDefinition fuel) ∧
     spans (parseTypeExtension fuel) ∧
     spans (parseObjectTypeExtension fuel) ∧
     spans (parseDirectiveDefinition fuel) ∧
     spans (parseTypeSystemDefinition fuel) ∧
     spans (parseDefinition fuel) ∧
     spans (parseDocument fuel)) ∧
  (∀ this,
     dom (Loc_toJSON this) = {[ "start"; "end" ]} ∧
     Loc_toJSON this !! "start" = Some (Location.start this) ∧
     Loc_toJSON this !! "end" = Some (Location.end_ this)).
Proof.
  split_and!.
  - intros source options policy. split_and!.
    + apply parse_terminates.
    + intros document lexer' Hrun.
      destruct (instanceofSource (toSourceObj source)) eqn:Hsrc;
        [|unfold parse in Hrun; by rewrite Hsrc in Hrun].
      pose proof (parse_errors source options Hsrc) as Hres.
      simpl in Hres. rewrite Hrun in Hres.
      by apply Forall_locOK_policy, Hres.
    + intros Hrun. pose proof (parseValue_errors source options) as Hres.
      simpl in Hres. by rewrite Hrun in Hres.
    + intros value lexer' Hrun.
      pose proof (parseValue_errors source options) as Hres.
      simpl in Hres. rewrite Hrun in Hres.
      by apply Forall_locOK_policy, Hres.
    + intros Hrun. pose proof (parseType_errors source options) as Hres.
      simpl in Hres. by rewrite Hrun in Hres.
    + intros type lexer' Hrun.
      pose proof (parseType_errors source options) as Hres.
      simpl in Hres. rewrite Hrun in Hres.
      by apply Forall_locOK_policy, Hres.
  - apply spanning_spans, parseName_spanning.
  - apply spanning_spans, parseVariable_spanning.
  - apply spanning_spans, parseNamedType_spanning.
  - apply spanning_spans, parseStringLiteral_spanning.
  - apply spanning_spans, parseFragmentName_spanning.
  - apply spanning_spans, parseOperationTypeDefinition_spanning.
  - apply spanning_spans, parseDirectiveLocation_spanning.
  - intros fuel.
    split; [apply spanning_spans; intros; apply parseTypeReference_spanning|].
    split.
    { intros lexer type l lexer' Hrun.
      exact (wp_Ok _ _ _ _ _ _ _ (parseTypeReference_inner _ _) Hrun
               type l eq_refl). }
    split_and!; try intros isConst; split_and?;
      apply spanning_spans; intros;
      first [ apply parseTypeReference_spanning
            | apply parseValueLiteral_spanning
            | apply parseList_spanning
            | apply parseObject_spanning
            | apply parseObjectField_spanning
            | apply parseDirective_spanning
            | apply parseArgument_spanning
            | apply parseConstArgument_spanning
            | apply parseSelectionSet_spanning
            | apply parseSelection_spanning
            | apply parseField_spanning
            | apply parseFragment_spanning
            | apply parseVariableDefinition_spanning
            | apply parseOperationDefinition_spanning
            | apply parseFragmentDefinition_spanning
            | apply parseSchemaDefinition_spanning
            | apply parseScalarTypeDefinition_spanning
            | apply parseObjectTypeDefinition_spanning
            | apply parseFieldDefinition_spanning
            | apply parseInputValueDef_spanning
            | apply parseInterfaceTypeDefinition_spanning
            | apply parseUnionTypeDefinition_spanning
            | apply parseEnumTypeDefinition_spanning
            | apply parseEnumValueDefinition_spanning
            | apply parseInputObjectTypeDefinition_spanning
            | apply parseTypeExtension_spanning
            | apply parseObjectTypeExtension_spanning
            | apply parseDirectiveDefinition_spanning
            | apply parseTypeSystemDefinition_spanning
            | apply parseDefinition_spanning
            | apply parseDocument_spanning ].
  - intros this. unfold Loc_toJSON. split_and!.
    + rewrite !dom_insert_L, dom_empty_L. set_solver.
    + by rewrite lookup_insert_ne, lookup_insert_eq.
    + by rewrite lookup_insert_eq.
Qed.

Lemma location_policy_witness :
  (∃ document lexer',
     parse (InString "{ a }") (Some (mkOptions (Some true)))
     = Ok document lexer' ∧
     Forall (locationPolicy true (IsSource (Source.new "{ a }")))
       (locs document)) ∧
  (∃ value lexer',
     parseValue (InString "[42]") None = Ok value lexer' ∧
     Forall (locationPolicy false (IsSource (Source.new "[42]"))) (locs value)) ∧
  ∃ node lexer' location,
    parseName (lexerAfter 2 "{ a }") = Ok node lexer' ∧
    head (locs node) = Some (Some location) ∧
    Location.start location = 2 ∧ Location.end_ location = 3.
Proof.
  destruct location_policy as (Hentry & (Hname & _) & _).
  split_and!.
  - destruct (parse (InString "{ a }") (Some (mkOptions (Some true))))
      as [document lexer'| |] eqn:Hrun; [|by vm_compute in Hrun..].
    exists document, lexer'. split; [done|].
    destruct (Hentry (InString "{ a }") (Some (mkOptions (Some true))))
      as ((_ & Hparse) & _).
    exact (Hparse _ _ Hrun).
  - destruct (parseValue (InString "[42]") None)
      as [value lexer'| |] eqn:Hrun; [|by vm_compute in Hrun..].
    exists value, lexer'. split; [done|].
    destruct (Hentry (InString "[42]") None) as (_ & (_ & Hvalue) & _).
    exact (Hvalue _ _ Hrun).
  - destruct (parseName (lexerAfter 2 "{ a }"))
      as [node lexer'| |] eqn:Hrun; [|by vm_compute in Hrun..].
    pose proof (Hname _ _ _ Hrun) as Hspan.
    assert (lexer' = lexerAfter 3 "{ a }") as ->.
    { vm_compute in Hrun. injection Hrun as _ <-. vm_compute. reflexivity. }
    eexists node, _, _. split; [done|]. split; [exact Hspan|].
    split; vm_compute; reflexivity.
Defined.

(** ** [valueFromASTUntyped] on the values of the parser *)

Lemma ValueNode_rect' (P : ValueNode → Prop) :
  (∀ variable, P (VariableValue variable)) →
  (∀ value l, P (IntValue value l)) →
  (∀ value l, P (FloatValue value l)) →
  (∀ str, P (StringLiteral str)) →
  (∀ value l, P (BooleanValue value l)) →
  (∀ l, P (NullValue l)) →
  (∀ value l, P (EnumValue value l)) →
  (∀ values l, Forall P values → P (ListValue values l)) →
  (∀ fields l,
     Forall (λ field, match field with ObjectField _ value _ => P value end)
       fields →
     P (ObjectValue fields l)) →
  (∀ kind, P (ForeignNode kind)) →
  ∀ node, P node.
Proof.
  intros Hvar Hint Hfloat Hstr Hbool Hnull Henum Hlist Hobj Hforeign.
  fix IH 1. intros [variable|value l|value l|str|value l|l|value l|values l
                   |fields l|kind].
  - apply Hvar.
  - apply Hint.
  - apply Hfloat.
  - apply Hstr.
  - apply Hbool.
  - apply Hnull.
  - apply Henum.
  - apply Hlist. induction values as [|value values IHl]; constructor.
    + apply IH.
    + apply IHl.
  - apply Hobj.
    induction fields as [|[name value lf] fields IHl]; constructor.
    + apply IH.
    + apply IHl.
  - apply Hforeign.
Qed.

Section ValueFromASTProofs.
Variable Number : Type.
Variable parseInt : string → Z → Number.
Variable parseFloat : string → Number.
Variable isInvalid : JSValue Number → bool.

Let convert := valueFromASTUntyped Number parseInt parseFloat isInvalid.

Lemma Outcome_map_returns {A B} (fn : A → Outcome B) (array : list A) :
  Forall (λ item, ∃ b, fn item = Returned b) array →
  ∃ bs, Outcome_map fn array = Returned bs.
Proof.
  induction 1 as [|item array [b Hb] _ [bs Hbs]]; simpl; [by eexists|].
  rewrite Hb. simpl. rewrite Hbs. simpl. by eexists.
Qed.

Lemma keyValMap_returns {T} (list : list T) keyFn valFn :
  Forall (λ item, ∃ val, valFn item = Returned val) list →
  ∃ map, keyValMap Number list keyFn valFn = Returned map.
Proof.
  intros Hall. unfold keyValMap.
  generalize (∅ : gmap string (JSValue Number)).
  induction Hall as [|item list' [val Hval] _ IH]; intros map; simpl;
    [by eexists|].
  rewrite Hval. simpl. apply IH.
Qed.

Lemma valueFromASTUntyped_returns valueNode variables :
  producible valueNode = true →
  ∃ value, convert valueNode variables = Returned value.
Proof.
  unfold convert.
  induction valueNode as [variable|value l|value l|str|value l|l|value l
                         |values l IH|fields l IH|kind]
    using ValueNode_rect'.
  all: intros Hkinds; simpl in *; try done; try by eexists.
  - destruct variable as [[name ln] lv]. destruct variables as [vars|];
      [|by eexists].
    destruct (negb _); by eexists.
  - destruct str. by eexists.
  - rewrite forallb_forall in Hkinds.
    destruct (Outcome_map_returns
                (λ node, valueFromASTUntyped Number parseInt parseFloat
                           isInvalid node variables) values) as [items Hitems].
    { rewrite Forall_forall in IH |- *. intros value Hin.
      apply IH; [done|]. apply Hkinds. by apply list_elem_of_In. }
    rewrite Hitems. by eexists.
  - rewrite forallb_forall in Hkinds.
    match goal with
    | |- context [keyValMap _ _ ?keyFn ?valFn] =>
        destruct (keyValMap_returns fields keyFn valFn) as [map Hmap]
    end.
    { rewrite Forall_forall in IH |- *. intros [name value lf] Hin.
      apply (IH _ Hin). apply (Hkinds (ObjectField name value lf)).
      by apply list_elem_of_In. }
    rewrite Hmap. by eexists.
Qed.
End ValueFromASTProofs.

Lemma forallb_Forall_true {A} (f : A → bool) (l : list A) :
  Forall (λ a, f a = true) l → forallb f l = true.
Proof. induction 1 as [|a l Ha Hl IH]; simpl; [done|]. by rewrite Ha. Qed.

Section ValueCycleProducible.
Variable parseValueLiteral : bool → Parser ValueNode.
Hypothesis cycle : ∀ isConst lexer,
  returns (parseValueLiteral isConst) (λ node, producible node = true) lexer.

Lemma parseList_producible fuel isConst lexer :
  returns (parseList parseValueLiteral fuel isConst)
    (λ node, producible node = true) lexer.
Proof.
  unfold parseList, parseConstValue, parseValueValue. do 3 wp_prim.
  eapply wp_mono;
    [apply (any_returns (λ node, producible node = true));
     intros; destruct isConst; apply cycle|].
  cbv beta. intros values lexer' Hall. do 2 wp_prim.
  simpl. by apply forallb_Forall_true.
Qed.

Lemma parseObject_producible fuel isConst lexer :
  returns (parseObject parseValueLiteral fuel isConst)
    (λ node, producible node = true) lexer.
Proof.
  unfold parseObject. do 3 wp_prim. wp_prim; [|done..]. wp_prim.
  eapply wp_mono.
  { apply (pushWhile_returns
             (λ field, match field with
                       | ObjectField _ value _ => producible value = true
                       end)); [by constructor|].
    intros. unfold parseObjectField. pose proof cycle. shape_go. }
  cbv beta. intros fields lexer'' [Hall _]. do 2 wp_prim.
  simpl. apply forallb_Forall_true.
  eapply Forall_impl; [exact Hall|]. by intros [].
Qed.
End ValueCycleProducible.

Lemma parseValueLiteral_producible fuel isConst lexer :
  returns (parseValueLiteral fuel isConst) (λ node, producible node = true)
    lexer.
Proof.
  revert isConst lexer. induction fuel as [|fuel IH]; intros isConst lexer;
    [done|].
  simpl. do 3 wp_prim;
    try (by apply parseList_producible);
    try (by apply parseObject_producible);
    shape_go.
Qed.

Lemma producible_kindOf node :
  producible node = true → kindOf node ∈ valueKinds.
Proof. unfold valueKinds. destruct node; simpl; intros; set_solver. Qed.

(** C10. On a value tree whose nodes all have one of the nine value kinds of
    the parser, and so on every value that [parseValueLiteral] returns,
    [valueFromASTUntyped] returns a value: it throws only on a tree that
    holds a node of another kind.  A [Variable] node raises no error.  With
    no variables map it evaluates to [undefined]; with one it evaluates to
    what [variables[name]] reads, own or inherited, unless that is invalid,
    and then to [undefined].  So it is [undefined] when the name is neither
    an own nor an inherited property, as when a map without prototype does
    not bind the name. *)
Theorem valueFromASTUntyped_never_unexpected (Number : Type)
    (parseInt : string → Z → Number) (parseFloat : string → Number)
    (isInvalid : JSValue Number → bool) :
  let convert := valueFromASTUntyped Number parseInt parseFloat isInvalid in
  (∀ valueNode variables,
     producible valueNode = true →
     ∃ value, convert valueNode variables = Returned value) ∧
  (∀ valueNode variables message,
     convert valueNode variables = Thrown message →
     producible valueNode = false) ∧
  (∀ valueNode, producible valueNode = true → kindOf valueNode ∈ valueKinds) ∧
  (∀ fuel isConst lexer valueNode lexer',
     parseValueLiteral fuel isConst lexer = Ok valueNode lexer' →
     producible valueNode = true) ∧
  (∀ name l l',
     convert (VariableValue (Variable_ (Name name l) l')) None
     = Returned JUndefined) ∧
  (∀ name l l' vars,
     convert (VariableValue (Variable_ (Name name l) l')) (Some vars)
     = Returned (if isInvalid (readProperty vars name) then JUndefined
                 else readProperty vars name)) ∧
  (∀ name l l' vars,
     lookupChain (own vars :: inherited vars) name = None →
     convert (VariableValue (Variable_ (Name name l) l')) (Some vars)
     = Returned JUndefined) ∧
  (∀ name l l' properties,
     properties !! name = None →
     convert (VariableValue (Variable_ (Name name l) l'))
       (Some (ObjMap properties))
     = Returned JUndefined).
Proof.
  intros convert.
  assert (∀ name l l' vars,
            convert (VariableValue (Variable_ (Name name l) l')) (Some vars)
            = Returned (if isInvalid (readProperty vars name) then JUndefined
                        else readProperty vars name)) as Hread.
  { intros name l l' vars. simpl. by destruct (isInvalid _). }
  assert (∀ name l l' vars,
            lookupChain (own vars :: inherited vars) name = None →
            convert (VariableValue (Variable_ (Name name l) l')) (Some vars)
            = Returned JUndefined) as Hunbound.
  { intros name l l' vars Hnone. rewrite Hread. unfold readProperty.
    rewrite Hnone. simpl. by destruct (isInvalid _). }
  split_and!.
  - apply valueFromASTUntyped_returns.
  - intros valueNode variables message Hthrown.
    destruct (producible valueNode) eqn:Hkinds; [|done].
    destruct (valueFromASTUntyped_returns Number parseInt parseFloat isInvalid
                valueNode variables Hkinds) as [value Hvalue].
    unfold convert in Hthrown. by rewrite Hvalue in Hthrown.
  - apply producible_kindOf.
  - intros fuel isConst lexer valueNode lexer' Hrun.
    exact (wp_Ok _ _ _ _ _ _ _ (parseValueLiteral_producible _ _ _) Hrun).
  - done.
  - exact Hread.
  - exact Hunbound.
  - intros name l l' properties Hnone. apply Hunbound. simpl.
    by rewrite Hnone.
Qed.

Lemma valueFromASTUntyped_never_unexpected_witness :
  (∃ value,
     valueFromASTUntyped Z (λ _ _, 0) (λ _, 0) isUndefined
       (ListValue [IntValue "42" None; NullValue None] None) None
     = Returned value) ∧
  valueFromASTUntyped Z (λ _ _, 0) (λ _, 0) isUndefined
    (VariableValue (Variable_ (Name "v" None) None))
    (Some (ObjMap {[ "w" := JNull ]}))
  = Returned JUndefined ∧
  valueFromASTUntyped Z (λ _ _, 0) (λ _, 0) isUndefined
    (VariableValue (Variable_ (Name "v" None) None))
    (Some (objectLiteral {[ "w" := JNull ]}))
  = Returned JUndefined.
Proof.
  pose proof (valueFromASTUntyped_never_unexpected Z (λ _ _, 0) (λ _, 0)
                isUndefined)
    as (Htotal & _ & _ & _ & _ & _ & Hchain & Hunbound).
  split; [|split].
  - apply Htotal. reflexivity.
  - apply Hunbound. vm_compute. reflexivity.
  - apply Hchain. vm_compute. reflexivity.
Defined.

(** The variables object [{}] does not bind [constructor] or [__proto__]
    itself, and yet a [Variable] node of either name evaluates to the member
    inherited from [Object.prototype], not to [undefined]. *)
Lemma valueFromASTUntyped_inherited_counterexample :
  own (objectLiteral (Number := Z) ∅) !! "constructor" = None ∧
  own (objectLiteral (Number := Z) ∅) !! "__proto__" = None ∧
  valueFromASTUntyped Z (λ _ _, 0) (λ _, 0) isUndefined
    (VariableValue (Variable_ (Name "constructor" None) None))
    (Some (objectLiteral ∅))
  = Returned (JFunction "Object") ∧
  valueFromASTUntyped Z (λ _ _, 0) (λ _, 0) isUndefined
    (VariableValue (Variable_ (Name "__proto__" None) None))
    (Some (objectLiteral ∅))
  = Returned (JObject objectPrototypeData) ∧
  valueFromASTUntyped Z (λ _ _, 0) (λ _, 0) isUndefined
    (VariableValue (Variable_ (Name "constructor" None) None))
    (Some (objectLiteral ∅))
  ≠ Returned JUndefined.
Proof.
  split_and!; [done|done|vm_compute; reflexivity|vm_compute; reflexivity|].
  vm_compute. discriminate.
Qed.

(** ** Exact runs of the token-stream combinators *)

Lemma advance_eq lexer t rest :
  Token.kind (Lexer.token lexer) ≠ TokenKind.EOF →
  readNext (Lexer.pending lexer) = Some (t, rest) →
  advance lexer = Ok t (advanced lexer t rest).
Proof.
  intros Hkind Hnext. unfold advance. case_decide; [done|].
  by rewrite Hnext.
Qed.

Lemma bind_eq {A B} (m : Parser A) (k : A → Parser B) lexer a lexer1 :
  m lexer = Ok a lexer1 → bind m k lexer = k a lexer1.
Proof. intros Hm. unfold bind. by rewrite Hm. Qed.

Lemma bind_throw {A B} (m : Parser A) (k : A → Parser B) lexer e :
  m lexer = Throw e → bind m k lexer = Throw e.
Proof. intros Hm. unfold bind. by rewrite Hm. Qed.

Lemma bind_getToken {B} (k : Token → Parser B) lexer :
  bind getToken k lexer = k (Lexer.token lexer) lexer.
Proof. done. Qed.

Lemma bind_peek {B} kind (k : bool → Parser B) lexer :
  bind (peek kind) k lexer
  = k (bool_decide (Token.kind (Lexer.token lexer) = kind)) lexer.
Proof. done. Qed.

Lemma expect_eq kind lexer t rest :
  Token.kind (Lexer.token lexer) = kind → kind ≠ TokenKind.EOF →
  readNext (Lexer.pending lexer) = Some (t, rest) →
  expect kind lexer = Ok (Lexer.token lexer) (advanced lexer t rest).
Proof.
  intros Hkind Heof Hnext. unfold expect, bind, getToken.
  rewrite bool_decide_eq_true_2 by done.
  rewrite (advance_eq _ t rest) by congruence. done.
Qed.

Lemma expect_throw kind lexer :
  Token.kind (Lexer.token lexer) ≠ kind →
  expect kind lexer
  = Throw (SyntaxError (Lexer.source lexer) (Token.start (Lexer.token lexer))
             ("Expected " +:+ TokenKind.show kind +:+ ", found " +:+
              getTokenDesc (Lexer.token lexer))).
Proof.
  intros Hkind. unfold expect, bind, getToken, throw.
  by rewrite bool_decide_eq_false_2.
Qed.

Lemma skip_eq kind lexer t rest :
  Token.kind (Lexer.token lexer) = kind → kind ≠ TokenKind.EOF →
  readNext (Lexer.pending lexer) = Some (t, rest) →
  skip kind lexer = Ok true (advanced lexer t rest).
Proof.
  intros Hkind Heof Hnext. unfold skip, bind, getToken.
  rewrite bool_decide_eq_true_2 by done.
  rewrite (advance_eq _ t rest) by congruence. done.
Qed.

Lemma skip_other kind lexer :
  Token.kind (Lexer.token lexer) ≠ kind → skip kind lexer = Ok false lexer.
Proof.
  intros Hkind. unfold skip, bind, getToken.
  by rewrite bool_decide_eq_false_2.
Qed.

(** ** The list combinators [any] and [many] *)

Lemma pushWhile_notSkip_closes {T} (P : T → Prop) fuel closeKind
    (parseFn : Parser T) nodes lexer :
  Forall P nodes →
  (∀ lexer1, returns parseFn P lexer1) →
  wp True (λ _, True) (pushWhile fuel (notSkip closeKind) parseFn nodes)
    (λ result lexer',
       Forall P result ∧ (∃ more, result = nodes ++ more) ∧
       Token.kind (Lexer.lastToken lexer') = closeKind) lexer.
Proof.
  intros Hnodes Hfn.
  apply (wp_pushWhile (λ _ nodes' _,
           Forall P nodes' ∧ ∃ more, nodes' = nodes ++ more)); [|done|].
  { split; [done|]. exists []. by rewrite app_nil_r. }
  intros n nodes' lexer1 [Hall [more ->]].
  wp_prim; [| |done].
  - split_and!; [done|by eexists|].
    match goal with H : stepTo _ _ |- _ => by rewrite (step_last _ _ H) end.
  - eapply wp_mono; [apply Hfn|]. cbv beta. intros node lexer3 Hnode. split.
    + apply Forall_app_2; [done|]. by constructor.
    + exists (more ++ [node]). by rewrite app_assoc.
Qed.

Lemma any_closes {T} (P : T → Prop) fuel openKind (parseFn : Parser T)
    closeKind lexer :
  (∀ lexer1, returns parseFn P lexer1) →
  wp True (λ _, True) (any fuel openKind parseFn closeKind)
    (λ result lexer',
       Token.kind (Lexer.token lexer) = openKind ∧ Forall P result ∧
       Token.kind (Lexer.lastToken lexer') = closeKind) lexer.
Proof.
  intros Hfn. unfold any. wp_prim. wp_prim; [|done..].
  eapply wp_mono; [by apply (pushWhile_notSkip_closes P)|].
  cbv beta. by intros ? ? (? & _ & ?).
Qed.

Lemma many_closes {T} (P : T → Prop) fuel openKind (parseFn : Parser T)
    closeKind lexer :
  (∀ lexer1, returns parseFn P lexer1) →
  wp True (λ _, True) (many fuel openKind parseFn closeKind)
    (λ result lexer',
       Token.kind (Lexer.token lexer) = openKind ∧ result ≠ [] ∧
       Forall P result ∧
       Token.kind (Lexer.lastToken lexer') = closeKind) lexer.
Proof.
  intros Hfn. unfold many. wp_prim. wp_prim; [|done..].
  wp_prim. eapply wp_mono; [apply Hfn|]. cbv beta. intros first lexer2 Hfirst.
  eapply wp_mono;
    [apply (pushWhile_notSkip_closes P); [by constructor|done]|].
  cbv beta. by intros ? ? (? & [more ->] & ?).
Qed.

Lemma parseName_eq lexer t rest :
  Token.kind (Lexer.token lexer) = TokenKind.NAME →
  readNext (Lexer.pending lexer) = Some (t, rest) →
  parseName lexer
  = Ok (Name (valueString (Lexer.token lexer))
          (locAt (Lexer.token lexer) (advanced lexer t rest)))
      (advanced lexer t rest).
Proof.
  intros Hkind Hnext. unfold parseName.
  rewrite (bind_eq _ _ _ _ _ (expect_eq _ _ _ _ Hkind ltac:(done) Hnext)).
  by rewrite (bind_eq _ _ _ _ _ (loc_eq _ _)).
Qed.

Lemma returns_intro {A} (p : Parser A) (P : A → Prop) lexer :
  (∀ node lexer', p lexer = Ok node lexer' → P node) → returns p P lexer.
Proof. unfold wp. destruct (p lexer); eauto. Qed.

(** X1. [many] returns a non-empty list and [any] a possibly empty one; both
    start on a token of [openKind], hold only nodes that [parseFn] returned,
    and return once the token of [closeKind] is consumed.  On a token of
    another kind than [openKind] they throw the error of [expect] without
    calling [parseFn]. *)
Theorem any_many_delimited {T} (P : T → Prop) (parseFn : Parser T)
    (HparseFn : ∀ lexer node lexer', parseFn lexer = Ok node lexer' → P node)
    (fuel : nat) (openKind closeKind : TokenKind.t) (lexer : Lexer) :
  (∀ nodes lexer',
     many fuel openKind parseFn closeKind lexer = Ok nodes lexer' →
     Token.kind (Lexer.token lexer) = openKind ∧ nodes ≠ [] ∧
     Forall P nodes ∧ Token.kind (Lexer.lastToken lexer') = closeKind) ∧
  (∀ nodes lexer',
     any fuel openKind parseFn closeKind lexer = Ok nodes lexer' →
     Token.kind (Lexer.token lexer) = openKind ∧
     Forall P nodes ∧ Token.kind (Lexer.lastToken lexer') = closeKind) ∧
  (Token.kind (Lexer.token lexer) ≠ openKind →
   let error :=
     SyntaxError (Lexer.source lexer) (Token.start (Lexer.token lexer))
       ("Expected " +:+ TokenKind.show openKind +:+ ", found " +:+
        getTokenDesc (Lexer.token lexer)) in
   many fuel openKind parseFn closeKind lexer = Throw error ∧
   any fuel openKind parseFn closeKind lexer = Throw error).
Proof.
  split_and!.
  - intros nodes lexer' Hrun.
    refine (wp_Ok _ _ _ _ _ _ _ (many_closes P _ _ _ _ _ _) Hrun).
    intros. by eapply returns_intro, HparseFn.
  - intros nodes lexer' Hrun.
    refine (wp_Ok _ _ _ _ _ _ _ (any_closes P _ _ _ _ _ _) Hrun).
    intros. by eapply returns_intro, HparseFn.
  - intros Hkind error. unfold many, any, expect, bind, getToken, throw.
    by rewrite bool_decide_eq_false_2.
Qed.

Lemma any_many_delimited_witness :
  (∃ nodes lexer',
     many 9 TokenKind.PAREN_L (parseArgument 9) TokenKind.PAREN_R
       (lexerAfter 3 "{ f(a: 1, b: 2) }") = Ok nodes lexer' ∧
     length nodes = 2%nat ∧
     Token.kind (Lexer.lastToken lexer') = TokenKind.PAREN_R) ∧
  any 9 TokenKind.BRACKET_L (parseValueLiteral 9 true) TokenKind.BRACKET_R
    (lexerAfter 1 "{ a }")
  = Throw (SyntaxError (IsSource (Source.new "{ a }")) 0
             "Expected [, found {").
Proof.
  split.
  - destruct (many 9 TokenKind.PAREN_L (parseArgument 9) TokenKind.PAREN_R
                (lexerAfter 3 "{ f(a: 1, b: 2) }"))
      as [nodes lexer'| |] eqn:Hrun; [|by vm_compute in Hrun..].
    destruct (any_many_delimited (λ _, True) (parseArgument 9)
                (λ _ _ _ _, I) 9 TokenKind.PAREN_L TokenKind.PAREN_R
                (lexerAfter 3 "{ f(a: 1, b: 2) }")) as (Hmany & _).
    destruct (Hmany _ _ Hrun) as (_ & _ & _ & Hlast).
    exists nodes, lexer'. split; [done|]. split; [|done].
    vm_compute in Hrun. by injection Hrun as <- _.
  - destruct (any_many_delimited (λ _, True) (parseValueLiteral 9 true)
                (λ _ _ _ _, I) 9 TokenKind.BRACKET_L TokenKind.BRACKET_R
                (lexerAfter 1 "{ a }")) as (_ & _ & Hthrow).
    apply Hthrow. vm_compute. congruence.
Defined.

(** ** Selection sets are never empty *)

Section SelectionCycleFilled.
Variable parseSelectionSet : Parser SelectionSetNode.
Hypothesis cycle : ∀ lexer,
  returns parseSelectionSet (λ node, selectionSetFilled node = true) lexer.

Lemma parseSelection_filled fuel lexer :
  returns (parseSelection parseSelectionSet fuel)
    (λ node, selectionFilled node = true) lexer.
Proof.
  unfold parseSelection, parseFragment, parseField.
  wp_run ltac:(first [ eapply wp_mono; [apply cycle|cbv beta; intros ? ? ?]
                     | trivial_call ]); done.
Qed.
End SelectionCycleFilled.

Lemma parseSelectionSet_filled fuel lexer :
  returns (parseSelectionSet fuel) (λ node, selectionSetFilled node = true)
    lexer.
Proof.
  revert lexer. induction fuel as [|fuel IH]; intros lexer; [done|].
  simpl. do 3 wp_prim.
  eapply wp_mono;
    [apply (many_returns (λ node, selectionFilled node = true));
     intros; by apply parseSelection_filled|].
  cbv beta. intros selections lexer' [Hall Hne]. do 2 wp_prim.
  simpl. destruct selections; [done|].
  by apply forallb_Forall_true.
Qed.

Lemma parseDefinition_filled fuel lexer :
  returns (parseDefinition fuel)
    (λ node, ∀ selectionSet,
       definitionSelectionSet node = Some selectionSet →
       selectionSetFilled selectionSet = true) lexer.
Proof.
  assert (∀ fuel lexer,
            returns (parseTypeSystemDefinition fuel)
              (λ node, ∀ selectionSet,
                 definitionSelectionSet node = Some selectionSet →
                 selectionSetFilled selectionSet = true) lexer) as Hts.
  { intros. eapply wp_mono; [apply parseTypeSystemDefinition_returns|].
    by intros []. }
  unfold parseDefinition, peekDescription, parseOperationDefinition,
    parseFragmentDefinition.
  wp_run ltac:(first
    [ eapply wp_mono; [apply parseSelectionSet_filled|cbv beta; intros ? ? ?]
    | eapply wp_mono; [apply Hts|cbv beta; intros ? ? ?]
    | trivial_call ]); try done.
  all: simpl; congruence.
Qed.

Lemma parseDocument_returns (P : DefinitionNode → Prop) fuel lexer :
  (∀ fuel lexer, returns (parseDefinition fuel) P lexer) →
  returns (parseDocument fuel) (λ document, Forall P (definitions document))
    lexer.
Proof.
  intros HP. unfold parseDocument. do 3 wp_prim. wp_prim; [|done..]. wp_prim.
  eapply wp_mono; [apply HP|]. cbv beta. intros first lexer1 Hfirst. wp_prim.
  eapply wp_mono; [apply (pushWhile_returns P); [by constructor|apply HP]|].
  cbv beta. intros result lexer2 [Hall _]. by do 2 wp_prim.
Qed.

Lemma parse_returns (P : DefinitionNode → Prop) source options document lexer' :
  (∀ fuel lexer, returns (parseDefinition fuel) P lexer) →
  parse source options = Ok document lexer' →
  Forall P (definitions document).
Proof.
  intros HP Hparse.
  destruct (instanceofSource (toSourceObj source)) eqn:Hsrc;
    [|unfold parse in Hparse; by rewrite Hsrc in Hparse].
  rewrite parse_unfold in Hparse by done.
  exact (wp_Ok _ _ _ _ _ _ _ (parseDocument_returns P _ _ HP) Hparse).
Qed.

(** X2. Every selection set of a parsed document holds at least one selection,
    at every depth: that of an operation, of a fragment definition, of a
    field and of an inline fragment.  [parseSelectionSet] throws on [{ }]:
    after the [{] it expects the name of a field. *)
Theorem selection_sets_filled :
  (∀ source options document lexer' definition selectionSet,
     parse source options = Ok document lexer' →
     definition ∈ definitions document →
     definitionSelectionSet definition = Some selectionSet →
     selectionSetFilled selectionSet = true) ∧
  (∀ fuel lexer node lexer',
     parseSelectionSet fuel lexer = Ok node lexer' →
     selectionSetFilled node = true) ∧
  (∀ fuel lexer close rest,
     Token.kind (Lexer.token lexer) = TokenKind.BRACE_L →
     readNext (Lexer.pending lexer) = Some (close, rest) →
     Token.kind close = TokenKind.BRACE_R →
     parseSelectionSet (S fuel) lexer
     = Throw (SyntaxError (Lexer.source lexer) (Token.start close)
                ("Expected Name, found " +:+ getTokenDesc close))).
Proof.
  split_and!.
  - intros source options document lexer' definition selectionSet Hparse Hin.
    pose proof (parse_returns _ _ _ _ _ parseDefinition_filled Hparse) as Hall.
    rewrite Forall_forall in Hall. by apply Hall.
  - intros fuel lexer node lexer' Hrun.
    exact (wp_Ok _ _ _ _ _ _ _ (parseSelectionSet_filled _ _) Hrun).
  - intros fuel lexer close rest Hopen Hnext Hclose. simpl.
    rewrite bind_getToken.
    apply bind_throw. unfold many.
    rewrite (bind_eq _ _ _ _ _ (expect_eq _ _ _ _ Hopen ltac:(done) Hnext)).
    apply bind_throw. unfold parseSelection.
    rewrite bind_peek. simpl. rewrite Hclose. simpl.
    unfold parseField. rewrite bind_getToken.
    apply bind_throw. unfold parseName. apply bind_throw.
    rewrite expect_throw by (simpl; by rewrite Hclose). done.
Qed.

Lemma selection_sets_filled_witness :
  (∃ document lexer' selectionSet,
     parse (InString "{ a { b } ... on T { c } }") None = Ok document lexer' ∧
     definitionSelectionSet <$> head (definitions document)
     = Some (Some selectionSet) ∧
     selectionSetFilled selectionSet = true) ∧
  parseSelectionSet 1 (lexerAfter 1 "{ }")
  = Throw (SyntaxError (IsSource (Source.new "{ }")) 2
             "Expected Name, found }").
Proof.
  destruct selection_sets_filled as (Hparse & _ & Hempty).
  split.
  - destruct (parse (InString "{ a { b } ... on T { c } }") None)
      as [[[|definition more] l] lexer'| |] eqn:Hrun;
      [by vm_compute in Hrun| |by vm_compute in Hrun..].
    destruct (definitionSelectionSet definition) as [selectionSet|] eqn:Hset;
      [|vm_compute in Hrun; injection Hrun as <- _ _ _; by vm_compute in Hset].
    eexists _, lexer', selectionSet. split; [reflexivity|]. simpl.
    split; [by rewrite Hset|].
    eapply (Hparse _ _ _ _ definition); [exact Hrun| |exact Hset].
    simpl. by left.
  - apply (Hempty 0%nat (lexerAfter 1 "{ }")
             (Lexer.token (lexerAfter 2 "{ }"))
             (Lexer.pending (lexerAfter 2 "{ }"))); vm_compute; reflexivity.
Defined.

(** ** Type system definitions *)

Ltac unfold_typeSystem :=
  unfold parseTypeSystemDefinition, peekDescription, parseSchemaDefinition,
    parseScalarTypeDefinition, parseObjectTypeDefinition,
    parseInterfaceTypeDefinition, parseUnionTypeDefinition,
    parseEnumTypeDefinition, parseInputObjectTypeDefinition,
    parseTypeExtension, parseObjectTypeExtension, parseDirectiveDefinition.

(** A specification of [parseTypeSystemDefinition] extends to
    [parseDefinition] when it holds of every executable definition. *)
Lemma parseDefinition_typeSystem (P : DefinitionNode → Prop) fuel lexer :
  (∀ node, isExecutable node = true → P node) →
  (∀ fuel lexer, returns (parseTypeSystemDefinition fuel) P lexer) →
  returns (parseDefinition fuel) P lexer.
Proof.
  intros Hexec Hts.
  unfold parseDefinition, peekDescription, parseOperationDefinition,
    parseFragmentDefinition.
  wp_run ltac:(first
    [ eapply wp_mono; [apply Hts|cbv beta; intros ? ? ?]
    | trivial_call ]); try done.
  all: by apply Hexec.
Qed.

(** *** Non-empty blocks *)

Create HintDb filled discriminated.

Lemma many_filled {T} fuel openKind (parseFn : Parser T) closeKind lexer :
  returns (many fuel openKind parseFn closeKind) (λ result, result ≠ []) lexer.
Proof.
  eapply wp_mono;
    [apply (many_returns (λ _, True)); intros; apply wp_trivial|].
  by intros ? ? [_ ?].
Qed.

Lemma pushWhile_filled {T} fuel cond (parseFn : Parser T) first lexer :
  returns (pushWhile fuel cond parseFn [first]) (λ result, result ≠ []) lexer.
Proof.
  eapply wp_mono;
    [apply (pushWhile_returns (λ _, True));
     [by constructor|intros; apply wp_trivial]|].
  by intros ? ? [_ [more ->]].
Qed.
#[local] Hint Resolve many_filled pushWhile_filled : filled.

Ltac filled_call :=
  first [ eapply wp_mono;
          [solve [eauto 3 with filled]|cbv beta; intros ? ? ?]
        | trivial_call ].

Lemma parseFieldDefinitions_filled fuel lexer :
  returns (parseFieldDefinitions fuel) (λ result, result ≠ []) lexer.
Proof. apply many_filled. Qed.

Lemma parseUnionMembers_filled fuel lexer :
  returns (parseUnionMembers fuel) (λ result, result ≠ []) lexer.
Proof. unfold parseUnionMembers. wp_run filled_call; done. Qed.

Lemma parseDirectiveLocations_filled fuel lexer :
  returns (parseDirectiveLocations fuel) (λ result, result ≠ []) lexer.
Proof. unfold parseDirectiveLocations. wp_run filled_call; done. Qed.
#[local] Hint Resolve parseFieldDefinitions_filled parseUnionMembers_filled
  parseDirectiveLocations_filled : filled.

Lemma parseTypeSystemDefinition_filled fuel lexer :
  returns (parseTypeSystemDefinition fuel) blocksFilled lexer.
Proof. unfold_typeSystem. wp_run filled_call; done. Qed.

(** X3. The block of a type system definition is never empty: a parsed schema
    definition has an operation type, an object, interface or input object
    type a field, an enum type a value, a union type a member, and a
    directive definition a location. *)
Theorem type_system_blocks_filled :
  (∀ source options document lexer' definition,
     parse source options = Ok document lexer' →
     definition ∈ definitions document →
     blocksFilled definition) ∧
  (∀ fuel lexer node lexer',
     parseTypeSystemDefinition fuel lexer = Ok node lexer' →
     blocksFilled node).
Proof.
  split.
  - intros source options document lexer' definition Hparse Hin.
    assert (Forall blocksFilled (definitions document)) as Hall.
    { eapply parse_returns; [|exact Hparse]. intros.
      apply parseDefinition_typeSystem; [by intros []|].
      apply parseTypeSystemDefinition_filled. }
    rewrite Forall_forall in Hall. by apply Hall.
  - intros fuel lexer node lexer' Hrun.
    exact (wp_Ok _ _ _ _ _ _ _ (parseTypeSystemDefinition_filled _ _) Hrun).
Qed.

Lemma type_system_blocks_filled_witness :
  ∃ description name directives values l lexer',
    parseTypeSystemDefinition 9 (lexerAfter 1 "enum E { A B }")
    = Ok (EnumTypeDefinition description name directives values l) lexer' ∧
    values ≠ [].
Proof.
  destruct (parseTypeSystemDefinition 9 (lexerAfter 1 "enum E { A B }"))
    as [node lexer'| |] eqn:Hrun; [|by vm_compute in Hrun..].
  pose proof (proj2 type_system_blocks_filled _ _ _ _ Hrun) as Hfilled.
  destruct node as [| | | | | | |description name directives values l| | |];
    try (vm_compute in Hrun; discriminate Hrun).
  by exists description, name, directives, values, l, lexer'.
Defined.

(** *** Closed sets of names *)

Create HintDb closed discriminated.

Lemma parseOperationTypeDefinition_closed lexer :
  returns parseOperationTypeDefinition operationTypeOK lexer.
Proof. unfold parseOperationTypeDefinition. shape_go. Qed.

Lemma parseDirectiveLocation_closed lexer :
  returns parseDirectiveLocation locationOK lexer.
Proof.
  unfold parseDirectiveLocation. shape_go. simpl. by bool_hyps.
Qed.

Lemma parseDirectiveLocations_closed fuel lexer :
  returns (parseDirectiveLocations fuel) (Forall locationOK) lexer.
Proof.
  unfold parseDirectiveLocations.
  wp_run ltac:(first
    [ eapply wp_mono;
      [apply parseDirectiveLocation_closed|cbv beta; intros ? ? ?]
    | eapply wp_mono;
      [apply (pushWhile_returns locationOK);
       [by constructor|apply parseDirectiveLocation_closed]
      |cbv beta; intros ? ? [? _]] ]); done.
Qed.

Lemma many_operationTypes fuel lexer :
  returns (many fuel TokenKind.BRACE_L parseOperationTypeDefinition
             TokenKind.BRACE_R) (Forall operationTypeOK) lexer.
Proof.
  eapply wp_mono;
    [apply (many_returns operationTypeOK),
       parseOperationTypeDefinition_closed|].
  by intros ? ? [? _].
Qed.
#[local] Hint Resolve parseDirectiveLocations_closed many_operationTypes
  : closed.

Lemma parseTypeSystemDefinition_closed fuel lexer :
  returns (parseTypeSystemDefinition fuel) closedNames lexer.
Proof.
  unfold_typeSystem.
  wp_run ltac:(first
    [ eapply wp_mono; [solve [eauto 3 with closed]|cbv beta; intros ? ? ?]
    | trivial_call ]); done.
Qed.

Lemma parseOperationType_throws lexer t rest value :
  Token.kind (Lexer.token lexer) = TokenKind.NAME →
  Token.value (Lexer.token lexer) = Some value →
  value ∉ operationKeywords →
  readNext (Lexer.pending lexer) = Some (t, rest) →
  parseOperationType lexer
  = Throw (SyntaxError (Lexer.source lexer) (Token.start (Lexer.token lexer))
             ("Unexpected " +:+ getTokenDesc (Lexer.token lexer))).
Proof.
  intros Hkind Hvalue Hnot Hnext. unfold parseOperationType.
  rewrite (bind_eq _ _ _ _ _ (expect_eq _ _ _ _ Hkind ltac:(done) Hnext)).
  rewrite Hvalue. unfold operationKeywords in Hnot.
  rewrite !bool_decide_eq_false_2;
    [done|intros [= ->]; apply Hnot; by apply (bool_decide_unpack _)..].
Qed.

Lemma parseDirectiveLocation_throws lexer t rest value :
  Token.kind (Lexer.token lexer) = TokenKind.NAME →
  Token.value (Lexer.token lexer) = Some value →
  value ∉ DirectiveLocation →
  readNext (Lexer.pending lexer) = Some (t, rest) →
  parseDirectiveLocation lexer
  = Throw (SyntaxError (Lexer.source lexer) (Token.start (Lexer.token lexer))
             ("Unexpected " +:+ getTokenDesc (Lexer.token lexer))).
Proof.
  intros Hkind Hvalue Hnot Hnext. unfold parseDirectiveLocation.
  rewrite bind_getToken.
  rewrite (bind_eq _ _ _ _ _ (parseName_eq _ _ _ Hkind Hnext)).
  unfold valueString. rewrite Hvalue. simpl.
  by rewrite bool_decide_eq_false_2.
Qed.

(** X4. The names that the grammar restricts to a closed set are in that set:
    the operation of every operation type of a parsed schema definition is
    [query], [mutation] or [subscription], and every location of a parsed
    directive definition is a key of [DirectiveLocation].  On a name outside
    the set, [parseOperationType] and [parseDirectiveLocation] throw
    [Unexpected Name], positioned at that name although it is consumed. *)
Theorem closed_name_sets :
  (∀ source options document lexer' definition,
     parse source options = Ok document lexer' →
     definition ∈ definitions document →
     closedNames definition) ∧
  (∀ lexer t rest value,
     Token.kind (Lexer.token lexer) = TokenKind.NAME →
     Token.value (Lexer.token lexer) = Some value →
     readNext (Lexer.pending lexer) = Some (t, rest) →
     let error :=
       SyntaxError (Lexer.source lexer) (Token.start (Lexer.token lexer))
         ("Unexpected " +:+ getTokenDesc (Lexer.token lexer)) in
     (value ∉ operationKeywords → parseOperationType lexer = Throw error) ∧
     (value ∉ DirectiveLocation → parseDirectiveLocation lexer = Throw error)).
Proof.
  split.
  - intros source options document lexer' definition Hparse Hin.
    assert (Forall closedNames (definitions document)) as Hall.
    { eapply parse_returns; [|exact Hparse]. intros.
      apply parseDefinition_typeSystem; [by intros []|].
      apply parseTypeSystemDefinition_closed. }
    rewrite Forall_forall in Hall. by apply Hall.
  - intros lexer t rest value Hkind Hvalue Hnext error. split; intros Hnot.
    + by eapply parseOperationType_throws.
    + by eapply parseDirectiveLocation_throws.
Qed.

Lemma closed_name_sets_witness :
  (∃ description name arguments locations l lexer',
     parse (InString "directive @d on FIELD | QUERY")
       (Some (mkOptions (Some true)))
     = Ok (Document
             [DirectiveDefinition description name arguments locations l] None)
         lexer' ∧
     Forall locationOK locations) ∧
  parseDirectiveLocation (lexerAfter 5 "directive @d on field")
  = Throw (SyntaxError (IsSource (Source.new "directive @d on field")) 16
             ("Unexpected Name " +:+ quote +:+ "field" +:+ quote)).
Proof.
  destruct closed_name_sets as (Hparse & Hthrow).
  split.
  - destruct (parse (InString "directive @d on FIELD | QUERY")
                (Some (mkOptions (Some true))))
      as [[[|definition [|? ?]] l] lexer'| |] eqn:Hrun;
      try (by vm_compute in Hrun).
    pose proof (Hparse _ _ _ _ definition Hrun ltac:(simpl; by left)) as Hok.
    destruct definition
      as [| | | | | | | | | |description name arguments locations l'];
      try (vm_compute in Hrun; discriminate Hrun).
    exists description, name, arguments, locations, l', lexer'.
    split; [|exact Hok].
    assert (l = None) as ->
      by (vm_compute in Hrun; by injection Hrun as _ <- _).
    done.
  - apply (Hthrow (lexerAfter 5 "directive @d on field")
             (Lexer.token (lexerAfter 6 "directive @d on field"))
             (Lexer.pending (lexerAfter 6 "directive @d on field"))
             "field"); try (vm_compute; reflexivity).
    intros Hin. apply (bool_decide_pack _) in Hin. by vm_compute in Hin.
Defined.

(** *** Const values in the type system *)

Create HintDb const discriminated.

Ltac const_call :=
  first [ eapply wp_mono;
          [solve [eauto 3 with const]|cbv beta; intros ? ? ?]
        | trivial_call ].

Ltac const_solver :=
  simpl; repeat first [apply Forall_nil_2 | apply Forall_cons_2
                      | apply Forall_app_2]; try done.

Ltac const_go := wp_run const_call; const_solver.

Lemma pushWhile_flat {T} (f : T → list ValueNode) fuel cond (parseFn : Parser T)
    nodes lexer :
  Forall constValue (flat_map f nodes) →
  (∀ lexer', returns parseFn (λ node, Forall constValue (f node)) lexer') →
  returns (pushWhile fuel cond parseFn nodes)
    (λ result, Forall constValue (flat_map f result)) lexer.
Proof.
  intros Hnodes Hfn.
  apply (wp_pushWhile (λ _ nodes' _, Forall constValue (flat_map f nodes')));
    [done..|].
  intros n nodes' lexer1 Hall.
  eapply wp_mono; [apply wp_trivial|]. intros [] lexer2 _; simpl; [|done].
  eapply wp_mono; [apply Hfn|]. cbv beta. intros node lexer3 Hnode.
  rewrite flat_map_app. simpl. rewrite app_nil_r. by apply Forall_app_2.
Qed.

Lemma many_flat {T} (f : T → list ValueNode) fuel openKind (parseFn : Parser T)
    closeKind lexer :
  (∀ lexer', returns parseFn (λ node, Forall constValue (f node)) lexer') →
  returns (many fuel openKind parseFn closeKind)
    (λ result, Forall constValue (flat_map f result)) lexer.
Proof.
  intros Hfn. unfold many. wp_prim. wp_prim; [|done..].
  wp_prim. eapply wp_mono; [apply Hfn|]. cbv beta. intros first lexer2 Hfirst.
  apply pushWhile_flat; [|done]. simpl. by rewrite app_nil_r.
Qed.
#[local] Hint Resolve pushWhile_flat many_flat : const.
#[local] Hint Resolve Forall_nil_2 : const.

Lemma flat_map_unit {A B} (f : A → B) (l : list A) :
  flat_map (λ a, [f a]) l = map f l.
Proof. induction l as [|a l IH]; simpl; [done|]. by rewrite IH. Qed.

Lemma parseConstArgument_const fuel lexer :
  returns (parseConstArgument fuel)
    (λ node, Forall constValue [argumentValue node]) lexer.
Proof.
  unfold parseConstArgument, parseConstValue.
  pose proof parseValueLiteral_const. const_go.
Qed.
#[local] Hint Resolve parseConstArgument_const : const.

Lemma parseArguments_const fuel lexer :
  returns (parseArguments fuel true)
    (λ result, Forall constValue (map argumentValue result)) lexer.
Proof.
  unfold parseArguments. do 3 wp_prim; [|by wp_prim].
  eapply wp_mono;
    [apply (many_flat (λ node, [argumentValue node])); eauto with const|].
  cbv beta. intros result _. by rewrite flat_map_unit.
Qed.
#[local] Hint Resolve parseArguments_const : const.

Lemma parseDirective_const fuel lexer :
  returns (parseDirective fuel true)
    (λ node, Forall constValue (directiveValues node)) lexer.
Proof. unfold parseDirective. const_go. Qed.
#[local] Hint Resolve parseDirective_const : const.

Lemma parseDirectives_const fuel lexer :
  returns (parseDirectives fuel true)
    (λ result, Forall constValue (flat_map directiveValues result)) lexer.
Proof. unfold parseDirectives. const_go. Qed.
#[local] Hint Resolve parseDirectives_const : const.

Lemma parseInputValueDef_const fuel lexer :
  returns (parseInputValueDef fuel)
    (λ node, Forall constValue (inputValueValues node)) lexer.
Proof.
  unfold parseInputValueDef, parseConstValue.
  pose proof parseValueLiteral_const. const_go.
Qed.
#[local] Hint Resolve parseInputValueDef_const : const.

Lemma parseArgumentDefs_const fuel lexer :
  returns (parseArgumentDefs fuel)
    (λ result, Forall constValue (flat_map inputValueValues result)) lexer.
Proof. unfold parseArgumentDefs. const_go. Qed.
#[local] Hint Resolve parseArgumentDefs_const : const.

Lemma parseFieldDefinition_const fuel lexer :
  returns (parseFieldDefinition fuel)
    (λ node, Forall constValue (fieldDefinitionValues node)) lexer.
Proof. unfold parseFieldDefinition. const_go. Qed.
#[local] Hint Resolve parseFieldDefinition_const : const.

Lemma parseFieldDefinitions_const fuel lexer :
  returns (parseFieldDefinitions fuel)
    (λ result, Forall constValue (flat_map fieldDefinitionValues result)) lexer.
Proof. unfold parseFieldDefinitions. const_go. Qed.
#[local] Hint Resolve parseFieldDefinitions_const : const.

Lemma parseEnumValueDefinition_const fuel lexer :
  returns (parseEnumValueDefinition fuel)
    (λ node, Forall constValue (enumValueValues node)) lexer.
Proof. unfold parseEnumValueDefinition. const_go. Qed.
#[local] Hint Resolve parseEnumValueDefinition_const : const.

Lemma parseTypeSystemDefinition_const fuel lexer :
  returns (parseTypeSystemDefinition fuel)
    (λ node, Forall constValue (typeSystemValues node)) lexer.
Proof. unfold_typeSystem. const_go. Qed.

(** X5. No variable occurs in a type system definition of a parsed document:
    the arguments of its directives and the default values of its arguments
    and input fields are parsed as const, at every depth.  So do the
    directives that [parseDirectives] reads in a const context; a [$] in
    such a place is a syntax error. *)
Theorem type_system_values_const :
  (∀ source options document lexer' definition value,
     parse source options = Ok document lexer' →
     definition ∈ definitions document →
     value ∈ typeSystemValues definition →
     hasVariable value = false) ∧
  (∀ fuel lexer directives lexer' value,
     parseDirectives fuel true lexer = Ok directives lexer' →
     value ∈ flat_map directiveValues directives →
     hasVariable value = false) ∧
  parse (InString "scalar S @d(a: $x)") None
  = Throw (SyntaxError (IsSource (Source.new "scalar S @d(a: $x)")) 15
             "Unexpected $").
Proof.
  split_and!.
  - intros source options document lexer' definition value Hparse Hin Hvalue.
    assert (Forall (λ node, Forall constValue (typeSystemValues node))
              (definitions document)) as Hall.
    { eapply parse_returns; [|exact Hparse]. intros.
      apply parseDefinition_typeSystem; [by intros []|].
      apply parseTypeSystemDefinition_const. }
    rewrite Forall_forall in Hall. specialize (Hall _ Hin).
    rewrite Forall_forall in Hall. by apply Hall.
  - intros fuel lexer directives lexer' value Hrun Hvalue.
    pose proof (wp_Ok _ _ _ _ _ _ _ (parseDirectives_const _ _) Hrun) as Hall.
    rewrite Forall_forall in Hall. by apply Hall.
  - vm_compute. reflexivity.
Qed.

Lemma type_system_values_const_witness :
  ∃ document lexer' definition value,
    parse (InString "input I { x: [Int] = [1] @d(a: {b: 2}) }") None
    = Ok document lexer' ∧
    head (definitions document) = Some definition ∧
    head (typeSystemValues definition) = Some value ∧
    hasVariable value = false.
Proof.
  destruct (parse (InString "input I { x: [Int] = [1] @d(a: {b: 2}) }") None)
    as [[[|definition more] l] lexer'| |] eqn:Hrun;
    try (by vm_compute in Hrun).
  destruct (typeSystemValues definition) as [|value values] eqn:Hvalues.
  { vm_compute in Hrun. injection Hrun as <- _ _ _. by vm_compute in Hvalues. }
  exists (Document (definition :: more) l), lexer', definition, value.
  split_and!; [done|done|by rewrite Hvalues|].
  eapply (proj1 type_system_values_const); [exact Hrun|by left|].
  rewrite Hvalues. by left.
Defined.

(** ** Empty delimited lists *)

Lemma notSkip_eq kind lexer t rest :
  Token.kind (Lexer.token lexer) = kind → kind ≠ TokenKind.EOF →
  readNext (Lexer.pending lexer) = Some (t, rest) →
  notSkip kind lexer = Ok false (advanced lexer t rest).
Proof.
  intros Hkind Heof Hnext. unfold notSkip.
  by rewrite (bind_eq _ _ _ _ _ (skip_eq _ _ _ _ Hkind Heof Hnext)).
Qed.

Lemma pushWhile_closed {T} fuel kind (parseFn : Parser T) nodes lexer t rest :
  Token.kind (Lexer.token lexer) = kind → kind ≠ TokenKind.EOF →
  readNext (Lexer.pending lexer) = Some (t, rest) →
  pushWhile (S fuel) (notSkip kind) parseFn nodes lexer
  = Ok nodes (advanced lexer t rest).
Proof.
  intros Hkind Heof Hnext. simpl.
  by rewrite (bind_eq _ _ _ _ _ (notSkip_eq _ _ _ _ Hkind Heof Hnext)).
Qed.

Lemma any_empty {T} fuel openKind (parseFn : Parser T) closeKind lexer
    close rest t rest' :
  Token.kind (Lexer.token lexer) = openKind → openKind ≠ TokenKind.EOF →
  readNext (Lexer.pending lexer) = Some (close, rest) →
  Token.kind close = closeKind → closeKind ≠ TokenKind.EOF →
  readNext rest = Some (t, rest') →
  any (S fuel) openKind parseFn closeKind lexer
  = Ok [] (advanced (advanced lexer close rest) t rest').
Proof.
  intros Hopen Hopen' Hnext Hclose Hclose' Hnext'. unfold any.
  rewrite (bind_eq _ _ _ _ _ (expect_eq _ _ _ _ Hopen Hopen' Hnext)).
  by apply pushWhile_closed.
Qed.

(** X6. Of the delimited lists of the grammar, only list and object values may
    be empty.  [[ ]] and [{ }] are the values [ListValue] and [ObjectValue]
    with no element, in a const context or not; [( )] after a field or
    directive name, or after an operation name, is a syntax error on the
    [)], where the first argument or variable was expected. *)
Theorem empty_delimited_lists (lexer : Lexer) (close t : Token)
    (rest rest' : list Token)
    (Hnext : readNext (Lexer.pending lexer) = Some (close, rest)) :
  (∀ fuel isConst,
     Token.kind (Lexer.token lexer) = TokenKind.BRACKET_L →
     Token.kind close = TokenKind.BRACKET_R →
     readNext rest = Some (t, rest') →
     let lexer' := advanced (advanced lexer close rest) t rest' in
     parseValueLiteral (S (S fuel)) isConst lexer
     = Ok (ListValue [] (locAt (Lexer.token lexer) lexer')) lexer') ∧
  (∀ fuel isConst,
     Token.kind (Lexer.token lexer) = TokenKind.BRACE_L →
     Token.kind close = TokenKind.BRACE_R →
     readNext rest = Some (t, rest') →
     let lexer' := advanced (advanced lexer close rest) t rest' in
     parseValueLiteral (S (S fuel)) isConst lexer
     = Ok (ObjectValue [] (locAt (Lexer.token lexer) lexer')) lexer') ∧
  (Token.kind (Lexer.token lexer) = TokenKind.PAREN_L →
   Token.kind close = TokenKind.PAREN_R →
   (∀ fuel isConst,
      parseArguments fuel isConst lexer
      = Throw (SyntaxError (Lexer.source lexer) (Token.start close)
                 ("Expected Name, found " +:+ getTokenDesc close))) ∧
   (∀ fuel,
      parseVariableDefinitions fuel lexer
      = Throw (SyntaxError (Lexer.source lexer) (Token.start close)
                 ("Expected $, found " +:+ getTokenDesc close)))).
Proof.
  split_and!.
  - intros fuel isConst Hopen Hclose Hnext' lexer'. simpl.
    rewrite bind_getToken, Hopen. unfold parseList. rewrite bind_getToken.
    rewrite (bind_eq _ _ _ _ _
               (any_empty _ _ _ _ _ _ _ _ _ Hopen ltac:(done) Hnext Hclose
                  ltac:(done) Hnext')).
    by rewrite (bind_eq _ _ _ _ _ (loc_eq _ _)).
  - intros fuel isConst Hopen Hclose Hnext' lexer'. simpl.
    rewrite bind_getToken, Hopen. unfold parseObject. rewrite bind_getToken.
    rewrite (bind_eq _ _ _ _ _ (expect_eq _ _ _ _ Hopen ltac:(done) Hnext)).
    rewrite (bind_eq _ _ _ _ _
               (pushWhile_closed _ _ _ _ (advanced lexer close rest) t rest'
                  Hclose ltac:(done) Hnext')).
    by rewrite (bind_eq _ _ _ _ _ (loc_eq _ _)).
  - intros Hopen Hclose. split.
    + intros fuel isConst. unfold parseArguments. rewrite bind_peek, Hopen.
      simpl. unfold many.
      rewrite (bind_eq _ _ _ _ _ (expect_eq _ _ _ _ Hopen ltac:(done) Hnext)).
      apply bind_throw.
      assert (parseName (advanced lexer close rest)
              = Throw (SyntaxError (Lexer.source lexer) (Token.start close)
                         ("Expected Name, found " +:+ getTokenDesc close)))
        as Hname.
      { unfold parseName. apply bind_throw.
        rewrite expect_throw by (simpl; by rewrite Hclose). done. }
      destruct isConst; unfold parseConstArgument, parseArgument;
        rewrite bind_getToken; by apply bind_throw.
    + intros fuel. unfold parseVariableDefinitions. rewrite bind_peek, Hopen.
      simpl. unfold many.
      rewrite (bind_eq _ _ _ _ _ (expect_eq _ _ _ _ Hopen ltac:(done) Hnext)).
      apply bind_throw. unfold parseVariableDefinition.
      rewrite bind_getToken. apply bind_throw. unfold parseVariable.
      rewrite bind_getToken. apply bind_throw.
      rewrite expect_throw by (simpl; by rewrite Hclose). done.
Qed.

Lemma empty_delimited_lists_witness :
  (∃ l lexer',
     parseValueLiteral 2 true (lexerAfter 1 "[ ]")
     = Ok (ListValue [] l) lexer') ∧
  parseArguments 0 false (lexerAfter 3 "{ f() }")
  = Throw (SyntaxError (IsSource (Source.new "{ f() }")) 4
             "Expected Name, found )").
Proof.
  split.
  - destruct (empty_delimited_lists (lexerAfter 1 "[ ]")
                (Lexer.token (lexerAfter 2 "[ ]"))
                (Lexer.token (lexerAfter 3 "[ ]"))
                (Lexer.pending (lexerAfter 2 "[ ]"))
                (Lexer.pending (lexerAfter 3 "[ ]")) eq_refl) as (Hlist & _).
    eexists _, _. by apply (Hlist 0%nat true).
  - destruct (empty_delimited_lists (lexerAfter 3 "{ f() }")
                (Lexer.token (lexerAfter 4 "{ f() }"))
                (Lexer.token (lexerAfter 5 "{ f() }"))
                (Lexer.pending (lexerAfter 4 "{ f() }"))
                (Lexer.pending (lexerAfter 5 "{ f() }")) eq_refl)
      as (_ & _ & Hargs).
    by apply (proj1 (Hargs eq_refl eq_refl) 0%nat false).
Defined.

(** ** The entry points read their whole input *)

Lemma parseDocument_reaches_EOF fuel lexer :
  wp True (λ _, True) (parseDocument fuel)
    (λ _ lexer', Token.kind (Lexer.lastToken lexer') = TokenKind.EOF) lexer.
Proof.
  unfold parseDocument.
  wp_run ltac:(first
    [ eapply wp_mono;
      [apply (pushWhile_notSkip_closes (λ _, True));
       [by constructor|intros; apply wp_trivial]
      |cbv beta; intros ? ? (_ & _ & ?)]
    | trivial_call ]); done.
Qed.

Lemma expect_EOF_last {A} (a : A) lexer :
  wp True (λ _, True) (let* _ := expect TokenKind.EOF in ret a)
    (λ _ lexer', Token.kind (Lexer.lastToken lexer') = TokenKind.EOF) lexer.
Proof.
  wp_run fail; try done.
  match goal with H : stepTo _ _ |- _ => by rewrite (step_last _ _ H) end.
Qed.

(** X7. [parse], [parseValue] and [parseType] return only once the [EOF] token
    is consumed: it is the last token of the lexer they leave.  When the
    value or the type is followed by another token, [parseValue] and
    [parseType] throw [Expected <EOF>] at that token. *)
Theorem entry_points_read_all (source : Input)
    (options : option ParseOptions) :
  let lexer := createLexer (toSourceObj source) (orDefault options) in
  (∀ document lexer',
     parse source options = Ok document lexer' →
     Token.kind (Lexer.lastToken lexer') = TokenKind.EOF) ∧
  (∀ value lexer',
     parseValue source options = Ok value lexer' →
     Token.kind (Lexer.lastToken lexer') = TokenKind.EOF) ∧
  (∀ type lexer',
     parseType source options = Ok type lexer' →
     Token.kind (Lexer.lastToken lexer') = TokenKind.EOF) ∧
  (∀ t lexer1 lexer2,
     expect TokenKind.SOF lexer = Ok t lexer1 →
     Token.kind (Lexer.token lexer2) ≠ TokenKind.EOF →
     let error :=
       SyntaxError (Lexer.source lexer2) (Token.start (Lexer.token lexer2))
         ("Expected <EOF>, found " +:+ getTokenDesc (Lexer.token lexer2)) in
     (∀ value,
        parseValueLiteral (fuelFor lexer) false lexer1 = Ok value lexer2 →
        parseValue source options = Throw error) ∧
     (∀ type,
        parseTypeReference (fuelFor lexer) lexer1 = Ok type lexer2 →
        parseType source options = Throw error)).
Proof.
  intros lexer. split_and!.
  - intros document lexer' Hparse.
    destruct (instanceofSource (toSourceObj source)) eqn:Hsrc;
      [|unfold parse in Hparse; by rewrite Hsrc in Hparse].
    rewrite parse_unfold in Hparse by done.
    exact (wp_Ok _ _ _ _ _ _ _ (parseDocument_reaches_EOF _ _) Hparse).
  - intros value lexer'. unfold parseValue. fold lexer.
    unfold bind at 1. destruct (expect TokenKind.SOF lexer) as [t lexer1| |];
      [|done..].
    unfold bind at 1.
    destruct (parseValueLiteral _ _ lexer1) as [value' lexer2| |]; [|done..].
    apply (wp_Ok _ _ _ _ _ _ _ (expect_EOF_last value' lexer2)).
  - intros type lexer'. unfold parseType. fold lexer.
    unfold bind at 1. destruct (expect TokenKind.SOF lexer) as [t lexer1| |];
      [|done..].
    unfold bind at 1.
    destruct (parseTypeReference _ lexer1) as [type' lexer2| |]; [|done..].
    apply (wp_Ok _ _ _ _ _ _ _ (expect_EOF_last type' lexer2)).
  - intros t lexer1 lexer2 Hsof Hkind error. split.
    + intros value Hrun. unfold parseValue. fold lexer.
      rewrite (bind_eq _ _ _ _ _ Hsof), (bind_eq _ _ _ _ _ Hrun).
      apply bind_throw. by rewrite expect_throw.
    + intros type Hrun. unfold parseType. fold lexer.
      rewrite (bind_eq _ _ _ _ _ Hsof), (bind_eq _ _ _ _ _ Hrun).
      apply bind_throw. by rewrite expect_throw.
Qed.

Lemma entry_points_read_all_witness :
  (∃ type lexer',
     parseType (InString "[Int]") None = Ok type lexer' ∧
     Token.kind (Lexer.lastToken lexer') = TokenKind.EOF) ∧
  parseValue (InString "1 2") None
  = Throw (SyntaxError (IsSource (Source.new "1 2")) 2
             ("Expected <EOF>, found Int " +:+ quote +:+ "2" +:+ quote)).
Proof.
  split.
  - destruct (parseType (InString "[Int]") None) as [type lexer'| |] eqn:Hrun;
      [|by vm_compute in Hrun..].
    exists type, lexer'. split; [done|].
    by eapply (entry_points_read_all (InString "[Int]") None).
  - destruct (entry_points_read_all (InString "1 2") None)
      as (_ & _ & _ & Htrail).
    apply (proj1 (Htrail (Token.mk TokenKind.SOF 0 0 0 0 None)
                    (lexerAfter 1 "1 2") (lexerAfter 2 "1 2")
                    ltac:(vm_compute; reflexivity)
                    ltac:(vm_compute; congruence))
             (IntValue "1" (locAt (Lexer.token (lexerAfter 1 "1 2"))
                              (lexerAfter 2 "1 2")))).
    vm_compute. reflexivity.
Defined.

(** ** Dispatch on keywords, and descriptions *)

Create HintDb announce discriminated.

Lemma parseDescription_string lexer :
  wp True (λ _, True) parseDescription
    (λ description lexer',
       if isString (Lexer.token lexer)
       then (∃ l, description = Some (stringOf (Lexer.token lexer) l)) ∧
            stepTo lexer lexer'
       else description = None ∧ lexer' = lexer) lexer.
Proof.
  unfold parseDescription, peekDescription, parseStringLiteral, isString,
    stringOf.
  wp_run fail; try done.
  all: repeat match goal with H : bool_decide _ = _ |- _ => rewrite H end.
  all: simpl; eauto.
Qed.

Lemma announced_described lexer lexer' node keyword description :
  (if isString (Lexer.token lexer)
   then (∃ l, description = Some (stringOf (Lexer.token lexer) l)) ∧
        stepTo lexer lexer'
   else description = None ∧ lexer' = lexer) →
  Token.kind (Lexer.token lexer') = TokenKind.NAME →
  Token.value (Lexer.token lexer') = Some keyword →
  definitionKeyword node = keyword →
  descriptionOf node = description →
  announced lexer node.
Proof.
  intros Hdescr Hkind Hvalue <- <-. unfold announced.
  destruct (isString (Lexer.token lexer)) eqn:Hstr.
  - destruct Hdescr as [[l ->] Hstep].
    exists (Lexer.token lexer'), (Lexer.pending lexer'), l.
    split_and!; try done. apply (step_next _ _ Hstep).
    unfold isString in Hstr. bool_hyps; congruence.
  - by destruct Hdescr as [-> ->].
Qed.

Lemma announced_plain lexer node keyword :
  Token.kind (Lexer.token lexer) = TokenKind.NAME →
  Token.value (Lexer.token lexer) = Some keyword →
  definitionKeyword node = keyword →
  descriptionOf node = None →
  announced lexer node.
Proof.
  intros Hkind Hvalue <- Hnone. unfold announced, isString.
  rewrite Hkind, Hnone. done.
Qed.

Ltac announced_go :=
  wp_run ltac:(first
    [ eapply wp_mono; [apply parseDescription_string|cbv beta; intros ? ? ?]
    | trivial_call ]); try done;
  first [ by eapply announced_described | by eapply announced_plain ].

Lemma parseSchemaDefinition_announced fuel lexer :
  wp True (λ _, True) (parseSchemaDefinition fuel)
    (λ node _, announced lexer node) lexer.
Proof. unfold parseSchemaDefinition. announced_go. Qed.

Lemma parseScalarTypeDefinition_announced fuel lexer :
  wp True (λ _, True) (parseScalarTypeDefinition fuel)
    (λ node _, announced lexer node) lexer.
Proof. unfold parseScalarTypeDefinition. announced_go. Qed.

Lemma parseObjectTypeDefinition_announced fuel lexer :
  wp True (λ _, True) (parseObjectTypeDefinition fuel)
    (λ node _, announced lexer node) lexer.
Proof. unfold parseObjectTypeDefinition. announced_go. Qed.

Lemma parseInterfaceTypeDefinition_announced fuel lexer :
  wp True (λ _, True) (parseInterfaceTypeDefinition fuel)
    (λ node _, announced lexer node) lexer.
Proof. unfold parseInterfaceTypeDefinition. announced_go. Qed.

Lemma parseUnionTypeDefinition_announced fuel lexer :
  wp True (λ _, True) (parseUnionTypeDefinition fuel)
    (λ node _, announced lexer node) lexer.
Proof. unfold parseUnionTypeDefinition. announced_go. Qed.

Lemma parseEnumTypeDefinition_announced fuel lexer :
  wp True (λ _, True) (parseEnumTypeDefinition fuel)
    (λ node _, announced lexer node) lexer.
Proof. unfold parseEnumTypeDefinition. announced_go. Qed.

Lemma parseInputObjectTypeDefinition_announced fuel lexer :
  wp True (λ _, True) (parseInputObjectTypeDefinition fuel)
    (λ node _, announced lexer node) lexer.
Proof. unfold parseInputObjectTypeDefinition. announced_go. Qed.

Lemma parseTypeExtension_announced fuel lexer :
  wp True (λ _, True) (parseTypeExtension fuel)
    (λ node _, announced lexer node) lexer.
Proof. unfold parseTypeExtension, parseObjectTypeExtension. announced_go. Qed.

Lemma parseDirectiveDefinition_announced fuel lexer :
  wp True (λ _, True) (parseDirectiveDefinition fuel)
    (λ node _, announced lexer node) lexer.
Proof. unfold parseDirectiveDefinition. announced_go. Qed.

Lemma parseFragmentDefinition_announced fuel lexer :
  wp True (λ _, True) (parseFragmentDefinition fuel)
    (λ node _, announced lexer node) lexer.
Proof. unfold parseFragmentDefinition. announced_go. Qed.

Lemma parseOperationDefinition_announced fuel lexer :
  Token.kind (Lexer.token lexer) ≠ TokenKind.BRACE_L →
  wp True (λ _, True) (parseOperationDefinition fuel)
    (λ node _, announced lexer node) lexer.
Proof.
  intros Hbrace. unfold parseOperationDefinition, parseOperationType.
  wp_run trivial_call; try done; bool_hyps; try done.
  all: by eapply announced_plain.
Qed.

#[local] Hint Resolve parseSchemaDefinition_announced
  parseScalarTypeDefinition_announced parseObjectTypeDefinition_announced
  parseInterfaceTypeDefinition_announced parseUnionTypeDefinition_announced
  parseEnumTypeDefinition_announced parseInputObjectTypeDefinition_announced
  parseTypeExtension_announced parseDirectiveDefinition_announced
  parseFragmentDefinition_announced : announce.

Ltac announce_call :=
  first [ solve [eauto 2 with announce] | wp_prim ].

Lemma parseTypeSystemDefinition_announced fuel lexer :
  wp True (λ _, True) (parseTypeSystemDefinition fuel)
    (λ node _, announced lexer node) lexer.
Proof.
  unfold parseTypeSystemDefinition, peekDescription.
  repeat announce_call; done.
Qed.
#[local] Hint Resolve parseTypeSystemDefinition_announced : announce.

Lemma parseDefinition_announced fuel lexer :
  Token.kind (Lexer.token lexer) ≠ TokenKind.BRACE_L →
  wp True (λ _, True) (parseDefinition fuel)
    (λ node _, announced lexer node) lexer.
Proof.
  intros Hbrace. unfold parseDefinition, peekDescription.
  repeat first [ solve [eauto 2 with announce]
               | by apply parseOperationDefinition_announced
               | wp_prim ]; bool_hyps; done.
Qed.

Lemma lookahead_eq lexer t rest :
  Token.kind (Lexer.token lexer) ≠ TokenKind.EOF →
  readNext (Lexer.pending lexer) = Some (t, rest) →
  lookahead lexer = Ok t lexer.
Proof.
  intros Hkind Hnext. unfold lookahead. case_decide; [done|]. by rewrite Hnext.
Qed.

Lemma expectKeyword_throw value lexer :
  Token.kind (Lexer.token lexer) ≠ TokenKind.NAME →
  expectKeyword value lexer
  = Throw (SyntaxError (Lexer.source lexer) (Token.start (Lexer.token lexer))
             ("Expected " +:+ quote +:+ value +:+ quote +:+ ", found " +:+
              getTokenDesc (Lexer.token lexer))).
Proof.
  intros Hkind. unfold expectKeyword, bind, getToken, throw.
  by rewrite bool_decide_eq_false_2.
Qed.

Lemma isString_kind token :
  isString token = true →
  Token.kind token ≠ TokenKind.EOF ∧ Token.kind token ≠ TokenKind.NAME ∧
  Token.kind token ≠ TokenKind.BRACE_L.
Proof. unfold isString. intros; bool_hyps; split_and!; congruence. Qed.

Lemma peekDescription_eq lexer :
  peekDescription lexer = Ok (isString (Lexer.token lexer)) lexer.
Proof.
  unfold peekDescription, isString. rewrite bind_peek.
  by destruct (bool_decide (_ = TokenKind.STRING)).
Qed.

Lemma parseDefinition_string fuel lexer :
  isString (Lexer.token lexer) = true →
  parseDefinition fuel lexer = parseTypeSystemDefinition fuel lexer.
Proof.
  intros Hstr. destruct (isString_kind _ Hstr) as (_ & Hname & Hbrace).
  unfold parseDefinition.
  rewrite bind_peek, (bool_decide_eq_false_2 _ Hbrace).
  rewrite bind_peek, bind_getToken, (bool_decide_eq_false_2 _ Hname). simpl.
  by rewrite (bind_eq _ _ _ _ _ (peekDescription_eq _)), Hstr.
Qed.

Lemma parseTypeSystemDefinition_string fuel lexer t rest :
  isString (Lexer.token lexer) = true →
  readNext (Lexer.pending lexer) = Some (t, rest) →
  parseTypeSystemDefinition fuel lexer
  = if negb (bool_decide (Token.kind t = TokenKind.NAME))
    then Throw (unexpected (Some t) lexer)
    else if bool_decide (Token.value t = Some "schema")
    then parseSchemaDefinition fuel lexer
    else if bool_decide (Token.value t = Some "scalar")
    then parseScalarTypeDefinition fuel lexer
    else if bool_decide (Token.value t = Some "type")
    then parseObjectTypeDefinition fuel lexer
    else if bool_decide (Token.value t = Some "interface")
    then parseInterfaceTypeDefinition fuel lexer
    else if bool_decide (Token.value t = Some "union")
    then parseUnionTypeDefinition fuel lexer
    else if bool_decide (Token.value t = Some "enum")
    then parseEnumTypeDefinition fuel lexer
    else if bool_decide (Token.value t = Some "input")
    then parseInputObjectTypeDefinition fuel lexer
    else if bool_decide (Token.value t = Some "extend")
    then parseTypeExtension fuel lexer
    else if bool_decide (Token.value t = Some "directive")
    then parseDirectiveDefinition fuel lexer
    else Throw (unexpected (Some t) lexer).
Proof.
  intros Hstr Hnext. destruct (isString_kind _ Hstr) as (Heof & _ & _).
  unfold parseTypeSystemDefinition.
  rewrite (bind_eq _ _ _ _ _ (peekDescription_eq _)), Hstr.
  rewrite (bind_eq _ _ _ _ _ (lookahead_eq _ _ _ Heof Hnext)).
  by repeat (destruct (bool_decide _); simpl; try done).
Qed.

Lemma parseDefinition_unexpected fuel lexer :
  Token.kind (Lexer.token lexer) ≠ TokenKind.BRACE_L →
  isString (Lexer.token lexer) = false →
  (Token.kind (Lexer.token lexer) = TokenKind.NAME →
   valueAmong (Lexer.token lexer)
     (operationKeywords ++ "fragment" :: typeSystemKeywords) = false) →
  parseDefinition fuel lexer = Throw (unexpected None lexer).
Proof.
  intros Hbrace Hstr Hname. unfold parseDefinition.
  rewrite bind_peek, (bool_decide_eq_false_2 _ Hbrace).
  rewrite bind_peek, bind_getToken.
  case_bool_decide as Hkind; simpl.
  - specialize (Hname Hkind). unfold valueAmong in *.
    destruct (Token.value (Lexer.token lexer)) as [v|]; simpl.
    + apply bool_decide_eq_false in Hname.
      unfold operationKeywords, typeSystemKeywords in *.
      rewrite !bool_decide_eq_false_2;
        [|first [ intros [= ->]; apply Hname; by apply (bool_decide_unpack _)
                | intros Hin; apply Hname, elem_of_app;
                  first [by left | right; by right] ]..].
      by rewrite (bind_eq _ _ _ _ _ (peekDescription_eq _)), Hstr.
    + by rewrite (bind_eq _ _ _ _ _ (peekDescription_eq _)), Hstr.
  - by rewrite (bind_eq _ _ _ _ _ (peekDescription_eq _)), Hstr.
Qed.

Lemma described_keyword node description :
  descriptionOf node = Some description →
  definitionKeyword node ∈ describedKeywords.
Proof.
  unfold describedKeywords. destruct node; simpl; try done; set_solver.
Qed.

(** X8. [parseDefinition] chooses the production by the token it starts on, and
    the definition it returns is the one that the token announces.  On [{]
    it is a query; on a name, the name is the keyword of the definition
    ([query], [mutation], [subscription], [fragment], [schema], [scalar],
    [type], [interface], [union], [enum], [input], [extend], [directive]);
    on a string, the keyword is the next token and is one of those that take
    a description.  It returns on no other token: on a name that is no
    keyword, and on a token that is neither [{], a name nor a string, it
    throws [Unexpected] at that token. *)
Theorem definition_keyword_dispatch (fuel : nat) (lexer : Lexer) :
  (∀ node lexer',
     parseDefinition fuel lexer = Ok node lexer' →
     match Token.kind (Lexer.token lexer) with
     | TokenKind.BRACE_L => definitionKeyword node = "query"
     | TokenKind.NAME =>
         Token.value (Lexer.token lexer) = Some (definitionKeyword node)
     | TokenKind.STRING | TokenKind.BLOCK_STRING =>
         ∃ t rest,
           readNext (Lexer.pending lexer) = Some (t, rest) ∧
           Token.kind t = TokenKind.NAME ∧
           Token.value t = Some (definitionKeyword node) ∧
           definitionKeyword node ∈ describedKeywords
     | _ => False
     end) ∧
  (Token.kind (Lexer.token lexer) = TokenKind.NAME →
   valueAmong (Lexer.token lexer)
     (operationKeywords ++ "fragment" :: typeSystemKeywords) = false →
   parseDefinition fuel lexer = Throw (unexpected None lexer)) ∧
  (Token.kind (Lexer.token lexer)
   ∉ [TokenKind.BRACE_L; TokenKind.NAME; TokenKind.STRING;
      TokenKind.BLOCK_STRING] →
   parseDefinition fuel lexer = Throw (unexpected None lexer)).
Proof.
  assert (Token.kind (Lexer.token lexer)
          ∉ [TokenKind.BRACE_L; TokenKind.NAME; TokenKind.STRING;
             TokenKind.BLOCK_STRING] →
          parseDefinition fuel lexer = Throw (unexpected None lexer)) as Hother.
  { intros Hkind. apply parseDefinition_unexpected.
    - intros Heq. apply Hkind. rewrite Heq. by left.
    - unfold isString. rewrite !bool_decide_eq_false_2; [done|..];
        intros Heq; apply Hkind; rewrite Heq; set_solver.
    - intros Heq. exfalso. apply Hkind. rewrite Heq. set_solver. }
  split_and!; [| |done].
  2:{ intros Hkind Hvalue.
      apply parseDefinition_unexpected; [congruence| |done].
      unfold isString. by rewrite Hkind. }
  intros node lexer' Hrun.
  destruct (decide (Token.kind (Lexer.token lexer) = TokenKind.BRACE_L))
    as [Hbrace|Hbrace].
  { rewrite Hbrace.
    by destruct (wp_Ok _ _ _ _ _ _ _
                   (parseDefinition_shorthand _ _ Hbrace) Hrun)
      as (? & ? & ->). }
  pose proof (wp_Ok _ _ _ _ _ _ _ (parseDefinition_announced _ _ Hbrace) Hrun)
    as Hnode.
  unfold announced, isString in Hnode.
  destruct (Token.kind (Lexer.token lexer)) eqn:Hkind; simpl in Hnode;
    try (by destruct Hnode as (? & _));
    try (rewrite Hother in Hrun;
         [done|rewrite Hkind; set_solver]).
  - by destruct Hnode as (_ & ? & _).
  - destruct Hnode as (t & rest & l & ? & ? & ? & Hdescr).
    exists t, rest. split_and!; try done. by eapply described_keyword.
  - destruct Hnode as (t & rest & l & ? & ? & ? & Hdescr).
    exists t, rest. split_and!; try done. by eapply described_keyword.
Qed.

Lemma definition_keyword_dispatch_witness :
  (∃ node lexer',
     parseDefinition 9 (lexerAfter 1 "mutation M { a }") = Ok node lexer' ∧
     definitionKeyword node = "mutation") ∧
  parseDefinition 9 (lexerAfter 1 "foo { a }")
  = Throw (SyntaxError (IsSource (Source.new "foo { a }")) 0
             ("Unexpected Name " +:+ quote +:+ "foo" +:+ quote)) ∧
  parseDefinition 9 (lexerAfter 1 "[ a ]")
  = Throw (SyntaxError (IsSource (Source.new "[ a ]")) 0 "Unexpected [").
Proof.
  split_and!.
  - destruct (parseDefinition 9 (lexerAfter 1 "mutation M { a }"))
      as [node lexer'| |] eqn:Hrun; [|by vm_compute in Hrun..].
    exists node, lexer'. split; [done|].
    pose proof (proj1 (definition_keyword_dispatch 9
                         (lexerAfter 1 "mutation M { a }")) _ _ Hrun) as Hk.
    simpl in Hk. congruence.
  - apply (proj1 (proj2 (definition_keyword_dispatch 9
                           (lexerAfter 1 "foo { a }")))); reflexivity.
  - apply (proj2 (proj2 (definition_keyword_dispatch 9
                           (lexerAfter 1 "[ a ]")))).
    intros Hin. apply (bool_decide_pack _) in Hin. by vm_compute in Hin.
Defined.

(** X9. A definition carries a description exactly when [parseDefinition] starts
    on a string, and the description is that string.  [schema] and [extend]
    take no description: a string before [schema] throws [Expected "schema"]
    at the string, and a string before anything else than the keyword of a
    definition that takes a description throws [Unexpected] at the token
    after the string. *)
Theorem descriptions_attached (fuel : nat) (lexer : Lexer) :
  (∀ node lexer',
     parseDefinition fuel lexer = Ok node lexer' →
     if isString (Lexer.token lexer)
     then ∃ l, descriptionOf node = Some (stringOf (Lexer.token lexer) l)
     else descriptionOf node = None) ∧
  (∀ t rest,
     isString (Lexer.token lexer) = true →
     readNext (Lexer.pending lexer) = Some (t, rest) →
     (Token.kind t = TokenKind.NAME → Token.value t = Some "schema" →
      parseDefinition fuel lexer
      = Throw (SyntaxError (Lexer.source lexer)
                 (Token.start (Lexer.token lexer))
                 ("Expected " +:+ quote +:+ "schema" +:+ quote +:+ ", found "
                  +:+ getTokenDesc (Lexer.token lexer)))) ∧
     (Token.kind t ≠ TokenKind.NAME ∨
      valueAmong t ("schema" :: describedKeywords) = false →
      parseDefinition fuel lexer = Throw (unexpected (Some t) lexer))).
Proof.
  split.
  - intros node lexer' Hrun.
    destruct (decide (Token.kind (Lexer.token lexer) = TokenKind.BRACE_L))
      as [Hbrace|Hbrace].
    { destruct (wp_Ok _ _ _ _ _ _ _ (parseDefinition_shorthand _ _ Hbrace) Hrun)
        as (? & ? & ->).
      unfold isString. by rewrite Hbrace. }
    pose proof (wp_Ok _ _ _ _ _ _ _ (parseDefinition_announced _ _ Hbrace) Hrun)
      as Hnode.
    unfold announced in Hnode. destruct (isString _).
    + destruct Hnode as (t & rest & l & _ & _ & _ & ?). by exists l.
    + by destruct Hnode as (_ & _ & ?).
  - intros t rest Hstr Hnext.
    destruct (isString_kind _ Hstr) as (_ & Hname & _).
    rewrite parseDefinition_string,
      (parseTypeSystemDefinition_string _ _ t rest) by done.
    split.
    + intros Hkind Hvalue.
      rewrite (bool_decide_eq_true_2 _ Hkind), (bool_decide_eq_true_2 _ Hvalue).
      simpl. unfold parseSchemaDefinition. rewrite bind_getToken.
      apply bind_throw. by apply expectKeyword_throw.
    + intros [Hkind|Hvalue].
      { by rewrite (bool_decide_eq_false_2 _ Hkind). }
      destruct (bool_decide (Token.kind t = TokenKind.NAME)) eqn:Hkind;
        simpl; [|done].
      unfold valueAmong in Hvalue.
      destruct (Token.value t) as [v|] eqn:Hv; [|done].
      apply bool_decide_eq_false in Hvalue. unfold describedKeywords in Hvalue.
      destruct (bool_decide (Some v = Some "extend")) eqn:Hext.
      * apply bool_decide_eq_true in Hext as [= ->].
        simpl. unfold parseTypeExtension.
        rewrite (bind_eq _ _ _ _ _
                   (lookahead_eq _ _ _ (proj1 (isString_kind _ Hstr)) Hnext)).
        by rewrite Hv, andb_false_r.
      * apply bool_decide_eq_false in Hext.
        rewrite !bool_decide_eq_false_2;
          [done|intros [= ->];
                first [ by apply Hext
                      | apply Hvalue; by apply (bool_decide_unpack _) ]..].
Qed.

Lemma descriptions_attached_witness :
  (∃ node lexer' l,
     parseDefinition 9 (lexerAfter 1 (quote +:+ "d" +:+ quote +:+ " scalar S"))
     = Ok node lexer' ∧
     descriptionOf node = Some (StringValue "d" false l)) ∧
  (let body := quote +:+ "d" +:+ quote +:+ " schema { query: Q }" in
   parseDefinition 9 (lexerAfter 1 body)
   = Throw (SyntaxError (IsSource (Source.new body)) 0
              ("Expected " +:+ quote +:+ "schema" +:+ quote +:+
               ", found String " +:+ quote +:+ "d" +:+ quote))).
Proof.
  split.
  - destruct (parseDefinition 9
                (lexerAfter 1 (quote +:+ "d" +:+ quote +:+ " scalar S")))
      as [node lexer'| |] eqn:Hrun; [|by vm_compute in Hrun..].
    destruct (proj1 (descriptions_attached _ _) _ _ Hrun) as [l Hl].
    by exists node, lexer', l.
  - intros body.
    apply (proj1 (proj2 (descriptions_attached 9 (lexerAfter 1 body))
                    (Lexer.token (lexerAfter 2 body))
                    (Lexer.pending (lexerAfter 2 body))
                    eq_refl eq_refl)); reflexivity.
Defined.

(** ** Enum values, fragments and pipes *)

Section ValueCycleEnums.
Variable parseValueLiteral : bool → Parser ValueNode.
Hypothesis cycle : ∀ isConst lexer,
  returns (parseValueLiteral isConst) (λ node, enumsNamed node = true) lexer.

Lemma parseList_enums fuel isConst lexer :
  returns (parseList parseValueLiteral fuel isConst)
    (λ node, enumsNamed node = true) lexer.
Proof.
  unfold parseList, parseConstValue, parseValueValue. do 3 wp_prim.
  eapply wp_mono;
    [apply (any_returns (λ node, enumsNamed node = true));
     intros; destruct isConst; apply cycle|].
  cbv beta. intros values lexer' Hall. do 2 wp_prim.
  simpl. by apply forallb_Forall_true.
Qed.

Lemma parseObject_enums fuel isConst lexer :
  returns (parseObject parseValueLiteral fuel isConst)
    (λ node, enumsNamed node = true) lexer.
Proof.
  unfold parseObject. do 3 wp_prim. wp_prim; [|done..]. wp_prim.
  eapply wp_mono.
  { apply (pushWhile_returns
             (λ field, match field with
                       | ObjectField _ value _ => enumsNamed value = true
                       end)); [by constructor|].
    intros. unfold parseObjectField. pose proof cycle. shape_go. }
  cbv beta. intros fields lexer'' [Hall _]. do 2 wp_prim.
  simpl. apply forallb_Forall_true.
  eapply Forall_impl; [exact Hall|]. by intros [].
Qed.
End ValueCycleEnums.

Lemma valueString_reserved token :
  bool_decide (Token.value token = Some "true") = false →
  bool_decide (Token.value token = Some "false") = false →
  bool_decide (Token.value token = Some "null") = false →
  valueString token ∉ reservedNames.
Proof.
  intros Htrue Hfalse Hnull. bool_hyps. unfold valueString, reservedNames.
  destruct (Token.value token) as [v|]; simpl; intros Hin;
    repeat (apply elem_of_cons in Hin as [Heq|Hin]; [by subst|]);
    by apply elem_of_nil in Hin.
Qed.

Lemma parseValueLiteral_enums fuel isConst lexer :
  returns (parseValueLiteral fuel isConst) (λ node, enumsNamed node = true)
    lexer.
Proof.
  revert isConst lexer. induction fuel as [|fuel IH]; intros isConst lexer;
    [done|].
  simpl. do 3 wp_prim;
    try (by apply parseList_enums);
    try (by apply parseObject_enums);
    shape_go.
  simpl. apply negb_true_iff, bool_decide_eq_false_2.
  bool_hyps. apply valueString_reserved; by apply bool_decide_eq_false_2.
Qed.

(** X10. An [EnumValue] is a name other than [true], [false] and [null], at
    every depth of a value that [parseValueLiteral] returns: on a name token
    it returns the [BooleanValue] of [true] or [false], the [NullValue] of
    [null], and the [EnumValue] of any other name. *)
Theorem enum_values_named (fuel : nat) (isConst : bool) (lexer : Lexer)
    (node : ValueNode) (lexer' : Lexer)
    (Hrun : parseValueLiteral fuel isConst lexer = Ok node lexer') :
  enumsNamed node = true ∧
  (Token.kind (Lexer.token lexer) = TokenKind.NAME →
   match node with
   | BooleanValue value _ =>
       Token.value (Lexer.token lexer)
       = Some (if value then "true" else "false")
   | NullValue _ => Token.value (Lexer.token lexer) = Some "null"
   | EnumValue value _ =>
       value = valueString (Lexer.token lexer) ∧ value ∉ reservedNames
   | _ => False
   end).
Proof.
  split.
  - exact (wp_Ok _ _ _ _ _ _ _ (parseValueLiteral_enums _ _ _) Hrun).
  - intros Hkind. destruct fuel as [|fuel]; [done|]. simpl in Hrun.
    rewrite bind_getToken, Hkind in Hrun.
    destruct (bool_decide (Token.value (Lexer.token lexer) = Some "true"))
      eqn:Htrue;
      [|destruct (bool_decide (Token.value (Lexer.token lexer) = Some "false"))
          eqn:Hfalse;
        [|destruct (bool_decide (Token.value (Lexer.token lexer) = Some "null"))
            eqn:Hnull]];
      simpl in Hrun; unfold bind in Hrun;
      destruct (advance lexer) as [t lexer1| |]; try done;
      rewrite loc_eq in Hrun; injection Hrun as <- _.
    + by apply bool_decide_eq_true in Htrue.
    + by apply bool_decide_eq_true in Hfalse.
    + by apply bool_decide_eq_true in Hnull.
    + split; [done|]. by apply valueString_reserved.
Qed.

Lemma enum_values_named_witness :
  ∃ node lexer',
    parseValueLiteral 9 false (lexerAfter 1 "[RED, true, null]")
    = Ok node lexer' ∧
    enumsNamed node = true.
Proof.
  destruct (parseValueLiteral 9 false (lexerAfter 1 "[RED, true, null]"))
    as [node lexer'| |] eqn:Hrun; [|by vm_compute in Hrun..].
  exists node, lexer'. split; [done|].
  exact (proj1 (enum_values_named _ _ _ _ _ Hrun)).
Defined.

Lemma parseName_token lexer :
  returns parseName
    (λ node, Token.kind (Lexer.token lexer) = TokenKind.NAME ∧
             nameValue node = valueString (Lexer.token lexer)) lexer.
Proof. unfold parseName. shape_go. Qed.

Ltac names_call :=
  first [ eapply wp_mono;
          [apply parseName_token|cbv beta; intros ? ? [? ?]]
        | trivial_call ].

Lemma parseSelection_dispatch parseSelectionSet fuel lexer :
  wp True (λ _, True) (parseSelection parseSelectionSet fuel)
    (λ selection _,
       match selection with
       | Field alias name _ _ _ _ =>
           Token.kind (Lexer.token lexer) = TokenKind.NAME ∧
           nameValue (default name alias) = valueString (Lexer.token lexer)
       | FragmentSpread name _ _ =>
           Token.kind (Lexer.token lexer) = TokenKind.SPREAD ∧
           ∃ t rest,
             readNext (Lexer.pending lexer) = Some (t, rest) ∧
             Token.kind t = TokenKind.NAME ∧
             Token.value t ≠ Some "on" ∧
             nameValue name = valueString t
       | InlineFragment typeCondition _ _ _ =>
           Token.kind (Lexer.token lexer) = TokenKind.SPREAD ∧
           ∃ t rest,
             readNext (Lexer.pending lexer) = Some (t, rest) ∧
             (is_Some typeCondition ↔ Token.value t = Some "on") ∧
             (Token.kind t = TokenKind.NAME → Token.value t = Some "on")
       end) lexer.
Proof.
  unfold parseSelection, parseFragment, parseFragmentName, parseField.
  wp_run names_call; try done; bool_hyps; simpl.
  all: try match goal with
       | H : stepTo ?l ?l1, Hk : Token.kind (Lexer.token ?l) = TokenKind.SPREAD
         |- _ =>
           pose proof (step_next _ _ H ltac:(congruence)) as Hnext
       end.
  all: try (split; [done|]; eexists _, _; split; [exact Hnext|]).
  all: try (split_and!; try done; try congruence).
  all: try (split; [by eexists|done]).
  all: try (split; [by intros []|congruence]).
Qed.

(** X11. What a selection owes to the tokens it is parsed from.  A field starts
    on a name, which is its alias when it has one and its name otherwise.
    After [...], a name other than [on] is the name of a fragment spread;
    anything else opens an inline fragment, whose type condition is present
    exactly when the token after [...] has the value [on]. *)
Theorem selection_dispatch (parseSelectionSet : Parser SelectionSetNode)
    (fuel : nat) (lexer : Lexer) (selection : SelectionNode) (lexer' : Lexer)
    (Hrun : parseSelection parseSelectionSet fuel lexer = Ok selection lexer') :
  match selection with
  | Field alias name _ _ _ _ =>
      Token.kind (Lexer.token lexer) = TokenKind.NAME ∧
      nameValue (default name alias) = valueString (Lexer.token lexer)
  | FragmentSpread name _ _ =>
      Token.kind (Lexer.token lexer) = TokenKind.SPREAD ∧
      ∃ t rest,
        readNext (Lexer.pending lexer) = Some (t, rest) ∧
        Token.kind t = TokenKind.NAME ∧
        Token.value t ≠ Some "on" ∧
        nameValue name = valueString t
  | InlineFragment typeCondition _ _ _ =>
      Token.kind (Lexer.token lexer) = TokenKind.SPREAD ∧
      ∃ t rest,
        readNext (Lexer.pending lexer) = Some (t, rest) ∧
        (is_Some typeCondition ↔ Token.value t = Some "on") ∧
        (Token.kind t = TokenKind.NAME → Token.value t = Some "on")
  end.
Proof.
  exact (wp_Ok _ _ _ _ _ _ _ (parseSelection_dispatch _ _ _) Hrun).
Qed.

Lemma selection_dispatch_witness :
  ∃ alias name arguments directives selectionSet l lexer',
    parseSelection (parseSelectionSet 9) 9 (lexerAfter 2 "{ a: b }")
    = Ok (Field alias name arguments directives selectionSet l) lexer' ∧
    nameValue (default name alias) = "a".
Proof.
  destruct (parseSelection (parseSelectionSet 9) 9 (lexerAfter 2 "{ a: b }"))
    as [selection lexer'| |] eqn:Hrun; [|by vm_compute in Hrun..].
  pose proof (selection_dispatch _ _ _ _ _ Hrun) as Hsel.
  destruct selection as [alias name arguments directives selectionSet l| |];
    try (vm_compute in Hrun; discriminate Hrun).
  exists alias, name, arguments, directives, selectionSet, l, lexer'.
  split; [done|]. by destruct Hsel as [_ ->].
Defined.

(** X12. One leading [|] before the members of a union type and before the
    locations of a directive definition changes nothing: the list is parsed
    as from the token after it.  A second [|] is a syntax error, as a name is
    expected after the first. *)
Theorem leading_pipe_optional (fuel : nat) (lexer : Lexer) (t : Token)
    (rest : list Token)
    (Hpipe : Token.kind (Lexer.token lexer) = TokenKind.PIPE)
    (Hnext : readNext (Lexer.pending lexer) = Some (t, rest)) :
  (Token.kind t ≠ TokenKind.PIPE →
   parseUnionMembers fuel lexer
   = parseUnionMembers fuel (advanced lexer t rest) ∧
   parseDirectiveLocations fuel lexer
   = parseDirectiveLocations fuel (advanced lexer t rest)) ∧
  (Token.kind t = TokenKind.PIPE →
   let error :=
     SyntaxError (Lexer.source lexer) (Token.start t)
       ("Expected Name, found " +:+ getTokenDesc t) in
   parseUnionMembers fuel lexer = Throw error ∧
   parseDirectiveLocations fuel lexer = Throw error).
Proof.
  split.
  - intros Hother. unfold parseUnionMembers, parseDirectiveLocations.
    rewrite !(bind_eq _ _ _ _ _ (skip_eq _ _ _ _ Hpipe ltac:(done) Hnext)).
    by rewrite !(bind_eq _ _ _ _ _
                   (skip_other TokenKind.PIPE (advanced lexer t rest) Hother)).
  - intros Htwice error. unfold parseUnionMembers, parseDirectiveLocations.
    rewrite !(bind_eq _ _ _ _ _ (skip_eq _ _ _ _ Hpipe ltac:(done) Hnext)).
    assert (parseName (advanced lexer t rest) = Throw error) as Hname.
    { unfold parseName. apply bind_throw.
      rewrite expect_throw by (simpl; by rewrite Htwice). done. }
    split; apply bind_throw.
    + unfold parseNamedType. rewrite bind_getToken. by apply bind_throw.
    + unfold parseDirectiveLocation. rewrite bind_getToken. by apply bind_throw.
Qed.

Lemma leading_pipe_optional_witness :
  parseUnionMembers 9 (lexerAfter 4 "union U = | A | B")
  = parseUnionMembers 9 (lexerAfter 5 "union U = | A | B") ∧
  parseUnionMembers 9 (lexerAfter 4 "union U = | | A")
  = Throw (SyntaxError (IsSource (Source.new "union U = | | A")) 12
             "Expected Name, found |").
Proof.
  split.
  - apply (proj1 (leading_pipe_optional 9 (lexerAfter 4 "union U = | A | B")
                    (Lexer.token (lexerAfter 5 "union U = | A | B"))
                    (Lexer.pending (lexerAfter 5 "union U = | A | B"))
                    eq_refl eq_refl)).
    vm_compute. congruence.
  - apply (proj2 (leading_pipe_optional 9 (lexerAfter 4 "union U = | | A")
                    (Lexer.token (lexerAfter 5 "union U = | | A"))
                    (Lexer.pending (lexerAfter 5 "union U = | | A"))
                    eq_refl eq_refl)).
    reflexivity.
Defined.

(** ** Progress and errors of the productions *)

(** X13. With more fuel than the lexer has tokens to read, a production does not
    run out of fuel, and when it returns it has consumed at least one token:
    the loops of the parser cannot spin.  This holds of a definition, of a
    selection set and of a value, whatever the tokens. *)
Theorem productions_consume (fuel : nat) (lexer : Lexer)
    (Hfuel : (size lexer < fuel)%nat) :
  let consumed {A} (result : Res A) :=
    match result with
    | Ok _ lexer' => (size lexer' < size lexer)%nat
    | Throw _ => True
    | OutOfFuel => False
    end in
  consumed (parseDefinition fuel lexer) ∧
  consumed (parseSelectionSet fuel lexer) ∧
  (∀ isConst, consumed (parseValueLiteral fuel isConst lexer)).
Proof.
  intros consumed. split_and!.
  - by apply parseDefinition_consumes.
  - by apply parseSelectionSet_consumes.
  - intros isConst. by apply parseValueLiteral_consumes.
Qed.

Lemma productions_consume_witness :
  ∃ node lexer',
    parseDefinition 9 (lexerAfter 1 "{ a } { b }") = Ok node lexer' ∧
    (size lexer' < size (lexerAfter 1 "{ a } { b }"))%nat.
Proof.
  destruct (productions_consume 9 (lexerAfter 1 "{ a } { b }")
              ltac:(vm_compute; lia)) as (Hdef & _).
  destruct (parseDefinition 9 (lexerAfter 1 "{ a } { b }"))
    as [node lexer'| |] eqn:Hrun; [|by vm_compute in Hrun..].
  by exists node, lexer'.
Defined.

(** ** More on [valueFromASTUntyped] *)

Section ValueFromASTMore.
Variable Number : Type.
Variable parseInt : string → Z → Number.
Variable parseFloat : string → Number.
Variable isInvalid : JSValue Number → bool.

Let convert := valueFromASTUntyped Number parseInt parseFloat isInvalid.

Lemma Outcome_map_ext {A B} (f g : A → Outcome B) (array : list A) :
  Forall (λ item, f item = g item) array →
  Outcome_map f array = Outcome_map g array.
Proof.
  induction 1 as [|item array Hitem _ IH]; simpl; [done|].
  by rewrite Hitem, IH.
Qed.

Lemma keyValMap_ext {T} (list : list T) keyFn
    (f g : T → Outcome (JSValue Number)) :
  Forall (λ item, f item = g item) list →
  keyValMap Number list keyFn f = keyValMap Number list keyFn g.
Proof.
  intros Hall. unfold keyValMap.
  generalize (Returned (∅ : gmap string (JSValue Number))).
  induction Hall as [|item list' Hitem _ IH]; intros acc; simpl; [done|].
  by rewrite Hitem, IH.
Qed.

Lemma valueFromASTUntyped_closed valueNode variables variables' :
  hasVariable valueNode = false →
  convert valueNode variables = convert valueNode variables'.
Proof.
  unfold convert.
  induction valueNode as [variable|value l|value l|str|value l|l|value l
                         |values l IH|fields l IH|kind]
    using ValueNode_rect'.
  all: intros Hclosed; simpl in *; try done.
  - f_equal. apply Outcome_map_ext.
    rewrite Forall_forall in IH |- *. intros value Hin. apply IH; [done|].
    destruct (hasVariable value) eqn:Hvalue; [|done].
    rewrite <- Hclosed. symmetry. apply existsb_exists.
    exists value. split; [by apply list_elem_of_In|done].
  - f_equal. apply keyValMap_ext.
    rewrite Forall_forall in IH |- *. intros [name value lf] Hin.
    apply (IH _ Hin).
    destruct (hasVariable value) eqn:Hvalue; [|done].
    rewrite <- Hclosed. symmetry. apply existsb_exists.
    exists (ObjectField name value lf). split; [by apply list_elem_of_In|done].
Qed.

Lemma valueFromASTUntyped_stripLoc valueNode variables :
  convert (stripLoc valueNode) variables = convert valueNode variables.
Proof.
  unfold convert.
  induction valueNode as [variable|value l|value l|str|value l|l|value l
                         |values l IH|fields l IH|kind]
    using ValueNode_rect'.
  all: simpl; try done.
  - by destruct variable as [[name ln] lv].
  - by destruct str.
  - f_equal. induction IH as [|value values Hvalue _ IHl]; simpl; [done|].
    by rewrite Hvalue, IHl.
  - f_equal. unfold keyValMap.
    generalize (Returned (∅ : gmap string (JSValue Number))).
    induction IH as [|[[name ln] value lf] fields' Hvalue _ IHl]; intros acc;
      simpl; [done|].
    by rewrite Hvalue, IHl.
Qed.

Lemma Outcome_map_thrown {A B} (M : string → Prop) (f : A → Outcome B)
    (array : list A) :
  Forall (λ item, thrownWith M (f item)) array →
  Exists (λ item, ∃ message, f item = Thrown message) array →
  ∃ message, Outcome_map f array = Thrown message ∧ M message.
Proof.
  intros Hall. induction Hall as [|item array Hitem _ IH]; intros Hex; simpl.
  - by apply Exists_nil in Hex.
  - unfold thrownWith in Hitem.
    destruct (f item) as [b|message] eqn:Hf; simpl; [|by exists message].
    apply Exists_cons in Hex as [[message Hm]|Hex]; [congruence|].
    destruct (IH Hex) as (message & -> & ?). by exists message.
Qed.

Lemma keyValMap_thrown {T} (M : string → Prop) (list : list T) keyFn
    (valFn : T → Outcome (JSValue Number)) :
  Forall (λ item, thrownWith M (valFn item)) list →
  Exists (λ item, ∃ message, valFn item = Thrown message) list →
  ∃ message, keyValMap Number list keyFn valFn = Thrown message ∧ M message.
Proof.
  intros Hall. unfold keyValMap.
  generalize (∅ : gmap string (JSValue Number)).
  induction Hall as [|item list' Hitem _ IH]; intros map Hex; simpl.
  - by apply Exists_nil in Hex.
  - unfold thrownWith in Hitem.
    destruct (valFn item) as [val|message] eqn:Hf; simpl.
    + apply Exists_cons in Hex as [[message Hm]|Hex]; [congruence|].
      by apply IH.
    + exists message. split; [|done]. clear.
      induction list' as [|item' list' IHl]; simpl; [done|]. apply IHl.
Qed.

Lemma forallb_false_Exists {A} (f : A → bool) (l : list A) :
  forallb f l = false → Exists (λ a, f a = false) l.
Proof.
  induction l as [|a l IH]; simpl; [done|].
  destruct (f a) eqn:Ha; simpl; [|by left]. intros. right. by apply IH.
Qed.

Lemma valueFromASTUntyped_throws valueNode variables :
  producible valueNode = false →
  ∃ kind,
    convert valueNode variables = Thrown ("Unexpected value kind: " +:+ kind).
Proof.
  unfold convert.
  set (M := λ message, ∃ kind, message = "Unexpected value kind: " +:+ kind).
  assert (∀ value,
            (producible value = false →
             ∃ kind,
               valueFromASTUntyped Number parseInt parseFloat isInvalid value
                 variables
               = Thrown ("Unexpected value kind: " +:+ kind)) →
            thrownWith M
              (valueFromASTUntyped Number parseInt parseFloat isInvalid value
                 variables)) as Hwith.
  { intros value Hvalue. destruct (producible value) eqn:Hp.
    - destruct (valueFromASTUntyped_returns Number parseInt parseFloat
                  isInvalid value variables Hp) as [v Hv].
      unfold thrownWith. by rewrite Hv.
    - destruct (Hvalue eq_refl) as [kind Hk]. unfold thrownWith.
      rewrite Hk. by exists kind. }
  induction valueNode as [variable|value l|value l|str|value l|l|value l
                         |values l IH|fields l IH|kind]
    using ValueNode_rect'.
  all: intros Hkinds; simpl in *; try done.
  - destruct (Outcome_map_thrown M
                (λ node, valueFromASTUntyped Number parseInt parseFloat
                           isInvalid node variables) values)
      as (message & -> & kind & ->); [| |by exists kind].
    + eapply Forall_impl; [exact IH|]. intros value Hvalue. by apply Hwith.
    + apply forallb_false_Exists, Exists_exists in Hkinds
        as (value & Hin & Hp).
      rewrite Forall_forall in IH. destruct (IH _ Hin Hp) as [kind Hk].
      apply Exists_exists. exists value. split; [done|]. by eexists.
  - match goal with
    | |- context [keyValMap _ _ ?keyFn ?valFn] =>
        destruct (keyValMap_thrown M fields keyFn valFn)
          as (message & -> & kind & ->); [| |by exists kind]
    end.
    + eapply Forall_impl; [exact IH|]. intros [name value lf] Hvalue.
      by apply Hwith.
    + apply forallb_false_Exists, Exists_exists in Hkinds
        as ([name value lf] & Hin & Hp).
      rewrite Forall_forall in IH. destruct (IH _ Hin Hp) as [kind Hk].
      apply Exists_exists. exists (ObjectField name value lf).
      split; [done|]. by eexists.
  - by exists kind.
Qed.
End ValueFromASTMore.

(** X14. [valueFromASTUntyped] throws exactly on the trees that hold a node of
    another kind than the nine value kinds, and its error is then
    [Unexpected value kind] followed by a kind; on all other trees it
    returns. *)
Theorem valueFromASTUntyped_throws_on_foreign (Number : Type)
    (parseInt : string → Z → Number) (parseFloat : string → Number)
    (isInvalid : JSValue Number → bool) (valueNode : ValueNode)
    (variables : option (JSObject Number)) :
  let result :=
    valueFromASTUntyped Number parseInt parseFloat isInvalid valueNode
      variables in
  (producible valueNode = false ↔ ∃ message, result = Thrown message) ∧
  (∀ message,
     result = Thrown message →
     ∃ kind, message = "Unexpected value kind: " +:+ kind).
Proof.
  intros result. subst result. split; [split|].
  - intros Hkinds.
    destruct (valueFromASTUntyped_throws Number parseInt parseFloat isInvalid
                valueNode variables Hkinds) as [kind ->].
    by eexists.
  - intros [message Hthrown].
    destruct (producible valueNode) eqn:Hkinds; [|done].
    destruct (valueFromASTUntyped_returns Number parseInt parseFloat isInvalid
                valueNode variables Hkinds) as [value Hvalue].
    congruence.
  - intros message Hthrown. destruct (producible valueNode) eqn:Hkinds.
    + destruct (valueFromASTUntyped_returns Number parseInt parseFloat
                  isInvalid valueNode variables Hkinds) as [value Hvalue].
      congruence.
    + destruct (valueFromASTUntyped_throws Number parseInt parseFloat
                  isInvalid valueNode variables Hkinds) as [kind Hkind].
      exists kind. congruence.
Qed.

Lemma valueFromASTUntyped_throws_on_foreign_witness :
  ∃ message,
    valueFromASTUntyped Z (λ _ _, 0) (λ _, 0)
      (λ v, match v with JUndefined => true | _ => false end)
      (ListValue [IntValue "1" None; ForeignNode "Document"] None) None
    = Thrown message.
Proof.
  apply (proj1 (valueFromASTUntyped_throws_on_foreign Z (λ _ _, 0) (λ _, 0)
                  (λ v, match v with JUndefined => true | _ => false end)
                  (ListValue [IntValue "1" None; ForeignNode "Document"] None)
                  None)).
  reflexivity.
Defined.

(** X15. A value without variables has the same JavaScript value under every
    variables map, and under none; this holds of every value parsed in a
    const context.  Locations play no part: a value and the same value with
    its locations removed have the same JavaScript value. *)
Theorem valueFromASTUntyped_closed_values (Number : Type)
    (parseInt : string → Z → Number) (parseFloat : string → Number)
    (isInvalid : JSValue Number → bool) :
  let convert := valueFromASTUntyped Number parseInt parseFloat isInvalid in
  (∀ valueNode variables variables',
     hasVariable valueNode = false →
     convert valueNode variables = convert valueNode variables') ∧
  (∀ fuel lexer valueNode lexer' variables,
     parseValueLiteral fuel true lexer = Ok valueNode lexer' →
     convert valueNode variables = convert valueNode None) ∧
  (∀ valueNode variables,
     convert (stripLoc valueNode) variables = convert valueNode variables).
Proof.
  intros convert. split_and!.
  - apply valueFromASTUntyped_closed.
  - intros fuel lexer valueNode lexer' variables Hrun.
    apply valueFromASTUntyped_closed.
    exact (wp_Ok _ _ _ _ _ _ _ (parseValueLiteral_const _ _) Hrun).
  - apply valueFromASTUntyped_stripLoc.
Qed.

Lemma valueFromASTUntyped_closed_values_witness :
  valueFromASTUntyped Z (λ _ _, 0) (λ _, 0)
    (λ v, match v with JUndefined => true | _ => false end)
    (ListValue [EnumValue "A" None; ObjectValue [] None] None)
    (Some (objectLiteral {[ "x" := JNull ]}))
  = valueFromASTUntyped Z (λ _ _, 0) (λ _, 0)
      (λ v, match v with JUndefined => true | _ => false end)
      (ListValue [EnumValue "A" None; ObjectValue [] None] None) None.
Proof.
  apply (proj1 (valueFromASTUntyped_closed_values Z (λ _ _, 0) (λ _, 0)
                  (λ v, match v with JUndefined => true | _ => false end))).
  reflexivity.
Defined.

(** ** [noLocation] only removes locations

    Every production run under [noLocation] does what it does with
    locations: it takes the same branches, throws the same errors, and
    returns the same tree without its locations. *)

Create HintDb sim discriminated.

Lemma sim_ret {A} `{Strip A} (a a' : A) : a' = strip a → sim (ret a) (ret a').
Proof. by intros -> lexer. Qed.

Lemma sim_throw {A} `{Strip A} (e : Lexer → Error) :
  (∀ lexer, e (quiet lexer) = e lexer) → sim (throw (A:=A) e) (throw e).
Proof. intros He lexer. unfold throw. simpl. by rewrite He. Qed.

Lemma sim_outOfFuel {A} `{Strip A} : sim (outOfFuel (A:=A)) outOfFuel.
Proof. done. Qed.

Lemma sim_bind {A B} `{Strip A} `{Strip B} (m m' : Parser B)
    (k k' : B → Parser A) :
  sim m m' → (∀ b, sim (k b) (k' (strip b))) → sim (bind m k) (bind m' k').
Proof.
  intros Hm Hk lexer. unfold bind. rewrite Hm.
  destruct (m lexer) as [b lexer1| |]; simpl; [|done..]. apply Hk.
Qed.

Lemma sim_getToken : sim getToken getToken.
Proof. done. Qed.

Lemma sim_peek kind : sim (peek kind) (peek kind).
Proof. done. Qed.

Lemma sim_loc startToken : sim (loc startToken) (loc startToken).
Proof. intros lexer. unfold loc. simpl. by destruct (negb _). Qed.

Lemma sim_advance : sim advance advance.
Proof.
  intros lexer. unfold advance. simpl. case_decide; [done|].
  by destruct (readNext _) as [[t rest]|].
Qed.

Lemma sim_lookahead : sim lookahead lookahead.
Proof.
  intros lexer. unfold lookahead. simpl. case_decide; [done|].
  by destruct (readNext _) as [[t rest]|].
Qed.
#[local] Hint Resolve sim_getToken sim_peek sim_loc sim_advance sim_lookahead
  : sim.

Ltac strip_ids :=
  repeat match goal with
  | |- context [@strip Token _ ?x] => change (@strip Token _ x) with x
  | |- context [@strip bool _ ?x] => change (@strip bool _ x) with x
  | |- context [@strip string _ ?x] => change (@strip string _ x) with x
  end.

Ltac sim_step :=
  cbv beta zeta; strip_ids;
  lazymatch goal with
  | |- sim (bind _ _) (bind _ _) => eapply sim_bind; [|intros ?]
  | |- sim (ret _) (ret _) =>
      apply sim_ret;
      first [ reflexivity
            | by repeat match goal with
                 | x : VariableNode |- _ => destruct x
                 | x : StringValueNode |- _ => destruct x
                 end ]
  | |- sim (throw _) (throw _) => apply sim_throw; reflexivity
  | |- sim outOfFuel outOfFuel => apply sim_outOfFuel
  | |- sim (if ?b then _ else _) (if ?b then _ else _) => destruct b
  | |- sim (match ?x with _ => _ end) (match ?x with _ => _ end) => destruct x
  | |- sim _ _ => solve [eauto 4 with sim]
  end.

Ltac sim_go := repeat sim_step.

Lemma sim_skip kind : sim (skip kind) (skip kind).
Proof. unfold skip. sim_go. Qed.

Lemma sim_notSkip kind : sim (notSkip kind) (notSkip kind).
Proof. unfold notSkip. pose proof sim_skip. sim_go. Qed.

Lemma sim_expect kind : sim (expect kind) (expect kind).
Proof. unfold expect. sim_go. Qed.

Lemma sim_expectKeyword value : sim (expectKeyword value) (expectKeyword value).
Proof. unfold expectKeyword. sim_go. Qed.
#[local] Hint Resolve sim_skip sim_notSkip sim_expect sim_expectKeyword : sim.

Lemma sim_pushWhile {T} `{Strip T} fuel (cond : Parser bool)
    (parseFn parseFn' : Parser T) nodes :
  sim cond cond → sim parseFn parseFn' →
  sim (pushWhile fuel cond parseFn nodes)
    (pushWhile fuel cond parseFn' (strip nodes)).
Proof.
  intros Hcond Hfn. revert nodes. induction fuel as [|fuel IH]; intros nodes;
    simpl; [done|].
  eapply sim_bind; [done|]. intros []; [|by apply sim_ret].
  eapply sim_bind; [done|]. intros node.
  replace (strip nodes ++ [strip node]) with (strip (nodes ++ [node]));
    [apply IH|].
  unfold strip at 1, Strip_list. by rewrite map_app.
Qed.

Lemma sim_any {T} `{Strip T} fuel openKind (parseFn parseFn' : Parser T)
    closeKind :
  sim parseFn parseFn' →
  sim (any fuel openKind parseFn closeKind)
    (any fuel openKind parseFn' closeKind).
Proof.
  intros Hfn. unfold any. eapply sim_bind; [apply sim_expect|]. intros _.
  by apply (sim_pushWhile _ _ _ _ []), Hfn; apply sim_notSkip.
Qed.

Lemma sim_many {T} `{Strip T} fuel openKind (parseFn parseFn' : Parser T)
    closeKind :
  sim parseFn parseFn' →
  sim (many fuel openKind parseFn closeKind)
    (many fuel openKind parseFn' closeKind).
Proof.
  intros Hfn. unfold many. eapply sim_bind; [apply sim_expect|]. intros _.
  eapply sim_bind; [done|]. intros first.
  by apply (sim_pushWhile _ _ _ _ [first]), Hfn; apply sim_notSkip.
Qed.
#[local] Hint Resolve sim_any sim_many : sim.

Lemma sim_pushWhile_nil {T} `{Strip T} fuel (cond : Parser bool)
    (parseFn parseFn' : Parser T) :
  sim cond cond → sim parseFn parseFn' →
  sim (pushWhile fuel cond parseFn []) (pushWhile fuel cond parseFn' []).
Proof. intros. by apply (sim_pushWhile _ _ _ _ []). Qed.

Lemma sim_pushWhile_one {T} `{Strip T} fuel (cond : Parser bool)
    (parseFn parseFn' : Parser T) first :
  sim cond cond → sim parseFn parseFn' →
  sim (pushWhile fuel cond parseFn [first])
    (pushWhile fuel cond parseFn' [strip first]).
Proof. intros. by apply (sim_pushWhile _ _ _ _ [first]). Qed.
#[local] Hint Resolve sim_pushWhile_nil sim_pushWhile_one : sim.

Lemma parseName_sim : sim parseName parseName.
Proof. unfold parseName. sim_go. Qed.
#[local] Hint Resolve parseName_sim : sim.

Lemma parseVariable_sim : sim parseVariable parseVariable.
Proof. unfold parseVariable. sim_go. Qed.
#[local] Hint Resolve parseVariable_sim : sim.

Lemma parseNamedType_sim : sim parseNamedType parseNamedType.
Proof. unfold parseNamedType. sim_go. Qed.
#[local] Hint Resolve parseNamedType_sim : sim.

Lemma parseTypeReference_sim fuel :
  sim (parseTypeReference fuel) (parseTypeReference fuel).
Proof. induction fuel as [|fuel IH]; simpl; sim_go. Qed.
#[local] Hint Resolve parseTypeReference_sim : sim.

Lemma parseStringLiteral_sim : sim parseStringLiteral parseStringLiteral.
Proof. unfold parseStringLiteral. sim_go. Qed.
#[local] Hint Resolve parseStringLiteral_sim : sim.

Section ValueCycleSim.
Variable parseValueLiteral : bool → Parser ValueNode.
Hypothesis cycle : ∀ isConst,
  sim (parseValueLiteral isConst) (parseValueLiteral isConst).

Lemma parseList_sim fuel isConst :
  sim (parseList parseValueLiteral fuel isConst)
    (parseList parseValueLiteral fuel isConst).
Proof.
  unfold parseList, parseConstValue, parseValueValue. destruct isConst; sim_go.
Qed.

Lemma parseObjectField_sim isConst :
  sim (parseObjectField parseValueLiteral isConst)
    (parseObjectField parseValueLiteral isConst).
Proof. unfold parseObjectField. sim_go. Qed.

Lemma parseObject_sim fuel isConst :
  sim (parseObject parseValueLiteral fuel isConst)
    (parseObject parseValueLiteral fuel isConst).
Proof. unfold parseObject. pose proof parseObjectField_sim. sim_go. Qed.
End ValueCycleSim.

Lemma parseValueLiteral_sim fuel isConst :
  sim (parseValueLiteral fuel isConst) (parseValueLiteral fuel isConst).
Proof.
  revert isConst. induction fuel as [|fuel IH]; intros isConst; simpl;
    [done|].
  pose proof (parseList_sim _ IH fuel). pose proof (parseObject_sim _ IH fuel).
  sim_go.
Qed.
#[local] Hint Resolve parseValueLiteral_sim : sim.

Lemma parseArgument_sim fuel : sim (parseArgument fuel) (parseArgument fuel).
Proof. unfold parseArgument. sim_go. Qed.

Lemma parseConstArgument_sim fuel :
  sim (parseConstArgument fuel) (parseConstArgument fuel).
Proof. unfold parseConstArgument, parseConstValue. sim_go. Qed.
#[local] Hint Resolve parseArgument_sim parseConstArgument_sim : sim.

Lemma parseArguments_sim fuel isConst :
  sim (parseArguments fuel isConst) (parseArguments fuel isConst).
Proof. unfold parseArguments. destruct isConst; sim_go. Qed.
#[local] Hint Resolve parseArguments_sim : sim.

Lemma parseDirective_sim fuel isConst :
  sim (parseDirective fuel isConst) (parseDirective fuel isConst).
Proof. unfold parseDirective. sim_go. Qed.
#[local] Hint Resolve parseDirective_sim : sim.

Lemma parseDirectives_sim fuel isConst :
  sim (parseDirectives fuel isConst) (parseDirectives fuel isConst).
Proof. unfold parseDirectives. sim_go. Qed.
#[local] Hint Resolve parseDirectives_sim : sim.

Lemma parseFragmentName_sim : sim parseFragmentName parseFragmentName.
Proof. unfold parseFragmentName. sim_go. Qed.
#[local] Hint Resolve parseFragmentName_sim : sim.

Section SelectionCycleSim.
Variable parseSelectionSet : Parser SelectionSetNode.
Hypothesis cycle : sim parseSelectionSet parseSelectionSet.

Lemma parseField_sim fuel :
  sim (parseField parseSelectionSet fuel) (parseField parseSelectionSet fuel).
Proof. unfold parseField. sim_go. Qed.

Lemma parseFragment_sim fuel :
  sim (parseFragment parseSelectionSet fuel)
    (parseFragment parseSelectionSet fuel).
Proof. unfold parseFragment. sim_go. Qed.

Lemma parseSelection_sim fuel :
  sim (parseSelection parseSelectionSet fuel)
    (parseSelection parseSelectionSet fuel).
Proof.
  unfold parseSelection.
  pose proof parseField_sim. pose proof parseFragment_sim.
  sim_go.
Qed.
End SelectionCycleSim.

Lemma parseSelectionSet_sim fuel :
  sim (parseSelectionSet fuel) (parseSelectionSet fuel).
Proof.
  induction fuel as [|fuel IH]; simpl; [done|].
  pose proof (parseSelection_sim _ IH fuel). sim_go.
Qed.
#[local] Hint Resolve parseSelectionSet_sim : sim.

Lemma parseOperationType_sim : sim parseOperationType parseOperationType.
Proof. unfold parseOperationType. sim_go. Qed.
#[local] Hint Resolve parseOperationType_sim : sim.

Lemma parseVariableDefinition_sim fuel :
  sim (parseVariableDefinition fuel) (parseVariableDefinition fuel).
Proof. unfold parseVariableDefinition. sim_go. Qed.
#[local] Hint Resolve parseVariableDefinition_sim : sim.

Lemma parseVariableDefinitions_sim fuel :
  sim (parseVariableDefinitions fuel) (parseVariableDefinitions fuel).
Proof. unfold parseVariableDefinitions. sim_go. Qed.
#[local] Hint Resolve parseVariableDefinitions_sim : sim.

Lemma parseOperationDefinition_sim fuel :
  sim (parseOperationDefinition fuel) (parseOperationDefinition fuel).
Proof. unfold parseOperationDefinition. sim_go. Qed.

Lemma parseFragmentDefinition_sim fuel :
  sim (parseFragmentDefinition fuel) (parseFragmentDefinition fuel).
Proof. unfold parseFragmentDefinition. sim_go. Qed.

Lemma peekDescription_sim : sim peekDescription peekDescription.
Proof. unfold peekDescription. sim_go. Qed.
#[local] Hint Resolve peekDescription_sim : sim.

Lemma parseDescription_sim : sim parseDescription parseDescription.
Proof. unfold parseDescription. sim_go. Qed.
#[local] Hint Resolve parseDescription_sim : sim.

Lemma parseOperationTypeDefinition_sim :
  sim parseOperationTypeDefinition parseOperationTypeDefinition.
Proof. unfold parseOperationTypeDefinition. sim_go. Qed.
#[local] Hint Resolve parseOperationTypeDefinition_sim : sim.

Lemma parseSchemaDefinition_sim fuel :
  sim (parseSchemaDefinition fuel) (parseSchemaDefinition fuel).
Proof. unfold parseSchemaDefinition. sim_go. Qed.

Lemma parseScalarTypeDefinition_sim fuel :
  sim (parseScalarTypeDefinition fuel) (parseScalarTypeDefinition fuel).
Proof. unfold parseScalarTypeDefinition. sim_go. Qed.

Lemma parseImplementsInterfaces_sim fuel :
  sim (parseImplementsInterfaces fuel) (parseImplementsInterfaces fuel).
Proof. unfold parseImplementsInterfaces. sim_go. Qed.
#[local] Hint Resolve parseImplementsInterfaces_sim : sim.

Lemma parseInputValueDef_sim fuel :
  sim (parseInputValueDef fuel) (parseInputValueDef fuel).
Proof. unfold parseInputValueDef, parseConstValue. sim_go. Qed.
#[local] Hint Resolve parseInputValueDef_sim : sim.

Lemma parseArgumentDefs_sim fuel :
  sim (parseArgumentDefs fuel) (parseArgumentDefs fuel).
Proof. unfold parseArgumentDefs. sim_go. Qed.
#[local] Hint Resolve parseArgumentDefs_sim : sim.

Lemma parseFieldDefinition_sim fuel :
  sim (parseFieldDefinition fuel) (parseFieldDefinition fuel).
Proof. unfold parseFieldDefinition. sim_go. Qed.
#[local] Hint Resolve parseFieldDefinition_sim : sim.

Lemma parseFieldDefinitions_sim fuel :
  sim (parseFieldDefinitions fuel) (parseFieldDefinitions fuel).
Proof. unfold parseFieldDefinitions. sim_go. Qed.
#[local] Hint Resolve parseFieldDefinitions_sim : sim.

Lemma parseObjectTypeDefinition_sim fuel :
  sim (parseObjectTypeDefinition fuel) (parseObjectTypeDefinition fuel).
Proof. unfold parseObjectTypeDefinition. sim_go. Qed.

Lemma parseInterfaceTypeDefinition_sim fuel :
  sim (parseInterfaceTypeDefinition fuel) (parseInterfaceTypeDefinition fuel).
Proof. unfold parseInterfaceTypeDefinition. sim_go. Qed.

Lemma parseUnionMembers_sim fuel :
  sim (parseUnionMembers fuel) (parseUnionMembers fuel).
Proof. unfold parseUnionMembers. sim_go. Qed.
#[local] Hint Resolve parseUnionMembers_sim : sim.

Lemma parseUnionTypeDefinition_sim fuel :
  sim (parseUnionTypeDefinition fuel) (parseUnionTypeDefinition fuel).
Proof. unfold parseUnionTypeDefinition. sim_go. Qed.

Lemma parseEnumValueDefinition_sim fuel :
  sim (parseEnumValueDefinition fuel) (parseEnumValueDefinition fuel).
Proof. unfold parseEnumValueDefinition. sim_go. Qed.
#[local] Hint Resolve parseEnumValueDefinition_sim : sim.

Lemma parseEnumTypeDefinition_sim fuel :
  sim (parseEnumTypeDefinition fuel) (parseEnumTypeDefinition fuel).
Proof. unfold parseEnumTypeDefinition. sim_go. Qed.

Lemma parseInputObjectTypeDefinition_sim fuel :
  sim (parseInputObjectTypeDefinition fuel)
    (parseInputObjectTypeDefinition fuel).
Proof. unfold parseInputObjectTypeDefinition. sim_go. Qed.

Lemma length_strip {A} `{Strip A} (l : list A) : length (strip l) = length l.
Proof. apply length_map. Qed.

Lemma parseObjectTypeExtension_sim fuel :
  sim (parseObjectTypeExtension fuel) (parseObjectTypeExtension fuel).
Proof.
  unfold parseObjectTypeExtension. sim_go.
  all: rewrite !length_strip; sim_go.
Qed.
#[local] Hint Resolve parseObjectTypeExtension_sim : sim.

Lemma parseTypeExtension_sim fuel :
  sim (parseTypeExtension fuel) (parseTypeExtension fuel).
Proof. unfold parseTypeExtension. sim_go. Qed.

Lemma parseDirectiveLocation_sim :
  sim parseDirectiveLocation parseDirectiveLocation.
Proof.
  unfold parseDirectiveLocation. sim_go.
  match goal with x : NameNode |- _ => destruct x end. simpl. sim_go.
Qed.
#[local] Hint Resolve parseDirectiveLocation_sim : sim.

Lemma parseDirectiveLocations_sim fuel :
  sim (parseDirectiveLocations fuel) (parseDirectiveLocations fuel).
Proof. unfold parseDirectiveLocations. sim_go. Qed.
#[local] Hint Resolve parseDirectiveLocations_sim : sim.

Lemma parseDirectiveDefinition_sim fuel :
  sim (parseDirectiveDefinition fuel) (parseDirectiveDefinition fuel).
Proof. unfold parseDirectiveDefinition. sim_go. Qed.

#[local] Hint Resolve parseOperationDefinition_sim parseFragmentDefinition_sim
  parseSchemaDefinition_sim parseScalarTypeDefinition_sim
  parseObjectTypeDefinition_sim parseInterfaceTypeDefinition_sim
  parseUnionTypeDefinition_sim parseEnumTypeDefinition_sim
  parseInputObjectTypeDefinition_sim parseTypeExtension_sim
  parseDirectiveDefinition_sim : sim.

Lemma parseTypeSystemDefinition_sim fuel :
  sim (parseTypeSystemDefinition fuel) (parseTypeSystemDefinition fuel).
Proof. unfold parseTypeSystemDefinition. sim_go. Qed.
#[local] Hint Resolve parseTypeSystemDefinition_sim : sim.

Lemma parseDefinition_sim fuel :
  sim (parseDefinition fuel) (parseDefinition fuel).
Proof. unfold parseDefinition. sim_go. Qed.
#[local] Hint Resolve parseDefinition_sim : sim.

Lemma parseDocument_sim fuel : sim (parseDocument fuel) (parseDocument fuel).
Proof. unfold parseDocument. sim_go. Qed.


Lemma createLexer_quiet source options :
  createLexer source (mkOptions (Some true))
  = quiet (createLexer source options).
Proof. done. Qed.

(** X16. The option [noLocation] changes nothing but the locations.  Whatever
    the input and the other options, an entry point under [noLocation]
    throws the error it throws without it, or returns the tree it returns
    without it with the [loc] of every node removed; no location is left in
    that tree. *)
Theorem noLocation_only_strips (source : Input)
    (options : option ParseOptions) :
  let quietly := Some (mkOptions (Some true)) in
  parse source quietly = quietResult (parse source options) ∧
  parseValue source quietly = quietResult (parseValue source options) ∧
  parseType source quietly = quietResult (parseType source options) ∧
  (∀ document lexer',
     parse source options = Ok document lexer' →
     Forall (λ l, l = None) (locs (strip document))).
Proof.
  intros quietly.
  assert (parse source quietly = quietResult (parse source options)) as Hparse.
  { unfold parse. destruct (negb _); [done|]. simpl orDefault.
    rewrite (createLexer_quiet _ (orDefault options)).
    apply parseDocument_sim. }
  split_and!; [done|..].
  - unfold parseValue. simpl orDefault.
    rewrite (createLexer_quiet _ (orDefault options)).
    assert (∀ fuel, sim (let* _ := expect TokenKind.SOF in
                         let* value := parseValueLiteral fuel false in
                         let* _ := expect TokenKind.EOF in
                         ret value)
                      (let* _ := expect TokenKind.SOF in
                       let* value := parseValueLiteral fuel false in
                       let* _ := expect TokenKind.EOF in
                       ret value)) as Hsim by (intros; sim_go).
    apply Hsim.
  - unfold parseType. simpl orDefault.
    rewrite (createLexer_quiet _ (orDefault options)).
    assert (∀ fuel, sim (let* _ := expect TokenKind.SOF in
                         let* type := parseTypeReference fuel in
                         let* _ := expect TokenKind.EOF in
                         ret type)
                      (let* _ := expect TokenKind.SOF in
                       let* type := parseTypeReference fuel in
                       let* _ := expect TokenKind.EOF in
                       ret type)) as Hsim by (intros; sim_go).
    apply Hsim.
  - intros document lexer' Hrun. rewrite Hrun in Hparse. simpl in Hparse.
    destruct (instanceofSource (toSourceObj source)) eqn:Hsrc;
      [|unfold parse in Hrun; by rewrite Hsrc in Hrun].
    pose proof (parse_errors source quietly Hsrc) as Hres.
    simpl in Hres. rewrite Hparse in Hres. destruct Hres as [_ Hall].
    eapply Forall_impl; [exact Hall|]. by intros l Hl.
Qed.

Lemma noLocation_only_strips_witness :
  ∃ document lexer',
    parse (InString "{ a(b: [1]) }") None = Ok document lexer' ∧
    Forall (λ l, l = None) (locs (strip document)).
Proof.
  destruct (parse (InString "{ a(b: [1]) }") None)
    as [document lexer'| |] eqn:Hrun; [|by vm_compute in Hrun..].
  exists document, lexer'. split; [done|].
  destruct (noLocation_only_strips (InString "{ a(b: [1]) }") None)
    as (_ & _ & _ & Hlocs).
  by eapply Hlocs.
Defined.

(** ** Optional parts *)

Lemma pushWhile_peek_filled {T} fuel kind (parseFn : Parser T) lexer :
  Token.kind (Lexer.token lexer) = kind →
  returns (pushWhile fuel (peek kind) parseFn []) (λ result, result ≠ []) lexer.
Proof.
  intros Hkind. destruct fuel as [|fuel]; [done|]. simpl.
  do 2 wp_prim. rewrite bool_decide_eq_true_2 by done. wp_prim.
  trivial_call. apply pushWhile_filled.
Qed.

Lemma pushWhile_peek_none {T} fuel kind (parseFn : Parser T) lexer :
  Token.kind (Lexer.token lexer) ≠ kind →
  pushWhile (S fuel) (peek kind) parseFn [] lexer = Ok [] lexer.
Proof.
  intros Hkind. simpl. rewrite bind_peek. by rewrite bool_decide_eq_false_2.
Qed.

(** X17. The optional parts of the grammar are empty exactly when the token
    that introduces them is missing, and then nothing is consumed: the
    lexer is left as it was.  The arguments of a field or directive, the
    variable definitions of an operation and the argument definitions of a
    field are introduced by [(], directives by [@], the interfaces of an
    object type by a token of value [implements], and a description is a
    string. *)
Theorem optional_parts_absent (fuel : nat) (lexer : Lexer) :
  let absent {A} (result : Res A) (empty : A) (missing : Prop) :=
    ∀ a lexer',
      result = Ok a lexer' →
      (a = empty ↔ missing) ∧ (a = empty → lexer' = lexer) in
  (∀ isConst,
     absent (parseArguments fuel isConst lexer) []
       (Token.kind (Lexer.token lexer) ≠ TokenKind.PAREN_L)) ∧
  absent (parseVariableDefinitions fuel lexer) []
    (Token.kind (Lexer.token lexer) ≠ TokenKind.PAREN_L) ∧
  absent (parseArgumentDefs fuel lexer) []
    (Token.kind (Lexer.token lexer) ≠ TokenKind.PAREN_L) ∧
  (∀ isConst,
     absent (parseDirectives fuel isConst lexer) []
       (Token.kind (Lexer.token lexer) ≠ TokenKind.AT)) ∧
  absent (parseImplementsInterfaces fuel lexer) []
    (Token.value (Lexer.token lexer) ≠ Some "implements") ∧
  absent (parseDescription lexer) None (isString (Lexer.token lexer) = false).
Proof.
  intros absent. subst absent. cbv beta.
  assert (∀ {T} (p : Parser (list T)) (missing : Prop),
            (missing → p lexer = Ok [] lexer) →
            (¬ missing → returns p (λ result, result ≠ []) lexer) →
            Decision missing →
            ∀ a lexer',
              p lexer = Ok a lexer' →
              (a = [] ↔ missing) ∧ (a = [] → lexer' = lexer)) as Hlist.
  { intros T p missing Hmissing Hpresent Hdec a lexer' Hrun.
    destruct (decide missing) as [Hm|Hm].
    - rewrite (Hmissing Hm) in Hrun. by injection Hrun as <- <-.
    - pose proof (wp_Ok _ _ _ _ _ _ _ (Hpresent Hm) Hrun) as Hne. simpl in Hne.
      split; [split|]; intros; done. }
  split_and!.
  - intros isConst. apply Hlist; [| |apply _].
    + intros Hkind. unfold parseArguments. rewrite bind_peek.
      by rewrite bool_decide_eq_false_2.
    + intros Hkind. unfold parseArguments. do 2 wp_prim.
      destruct (bool_decide _) eqn:Hpeek; [apply many_filled|].
      apply bool_decide_eq_false in Hpeek. by destruct Hkind.
  - apply Hlist; [| |apply _].
    + intros Hkind. unfold parseVariableDefinitions. rewrite bind_peek.
      by rewrite bool_decide_eq_false_2.
    + intros Hkind. unfold parseVariableDefinitions. do 2 wp_prim.
      destruct (bool_decide _) eqn:Hpeek; [apply many_filled|].
      apply bool_decide_eq_false in Hpeek. by destruct Hkind.
  - apply Hlist; [| |apply _].
    + intros Hkind. unfold parseArgumentDefs. rewrite bind_peek.
      by rewrite bool_decide_eq_false_2.
    + intros Hkind. unfold parseArgumentDefs. do 2 wp_prim.
      destruct (bool_decide _) eqn:Hpeek; simpl; [apply many_filled|].
      apply bool_decide_eq_false in Hpeek. by destruct Hkind.
  - intros isConst a lexer' Hrun. destruct fuel as [|fuel]; [done|].
    revert a lexer' Hrun. apply Hlist; [| |apply _].
    + intros Hkind. by apply pushWhile_peek_none.
    + intros Hkind. apply pushWhile_peek_filled.
      by destruct (decide (Token.kind (Lexer.token lexer) = TokenKind.AT)).
  - apply Hlist; [| |apply _].
    + intros Hvalue. unfold parseImplementsInterfaces. rewrite bind_getToken.
      by rewrite bool_decide_eq_false_2.
    + intros Hvalue. unfold parseImplementsInterfaces. do 2 wp_prim.
      destruct (bool_decide _) eqn:Hpeek.
      * wp_run filled_call; done.
      * apply bool_decide_eq_false in Hpeek. by destruct Hvalue.
  - intros description lexer' Hrun.
    pose proof (wp_Ok _ _ _ _ _ _ _ (parseDescription_string lexer) Hrun) as Hd.
    simpl in Hd. destruct (isString (Lexer.token lexer)).
    + destruct Hd as [[l ->] _]. by split; [split|].
    + by destruct Hd as [-> ->].
Qed.

Lemma optional_parts_absent_witness :
  (∃ lexer',
     parseDirectives 9 false (lexerAfter 3 "{ a { b } }") = Ok [] lexer' ∧
     lexer' = lexerAfter 3 "{ a { b } }") ∧
  ∃ arguments lexer',
    parseArguments 9 false (lexerAfter 3 "{ a(x: 1) }") = Ok arguments lexer' ∧
    arguments ≠ [].
Proof.
  split.
  - destruct (parseDirectives 9 false (lexerAfter 3 "{ a { b } }"))
      as [directives lexer'| |] eqn:Hrun; [|by vm_compute in Hrun..].
    destruct (optional_parts_absent 9 (lexerAfter 3 "{ a { b } }"))
      as (_ & _ & _ & Hdirectives & _).
    destruct (Hdirectives false _ _ Hrun) as [Hempty Hsame].
    assert (directives = []) as ->.
    { apply Hempty. vm_compute. congruence. }
    exists lexer'. split; [done|]. by apply Hsame.
  - destruct (parseArguments 9 false (lexerAfter 3 "{ a(x: 1) }"))
      as [arguments lexer'| |] eqn:Hrun; [|by vm_compute in Hrun..].
    destruct (optional_parts_absent 9 (lexerAfter 3 "{ a(x: 1) }"))
      as (Harguments & _).
    destruct (Harguments false _ _ Hrun) as [Hempty _].
    exists arguments, lexer'. split; [done|].
    intros Hnil. apply Hempty in Hnil. by vm_compute in Hnil.
Defined.

(** ** Errors point at tokens *)

Lemma readNext_elem pending t rest :
  readNext pending = Some (t, rest) →
  t ∈ pending ∧ ∀ token, token ∈ rest → token ∈ pending.
Proof.
  induction pending as [|t' pending IH]; simpl; [done|].
  case_decide as Hc.
  - intros Hr. destruct (IH Hr) as [Hin Hrest]. split.
    + by right.
    + intros token Htoken. right. by apply Hrest.
  - intros [= <- <-]. split; [by left|]. intros token Htoken. by right.
Qed.

Lemma moved_refl lexer : moved lexer lexer.
Proof. by split. Qed.

Lemma moved_token lexer0 lexer :
  moved lexer0 lexer → upcoming lexer0 (Lexer.token lexer).
Proof. intros [_ Hup]. apply Hup. by left. Qed.

Lemma errorAt_fault lexer0 lexer :
  moved lexer0 lexer → errorAt lexer0 (Lexer.fault lexer).
Proof. intros [He _]. left. unfold env in He. by simplify_eq. Qed.

Lemma errorAt_syntax lexer0 lexer token description :
  moved lexer0 lexer → upcoming lexer0 token →
  errorAt lexer0 (SyntaxError (Lexer.source lexer) (Token.start token)
                    description).
Proof.
  intros [He _] Htoken. right. exists token, description.
  split; [done|]. unfold env in He. injection He as Hs _ _. by rewrite Hs.
Qed.

Lemma errorAt_unexpected lexer0 lexer token :
  moved lexer0 lexer → upcoming lexer0 token →
  errorAt lexer0 (unexpected (Some token) lexer).
Proof. intros. by apply errorAt_syntax. Qed.

Lemma errorAt_unexpected_here lexer0 lexer :
  moved lexer0 lexer → errorAt lexer0 (unexpected None lexer).
Proof. intros Hm. apply errorAt_syntax; [done|]. by apply moved_token. Qed.

Create HintDb pos discriminated.
#[local] Hint Resolve moved_token errorAt_fault errorAt_syntax
  errorAt_unexpected errorAt_unexpected_here : pos.

Section Positions.
Variable lexer0 : Lexer.
Implicit Types lexer : Lexer.

Lemma pos_getToken (Q : Token → Lexer → Prop) lexer :
  moved lexer0 lexer →
  (upcoming lexer0 (Lexer.token lexer) → Q (Lexer.token lexer) lexer) →
  wp True (errorAt lexer0) getToken Q lexer.
Proof. intros Hm HQ. apply HQ. by apply moved_token. Qed.

Lemma pos_advance (Q : Token → Lexer → Prop) lexer :
  moved lexer0 lexer →
  (∀ lexer', moved lexer0 lexer' → Q (Lexer.token lexer') lexer') →
  wp True (errorAt lexer0) advance Q lexer.
Proof.
  intros [He Hup] HQ. unfold wp, advance. case_decide as Hk.
  - apply (HQ (Lexer.mk _ _ _ _ _ _)). by split.
  - destruct (readNext _) as [[t rest]|] eqn:Hr.
    + destruct (readNext_elem _ _ _ Hr) as [Hin Hrest].
      apply (HQ (Lexer.mk _ _ _ _ _ _)). split; [done|].
      intros token [->|Htoken]; simpl in *; apply Hup; right; auto.
    + by apply errorAt_fault.
Qed.

Lemma pos_lookahead (Q : Token → Lexer → Prop) lexer :
  moved lexer0 lexer →
  (∀ t, upcoming lexer0 t → Q t lexer) →
  wp True (errorAt lexer0) lookahead Q lexer.
Proof.
  intros Hm HQ. unfold wp, lookahead. case_decide as Hk.
  - by apply HQ, moved_token.
  - destruct (readNext _) as [[t rest]|] eqn:Hr.
    + destruct (readNext_elem _ _ _ Hr) as [Hin _].
      apply HQ. destruct Hm as [_ Hup]. apply Hup. by right.
    + by apply errorAt_fault.
Qed.

Lemma pos_skip kind (Q : bool → Lexer → Prop) lexer :
  moved lexer0 lexer →
  (Token.kind (Lexer.token lexer) = kind →
   ∀ lexer', moved lexer0 lexer' → Q true lexer') →
  (Token.kind (Lexer.token lexer) ≠ kind → Q false lexer) →
  wp True (errorAt lexer0) (skip kind) Q lexer.
Proof.
  intros Hm Hyes Hno. unfold skip. apply wp_bind, wp_getToken.
  case_bool_decide.
  - apply wp_bind, pos_advance; [done|]. intros. by apply wp_ret, Hyes.
  - by apply wp_ret, Hno.
Qed.

Lemma pos_notSkip kind (Q : bool → Lexer → Prop) lexer :
  moved lexer0 lexer →
  (Token.kind (Lexer.token lexer) = kind →
   ∀ lexer', moved lexer0 lexer' → Q false lexer') →
  (Token.kind (Lexer.token lexer) ≠ kind → Q true lexer) →
  wp True (errorAt lexer0) (notSkip kind) Q lexer.
Proof.
  intros Hm Hyes Hno. unfold notSkip. apply wp_bind, pos_skip; [done| |].
  - intros. by apply wp_ret, Hyes.
  - intros. by apply wp_ret, Hno.
Qed.

Lemma pos_expect kind (Q : Token → Lexer → Prop) lexer :
  moved lexer0 lexer →
  (Token.kind (Lexer.token lexer) = kind →
   upcoming lexer0 (Lexer.token lexer) →
   ∀ lexer', moved lexer0 lexer' → Q (Lexer.token lexer) lexer') →
  wp True (errorAt lexer0) (expect kind) Q lexer.
Proof.
  intros Hm Hyes. unfold expect. apply wp_bind, wp_getToken.
  case_bool_decide.
  - apply wp_bind, pos_advance; [done|]. intros.
    apply wp_ret, Hyes; auto with pos.
  - apply wp_throw. auto with pos.
Qed.

Lemma pos_expectKeyword value (Q : Token → Lexer → Prop) lexer :
  moved lexer0 lexer →
  (Token.kind (Lexer.token lexer) = TokenKind.NAME →
   Token.value (Lexer.token lexer) = Some value →
   ∀ lexer', moved lexer0 lexer' → Q (Lexer.token lexer) lexer') →
  wp True (errorAt lexer0) (expectKeyword value) Q lexer.
Proof.
  intros Hm Hyes. unfold expectKeyword. apply wp_bind, wp_getToken.
  destruct (_ && _) eqn:Hc.
  - apply andb_prop in Hc as [Hk Hv].
    apply bool_decide_eq_true in Hk, Hv.
    apply wp_bind, pos_advance; [done|]. intros. by apply wp_ret, Hyes.
  - apply wp_throw. auto with pos.
Qed.
End Positions.

Ltac pos_prim :=
  cbv beta zeta;
  lazymatch goal with
  | |- wp _ _ (bind _ _) _ _ => apply wp_bind
  | |- wp _ _ (ret _) _ _ => apply wp_ret
  | |- wp _ _ (throw _) _ _ => apply wp_throw
  | |- wp _ _ outOfFuel _ _ => apply wp_outOfFuel
  | |- wp _ _ getToken _ _ => apply pos_getToken; [assumption|intros ?]
  | |- wp _ _ (peek _) _ _ => apply wp_peek
  | |- wp _ _ (loc _) _ _ => apply wp_loc
  | |- wp _ _ advance _ _ => apply pos_advance; [assumption|intros ? ?]
  | |- wp _ _ lookahead _ _ => apply pos_lookahead; [assumption|intros ? ?]
  | |- wp _ _ (skip _) _ _ =>
      apply pos_skip; [assumption|intros ? ? ?|intros ?]
  | |- wp _ _ (notSkip _) _ _ =>
      apply pos_notSkip; [assumption|intros ? ? ?|intros ?]
  | |- wp _ _ (expect _) _ _ => apply pos_expect; [assumption|intros ? ? ? ?]
  | |- wp _ _ (expectKeyword _) _ _ =>
      apply pos_expectKeyword; [assumption|intros ? ? ? ?]
  | |- wp _ _ (if ?b then _ else _) _ _ => destruct b eqn:?
  | |- wp _ _ (match ?x with _ => _ end) _ _ => destruct x eqn:?
  end.

Ltac pos_call :=
  eapply wp_mono; [solve [eauto 6 with pos]|cbv beta; intros ? ? ?].

Ltac pos_go :=
  repeat first [pos_prim | pos_call]; cbv beta zeta;
  try solve [eauto 4 with pos].

Lemma pushWhile_positioned {T} lexer0 fuel cond (parseFn : Parser T) nodes
    lexer :
  moved lexer0 lexer →
  (∀ lexer', moved lexer0 lexer' → positioned lexer0 cond lexer') →
  (∀ lexer', moved lexer0 lexer' → positioned lexer0 parseFn lexer') →
  positioned lexer0 (pushWhile fuel cond parseFn nodes) lexer.
Proof.
  intros Hm Hcond Hfn.
  apply (wp_pushWhile (λ _ _ lexer', moved lexer0 lexer')); [done..|].
  intros n nodes' lexer1 Hm1.
  eapply wp_mono; [by apply Hcond|].
  intros [] lexer2 Hm2; simpl in Hm2; [|done].
  eapply wp_mono; [by apply Hfn|]. by intros node lexer3 Hm3.
Qed.

Lemma peek_positioned lexer0 kind lexer :
  moved lexer0 lexer → positioned lexer0 (peek kind) lexer.
Proof. intros. pos_go. Qed.

Lemma skip_positioned lexer0 kind lexer :
  moved lexer0 lexer → positioned lexer0 (skip kind) lexer.
Proof. intros. pos_go. Qed.

Lemma notSkip_positioned lexer0 kind lexer :
  moved lexer0 lexer → positioned lexer0 (notSkip kind) lexer.
Proof. intros. pos_go. Qed.
#[local] Hint Resolve peek_positioned skip_positioned notSkip_positioned
  pushWhile_positioned : pos.

Lemma any_positioned {T} lexer0 fuel openKind (parseFn : Parser T) closeKind
    lexer :
  moved lexer0 lexer →
  (∀ lexer', moved lexer0 lexer' → positioned lexer0 parseFn lexer') →
  positioned lexer0 (any fuel openKind parseFn closeKind) lexer.
Proof. intros. unfold any. pos_go. Qed.

Lemma many_positioned {T} lexer0 fuel openKind (parseFn : Parser T) closeKind
    lexer :
  moved lexer0 lexer →
  (∀ lexer', moved lexer0 lexer' → positioned lexer0 parseFn lexer') →
  positioned lexer0 (many fuel openKind parseFn closeKind) lexer.
Proof. intros. unfold many. pos_go. Qed.
#[local] Hint Resolve any_positioned many_positioned : pos.

Lemma parseName_positioned lexer0 lexer :
  moved lexer0 lexer → positioned lexer0 parseName lexer.
Proof. intros. unfold parseName. pos_go. Qed.
#[local] Hint Resolve parseName_positioned : pos.

Lemma parseVariable_positioned lexer0 lexer :
  moved lexer0 lexer → positioned lexer0 parseVariable lexer.
Proof. intros. unfold parseVariable. pos_go. Qed.
#[local] Hint Resolve parseVariable_positioned : pos.

Lemma parseNamedType_positioned lexer0 lexer :
  moved lexer0 lexer → positioned lexer0 parseNamedType lexer.
Proof. intros. unfold parseNamedType. pos_go. Qed.
#[local] Hint Resolve parseNamedType_positioned : pos.

Lemma parseTypeReference_positioned lexer0 fuel lexer :
  moved lexer0 lexer → positioned lexer0 (parseTypeReference fuel) lexer.
Proof.
  revert lexer. induction fuel as [|fuel IH]; intros lexer Hm; [done|].
  simpl. pos_go.
Qed.
#[local] Hint Resolve parseTypeReference_positioned : pos.

Lemma parseStringLiteral_positioned lexer0 lexer :
  moved lexer0 lexer → positioned lexer0 parseStringLiteral lexer.
Proof. intros. unfold parseStringLiteral. pos_go. Qed.
#[local] Hint Resolve parseStringLiteral_positioned : pos.

Section ValueCyclePositioned.
Variable parseValueLiteral : bool → Parser ValueNode.
Variable lexer0 : Lexer.
Hypothesis cycle : ∀ isConst lexer,
  moved lexer0 lexer → positioned lexer0 (parseValueLiteral isConst) lexer.

Lemma parseList_positioned fuel isConst lexer :
  moved lexer0 lexer →
  positioned lexer0 (parseList parseValueLiteral fuel isConst) lexer.
Proof.
  intros. unfold parseList, parseConstValue, parseValueValue.
  destruct isConst; pos_go.
Qed.

Lemma parseObjectField_positioned isConst lexer :
  moved lexer0 lexer →
  positioned lexer0 (parseObjectField parseValueLiteral isConst) lexer.
Proof. intros. unfold parseObjectField. pos_go. Qed.

Lemma parseObject_positioned fuel isConst lexer :
  moved lexer0 lexer →
  positioned lexer0 (parseObject parseValueLiteral fuel isConst) lexer.
Proof.
  intros. unfold parseObject.
  pose proof parseObjectField_positioned. pos_go.
Qed.
End ValueCyclePositioned.

Lemma parseValueLiteral_positioned lexer0 fuel isConst lexer :
  moved lexer0 lexer → positioned lexer0 (parseValueLiteral fuel isConst) lexer.
Proof.
  revert isConst lexer.
  induction fuel as [|fuel IH]; intros isConst lexer He; [done|].
  simpl. pos_prim. pos_prim. pos_prim;
    try (by apply parseList_positioned);
    try (by apply parseObject_positioned);
    pos_go.
Qed.
#[local] Hint Resolve parseValueLiteral_positioned : pos.

Lemma parseArgument_positioned lexer0 fuel lexer :
  moved lexer0 lexer → positioned lexer0 (parseArgument fuel) lexer.
Proof. intros. unfold parseArgument. pos_go. Qed.

Lemma parseConstArgument_positioned lexer0 fuel lexer :
  moved lexer0 lexer → positioned lexer0 (parseConstArgument fuel) lexer.
Proof. intros. unfold parseConstArgument, parseConstValue. pos_go. Qed.
#[local] Hint Resolve parseArgument_positioned parseConstArgument_positioned
  : pos.

Lemma parseArguments_positioned lexer0 fuel isConst lexer :
  moved lexer0 lexer → positioned lexer0 (parseArguments fuel isConst) lexer.
Proof. intros. unfold parseArguments. destruct isConst; pos_go. Qed.
#[local] Hint Resolve parseArguments_positioned : pos.

Lemma parseDirective_positioned lexer0 fuel isConst lexer :
  moved lexer0 lexer → positioned lexer0 (parseDirective fuel isConst) lexer.
Proof. intros. unfold parseDirective. pos_go. Qed.
#[local] Hint Resolve parseDirective_positioned : pos.

Lemma parseDirectives_positioned lexer0 fuel isConst lexer :
  moved lexer0 lexer → positioned lexer0 (parseDirectives fuel isConst) lexer.
Proof. intros. unfold parseDirectives. pos_go. Qed.
#[local] Hint Resolve parseDirectives_positioned : pos.

Lemma parseFragmentName_positioned lexer0 lexer :
  moved lexer0 lexer → positioned lexer0 parseFragmentName lexer.
Proof. intros. unfold parseFragmentName. pos_go. Qed.
#[local] Hint Resolve parseFragmentName_positioned : pos.

Section SelectionCyclePositioned.
Variable parseSelectionSet : Parser SelectionSetNode.
Variable lexer0 : Lexer.
Hypothesis cycle : ∀ lexer,
  moved lexer0 lexer → positioned lexer0 parseSelectionSet lexer.

Lemma parseField_positioned fuel lexer :
  moved lexer0 lexer →
  positioned lexer0 (parseField parseSelectionSet fuel) lexer.
Proof. intros. unfold parseField. pos_go. Qed.

Lemma parseFragment_positioned fuel lexer :
  moved lexer0 lexer →
  positioned lexer0 (parseFragment parseSelectionSet fuel) lexer.
Proof. intros. unfold parseFragment. pos_go. Qed.

Lemma parseSelection_positioned fuel lexer :
  moved lexer0 lexer →
  positioned lexer0 (parseSelection parseSelectionSet fuel) lexer.
Proof.
  intros. unfold parseSelection. pos_prim. pos_prim. pos_prim.
  - by apply parseFragment_positioned.
  - by apply parseField_positioned.
Qed.
End SelectionCyclePositioned.

Lemma parseSelectionSet_positioned lexer0 fuel lexer :
  moved lexer0 lexer → positioned lexer0 (parseSelectionSet fuel) lexer.
Proof.
  revert lexer. induction fuel as [|fuel IH]; intros lexer Hm; [done|].
  simpl. pose proof (parseSelection_positioned _ lexer0 IH fuel). pos_go.
Qed.
#[local] Hint Resolve parseSelectionSet_positioned : pos.

Lemma parseOperationType_positioned lexer0 lexer :
  moved lexer0 lexer → positioned lexer0 parseOperationType lexer.
Proof. intros. unfold parseOperationType. pos_go. Qed.

Lemma parseVariableDefinition_positioned lexer0 fuel lexer :
  moved lexer0 lexer → positioned lexer0 (parseVariableDefinition fuel) lexer.
Proof. intros. unfold parseVariableDefinition. pos_go. Qed.
#[local] Hint Resolve parseVariableDefinition_positioned : pos.

Lemma parseVariableDefinitions_positioned lexer0 fuel lexer :
  moved lexer0 lexer → positioned lexer0 (parseVariableDefinitions fuel) lexer.
Proof. intros. unfold parseVariableDefinitions. pos_go. Qed.
#[local] Hint Resolve parseVariableDefinitions_positioned : pos.
#[local] Hint Resolve parseOperationType_positioned : pos.

Lemma parseOperationDefinition_positioned lexer0 fuel lexer :
  moved lexer0 lexer → positioned lexer0 (parseOperationDefinition fuel) lexer.
Proof. intros. unfold parseOperationDefinition. pos_go. Qed.

Lemma parseFragmentDefinition_positioned lexer0 fuel lexer :
  moved lexer0 lexer → positioned lexer0 (parseFragmentDefinition fuel) lexer.
Proof. intros. unfold parseFragmentDefinition. pos_go. Qed.

Lemma parseDescription_positioned lexer0 lexer :
  moved lexer0 lexer → positioned lexer0 parseDescription lexer.
Proof. intros. unfold parseDescription, peekDescription. pos_go. Qed.
#[local] Hint Resolve parseDescription_positioned : pos.

Lemma parseOperationTypeDefinition_positioned lexer0 lexer :
  moved lexer0 lexer → positioned lexer0 parseOperationTypeDefinition lexer.
Proof. intros. unfold parseOperationTypeDefinition. pos_go. Qed.
#[local] Hint Resolve parseOperationTypeDefinition_positioned : pos.

Lemma parseSchemaDefinition_positioned lexer0 fuel lexer :
  moved lexer0 lexer → positioned lexer0 (parseSchemaDefinition fuel) lexer.
Proof. intros. unfold parseSchemaDefinition. pos_go. Qed.

Lemma parseScalarTypeDefinition_positioned lexer0 fuel lexer :
  moved lexer0 lexer → positioned lexer0 (parseScalarTypeDefinition fuel) lexer.
Proof. intros. unfold parseScalarTypeDefinition. pos_go. Qed.

Lemma parseImplementsInterfaces_positioned lexer0 fuel lexer :
  moved lexer0 lexer → positioned lexer0 (parseImplementsInterfaces fuel) lexer.
Proof. intros. unfold parseImplementsInterfaces. pos_go. Qed.
#[local] Hint Resolve parseImplementsInterfaces_positioned : pos.

Lemma parseInputValueDef_positioned lexer0 fuel lexer :
  moved lexer0 lexer → positioned lexer0 (parseInputValueDef fuel) lexer.
Proof. intros. unfold parseInputValueDef, parseConstValue. pos_go. Qed.
#[local] Hint Resolve parseInputValueDef_positioned : pos.

Lemma parseArgumentDefs_positioned lexer0 fuel lexer :
  moved lexer0 lexer → positioned lexer0 (parseArgumentDefs fuel) lexer.
Proof. intros. unfold parseArgumentDefs. pos_go. Qed.
#[local] Hint Resolve parseArgumentDefs_positioned : pos.

Lemma parseFieldDefinition_positioned lexer0 fuel lexer :
  moved lexer0 lexer → positioned lexer0 (parseFieldDefinition fuel) lexer.
Proof. intros. unfold parseFieldDefinition. pos_go. Qed.
#[local] Hint Resolve parseFieldDefinition_positioned : pos.

Lemma parseFieldDefinitions_positioned lexer0 fuel lexer :
  moved lexer0 lexer → positioned lexer0 (parseFieldDefinitions fuel) lexer.
Proof. intros. unfold parseFieldDefinitions. pos_go. Qed.
#[local] Hint Resolve parseFieldDefinitions_positioned : pos.

Lemma parseObjectTypeDefinition_positioned lexer0 fuel lexer :
  moved lexer0 lexer → positioned lexer0 (parseObjectTypeDefinition fuel) lexer.
Proof. intros. unfold parseObjectTypeDefinition. pos_go. Qed.

Lemma parseInterfaceTypeDefinition_positioned lexer0 fuel lexer :
  moved lexer0 lexer →
  positioned lexer0 (parseInterfaceTypeDefinition fuel) lexer.
Proof. intros. unfold parseInterfaceTypeDefinition. pos_go. Qed.

Lemma parseUnionMembers_positioned lexer0 fuel lexer :
  moved lexer0 lexer → positioned lexer0 (parseUnionMembers fuel) lexer.
Proof.
  intros. unfold parseUnionMembers. pos_go.
Qed.
#[local] Hint Resolve parseUnionMembers_positioned : pos.

Lemma parseUnionTypeDefinition_positioned lexer0 fuel lexer :
  moved lexer0 lexer → positioned lexer0 (parseUnionTypeDefinition fuel) lexer.
Proof. intros. unfold parseUnionTypeDefinition. pos_go. Qed.

Lemma parseEnumValueDefinition_positioned lexer0 fuel lexer :
  moved lexer0 lexer → positioned lexer0 (parseEnumValueDefinition fuel) lexer.
Proof. intros. unfold parseEnumValueDefinition. pos_go. Qed.
#[local] Hint Resolve parseEnumValueDefinition_positioned : pos.

Lemma parseEnumTypeDefinition_positioned lexer0 fuel lexer :
  moved lexer0 lexer → positioned lexer0 (parseEnumTypeDefinition fuel) lexer.
Proof. intros. unfold parseEnumTypeDefinition. pos_go. Qed.

Lemma parseInputObjectTypeDefinition_positioned lexer0 fuel lexer :
  moved lexer0 lexer →
  positioned lexer0 (parseInputObjectTypeDefinition fuel) lexer.
Proof. intros. unfold parseInputObjectTypeDefinition. pos_go. Qed.

Lemma parseObjectTypeExtension_positioned lexer0 fuel lexer :
  moved lexer0 lexer → positioned lexer0 (parseObjectTypeExtension fuel) lexer.
Proof. intros. unfold parseObjectTypeExtension. pos_go. Qed.
#[local] Hint Resolve parseObjectTypeExtension_positioned : pos.

Lemma parseTypeExtension_positioned lexer0 fuel lexer :
  moved lexer0 lexer → positioned lexer0 (parseTypeExtension fuel) lexer.
Proof. intros. unfold parseTypeExtension. pos_go. Qed.

Lemma parseDirectiveLocation_positioned lexer0 lexer :
  moved lexer0 lexer → positioned lexer0 parseDirectiveLocation lexer.
Proof. intros. unfold parseDirectiveLocation. pos_go. Qed.
#[local] Hint Resolve parseDirectiveLocation_positioned : pos.

Lemma parseDirectiveLocations_positioned lexer0 fuel lexer :
  moved lexer0 lexer → positioned lexer0 (parseDirectiveLocations fuel) lexer.
Proof. intros. unfold parseDirectiveLocations. pos_go. Qed.
#[local] Hint Resolve parseDirectiveLocations_positioned : pos.

Lemma parseDirectiveDefinition_positioned lexer0 fuel lexer :
  moved lexer0 lexer → positioned lexer0 (parseDirectiveDefinition fuel) lexer.
Proof. intros. unfold parseDirectiveDefinition. pos_go. Qed.

#[local] Hint Resolve parseOperationDefinition_positioned
  parseFragmentDefinition_positioned parseSchemaDefinition_positioned
  parseScalarTypeDefinition_positioned parseObjectTypeDefinition_positioned
  parseInterfaceTypeDefinition_positioned parseUnionTypeDefinition_positioned
  parseEnumTypeDefinition_positioned parseInputObjectTypeDefinition_positioned
  parseTypeExtension_positioned parseDirectiveDefinition_positioned : pos.

Lemma parseTypeSystemDefinition_positioned lexer0 fuel lexer :
  moved lexer0 lexer → positioned lexer0 (parseTypeSystemDefinition fuel) lexer.
Proof.
  intros. unfold parseTypeSystemDefinition, peekDescription. pos_go.
Qed.
#[local] Hint Resolve parseTypeSystemDefinition_positioned : pos.

Lemma parseDefinition_positioned lexer0 fuel lexer :
  moved lexer0 lexer → positioned lexer0 (parseDefinition fuel) lexer.
Proof. intros. unfold parseDefinition, peekDescription. pos_go. Qed.
#[local] Hint Resolve parseDefinition_positioned : pos.

Lemma parseDocument_positioned lexer0 fuel lexer :
  moved lexer0 lexer → positioned lexer0 (parseDocument fuel) lexer.
Proof. intros. unfold parseDocument. pos_go. Qed.


(** X18. The productions leave the source and the options of the lexer as they
    found them.  The only errors they throw are the error that the lexer
    itself throws and syntax errors on the source of the lexer, and such a
    syntax error always points at the start of a token of the input: the
    token on which the production started or one that follows it. *)
Theorem syntax_errors_point_at_tokens (fuel : nat) (lexer : Lexer) :
  let framed {A} (result : Res A) :=
    match result with
    | Ok _ lexer' =>
        Lexer.source lexer' = Lexer.source lexer ∧
        Lexer.options lexer' = Lexer.options lexer
    | Throw error =>
        error = Lexer.fault lexer ∨
        ∃ token description,
          (token = Lexer.token lexer ∨ token ∈ Lexer.pending lexer) ∧
          error = SyntaxError (Lexer.source lexer) (Token.start token)
                    description
    | OutOfFuel => True
    end in
  framed (parseDocument fuel lexer) ∧
  framed (parseTypeReference fuel lexer) ∧
  (∀ isConst, framed (parseValueLiteral fuel isConst lexer)).
Proof.
  assert (∀ A (p : Parser A),
            positioned lexer p lexer →
            match p lexer with
            | Ok _ lexer' =>
                Lexer.source lexer' = Lexer.source lexer ∧
                Lexer.options lexer' = Lexer.options lexer
            | Throw error =>
                error = Lexer.fault lexer ∨
                ∃ token description,
                  (token = Lexer.token lexer ∨ token ∈ Lexer.pending lexer) ∧
                  error = SyntaxError (Lexer.source lexer) (Token.start token)
                            description
            | OutOfFuel => True
            end) as Hframed.
  { intros A p Hp. unfold wp in Hp. destruct (p lexer) as [a lexer'|e|];
      [|done..].
    destruct Hp as [Henv _]. unfold env in Henv. by simplify_eq. }
  intros framed. split_and!.
  - apply Hframed, parseDocument_positioned, moved_refl.
  - apply Hframed, parseTypeReference_positioned, moved_refl.
  - intros isConst. apply Hframed, parseValueLiteral_positioned, moved_refl.
Qed.
